(** * lymph: the probabilistic inference engine, embedded in Rocq

    A shallow embedding of the parts of [lymph] that the specification's
    testable properties talk about:

    - [helper.py]: [comp_transition_tensor], [change_base],
      [check_unique_names], [check_spsn], [clinical], [pathological],
      [tile_and_repeat], [get_state_idx_matrix], [row_wise_kron];
    - [unilateral.py]: the [Unilateral] model (constructor and graph, state
      list, reachability mask, transition matrix with its cache, modalities,
      observation matrix, data matrix, time evolution, log-likelihood, risk);
    - [system.py]: [BilateralSystem.get_theta], [set_theta] and [_gen_A];
    - [models/bilateral.py]: the edge synchronisation callbacks and
      [Bilateral.likelihood].

    Probabilities are exact rationals ([Q]); equalities between computed
    probabilities are stated up to [Qeq].  numpy arrays are lists, and the
    shape checks numpy performs on assignment and broadcasting are written
    out.  Python exceptions are values of [exn], carried by [result]. *)

From Stdlib Require Import QArith Qabs Qpower Qround Lqa ZArith Lia String Ascii List Sorted.
From stdpp Require Import base list strings gmap.

Open Scope Q_scope.

(** ** Exceptions and the error monad *)

(** [NonTermination] is not a Python exception: it marks a loop of the
    model that ran out of fuel, that is, a Python loop that does not end. *)
Inductive exn : Set :=
  | ValueError | IndexError | KeyError | AttributeError | TypeError
  | ZeroDivisionError | LinAlgError | UnboundLocalError | NonTermination.

Inductive result (A : Type) : Type :=
  | Return (a : A)
  | Raise (e : exn).
Arguments Return {A} a.
Arguments Raise {A} e.

#[global] Instance result_ret : MRet result := fun A a => Return a.
#[global] Instance result_bind : MBind result := fun A B f c =>
  match c with
  | Return a => f a
  | Raise e => Raise e
  end.
#[global] Instance result_fmap : FMap result := fun A B f c =>
  match c with
  | Return a => Return (f a)
  | Raise e => Raise e
  end.

(** [for x in l: acc = body(acc, x)], stopping at the first exception. *)
Fixpoint for_each {A S : Type} (l : list A) (body : S -> A -> result S) (s : S)
  : result S :=
  match l with
  | [] => Return s
  | x :: l' => s' ← body s x; for_each l' body s'
  end.

(** [[f(x) for x in l]], stopping at the first exception. *)
Fixpoint map_result {A B : Type} (f : A -> result B) (l : list A)
  : result (list B) :=
  match l with
  | [] => Return []
  | x :: l' => y ← f x; ys ← map_result f l'; Return (y :: ys)
  end.

(** [enumerate(l)] *)
Definition enumerate {A : Type} (l : list A) : list (nat * A) :=
  zip (seq 0 (length l)) l.

(** [l[i]] for a Python integer [i]: negative indices count from the end. *)
Definition py_index {A : Type} (l : list A) (i : Z) : result A :=
  let n := Z.of_nat (length l) in
  let k := (if i <? 0 then i + n else i)%Z in
  if (k <? 0)%Z then Raise IndexError
  else match l !! Z.to_nat k with
       | Some x => Return x
       | None => Raise IndexError
       end.

(** [a[i]] for an index [i] produced by [range] or [enumerate]. *)
Definition index {A : Type} (l : list A) (i : nat) : result A :=
  match l !! i with
  | Some x => Return x
  | None => Raise IndexError
  end.

(** [np.sum] of a vector, and the vector and matrix products of numpy's [@]
    on operands whose shapes agree. *)
Definition Qsum (l : list Q) : Q := foldr Qplus 0 l.

Definition dot (u v : list Q) : Q := Qsum (zip_with Qmult u v).

Abbreviation matrix := (list (list Q)).

Definition column (M : matrix) (j : nat) : list Q :=
  map (fun row => default 0 (row !! j)) M.

Definition ncols (M : matrix) : nat :=
  match M with
  | [] => 0
  | row :: _ => length row
  end.

(** [v @ M] *)
Definition vec_mat (v : list Q) (M : matrix) : list Q :=
  map (fun j => dot v (column M j)) (seq 0 (ncols M)).

(** [M @ N] *)
Definition mat_mat (M N : matrix) : matrix :=
  map (fun row => vec_mat row N) M.

(** [np.eye(n)] *)
Definition np_eye (n : nat) : matrix :=
  map (fun i => map (fun j => if Nat.eqb i j then 1 else 0) (seq 0 n)) (seq 0 n).

(** ** helper.py *)

Module helper.

Abbreviation tensor := (list (list (list Q))).

(** [tensor[i, j, :] = row]: numpy raises [IndexError] when [i] or [j] is out
    of bounds, broadcasts a row of length one, and raises [ValueError] when the
    row has another length than the last axis. *)
Definition set_row (T : tensor) (i j : nat) (row : list Q) : result tensor :=
  match T !! i with
  | None => Raise IndexError
  | Some M =>
      match M !! j with
      | None => Raise IndexError
      | Some old =>
          if decide (length row = length old) then
            Return (<[i := <[j := row]> M]> T)
          else
            match row with
            | [x] => Return (<[i := <[j := replicate (length old) x]> M]> T)
            | _ => Raise ValueError
            end
      end
  end.

Definition comp_transition_tensor
    (num_parent num_child : nat) (is_tumor_spread is_growth : bool)
    (spread_prob micro_mod : Q) : result tensor :=
  (* [np.stack] needs at least one array *)
  if decide (num_parent = 0%nat) then Raise ValueError
  else
    let tensor := replicate num_parent (np_eye num_child) in
    (* this should allow edges from trinary nodes to binary nodes *)
    let pad := replicate (num_child - 2) 0 in
    if is_tumor_spread then
      set_row tensor 0 0 ([1 - spread_prob; spread_prob] ++ pad)
    else if is_growth then
      set_row tensor 1 1 [0; 1 - spread_prob; spread_prob]
    else if decide (num_parent = 3%nat) then
      let micro_spread := spread_prob * micro_mod in
      tensor ← set_row tensor 1 0 ([1 - micro_spread; micro_spread] ++ pad);
      let macro_spread := spread_prob in
      set_row tensor 2 0 ([1 - macro_spread; macro_spread] ++ pad)
    else
      set_row tensor 1 0 ([1 - spread_prob; spread_prob] ++ pad).

(** *** [change_base] *)

Definition convert_string : list ascii :=
  list_ascii_of_string "0123456789ABCDEF".

(** The loop [while number >= base: ...].  [fuel] bounds the number of
    iterations; for [base >= 2] the loop runs fewer than [number] times. *)
Fixpoint change_base_loop (fuel : nat) (number base : Z) (res : list ascii)
  : result (Z * list ascii) :=
  if (base <=? number)%Z then
    if (base =? 0)%Z then Raise ZeroDivisionError
    else
      match fuel with
      | O => Raise NonTermination
      | S fuel' =>
          c ← py_index convert_string (number mod base);
          change_base_loop fuel' (number / base)%Z base (res ++ [c])
      end
  else Return (number, res).

(** The warning for a [length] that is too short is not part of the value. *)
Definition change_base (number base : Z) (reverse : bool) (length : option Z)
  : result (list ascii) :=
  if (number <? 0)%Z then Raise ValueError
  else if (16 <? base)%Z then Raise ValueError
  else if (base <? 2)%Z then Raise ValueError
  else
    res ← (if (number =? 0)%Z then Return ["0"%char]
           else
             '(number, res) ← change_base_loop (Z.to_nat number) number base [];
             if (0 <? number)%Z
             then c ← py_index convert_string number; Return (res ++ [c])
             else Return res);
    let len := Z.of_nat (List.length res) in
    let length :=
      match length with
      | None => len
      | Some l => if (l <? len)%Z then len else l
      end in
    let pad := replicate (Z.to_nat (length - len)) "0"%char in
    Return (if reverse then res ++ pad else pad ++ rev res).

(** *** [check_unique_names] *)

(** A graph is a dictionary from (kind, name) to the list of the names the
    node is connected to; the connections are lists by their type here. *)
Definition check_unique_names {K : Type} (graph : list ((K * string) * list string))
  : result unit :=
  node_name_set ←
    for_each graph
      (fun (node_name_set : gset string) '((_, node_name), connections) =>
         if decide (length connections ≠ size (list_to_set connections : gset string))
         then Raise ValueError
         else if bool_decide (node_name ∈ connections) then Raise ValueError
         else Return ({[node_name]} ∪ node_name_set))
      ∅;
  if decide (size node_name_set ≠ length graph) then Raise ValueError
  else Return ().

(** *** Confusion matrices *)

Definition check_spsn (spsn : list Q) : result unit :=
  let has_len_2 := bool_decide (length spsn = 2%nat) in
  let is_above_lb := forallb (Qle_bool (1 # 2)) spsn in
  let is_below_ub := forallb (fun x => Qle_bool x 1) spsn in
  if negb has_len_2 || negb is_above_lb || negb is_below_ub then Raise ValueError
  else Return ().

(** [sp, sn = spsn] *)
Definition unpack2 (spsn : list Q) : result (Q * Q) :=
  match spsn with
  | [sp; sn] => Return (sp, sn)
  | _ => Raise ValueError
  end.

Definition clinical (spsn : list Q) : result matrix :=
  check_spsn spsn;;
  '(sp, sn) ← unpack2 spsn;
  Return [[sp; 1 - sp];
          [sp; 1 - sp];
          [1 - sn; sn]].

Definition pathological (spsn : list Q) : result matrix :=
  check_spsn spsn;;
  '(sp, sn) ← unpack2 spsn;
  Return [[sp; 1 - sp];
          [1 - sn; sn];
          [1 - sn; sn]].

(** *** [tile_and_repeat] and [get_state_idx_matrix] *)

(** [np.tile(mat, reps)] for a matrix and a pair of repetitions *)
Definition np_tile {A : Type} (mat : list (list A)) (reps : nat * nat)
  : list (list A) :=
  concat (replicate reps.1 (map (fun row => concat (replicate reps.2 row)) mat)).

(** [np.repeat(mat, k, axis=0)] and [np.repeat(mat, k, axis=1)] *)
Definition np_repeat_rows {A : Type} (mat : list (list A)) (k : nat)
  : list (list A) :=
  flat_map (replicate k) mat.

Definition np_repeat_columns {A : Type} (mat : list (list A)) (k : nat)
  : list (list A) :=
  map (flat_map (replicate k)) mat.

Definition tile_and_repeat {A : Type} (mat : list (list A))
    (tile repeat : nat * nat) : list (list A) :=
  let tiled := np_tile mat tile in
  let repeat_along_0 := np_repeat_rows tiled repeat.1 in
  np_repeat_columns repeat_along_0 repeat.2.

(** [lnl_idx] is a natural number here.  [reshape(num_states, -1)] refuses
    an empty array, and a negative exponent gives a float, which
    [np.repeat] refuses as a number of repetitions. *)
Definition get_state_idx_matrix (lnl_idx num_lnls num_states : nat)
  : result (list (list nat)) :=
  if decide (num_states = 0%nat) then Raise ValueError
  else
    let indices := map (fun i => [i]) (seq 0 num_states) in
    let block := np_tile indices (num_states ^ lnl_idx, num_states ^ num_lnls)%nat in
    if decide (num_lnls < lnl_idx + 1)%nat then Raise TypeError
    else Return (np_repeat_rows block (num_states ^ (num_lnls - lnl_idx - 1))).

(** *** [row_wise_kron] *)

(** [np.kron] of two vectors *)
Definition np_kron (u v : list Q) : list Q :=
  flat_map (fun x => map (Qmult x) v) u.

(** [result[i] = row]: a row of length one is broadcast, another length than
    the width of [result] is refused. *)
Definition assign_row (res : matrix) (i : nat) (row : list Q) : result matrix :=
  match res !! i with
  | None => Raise IndexError
  | Some old =>
      if decide (length row = length old) then Return (<[i := row]> res)
      else match row with
           | [x] => Return (<[i := replicate (length old) x]> res)
           | _ => Raise ValueError
           end
  end.

Definition row_wise_kron (a b : matrix) : result matrix :=
  let res := replicate (length a) (replicate (ncols a * ncols b) 0) in
  for_each (seq 0 (length a))
    (fun res i =>
       ai ← index a i;
       bi ← index b i;
       assign_row res i (np_kron ai bi))
    res.

End helper.

(** A vector is a probability distribution. *)
Definition is_distribution (v : list Q) : Prop :=
  Forall (fun x => 0 <= x <= 1) v /\ Qsum v == 1.

(** Every slice [T[parent_state, child_prev, :]] of a returned tensor of shape
    [(num_parent, num_child, num_child)] is a probability distribution. *)
Definition slices_are_distributions
    (num_parent num_child : nat) (r : result (list matrix)) : Prop :=
  exists T, r = Return T /\
    forall parent_state child_prev,
      (parent_state < num_parent)%nat -> (child_prev < num_child)%nat ->
      exists M row, T !! parent_state = Some M /\ M !! child_prev = Some row /\
        length row = num_child /\ is_distribution row.

(** ** The state-and-error monad of methods

    A method call takes the object before the call and yields a value or an
    exception together with the object after the call: what a method has
    written before it raises stays written. *)

Definition M (S A : Type) : Type := S -> result A * S.

Definition retM {S A : Type} (a : A) : M S A := fun s => (Return a, s).
Definition raiseM {S A : Type} (e : exn) : M S A := fun s => (Raise e, s).
Definition liftM {S A : Type} (r : result A) : M S A := fun s => (r, s).
Definition getM {S : Type} : M S S := fun s => (Return s, s).
Definition modifyM {S : Type} (f : S -> S) : M S unit := fun s => (Return (), f s).
Definition bindM {S A B : Type} (c : M S A) (f : A -> M S B) : M S B :=
  fun s =>
    match c s with
    | (Return a, s') => f a s'
    | (Raise e, s') => (Raise e, s')
    end.

Notation "x <~ c ;; k" := (bindM c (fun x => k))
  (at level 100, c at next level, right associativity).
Notation "c ;;; k" := (bindM c (fun _ => k))
  (at level 100, right associativity).

(** [for x in l: body(x)] as a method body. *)
Fixpoint forM {S A : Type} (l : list A) (body : A -> M S unit) : M S unit :=
  match l with
  | [] => retM ()
  | x :: l' => body x ;;; forM l' body
  end.

(** [for x in l: acc = body(acc, x)] as a method body with a local variable. *)
Fixpoint foldM {S A B : Type} (l : list A) (body : B -> A -> M S B) (b : B)
  : M S B :=
  match l with
  | [] => retM b
  | x :: l' => b' <~ body b x ;; foldM l' body b'
  end.

(** ** unilateral.py *)

Module unilateral.

(** *** [change_base] *)

Definition convertString : list ascii :=
  list_ascii_of_string "0123456789ABCDEF".

(** The loop [while number >= base: ...].  [fuel] bounds the number of
    iterations; for [base >= 2] the loop runs fewer than [number] times. *)
Fixpoint change_base_loop (fuel : nat) (number base : Z) (res : list ascii)
  : result (Z * list ascii) :=
  if (base <=? number)%Z then
    if (base =? 0)%Z then Raise ZeroDivisionError
    else
      match fuel with
      | O => Raise NonTermination
      | S fuel' =>
          c ← py_index convertString (number mod base);
          change_base_loop fuel' (number / base)%Z base (res ++ [c])
      end
  else Return (number, res).

Definition change_base (number base : Z) (reverse : bool) (length : option Z)
  : result (list ascii) :=
  if (16 <? base)%Z then Raise ValueError
  else
    '(number, res) ← change_base_loop (Z.to_nat number) number base [];
    res ← (if (0 <? number)%Z
           then c ← py_index convertString number; Return (res ++ [c])
           else Return res);
    let len := Z.of_nat (List.length res) in
    let length :=
      match length with
      | None => len
      | Some l => if (l <? len)%Z then len else l
      end in
    let pad := replicate (Z.to_nat (length - len)) "0"%char in
    Return (if reverse then res ++ pad else pad ++ rev res).

(** [int(digit)] for a one-character string. *)
Definition int_of_digit (c : ascii) : result Z :=
  let n := nat_of_ascii c in
  if decide (48 <= n <= 57)%nat then Return (Z.of_nat (n - 48))
  else Raise ValueError.

(** [row[:] = values] for a numpy row of the given width: a single value is
    broadcast, another length is refused. *)
Definition np_assign_row {A : Type} (width : nat) (values : list A)
  : result (list A) :=
  if decide (List.length values = width) then Return values
  else match values with
       | [x] => Return (replicate width x)
       | _ => Raise ValueError
       end.

(** *** Nodes and edges *)

Inductive NodeTyp : Set := tumor | lnl.

#[global] Instance NodeTyp_eq_dec : EqDecision NodeTyp.
Proof. solve_decision. Defined.

(** Modelled from the spec: the class [Node] of [lymph/node.py], which is not
    part of the sources.  A node has a kind, a name and an integer state;
    tumor nodes always have state 1, and an LNL starts healthy.  The lists
    [inc] and [out] of a node hold the edges that end and start at it; they
    are read off the edge list of the model ([inc] below). *)
Record Node : Type := mkNode {
  name : string;
  typ : NodeTyp;
  state : Z;
}.

Definition new_Node (name : string) (typ : NodeTyp) : Node :=
  mkNode name typ (match typ with tumor => 1%Z | lnl => 0%Z end).

(** Modelled from the spec: the class [Edge] of [lymph/edge.py], which is
    not part of the sources.  An edge is directed from a parent node to a child
    node and carries the spread probability [t].  Nodes are referred to by
    their position in the node list of the model, which stands for the object
    reference.  The value of [t] before the first assignment is not fixed by
    the spec; it is 0 here. *)
Record Edge : Type := mkEdge {
  start : nat;
  end_ : nat;
  t : Q;
}.

Definition set_t (x : Q) (e : Edge) : Edge := mkEdge (start e) (end_ e) x.

(** Modelled from the spec: [node_trans_prob] of [lymph/node.py], the
    independent-failure convention of section 4.4.  Each incoming edge whose
    parent is involved fails to fire with probability [1 - weight]; the LNL
    stays healthy with the product of these, and becomes involved with one
    minus that.  A parent counts as involved when its state is not 0. *)
Definition node_trans_prob (in_states : list Z) (in_weights : list Q) : list Q :=
  let stay_prob :=
    foldl (fun stay '(state, weight) =>
             if decide (state = 0%Z) then stay else stay * (1 - weight))
          1 (zip in_states in_weights) in
  [stay_prob; 1 - stay_prob].

(** *** The model *)

Record Unilateral : Type := mkUnilateral {
  nodes : list Node;
  edges : list Edge;
  (** the attribute [_A]; [None] when the object has no such attribute *)
  _A : option matrix;
  (** [_modality_tables]: name and table of each modality, in insertion order *)
  _modality_tables : option (list (string * matrix));
  _obs_list : option (list (list Z));
  _B : option matrix;
  _C : option (gmap string (list (list bool)));
  _f : option (gmap string (list Z));
}.

Definition with_nodes (ns : list Node) (m : Unilateral) : Unilateral :=
  mkUnilateral ns (edges m) (_A m) (_modality_tables m) (_obs_list m) (_B m)
    (_C m) (_f m).
Definition with_edges (es : list Edge) (m : Unilateral) : Unilateral :=
  mkUnilateral (nodes m) es (_A m) (_modality_tables m) (_obs_list m) (_B m)
    (_C m) (_f m).
Definition with_A (a : option matrix) (m : Unilateral) : Unilateral :=
  mkUnilateral (nodes m) (edges m) a (_modality_tables m) (_obs_list m) (_B m)
    (_C m) (_f m).
Definition with_modality_tables (x : option (list (string * matrix)))
    (m : Unilateral) : Unilateral :=
  mkUnilateral (nodes m) (edges m) (_A m) x (_obs_list m) (_B m) (_C m) (_f m).
Definition with_obs_list (x : option (list (list Z))) (m : Unilateral)
  : Unilateral :=
  mkUnilateral (nodes m) (edges m) (_A m) (_modality_tables m) x (_B m)
    (_C m) (_f m).
Definition with_B (x : option matrix) (m : Unilateral) : Unilateral :=
  mkUnilateral (nodes m) (edges m) (_A m) (_modality_tables m) (_obs_list m) x
    (_C m) (_f m).
Definition with_C_f (c : option (gmap string (list (list bool))))
    (f : option (gmap string (list Z))) (m : Unilateral) : Unilateral :=
  mkUnilateral (nodes m) (edges m) (_A m) (_modality_tables m) (_obs_list m)
    (_B m) c f.

(** Positions in [l] of the elements that satisfy [p], in order: the lists
    [tumors], [lnls], [base_edges] and [trans_edges] of the constructor hold
    references to the objects of [nodes] and [edges]. *)
Definition positions {A : Type} (p : A -> bool) (l : list A) : list nat :=
  map fst (List.filter (fun x => p (snd x)) (enumerate l)).

Definition is_tumor (n : Node) : bool := bool_decide (typ n = tumor).

Definition not_tumor (n : Node) : bool := negb (is_tumor n).

Definition tumors (m : Unilateral) : list nat := positions is_tumor (nodes m).
Definition lnls (m : Unilateral) : list nat := positions not_tumor (nodes m).

Definition starts_at_tumor (ns : list Node) (e : Edge) : bool :=
  match ns !! start e with
  | Some n => is_tumor n
  | None => false
  end.

Definition base_edges (m : Unilateral) : list nat :=
  positions (starts_at_tumor (nodes m)) (edges m).
Definition starts_at_lnl (ns : list Node) (e : Edge) : bool :=
  negb (starts_at_tumor ns e).
Definition trans_edges (m : Unilateral) : list nat :=
  positions (starts_at_lnl (nodes m)) (edges m).

(** [find_node]: the first node with the given name. *)
Definition find_node (ns : list Node) (nm : string) : option nat :=
  fst <$> list_find (fun n => name n = nm) ns.

(** The graph argument of the constructor: a dictionary from (kind, name) to
    the list of names the node is connected to, in insertion order. *)
Definition graph_dict : Type := list ((NodeTyp * string) * list string).

(** [Edge(start, end)]: Modelled from the spec: an edge needs two nodes of
    the graph; a name that [find_node] does not find gives no node, and the
    constructor of [Edge] refuses it. *)
Definition new_Edge (s e : option nat) : result Edge :=
  match s, e with
  | Some s, Some e => Return (mkEdge s e 0)
  | _, _ => Raise TypeError
  end.

Definition __init__ (graph : graph_dict) : result Unilateral :=
  let nodes := map (fun kv => new_Node (snd (fst kv)) (fst (fst kv))) graph in
  edges ← map_result
    (fun '(key, value) => new_Edge (find_node nodes key) (find_node nodes value))
    (flat_map (fun kv => map (fun value => (snd (fst kv), value)) (snd kv)) graph);
  Return (mkUnilateral nodes edges None None None None None None).

(** [lnl.inc]: the edges that end at a node, in the order of their creation. *)
Definition inc (m : Unilateral) (node : nat) : list Edge :=
  List.filter (fun e => Nat.eqb (end_ e) node) (edges m).

(** [node.state] for a reference [node]. *)
Definition node_state (m : Unilateral) (node : nat) : Z :=
  default 0%Z (state <$> nodes m !! node).

(** *** The [state] property *)

(** Modelled from the spec: the setter of [Node.state].  An LNL takes the
    integer it is given; a tumor node always has state 1. *)
Definition Node_set_state (v : Z) (n : Node) : Node :=
  mkNode (name n) (typ n) (match typ n with lnl => v | tumor => 1%Z end).

Definition get_state (m : Unilateral) : list bool :=
  map (fun node => negb (node_state m node =? 0)%Z) (lnls m).

(** [node.state = int(newstate[i])] *)
Definition set_state_body (newstate : list Z) (inode : nat * nat)
  : M Unilateral unit :=
  let '(i, node) := inode in
  v <~ liftM (index newstate i) ;;
  modifyM (fun m => with_nodes (alter (Node_set_state v) node (nodes m)) m).

Definition set_state (newstate : list Z) : M Unilateral unit :=
  m <~ getM ;;
  if decide (length newstate ≠ length (lnls m)) then raiseM ValueError
  else
    (* only set lnl's states *)
    forM (enumerate (lnls m)) (set_state_body newstate).

(** *** The spread probabilities *)

Definition edge_t (m : Unilateral) (edge : nat) : Q :=
  default 0 (t <$> edges m !! edge).

Definition assign_edge_t (edge : nat) (x : Q) : M Unilateral unit :=
  modifyM (fun m => with_edges (alter (set_t x) edge (edges m)) m).

(** [edge.t = new_probs[i]] *)
Definition set_probs_body (new_probs : list Q) (iedge : nat * nat)
  : M Unilateral unit :=
  let '(i, edge) := iedge in
  x <~ liftM (index new_probs i) ;; assign_edge_t edge x.

Definition base_probs (m : Unilateral) : list Q := map (edge_t m) (base_edges m).

Definition set_base_probs (new_base_probs : list Q) : M Unilateral unit :=
  m <~ getM ;;
  forM (enumerate (base_edges m)) (set_probs_body new_base_probs) ;;;
  (* if hasattr(self, "_A"): del self._A *)
  modifyM (with_A None).

Definition trans_probs (m : Unilateral) : list Q := map (edge_t m) (trans_edges m).

Definition set_trans_probs (new_trans_probs : list Q) : M Unilateral unit :=
  m <~ getM ;;
  forM (enumerate (trans_edges m)) (set_probs_body new_trans_probs) ;;;
  modifyM (with_A None).

Definition spread_probs (m : Unilateral) : list Q := base_probs m ++ trans_probs m.

Definition set_spread_probs (new_spread_probs : list Q) : M Unilateral unit :=
  m <~ getM ;;
  let num_base_edges := length (base_edges m) in
  set_base_probs (take num_base_edges new_spread_probs) ;;;
  set_trans_probs (drop num_base_edges new_spread_probs).

(** *** [comp_transition_prob] *)

(** The body of the loop over the LNLs: a healthy LNL contributes the
    probability of its new state, an involved one contributes nothing. *)
Definition transition_factor (m : Unilateral) (newstate : list Z)
    (res : Q) (ilnl : nat * nat) : result Q :=
  let '(i, node) := ilnl in
  if decide (node_state m node = 0%Z) then
    let in_states := map (fun edge => node_state m (start edge)) (inc m node) in
    let in_weights := map t (inc m node) in
    s ← index newstate i;
    p ← py_index (node_trans_prob in_states in_weights) s;
    Return (res * p)
  else Return res.

Definition comp_transition_prob (newstate : list Z) (acquire : bool)
  : M Unilateral Q :=
  m <~ getM ;;
  res <~ liftM (for_each (enumerate (lnls m)) (transition_factor m newstate) 1) ;;
  (if acquire then set_state newstate else retM ()) ;;;
  retM res.

(** *** State list and mask

    [_state_list] and [_mask] are computed once and kept; both depend on the
    number of LNLs only, which never changes, so the properties are functions
    of the model. *)

Definition state_list (m : Unilateral) : result (list (list Z)) :=
  let L := length (lnls m) in
  map_result
    (fun i =>
       digits ← change_base (Z.of_nat i) 2 false (Some (Z.of_nat L));
       row ← map_result int_of_digit digits;
       np_assign_row L row)
    (seq 0 (2 ^ L)).

(** [np.any(np.greater(a, b))] for rows of one length. *)
Definition np_any_greater (a b : list Z) : bool :=
  existsb (fun xy => (snd xy <? fst xy)%Z) (zip a b).

(** [mask[i]] lists, in increasing order, the [j] with no component of
    [state_list[i]] greater than that of [state_list[j]]. *)
Definition mask (m : Unilateral) : result (list (list nat)) :=
  sl ← state_list m;
  Return (map (fun si => positions (fun sj => negb (np_any_greater si sj)) sl) sl).

(** *** The transition matrix *)

Definition np_zeros2 (r c : nat) : matrix := replicate r (replicate c 0).

(** [a[i, j] = x] *)
Definition set_entry (a : matrix) (i j : nat) (x : Q) : result matrix :=
  match a !! i with
  | Some row =>
      if decide (j < length row)%nat then Return (<[i := <[j := x]> row]> a)
      else Raise IndexError
  | None => Raise IndexError
  end.

(** [self._A[i,j] = self.comp_transition_prob(self.state_list[j])] *)
Definition _gen_A_entry (i j : nat) : M Unilateral unit :=
  m <~ getM ;;
  sl <~ liftM (state_list m) ;;
  sj <~ liftM (index sl j) ;;
  p <~ comp_transition_prob sj false ;;
  m' <~ getM ;;
  match _A m' with
  | Some a => a' <~ liftM (set_entry a i j p) ;; modifyM (with_A (Some a'))
  | None => raiseM AttributeError
  end.

(** The body of the loop over the rows: take the state of the row, then
    fill the entries of the row that the mask lists. *)
Definition _gen_A_row (istate : nat * list Z) : M Unilateral unit :=
  let '(i, state) := istate in
  set_state state ;;;
  m <~ getM ;;
  mk <~ liftM (mask m) ;;
  row_mask <~ liftM (match mk !! i with
                     | Some r => Return r
                     | None => Raise KeyError
                     end) ;;
  forM row_mask (_gen_A_entry i).

Definition _gen_A : M Unilateral unit :=
  m <~ getM ;;
  let n := (2 ^ length (lnls m))%nat in
  match _A m with
  | None => modifyM (with_A (Some (np_zeros2 n n)))
  | Some _ => retM ()
  end ;;;
  m <~ getM ;;
  sl <~ liftM (state_list m) ;;
  forM (enumerate sl) _gen_A_row.

(** The property [A]: the stored matrix, computed first when there is none. *)
Definition A : M Unilateral matrix :=
  m <~ getM ;;
  match _A m with
  | Some a => retM a
  | None =>
      _gen_A ;;;
      m' <~ getM ;;
      match _A m' with
      | Some a => retM a
      | None => raiseM AttributeError
      end
  end.

(** *** Time evolution *)

(** [v @ a] for a vector and a matrix: numpy refuses operands whose shapes
    do not agree. *)
Definition np_vec_mat (v : list Q) (a : matrix) : result (list Q) :=
  if decide (length v = length a) then Return (vec_mat v a)
  else Raise ValueError.

Definition is_square (a : matrix) : bool :=
  forallb (fun row => Nat.eqb (length row) (length a)) a.

(** The power of a square matrix with a natural exponent.  numpy evaluates it
    by repeated squaring, which is the same matrix in exact arithmetic. *)
Fixpoint mat_pow_nat (a : matrix) (n : nat) : matrix :=
  match n with
  | O => np_eye (length a)
  | S n' => mat_mat (mat_pow_nat a n') a
  end.

(** [_evolve] returns the state vector when [t_last] is [None], and else the
    matrix of the state vectors of all time steps. *)
Definition evolved (t_last : option Z) : Type :=
  match t_last with
  | None => list Q
  | Some _ => matrix
  end.

Section numpy.

(** [numpy.linalg.inv], used by [matrix_power] for a negative exponent; it
    raises [LinAlgError] on a singular matrix. *)
Variable np_linalg_inv : matrix -> result matrix.

(** [numpy.linalg.matrix_power] *)
Definition mat_pow (a : matrix) (n : Z) : result matrix :=
  if negb (is_square a) then Raise LinAlgError
  else if (n <? 0)%Z then
    a' ← np_linalg_inv a; Return (mat_pow_nat a' (Z.to_nat (- n)))
  else Return (mat_pow_nat a (Z.to_nat n)).

(** The loop [for i in range(len_time_range)]: the rows already written to
    [state_probs] and the current [state]. *)
Fixpoint evolve_loop (n : nat) (state : list Q) (state_probs : matrix)
  : M Unilateral (list Q * matrix) :=
  match n with
  | O => retM (state, state_probs)
  | S n' =>
      a <~ A ;;
      state' <~ liftM (np_vec_mat state a) ;;
      evolve_loop n' state' (state_probs ++ [state])
  end.

Definition _evolve (t_first : Z) (t_last : option Z)
  : M Unilateral (evolved t_last) :=
  (* All healthy state at beginning *)
  m <~ getM ;;
  sl <~ liftM (state_list m) ;;
  start_state <~ liftM (match replicate (length sl) 0 with
                        | [] => Raise IndexError
                        | _ :: zeros => Return (1 :: zeros)
                        end) ;;
  (* compute involvement at first time-step *)
  a <~ A ;;
  p <~ liftM (mat_pow a t_first) ;;
  state <~ liftM (np_vec_mat start_state p) ;;
  match t_last as o return M Unilateral (evolved o) with
  | None => retM state
  | Some t_last =>
      let len_time_range := (t_last - t_first)%Z in
      if (len_time_range <? 0)%Z then raiseM ValueError
      else
        r <~ evolve_loop (Z.to_nat len_time_range) state [] ;;
        retM (snd r ++ [fst r])
  end.

End numpy.

(** *** [_spread_probs_are_valid] *)

Definition Qgreater (x y : Q) : bool := negb (Qle_bool x y).

(** The entries are rationals: a [nan] entry, for which both comparisons of
    the code are false, has no counterpart here. *)
Definition _spread_probs_are_valid (new_spread_probs : list Q) (m : Unilateral)
  : result bool :=
  if decide (length new_spread_probs ≠ length (spread_probs m)) then
    Raise ValueError
  else if existsb (Qgreater 0) new_spread_probs then Return false
  else if existsb (fun x => Qgreater x 1) new_spread_probs then Return false
  else Return true.

(** *** Modalities and observations *)

(** The body of the loop of the [modalities] setter, for one item of the
    dictionary: names are strings by their type here. *)
Definition set_modality (item : string * list Q) : M Unilateral unit :=
  let '(mod_, spsn) := item in
  let has_len_2 := bool_decide (length spsn = 2%nat) in
  let is_above_lb := forallb (Qle_bool (1 # 2)) spsn in
  let is_below_ub := forallb (fun x => Qle_bool x 1) spsn in
  if negb has_len_2 || negb is_above_lb || negb is_below_ub then
    raiseM ValueError
  else
    match spsn with
    | [sp; sn] =>
        modifyM (fun m =>
          with_modality_tables
            (Some (default [] (_modality_tables m)
                   ++ [(mod_, [[sp; 1 - sn]; [1 - sp; sn]])])) m)
    | _ => raiseM ValueError
    end.

(** The [modalities] setter; the dictionary it is given has distinct keys. *)
Definition set_modalities (modality_spsn : list (string * list Q))
  : M Unilateral unit :=
  modifyM (with_modality_tables (Some [])) ;;;
  forM modality_spsn set_modality.

(** [self._modality_tables], an [AttributeError] when no modality was set. *)
Definition modality_tables : M Unilateral (list (string * matrix)) :=
  m <~ getM ;;
  match _modality_tables m with
  | Some tables => retM tables
  | None => raiseM AttributeError
  end.

(** [a[i, j] = x] for an integer array *)
Definition set_entry_Z (a : list (list Z)) (i j : nat) (x : Z)
  : result (list (list Z)) :=
  match a !! i with
  | Some row =>
      if decide (j < length row)%nat then Return (<[i := <[j := x]> row]> a)
      else Raise IndexError
  | None => Raise IndexError
  end.

(** [self._obs_list[i,(j*n_obs)+k] = int(tmp[k*len(self.lnls)+j])] *)
Definition _gen_obs_list_entry (n_obs L i : nat) (tmp : list ascii)
    (jk : nat * nat) : M Unilateral unit :=
  let '(j, k) := jk in
  c <~ liftM (index tmp (k * L + j)) ;;
  d <~ liftM (int_of_digit c) ;;
  m <~ getM ;;
  match _obs_list m with
  | Some ol =>
      ol' <~ liftM (set_entry_Z ol i (j * n_obs + k) d) ;;
      modifyM (with_obs_list (Some ol'))
  | None => raiseM AttributeError
  end.

(** The pairs [(j, k)] in the order of [for j in range(a): for k in range(b)]. *)
Definition nested_range (a b : nat) : list (nat * nat) :=
  flat_map (fun j => map (fun k => (j, k)) (seq 0 b)) (seq 0 a).

Definition _gen_obs_list_row (n_obs L i : nat) : M Unilateral unit :=
  tmp <~ liftM (change_base (Z.of_nat i) 2 false (Some (Z.of_nat (n_obs * L)))) ;;
  forM (nested_range L n_obs) (_gen_obs_list_entry n_obs L i tmp).

Definition _gen_obs_list : M Unilateral unit :=
  tables <~ modality_tables ;;
  let n_obs := length tables in
  m <~ getM ;;
  let L := length (lnls m) in
  match _obs_list m with
  | None =>
      modifyM (with_obs_list
                 (Some (replicate (2 ^ (n_obs * L)) (replicate (n_obs * L) 0%Z))))
  | Some _ => retM ()
  end ;;;
  forM (seq 0 (2 ^ (n_obs * L))) (_gen_obs_list_row n_obs L).

(** The property [obs_list] *)
Definition obs_list : M Unilateral (list (list Z)) :=
  m <~ getM ;;
  match _obs_list m with
  | Some ol => retM ol
  | None =>
      _gen_obs_list ;;;
      m' <~ getM ;;
      match _obs_list m' with
      | Some ol => retM ol
      | None => raiseM AttributeError
      end
  end.

(** Modelled from the spec: [Node.obs_prob] of [lymph/node.py], the
    probability of an observation given the state of the node, read from the
    table of the modality, whose rows are the observations and whose columns
    are the states. *)
Definition Node_obs_prob (node_st : Z) (obs : Z) (obstable : matrix) : result Q :=
  row ← py_index obstable obs;
  py_index row node_st.

(** [a[lo:hi]] for non-negative bounds *)
Definition slice {A : Type} (a : list A) (lo hi : nat) : list A :=
  take (hi - lo) (drop lo a).

(** The dictionary lookup [d[key]] in an insertion-ordered dictionary. *)
Definition dict_get {A : Type} (d : list (string * A)) (key : string) : result A :=
  match list_find (fun kv => fst kv = key) d with
  | Some (_, kv) => Return (snd kv)
  | None => Raise KeyError
  end.

Definition comp_observation_prob (m : Unilateral)
    (diagnoses_dict : list (string * list Z)) : result Q :=
  for_each diagnoses_dict
    (fun prob '(modality, diagnoses) =>
       if decide (length diagnoses ≠ length (lnls m)) then Raise ValueError
       else
         for_each (enumerate (lnls m))
           (fun prob '(i, node) =>
              obs ← index diagnoses i;
              tables ← match _modality_tables m with
                       | Some tables => Return tables
                       | None => Raise AttributeError
                       end;
              obstable ← dict_get tables modality;
              p ← Node_obs_prob (node_state m node) obs obstable;
              Return (prob * p))
           prob)
    1.

(** *** The observation matrix *)

(** [self._B[i,j] = self.comp_observation_prob(diagnoses_dict)] *)
Definition _gen_B_entry (n_lnl i : nat) (jobs : nat * list Z)
  : M Unilateral unit :=
  let '(j, obs) := jobs in
  tables <~ modality_tables ;;
  let diagnoses_dict :=
    map (fun kt => (fst (snd kt),
                    slice obs (n_lnl * fst kt) (n_lnl * (fst kt + 1))))
        (enumerate tables) in
  m <~ getM ;;
  p <~ liftM (comp_observation_prob m diagnoses_dict) ;;
  match _B m with
  | Some b => b' <~ liftM (set_entry b i j p) ;; modifyM (with_B (Some b'))
  | None => raiseM AttributeError
  end.

Definition _gen_B_row (n_lnl : nat) (istate : nat * list Z) : M Unilateral unit :=
  let '(i, state) := istate in
  set_state state ;;;
  ol <~ obs_list ;;
  forM (enumerate ol) (_gen_B_entry n_lnl i).

Definition _gen_B : M Unilateral unit :=
  m <~ getM ;;
  let n_lnl := length (lnls m) in
  match _B m with
  | None =>
      sl <~ liftM (state_list m) ;;
      ol <~ obs_list ;;
      modifyM (with_B (Some (np_zeros2 (length sl) (length ol))))
  | Some _ => retM ()
  end ;;;
  m <~ getM ;;
  sl <~ liftM (state_list m) ;;
  forM (enumerate sl) (_gen_B_row n_lnl).

(** The property [B] *)
Definition B : M Unilateral matrix :=
  m <~ getM ;;
  match _B m with
  | Some b => retM b
  | None =>
      _gen_B ;;;
      m' <~ getM ;;
      match _B m' with
      | Some b => retM b
      | None => raiseM AttributeError
      end
  end.

(** *** The data matrix *)

(** [np.all(np.equal(full, partial, where=<partial is not missing>,
    out=np.ones_like(partial, dtype=bool)))]: the result has the shape of
    [partial]; [full] must have the same length or length one. *)
Definition matches (p : option bool) (v : Z) : bool :=
  match p with
  | None => true
  | Some b => (Z.b2z b =? v)%Z
  end.

Definition np_all_equal_where (full : list Z) (partial : list (option bool))
  : result bool :=
  if decide (length full = length partial) then
    Return (forallb id (zip_with matches partial full))
  else
    match full with
    | [v] => Return (forallb (fun p => matches p v) partial)
    | _ => Raise ValueError
    end.

(** The order in which [np.unique] sorts boolean columns: lexicographic from
    the first row on, [False] before [True]. *)
Fixpoint lex_compare (c d : list bool) : comparison :=
  match c, d with
  | [], [] => Eq
  | [], _ :: _ => Lt
  | _ :: _, [] => Gt
  | x :: c', y :: d' =>
      match x, y with
      | false, true => Lt
      | true, false => Gt
      | _, _ => lex_compare c' d'
      end
  end.

Fixpoint insert_count (c : list bool) (acc : list (list bool * Z))
  : list (list bool * Z) :=
  match acc with
  | [] => [(c, 1%Z)]
  | (d, n) :: acc' =>
      match lex_compare c d with
      | Eq => (d, (n + 1)%Z) :: acc'
      | Lt => (c, 1%Z) :: acc
      | Gt => (d, n) :: insert_count c acc'
      end
  end.

(** [np.unique(tmp_C, axis=1, return_counts=True)] on the list of columns:
    the distinct columns in sorted order, each with its number of
    occurrences. *)
Definition np_unique (cols : list (list bool)) : list (list bool * Z) :=
  foldr insert_count [] cols.

(** The rows of the array with the given columns and number of rows. *)
Definition rows_of_columns {A : Type} (d : A) (nrows : nat) (cols : list (list A))
  : list (list A) :=
  map (fun j => map (fun col => default d (col !! j)) cols) (seq 0 nrows).

(** The columns of an array. *)
Definition columns_of_rows {A : Type} (d : A) (rows : list (list A))
  : list (list A) :=
  map (fun k => map (fun row => default d (row !! k)) rows)
      (seq 0 (match rows with [] => 0 | r :: _ => length r end)).

Definition count_true (col : list bool) : nat := length (List.filter id col).

Definition _gen_C (table : list (list (option bool))) (t_stage : option string)
    (delete_ones aggregate_duplicates : bool) : M Unilateral unit :=
  m <~ getM ;;
  match _C m, _f m with
  | Some _, Some _ => retM ()
  | _, _ => modifyM (with_C_f (Some ∅) (Some ∅))
  end ;;;
  (* T-stage is not provided, when mode is "BN". *)
  let t_stage := default "BN"%string t_stage in
  ol <~ obs_list ;;
  (* one column per patient: whether all not missing observations match *)
  tmp_C <~ liftM (map_result
                    (fun row => map_result (fun obs => np_all_equal_where obs row) ol)
                    table) ;;
  let tmp_C :=
    if delete_ones
    then List.filter (fun col => negb (Nat.eqb (count_true col) (length ol))) tmp_C
    else tmp_C in
  let '(tmp_C, tmp_f) :=
    if aggregate_duplicates
    then (map fst (np_unique tmp_C), map snd (np_unique tmp_C))
    else (tmp_C, replicate (length table) 1%Z) in
  modifyM (fun m =>
    with_C_f (Some (<[t_stage := rows_of_columns false (length ol) tmp_C]>
                      (default ∅ (_C m))))
             (Some (<[t_stage := tmp_f]> (default ∅ (_f m)))) m).

(** The properties [C] and [f] *)
Definition C : M Unilateral (gmap string (list (list bool))) :=
  m <~ getM ;;
  match _C m with
  | Some c => retM c
  | None => raiseM AttributeError  (* No data was loaded yet. *)
  end.

Definition f : M Unilateral (gmap string (list Z)) :=
  m <~ getM ;;
  match _f m with
  | Some c => retM c
  | None => raiseM AttributeError
  end.

(** *** Loading data *)

(** The patient table: one entry per patient, with the T-stage and the row of
    the diagnoses under the columns of the registered modalities ([True],
    [False] or missing), as pandas selects them. *)
Definition patient_data : Type := list (string * list (option bool)).

Definition load_data_stage (data : patient_data)
    (delete_ones aggregate_duplicates : bool) (stage : string)
  : M Unilateral unit :=
  _ <~ modality_tables ;;
  let table := map snd (List.filter (fun pr => bool_decide (fst pr = stage)) data) in
  _gen_C table (Some stage) delete_ones aggregate_duplicates.

Definition load_data (data : patient_data) (t_stages : option (list string))
    (modality_spsn : option (list (string * list Q))) (mode : string)
    (delete_ones aggregate_duplicates : bool) : M Unilateral unit :=
  match modality_spsn with
  | Some spsn => set_modalities spsn
  | None =>
      m <~ getM ;;
      match _modality_tables m with
      | None | Some [] =>
          raiseM ValueError  (* No diagnostic modalities have been defined yet! *)
      | Some _ => retM ()
      end
  end ;;;
  (* For the Hidden Markov Model *)
  if decide (mode = "HMM"%string) then
    let t_stages :=
      match t_stages with
      | Some ts => ts
      | None => remove_dups (map fst data)
      end in
    forM t_stages (load_data_stage data delete_ones aggregate_duplicates)
  (* For the Bayesian Network *)
  else if decide (mode = "BN"%string) then
    _ <~ modality_tables ;;
    _gen_C (map snd data) None delete_ones aggregate_duplicates
  else retM ().

(** *** The log-likelihood *)

(** [np.around(x).astype(int)]: to the nearest integer, halves to the even
    one.  The integers are unbounded here; the code has 64 bits, and no
    rounded value for an infinite or [nan] time. *)
Definition np_around (q : Q) : Z :=
  let fl := Qfloor q in
  match Qcompare (q - inject_Z fl) (1 # 2) with
  | Lt => fl
  | Gt => (fl + 1)%Z
  | Eq => if Z.even fl then fl else (fl + 1)%Z
  end.

(** The value of the log-likelihood.  The floating point number
    [sum_stage f[stage] @ np.log(p[stage])] is represented by its operands,
    the pairs of [f[stage]] and [p[stage]]; [-np.inf] is [neg_inf]. *)
Inductive llh : Type :=
  | neg_inf
  | log_sum (terms : list (list Z * list Q)).

(** Modelled from the spec: [Node.bn_prob] of [lymph/node.py], the local
    conditional probability of the state of an LNL given the states of its
    parents, under one-shot independent firing of the incoming edges
    (section 4.7). *)
Definition Node_bn_prob (m : Unilateral) (node : nat) : result Q :=
  py_index
    (node_trans_prob (map (fun edge => node_state m (start edge)) (inc m node))
                     (map t (inc m node)))
    (node_state m node).

(** [a[i] *= node.bn_prob()] *)
Definition bn_factor (i : nat) (a : list Q) (node : nat) : M Unilateral (list Q) :=
  m <~ getM ;;
  p <~ liftM (Node_bn_prob m node) ;;
  ai <~ liftM (index a i) ;;
  retM (<[i := ai * p]> a).

(** The probabilities of the states under the Bayesian network. *)
Definition bn_state_probs : M Unilateral (list Q) :=
  m <~ getM ;;
  sl <~ liftM (state_list m) ;;
  foldM (enumerate sl)
    (fun a istate =>
       set_state (snd istate) ;;;
       m' <~ getM ;;
       foldM (lnls m') (bn_factor (fst istate)) a)
    (replicate (length sl) 1).

Definition b2q (b : bool) : Q := if b then 1 else 0.

(** [f[stage] @ np.log(p)]: the operands, when their lengths agree. *)
Definition log_term (fs : list Z) (p : list Q) : result (list Z * list Q) :=
  if decide (length fs = length p) then Return (fs, p) else Raise ValueError.

(** [d[key]] for a dictionary. *)
Definition getitem {A : Type} (d : gmap string A) (key : string) : result A :=
  match d !! key with
  | Some x => Return x
  | None => Raise KeyError
  end.

Section likelihood.

Variable np_linalg_inv : matrix -> result matrix.

(** The loop over the T-stages with explicit diagnose times; [None] when the
    method returns [-np.inf] from inside the loop. *)
Fixpoint diag_times_loop (stages : list string) (diag_times : gmap string Q)
    (max_t : option Z) (state_probs : gmap string (list Q))
  : M Unilateral (option (gmap string (list Q))) :=
  match stages with
  | [] => retM (Some state_probs)
  | stage :: stages' =>
      dt <~ liftM (getitem diag_times stage) ;;
      let diag_time := np_around dt in
      mt <~ liftM (match max_t with
                   | Some mt => Return mt
                   | None => Raise TypeError
                   end) ;;
      if (mt <? diag_time)%Z then retM None
      else
        state <~ _evolve np_linalg_inv diag_time None ;;
        diag_times_loop stages' diag_times max_t (<[stage := state]> state_probs)
  end.

(** [state_probs[stage] = time_dists[stage] @ self._evolve(t_last=max_t)] *)
Definition time_dists_step (time_dists : gmap string (list Q)) (max_t : Z)
    (state_probs : gmap string (list Q)) (stage : string)
  : M Unilateral (gmap string (list Q)) :=
  td <~ liftM (getitem time_dists stage) ;;
  ev <~ _evolve np_linalg_inv 0 (Some max_t) ;;
  state <~ liftM (np_vec_mat td ev) ;;
  retM (<[stage := state]> state_probs).

(** [p = state_probs[stage] @ self.B @ self.C[stage]] and
    [llh += self.f[stage] @ np.log(p)] *)
Definition llh_step (state_probs : gmap string (list Q))
    (terms : list (list Z * list Q)) (stage : string)
  : M Unilateral (list (list Z * list Q)) :=
  sp <~ liftM (getitem state_probs stage) ;;
  b <~ B ;;
  pb <~ liftM (np_vec_mat sp b) ;;
  c <~ C ;;
  cs <~ liftM (getitem c stage) ;;
  p <~ liftM (np_vec_mat pb (map (map b2q) cs)) ;;
  fd <~ f ;;
  fs <~ liftM (getitem fd stage) ;;
  term <~ liftM (log_term fs p) ;;
  retM (terms ++ [term]).

Definition log_likelihood (spread_probs : list Q)
    (t_stages : option (list string)) (diag_times : option (gmap string Q))
    (max_t : option Z) (time_dists : option (gmap string (list Q)))
    (mode : string) : M Unilateral llh :=
  m <~ getM ;;
  valid <~ liftM (_spread_probs_are_valid spread_probs m) ;;
  if negb valid then retM neg_inf
  else
    set_spread_probs spread_probs ;;;
    (* hidden Markov model *)
    if decide (mode = "HMM"%string) then
      t_stages <~ match t_stages with
                  | Some ts => retM ts
                  | None =>
                      (* [self.f_dict]: the object has no such attribute *)
                      raiseM AttributeError
                  end ;;
      state_probs <~
        match diag_times, time_dists with
        | Some diag_times, _ =>
            if decide (size diag_times ≠ length t_stages) then raiseM ValueError
            else diag_times_loop t_stages diag_times max_t ∅
        | None, Some time_dists =>
            if decide (size time_dists ≠ length t_stages) then raiseM ValueError
            else
              (* subtract 1, to also consider healthy starting state (t = 0) *)
              stage0 <~ liftM (index t_stages 0) ;;
              td0 <~ liftM (getitem time_dists stage0) ;;
              let max_t := (Z.of_nat (length td0) - 1)%Z in
              sp <~ foldM t_stages (time_dists_step time_dists max_t) ∅ ;;
              retM (Some sp)
        | None, None => raiseM ValueError
        end ;;
      match state_probs with
      | None => retM neg_inf
      | Some state_probs =>
          terms <~ foldM t_stages (llh_step state_probs) [] ;;
          retM (log_sum terms)
      end
    (* likelihood for the Bayesian network *)
    else if decide (mode = "BN"%string) then
      a <~ bn_state_probs ;;
      b <~ B ;;
      ab <~ liftM (np_vec_mat a b) ;;
      fd <~ f ;;
      fs <~ liftM (getitem fd "BN"%string) ;;
      c <~ C ;;
      cs <~ liftM (getitem c "BN"%string) ;;
      p <~ liftM (np_vec_mat ab (map (map b2q) cs)) ;;
      term <~ liftM (log_term fs p) ;;
      retM (log_sum [term])
    else raiseM UnboundLocalError.

End likelihood.

(** *** Risk *)

(** The large diagnose vector built from the diagnoses of the modalities; a
    modality without a diagnosis contributes one missing entry per LNL. *)
Definition diagnose_vector (tables : list (string * matrix))
    (diagnoses : gmap string (list (option bool))) (n_lnl : nat)
  : list (option bool) :=
  flat_map (fun mt => match diagnoses !! fst mt with
                      | Some d => d
                      | None => replicate n_lnl None
                      end)
           tables.

(** [np.all(np.equal(partial, full, where=(partial != None),
    out=np.ones_like(full, dtype=bool)))]: the result has the shape of
    [full]; [partial] must have the same length or length one. *)
Definition np_all_equal_where_full (partial : list (option bool)) (full : list Z)
  : result bool :=
  if decide (length partial = length full) then
    Return (forallb id (zip_with matches partial full))
  else
    match partial with
    | [p] => Return (forallb (matches p) full)
    | _ => Raise ValueError
    end.

(** [c[i] = v] for a vector *)
Definition set_item {A : Type} (c : list A) (i : nat) (v : A) : result (list A) :=
  if decide (i < length c)%nat then Return (<[i := v]> c) else Raise IndexError.

(** [cZ[i] = np.all(np.equal(obs, complete_obs, ...))] *)
Definition encode_step (obs : list (option bool)) (cZ : list bool)
    (iobs : nat * list Z) : result (list bool) :=
  v ← np_all_equal_where (snd iobs) obs;
  set_item cZ (fst iobs) v.

(** The vector [cZ] that [risk] builds to marginalize over the complete
    observations that agree with the diagnosis. *)
Definition comp_encoding (obs : list (option bool)) (len_pZ : nat)
  : M Unilateral (list bool) :=
  ol <~ obs_list ;;
  liftM (for_each (enumerate ol) (encode_step obs) (replicate len_pZ false)).

(** [cX[i] = np.all(np.equal(inv, state, ...))] *)
Definition involvement_step (inv : list (option bool)) (cX : list bool)
    (istate : nat * list Z) : result (list bool) :=
  v ← np_all_equal_where_full inv (snd istate);
  set_item cX (fst istate) v.

(** [v / d] for a vector and a number: numpy gives [nan] or an infinity, no
    rational, in every entry when [d] is 0; this is [None]. *)
Definition np_divide (v : list Q) (d : Q) : option (list Q) :=
  if Qeq_bool d 0 then None else Some (map (fun x => x / d) v).

(** [risk] returns the vector over the hidden states when [inv] is [None], and
    else one number. *)
Definition risk_result (inv : option (list (option bool))) : Type :=
  match inv with
  | None => option (list Q)
  | Some _ => option Q
  end.

Section risk.

Variable np_linalg_inv : matrix -> result matrix.

Definition risk (spread_probs : option (list Q))
    (inv : option (list (option bool)))
    (diagnoses : gmap string (list (option bool)))
    (diag_time : option Z) (time_dist : option (list Q)) (mode : string)
  : M Unilateral (risk_result inv) :=
  (* assign spread_probs to system or use the currently set one *)
  match spread_probs with
  | Some sp => set_spread_probs sp
  | None => retM ()
  end ;;;
  (* create one large diagnose vector from the individual modalitie's diagnoses *)
  tables <~ modality_tables ;;
  m <~ getM ;;
  let obs := diagnose_vector tables diagnoses (length (lnls m)) in
  (* vector of probabilities of arriving in state x, marginalized over time *)
  pX <~ (if decide (mode = "HMM"%string) then
           match diag_time, time_dist with
           | Some diag_time, _ => _evolve np_linalg_inv diag_time None
           | None, Some time_dist =>
               let max_t := Z.of_nat (length time_dist) in
               state_probs <~ _evolve np_linalg_inv 0 (Some (max_t - 1)%Z) ;;
               liftM (np_vec_mat time_dist state_probs)
           | None, None => raiseM ValueError
           end
         else if decide (mode = "BN"%string) then bn_state_probs
         else (_ <~ B ;; raiseM UnboundLocalError)) ;;
  (* P(z,x) = P(z|x)P(x) for all combinations of x and z *)
  b <~ B ;;
  pZX <~ liftM (if decide (length pX = length b)
                then Return (map (fun z => zip_with Qmult (column b z) pX)
                                 (seq 0 (ncols b)))
                else Raise ValueError) ;;
  (* vector of probabilities for seeing a diagnose z *)
  b' <~ B ;;
  pZ <~ liftM (np_vec_mat pX b') ;;
  (* build vector to marginalize over diagnoses *)
  cZ <~ comp_encoding obs (length pZ) ;;
  (* vector of probabilities for all possible involvements given the
     specified diagnosis *)
  num <~ liftM (np_vec_mat (map b2q cZ) pZX) ;;
  let res := np_divide num (dot (map b2q cZ) pZ) in
  match inv as o return M Unilateral (risk_result o) with
  | None => retM res
  | Some inv =>
      (* marginalize the resulting vector of hidden states to match the
         involvement of interest *)
      m' <~ getM ;;
      sl <~ liftM (state_list m') ;;
      cX <~ liftM (for_each (enumerate sl) (involvement_step inv)
                     (replicate (length num) false)) ;;
      match res with
      | None => retM None
      | Some res =>
          if decide (length cX = length res)
          then retM (Some (dot (map b2q cX) res))
          else raiseM ValueError
      end
  end.

End risk.

(** *** The [modalities] getter *)

(** [table[i, j]] *)
Definition table_item (table : matrix) (i j : nat) : result Q :=
  row ← index table i; index row j.

(** The getter of [modalities]: specificity and sensitivity of every
    modality, read from the diagonal of its table; an empty dictionary (and
    a warning) when no modality was set. *)
Definition modalities (m : Unilateral) : result (list (string * list Q)) :=
  match _modality_tables m with
  | Some tables =>
      map_result (fun '(mod_, table) =>
                    sp ← table_item table 0 0;
                    sn ← table_item table 1 1;
                    Return (mod_, [sp; sn]))
                 tables
  | None => Return []
  end.

(** *** [marginal_log_likelihood] *)

Section marginal.

Variable np_linalg_inv : matrix -> result matrix.

(** [time_dists] is [None] when the argument is left out: its default is the
    empty dictionary.  [max_t] keeps the default 10 of [log_likelihood]. *)
Definition marginal_log_likelihood (theta : list Q)
    (t_stages : option (list string))
    (time_dists : option (gmap string (list Q))) : M Unilateral llh :=
  log_likelihood np_linalg_inv theta t_stages None (Some 10%Z)
    (Some (default ∅ time_dists)) "HMM".

End marginal.

(** *** [get_graph] and [list_edges] *)

(** Modelled from the spec: [node.out], the edges that start at a node, in
    the order of their creation (the counterpart of [inc]). *)
Definition out (m : Unilateral) (node : nat) : list Edge :=
  List.filter (fun e => Nat.eqb (start e) node) (edges m).

(** [node.name] for a reference [node]. *)
Definition node_name (m : Unilateral) (node : nat) : string :=
  default ""%string (name <$> nodes m !! node).

(** [dict(res)] for a list of pairs: a key that occurs again keeps its place
    and takes the new value. *)
Definition py_dict {V : Type} (res : list (string * V)) : list (string * V) :=
  foldl (fun d kv =>
           if bool_decide (kv.1 ∈ map fst d)
           then map (fun x => if bool_decide (x.1 = kv.1) then (x.1, kv.2) else x) d
           else d ++ [kv])
        [] res.

Definition get_graph (m : Unilateral) : list (string * list string) :=
  py_dict
    (map (fun node => (node_name m node,
                       map (fun o => node_name m (end_ o)) (out m node)))
         (seq 0 (length (nodes m)))).

Definition list_edges (m : Unilateral) : list (string * string * Q) :=
  map (fun edge => (node_name m (start edge), node_name m (end_ edge), t edge))
      (edges m).

End unilateral.


(** ** models/bilateral.py *)

Module bilateral.

(** The synchronised properties of an edge. *)
Inductive property : Set := spread_prob | micro_mod.

(** The closure that [create_property_sync_callback] returns: the names and
    the two edges it has captured.  Edges are objects; a reference to an edge
    is its position in the store. *)
Inductive callback : Type :=
  | sync (names : list property) (this other : nat).

(** Modelled from the spec: the class [Edge] of [lymph/graph.py], which is
    not part of the sources.  An edge has a name, the parameters
    [spread_prob] and [micro_mod], kept in the private attributes, and the
    list [trigger_callbacks]. *)
Record Edge : Type := mkEdge {
  name : string;
  _spread_prob : Q;
  _micro_mod : Q;
  trigger_callbacks : list callback;
}.

Abbreviation store := (list Edge).

(** [getattr(edge, name)]: the property reads the private attribute. *)
Definition getattr (h : store) (edge : nat) (nm : property) : result Q :=
  match h !! edge with
  | Some e => Return (match nm with
                      | spread_prob => _spread_prob e
                      | micro_mod => _micro_mod e
                      end)
  | None => Raise AttributeError
  end.

(** [setattr(edge, f"_{name}", value)] *)
Definition setattr_private (edge : nat) (nm : property) (value : Q) (h : store)
  : store :=
  alter (fun e =>
           match nm with
           | spread_prob => mkEdge (name e) value (_micro_mod e) (trigger_callbacks e)
           | micro_mod => mkEdge (name e) (_spread_prob e) value (trigger_callbacks e)
           end)
        edge h.

(** The function [sync] inside [create_property_sync_callback]. *)
Definition run_callback (cb : callback) : M store unit :=
  let '(sync names this other) := cb in
  (* We must set the value of `this` property via the private name, otherwise
     we would trigger the setter's callbacks and may end up in an infinite
     loop. *)
  forM names (fun nm =>
    h <~ getM ;;
    v <~ liftM (getattr h other nm) ;;
    modifyM (setattr_private this nm v)).

Definition create_property_sync_callback (names : list property)
    (this other : nat) : callback :=
  sync names this other.

(** [helper.trigger]: run the decorated method, then every callback of the
    instance. *)
Definition trigger (func : M store unit) (self : nat) : M store unit :=
  func ;;;
  h <~ getM ;;
  match h !! self with
  | Some e => forM (trigger_callbacks e) run_callback
  | None => raiseM AttributeError
  end.

(** Modelled from the spec: the setter of [Edge.spread_prob], which stores
    the value and triggers the callbacks of the edge. *)
Definition set_spread_prob (edge : nat) (new_spread_prob : Q) : M store unit :=
  trigger (modifyM (setattr_private edge spread_prob new_spread_prob)) edge.

Definition append_callback (edge : nat) (cb : callback) : M store unit :=
  modifyM (alter (fun e => mkEdge (name e) (_spread_prob e) (_micro_mod e)
                             (trigger_callbacks e ++ [cb])) edge).

(** [l.index(x)] under the equality [same] of the elements *)
Definition list_index (same : nat -> nat -> bool) (l : list nat) (x : nat)
  : result nat :=
  match list_find (fun y => same y x = true) l with
  | Some (i, _) => Return i
  | None => Raise ValueError
  end.

Section init_edge_sync.

(** The equality of two [Edge] objects, which the set intersection and
    [list.index] use: the class is not part of the sources; an object that
    defines no equality is equal to itself only. *)
Variable same : store -> nat -> nat -> bool.

Definition init_edge_sync_step (property_names : list property)
    (this_edge_list other_edge_list : list nat) (edge_name : nat)
  : M store unit :=
  h <~ getM ;;
  let this_edge_names := this_edge_list in
  let other_edge_names := other_edge_list in
  i <~ liftM (list_index (same h) this_edge_names edge_name) ;;
  this_edge <~ liftM (index this_edge_list i) ;;
  j <~ liftM (list_index (same h) other_edge_names edge_name) ;;
  other_edge <~ liftM (index other_edge_list j) ;;
  append_callback this_edge
    (create_property_sync_callback property_names this_edge other_edge) ;;;
  append_callback other_edge
    (create_property_sync_callback property_names other_edge this_edge).

Definition init_edge_sync (property_names : list property)
    (this_edge_list other_edge_list : list nat) : M store unit :=
  h <~ getM ;;
  (* [e_name for e_name in this_edge_list]: the edges themselves *)
  let this_edge_names := this_edge_list in
  let other_edge_names := other_edge_list in
  (* set(this_edge_names).intersection(other_edge_names) *)
  let common :=
    List.filter (fun e => existsb (same h e) other_edge_names)
      (List.nodup Nat.eq_dec this_edge_names) in
  forM common (init_edge_sync_step property_names this_edge_list other_edge_list).

(** The two sides of a bilateral model, reduced to their tumor edges: the
    references to the edges of the ipsilateral and of the contralateral
    graph. *)
Record Bilateral : Type := mkBilateral {
  ipsi_tumor_edges : list nat;
  contra_tumor_edges : list nat;
  tumor_spread_symmetric : bool;
}.

(** The part of [Bilateral.__init__] that concerns the tumor edges: both
    sides are built from the same graph, so each side gets an edge of its own
    for every tumor edge name, with spread probability 0; with
    [tumor_spread_symmetric] the edges are synchronised. *)
Definition __init__ (tumor_edge_names : list string)
    (tumor_spread_symmetric : bool) : result Bilateral * store :=
  let n := length tumor_edge_names in
  let h := map (fun nm => mkEdge nm 0 1 []) (tumor_edge_names ++ tumor_edge_names) in
  let self := mkBilateral (seq 0 n) (seq n n) tumor_spread_symmetric in
  let property_names := [spread_prob] in
  let r := if tumor_spread_symmetric
           then init_edge_sync property_names
                  (ipsi_tumor_edges self) (contra_tumor_edges self) h
           else (Return (), h) in
  (match fst r with Return _ => Return self | Raise e => Raise e end, snd r).

End init_edge_sync.

(** Equality of objects that define none: identity. *)
Definition same_object (h : store) (x y : nat) : bool := Nat.eqb x y.

(** Equality of edges by their names. *)
Definition same_name (h : store) (x y : nat) : bool :=
  match h !! x, h !! y with
  | Some e, Some e' => bool_decide (name e = name e')
  | _, _ => false
  end.

(** *** [Bilateral.likelihood] *)

(** A Python value passed for the parameter [mode]. *)
Inductive py_arg : Type :=
  | py_str (s : string)
  | py_bool (b : bool).

#[global] Instance py_arg_eq_dec : EqDecision py_arg.
Proof. solve_decision. Defined.

Section likelihood.

(** The model object, and the floating point numbers with the constants
    [0.], [1.] and [-np.inf]. *)
Variables model float : Type.
Variables zero one minus_inf : float.

(** [load_patient_data] and [assign_params], with their arguments. *)
Variables DataFrame params : Type.
Variable load_patient_data : DataFrame -> M model unit.
Variable assign_params : params -> M model unit.

(** The bodies of the branches [mode == "HMM"] and [mode == "BN"] of
    [_likelihood], from [log] and the initial value of [llh]. *)
Variable hmm_likelihood : bool -> float -> M model float.
Variable bn_likelihood : bool -> float -> M model float.

(** [_likelihood(self, mode="HMM", log=True)]: a value of [mode] that is
    neither string compares unequal to both. *)
Definition _likelihood (mode : py_arg) (log : bool) : M model float :=
  let llh := if log then zero else one in
  if decide (mode = py_str "HMM") then hmm_likelihood log llh
  else if decide (mode = py_str "BN") then bn_likelihood log llh
  else retM llh.

(** [likelihood]: the call [self._likelihood(log)] passes [log] as the first
    positional argument, which is [mode]; [log] keeps its default. *)
Definition likelihood (data : option DataFrame) (given_params : option params)
    (log : bool) (mode : string) : M model float :=
  match data with
  | Some d => load_patient_data d
  | None => retM ()
  end ;;;
  match given_params with
  | None => _likelihood (py_bool log) true
  | Some ps =>
      fun self =>
        match assign_params ps self with
        | (Return _, self') => _likelihood (py_bool log) true self'
        | (Raise ValueError, self') =>
            (Return (if log then minus_inf else zero), self')
        | (Raise e, self') => (Raise e, self')
        end
  end.

End likelihood.

End bilateral.

(** ** system.py *)

Module system.

(** [BilateralSystem], reduced to its edges: the edge list of the graph and
    the four lists into which the constructor sorts the edges.  An entry of
    such a list is a reference to an edge, that is, its position in [edges].
    The class [Edge] is the one of [unilateral.py]. *)
Record BilateralSystem : Type := mkBilateralSystem {
  edges : list unilateral.Edge;
  ipsi_base : list nat;
  ipsi_trans : list nat;
  contra_base : list nat;
  contra_trans : list nat;
}.

Definition edge_t (s : BilateralSystem) (edge : nat) : Q :=
  default 0 (unilateral.t <$> edges s !! edge).

(** [edge.t = x] *)
Definition assign_t (edge : nat) (x : Q) : M BilateralSystem unit :=
  modifyM (fun s =>
    mkBilateralSystem (alter (unilateral.set_t x) edge (edges s))
      (ipsi_base s) (ipsi_trans s) (contra_base s) (contra_trans s)).

Section set_theta.

(** [BilateralSystem._gen_A], which [set_theta] calls last in mode HMM. *)
Variable _gen_A : M BilateralSystem unit.

(** [for i in range(len(ipsi)): ipsi[i].t = theta[cursor];
    contra[i].t = theta[cursor]; cursor += 1] *)
Definition set_symmetric (ipsi contra : list nat) (theta : list Q) (cursor : nat)
  : M BilateralSystem nat :=
  foldM (seq 0 (length ipsi))
    (fun cursor i =>
       x <~ liftM (index theta cursor) ;;
       edge <~ liftM (index ipsi i) ;;
       assign_t edge x ;;;
       x' <~ liftM (index theta cursor) ;;
       edge' <~ liftM (index contra i) ;;
       assign_t edge' x' ;;;
       retM (cursor + 1)%nat)
    cursor.

(** [for edge in block: edge.t = theta[cursor]; cursor += 1] *)
Definition set_block (block : list nat) (theta : list Q) (cursor : nat)
  : M BilateralSystem nat :=
  foldM block
    (fun cursor edge =>
       x <~ liftM (index theta cursor) ;;
       assign_t edge x ;;;
       retM (cursor + 1)%nat)
    cursor.

Definition set_theta (theta : list Q) (base_symmetric trans_symmetric : bool)
    (mode : string) : M BilateralSystem unit :=
  s <~ getM ;;
  let cursor := 0%nat in
  cursor <~ (if base_symmetric
             then set_symmetric (ipsi_base s) (contra_base s) theta cursor
             else
               cursor <~ set_block (ipsi_base s) theta cursor ;;
               set_block (contra_base s) theta cursor) ;;
  cursor <~ (if trans_symmetric
             then set_symmetric (ipsi_trans s) (contra_trans s) theta cursor
             else
               cursor <~ set_block (ipsi_trans s) theta cursor ;;
               set_block (contra_trans s) theta cursor) ;;
  if decide (mode = "HMM"%string) then _gen_A else retM ().

End set_theta.

(** [get_theta(output="list", order=order)]: the probabilities of the edges
    of the four blocks, in the order asked for. *)
Definition get_theta_list (order : string) (s : BilateralSystem)
  : result (list Q) :=
  let theta_list := map (edge_t s) (ipsi_base s) in
  theta_list ←
    (if decide (order = "by_side"%string) then
       Return ((theta_list ++ map (edge_t s) (ipsi_trans s))
               ++ map (edge_t s) (contra_base s))
     else if decide (order = "by_type"%string) then
       Return ((theta_list ++ map (edge_t s) (contra_base s))
               ++ map (edge_t s) (ipsi_trans s))
     else Raise ValueError);
  Return (theta_list ++ map (edge_t s) (contra_trans s)).

(** *** [BilateralSystem._gen_A] *)

Section gen_A.

(** Whether the object has the attribute [unilateral_system] (the
    constructor sets it when there are no cross-connections), and the number
    of edges of that system. *)
Variable has_unilateral_system : bool.
Variable unilateral_edges : nat.

(** What [System.set_theta] does once the length of [theta] has been
    accepted: it fills the edges of the unilateral system and computes its
    matrix [A].  [store_A_i] and [store_A_c] are the assignments
    [self.A_i = self.unilateral_system.A.copy()] and the one of [A_c];
    [super_gen_A] is [System._gen_A]. *)
Variable System_fill : list Q -> M BilateralSystem unit.
Variables store_A_i store_A_c super_gen_A : M BilateralSystem unit.

(** [System.set_theta] of the unilateral system, in mode HMM. *)
Definition System_set_theta (theta : list Q) : M BilateralSystem unit :=
  if decide (length theta ≠ unilateral_edges) then raiseM ValueError
  else System_fill theta.

Definition _gen_A : M BilateralSystem unit :=
  if has_unilateral_system then
    s <~ getM ;;
    bilateral_theta <~ liftM (get_theta_list "by_side" s) ;;
    let ipsi_theta := take (length (edges s)) bilateral_theta in
    let contra_theta := drop (length (edges s)) bilateral_theta in
    System_set_theta ipsi_theta ;;;
    store_A_i ;;;
    System_set_theta contra_theta ;;;
    store_A_c
  else super_gen_A.

End gen_A.

End system.

(** ** Specification-level definitions for the transition matrix *)

(** The [k] least significant binary digits of [n], least significant first. *)
Fixpoint lsb_digits (k : nat) (n : Z) : list Z :=
  match k with
  | O => []
  | S k' => (n mod 2)%Z :: lsb_digits k' (n / 2)%Z
  end.

Definition chr (d : Z) : ascii := if decide (d = 0%Z) then "0"%char else "1"%char.

(** The [L] binary digits of [i], most significant first. *)
Definition bits (L : nat) (i : Z) : list Z := rev (lsb_digits L i).

(** All states of [L] binary LNLs in counting order. *)
Fixpoint all_states (L : nat) : list (list Z) :=
  match L with
  | O => [[]]
  | S L' => map (cons 0%Z) (all_states L') ++ map (cons 1%Z) (all_states L')
  end.

(** The node list after the state setter has written [s] to the LNLs. *)
Fixpoint assign_states (ns : list unilateral.Node) (s : list Z)
  : list unilateral.Node :=
  match ns with
  | [] => []
  | nd :: ns' =>
      if unilateral.is_tumor nd then nd :: assign_states ns' s
      else match s with
           | v :: s' => unilateral.Node_set_state v nd :: assign_states ns' s'
           | [] => nd :: ns'
           end
  end.

Definition in_state (m : unilateral.Unilateral) (s : list Z)
  : unilateral.Unilateral :=
  unilateral.with_nodes (assign_states (unilateral.nodes m) s) m.

(** [s_j] is reachable from [s_i]: no component decreases. *)
Definition reachable (si sj : list Z) : bool :=
  negb (unilateral.np_any_greater si sj).

(** The distribution over the next state of one LNL. *)
Definition lnl_trans_prob (m : unilateral.Unilateral) (node : nat) : list Q :=
  unilateral.node_trans_prob
    (map (fun edge => unilateral.node_state m (unilateral.start edge))
         (unilateral.inc m node))
    (map unilateral.t (unilateral.inc m node)).

(** One step of the loop of [comp_transition_prob]. *)
Definition lnl_step (m : unilateral.Unilateral) (res : Q) (new_node : Z * nat)
  : Q :=
  if decide (unilateral.node_state m (snd new_node) = 0%Z)
  then res * default 0 (lnl_trans_prob m (snd new_node) !! Z.to_nat (fst new_node))
  else res.

(** The probability of the step from [si] to [sj]: the product, over the LNLs
    that are healthy in [si], of the probability of their state in [sj]. *)
Definition trans_prob (m : unilateral.Unilateral) (si sj : list Z) : Q :=
  foldl (lnl_step (in_state m si)) 1 (zip sj (unilateral.lnls m)).

(** Row [si] of the transition matrix. *)
Definition row_spec (m : unilateral.Unilateral) (si : list Z) : list Q :=
  map (fun sj => if reachable si sj then trans_prob m si sj else 0)
      (all_states (length (unilateral.lnls m))).

Definition transition_matrix (m : unilateral.Unilateral) : matrix :=
  map (row_spec m) (all_states (length (unilateral.lnls m))).

(** The value [_gen_A] writes to column [j] while the model is [x]. *)
Definition entry_value (x : unilateral.Unilateral) (j : nat) : Q :=
  foldl (lnl_step x) 1
    (zip (default [] (all_states (length (unilateral.lnls x)) !! j))
         (unilateral.lnls x)).

Definition is_bit (d : Z) : Prop := d = 0%Z \/ d = 1%Z.

(** One step of [lnl_step], on the current state [c] of the LNL and its
    probability [stay] of staying healthy. *)
Definition bit_step (res : Q) (x : Z * (Z * Q)) : Q :=
  let '(new, (c, stay)) := x in
  if decide (c = 0%Z) then res * default 0 ([stay; 1 - stay] !! Z.to_nat new)
  else res.

(** The current state of an LNL and its probability of staying healthy. *)
Definition lnl_params (mi : unilateral.Unilateral) (node : nat) : Z * Q :=
  (unilateral.node_state mi node, default 0 (lnl_trans_prob mi node !! 0%nat)).

(** The edge list after a setter has written [new] to the edges that satisfy
    [p], in order. *)
Fixpoint assign_probs (p : unilateral.Edge -> bool) (es : list unilateral.Edge)
    (new : list Q) : list unilateral.Edge :=
  match es with
  | [] => []
  | e :: es' =>
      if p e then
        match new with
        | x :: new' => unilateral.set_t x e :: assign_probs p es' new'
        | [] => e :: es'
        end
      else e :: assign_probs p es' new
  end.

(** ** Example models *)

(** One tumor connected to one LNL. *)
Definition single_lnl_graph (tn ln : string) : unilateral.graph_dict :=
  [((unilateral.tumor, tn), [ln]); ((unilateral.lnl, ln), [])].

Definition single_lnl_model (tn ln : string) (p : Q) (a : option matrix)
  : unilateral.Unilateral :=
  unilateral.mkUnilateral
    [unilateral.mkNode tn unilateral.tumor 1; unilateral.mkNode ln unilateral.lnl 0]
    [unilateral.mkEdge 0 1 p]
    a None None None None None.

Definition single_lnl_A (p : Q) : matrix :=
  [[1 * (1 * (1 - p)); 1 * (1 - 1 * (1 - p))]; [0; 1]].

(** A tumor that drains into two LNLs, the first of which drains into the
    second, with spread probabilities 1/2, 1/3 and 1/4. *)
Definition example_graph : unilateral.graph_dict :=
  [((unilateral.tumor, "T"), ["I"; "II"]);
   ((unilateral.lnl, "I"), ["II"]);
   ((unilateral.lnl, "II"), [])]%string.

Definition example_model : unilateral.Unilateral :=
  unilateral.mkUnilateral
    [unilateral.mkNode "T" unilateral.tumor 1;
     unilateral.mkNode "I" unilateral.lnl 0;
     unilateral.mkNode "II" unilateral.lnl 0]
    [unilateral.mkEdge 0 1 (1 # 2); unilateral.mkEdge 0 2 (1 # 3);
     unilateral.mkEdge 1 2 (1 # 4)]
    None None None None None None.

(** ** The cache of the transition matrix *)

(** The model stores no transition matrix, or the one of its parameters. *)
Definition matrix_current (m : unilateral.Unilateral) : Prop :=
  unilateral._A m = None \/ unilateral._A m = Some (transition_matrix m).

(** ** Specification-level definitions for the observations and the data *)

(** Entry [p] of row [i] of the observation list: the loop of
    [_gen_obs_list] writes digit [k * L + j] of [i] to position
    [j * n_obs + k]. *)
Definition obs_entry (n_obs L i p : nat) : Z :=
  default 0%Z (bits (n_obs * L) (Z.of_nat i) !! ((p mod n_obs) * L + p / n_obs)%nat).

Definition obs_row (n_obs L i : nat) : list Z :=
  map (obs_entry n_obs L i) (seq 0 (n_obs * L)).

(** All complete observations of [n_obs] modalities on [L] LNLs. *)
Definition all_observations (n_obs L : nat) : list (list Z) :=
  map (obs_row n_obs L) (seq 0 (2 ^ (n_obs * L))).

(** The number of registered modalities. *)
Definition n_modalities (m : unilateral.Unilateral) : nat :=
  length (default [] (unilateral._modality_tables m)).

(** The model stores no observation list, or the one of its modalities. *)
Definition observations_current (m : unilateral.Unilateral) : Prop :=
  unilateral._obs_list m = None \/
  unilateral._obs_list m
  = Some (all_observations (n_modalities m) (length (unilateral.lnls m))).

(** The compatibility vector of a patient: for every complete observation,
    whether it agrees with the entries of the row that are not missing. *)
Definition compatibility (ol : list (list Z)) (row : list (option bool))
  : list bool :=
  map (fun obs => forallb id (zip_with unilateral.matches row obs)) ol.

(** The row has an entry that is not missing. *)
Definition has_entry (row : list (option bool)) : bool :=
  existsb (fun x => match x with Some _ => true | None => false end) row.

(** The rows of the patients of one T-stage. *)
Definition patients_of (data : unilateral.patient_data) (stage : string)
  : list (list (option bool)) :=
  map snd (List.filter (fun pr => bool_decide (fst pr = stage)) data).

Definition Zsum (l : list Z) : Z := foldr Z.add 0%Z l.

Definition count_where {A : Type} (p : A -> bool) (l : list A) : nat :=
  length (List.filter p l).

(** The entries of [np.unique] are in strictly increasing order. *)
Definition keys_lt (x y : list bool * Z) : Prop :=
  unilateral.lex_compare (fst x) (fst y) = Lt.

(** The count that an accumulator of [np.unique] holds for a column. *)
Definition count_of (acc : list (list bool * Z)) (c : list bool) : Z :=
  Zsum (map snd (List.filter (fun x => bool_decide (fst x = c)) acc)).

(** What [_gen_C] keeps of a table with [delete_ones] and
    [aggregate_duplicates]: the compatibility vectors that are not all ones,
    without duplicates, each with its number of occurrences. *)
Definition compressed (ol : list (list Z)) (table : list (list (option bool)))
  : list (list bool * Z) :=
  unilateral.np_unique
    (List.filter (fun col => negb (Nat.eqb (unilateral.count_true col) (length ol)))
       (map (compatibility ol) table)).

(** The model after the first lines of [_gen_C], which create both
    dictionaries when one of them is missing. *)
Definition with_dicts (m : unilateral.Unilateral) : unilateral.Unilateral :=
  match unilateral._C m, unilateral._f m with
  | Some _, Some _ => m
  | _, _ => unilateral.with_C_f (Some ∅) (Some ∅) m
  end.

(** The data matrix and the frequency vector that [_gen_C] stores for a
    table, with [delete_ones] and [aggregate_duplicates]. *)
Definition data_matrix (n_obs L : nat) (table : list (list (option bool)))
  : list (list bool) :=
  unilateral.rows_of_columns false (2 ^ (n_obs * L))
    (map fst (compressed (all_observations n_obs L) table)).

Definition frequencies (n_obs L : nat) (table : list (list (option bool)))
  : list Z :=
  map snd (compressed (all_observations n_obs L) table).

(** The example model with one modality of specificity 4/5 and sensitivity
    9/10, and five patients in two T-stages. *)
Definition example_diagnosed_model : unilateral.Unilateral :=
  unilateral.with_modality_tables
    (Some [("CT"%string, [[4 # 5; 1 - (9 # 10)]; [1 - (4 # 5); 9 # 10]])])
    example_model.

Definition example_data : unilateral.patient_data :=
  [("early", [Some true; Some false]);
   ("late", [Some false; Some false]);
   ("early", [None; None]);
   ("early", [Some true; Some false]);
   ("early", [None; Some true])]%string.

(** ** Specification-level definitions for the observation matrix *)

(** The entry of a modality table for an observation and a state. *)
Definition table_entry (tab : matrix) (obs st : Z) : Q :=
  default 0 (default [] (tab !! Z.to_nat obs) !! Z.to_nat st).

(** One step of the inner loop of [comp_observation_prob]. *)
Definition obs_step (x : unilateral.Unilateral) (tab : matrix) (prob : Q)
    (onode : Z * nat) : Q :=
  prob * table_entry tab (fst onode) (unilateral.node_state x (snd onode)).

(** The probability of the observation [obs] of one modality in the current
    state of the model. *)
Definition observation_prob (x : unilateral.Unilateral) (tab : matrix)
    (obs : list Z) : Q :=
  foldl (obs_step x tab) 1 (zip obs (unilateral.lnls x)).

(** Row [s] of the observation matrix of a model with one modality. *)
Definition observation_row (m : unilateral.Unilateral) (tab : matrix)
    (s : list Z) : list Q :=
  map (observation_prob (in_state m s) tab)
      (all_observations 1 (length (unilateral.lnls m))).

Definition observation_matrix (m : unilateral.Unilateral) (tab : matrix) : matrix :=
  map (observation_row m tab) (all_states (length (unilateral.lnls m))).

(** ** Specification-level definitions for the risk *)

(** Two states of a model with the same LNLs, modalities, observation list
    and observation matrix. *)
Definition same_diagnostics (x y : unilateral.Unilateral) : Prop :=
  unilateral.lnls y = unilateral.lnls x /\
  unilateral._modality_tables y = unilateral._modality_tables x /\
  unilateral._obs_list y = unilateral._obs_list x /\
  unilateral._B y = unilateral._B x.

(** A matrix with [r] rows of length [c]. *)
Definition matrix_shaped (r c : nat) (a : matrix) : Prop :=
  length a = r /\ Forall (fun row => length row = c) a.

(** The model stores no observation matrix, or one of the shape of its
    states and observations. *)
Definition observation_matrix_shaped (m : unilateral.Unilateral) : Prop :=
  match unilateral._B m with
  | None => True
  | Some bm =>
      matrix_shaped (2 ^ length (unilateral.lnls m))
        (2 ^ (n_modalities m * length (unilateral.lnls m))) bm
  end.

(** ** Specification-level definitions for [set_theta] *)

(** The edge list after the writes [edge.t = x] of a list of pairs. *)
Definition written (writes : list (nat * Q)) (es : list unilateral.Edge)
  : list unilateral.Edge :=
  foldl (fun es w => alter (unilateral.set_t (snd w)) (fst w) es) es writes.

(** The writes of the symmetric block of [set_theta]. *)
Definition mirrored_writes (ipsi contra : list nat) (theta : list Q)
  : list (nat * Q) :=
  flat_map (fun w => [(fst (fst w), snd w); (snd (fst w), snd w)])
    (zip (zip ipsi contra) theta).

(** ** Specification-level definitions for the time evolution *)

(** Every edge of the model carries a probability. *)
Definition valid_edges (m : unilateral.Unilateral) : Prop :=
  Forall (fun e => 0 <= unilateral.t e <= 1) (unilateral.edges m).

(** The state vector [_evolve] starts from: the healthy state is certain. *)
Definition start_state (m : unilateral.Unilateral) : list Q :=
  1 :: replicate (2 ^ length (unilateral.lnls m) - 1) 0.

(** The state vector after [n] time steps. *)
Definition evolved_state (m : unilateral.Unilateral) (n : nat) : list Q :=
  vec_mat (start_state m) (unilateral.mat_pow_nat (transition_matrix m) n).

(** The states of [n] further time steps from [state] on: each one is the
    one before times the matrix [a]. *)
Fixpoint trajectory (a : matrix) (state : list Q) (n : nat) : matrix :=
  match n with
  | O => [state]
  | S n' => state :: trajectory a (vec_mat state a) n'
  end.


(** ** Specification-level definitions for the modalities *)

(** Specificity and sensitivity as the [modalities] setter accepts them: two
    numbers between 0.5 and 1. *)
Definition valid_spsn (spsn : list Q) : Prop :=
  exists sp sn : Q, spsn = [sp; sn] /\ 1 # 2 <= sp <= 1 /\ 1 # 2 <= sn <= 1.

(** The table the setter stores for a modality. *)
Definition confusion_table (spsn : list Q) : matrix :=
  match spsn with
  | [sp; sn] => [[sp; 1 - sn]; [1 - sp; sn]]
  | _ => []
  end.


(** ** Specification-level definitions for the change of base *)

(** The value of a digit: its position in ["0123456789ABCDEF"]. *)
Fixpoint index_of (c : ascii) (l : list ascii) : Z :=
  match l with
  | [] => 0
  | x :: l' => if decide (x = c) then 0 else 1 + index_of c l'
  end.

Definition digit_value (c : ascii) : Z := index_of c helper.convert_string.

(** The number a string of digits denotes in a base, most significant digit
    first: what [int(s, base)] computes. *)
Definition int_of (base : Z) (s : list ascii) : Z :=
  foldl (fun acc c => acc * base + digit_value c)%Z 0%Z s.

(** The [k] least significant digits of [n] in a base, least significant
    first. *)
Fixpoint lsb_digits_in (base : Z) (k : nat) (n : Z) : list Z :=
  match k with
  | O => []
  | S k' => (n mod base)%Z :: lsb_digits_in base k' (n / base)%Z
  end.

(** The character of a digit. *)
Definition digit_char (d : Z) : ascii :=
  default "0"%char (helper.convert_string !! Z.to_nat d).


(** ** Specification-level definitions for the helpers *)

(** Every node has a connection list without duplicates that does not hold
    the node itself, and no two nodes share a name. *)
Definition unique_names {K : Type} (graph : list ((K * string) * list string))
  : Prop :=
  Forall (fun item => NoDup item.2 /\ item.1.2 ∉ item.2) graph /\
  NoDup (map (fun item => item.1.2) graph).


(* ================================================================== *)
(** * Theorems *)

Section TransitionTensor.

Lemma Qsum_cons x l : Qsum (x :: l) = x + Qsum l.
Proof. reflexivity. Qed.

End TransitionTensor.

Section TransitionTensorProofs.

Lemma mult_unit_interval (p q : Q) :
  0 <= p <= 1 -> 0 <= q <= 1 -> 0 <= p * q <= 1.
Proof. intros Hp Hq. split; nra. Qed.

Lemma spread_row_distribution (x : Q) (pad : list Q) :
  0 <= x <= 1 -> Forall (fun y => y = 0) pad ->
  is_distribution ([1 - x; x] ++ pad).
Proof.
  intros Hx Hpad. split.
  - repeat constructor; try lra.
    eapply Forall_impl; [exact Hpad|]. intros y ->. lra.
  - assert (Hz : Qsum pad == 0).
    { induction Hpad as [|y l -> _ IH]; [reflexivity|].
      rewrite Qsum_cons, IH. lra. }
    simpl. rewrite Hz. lra.
Qed.

(** C9, as stated, fails: a growth edge into a binary child assigns a row of
    three entries to a slice of two, which numpy refuses. *)
Lemma comp_transition_tensor_growth_binary_raises :
  helper.comp_transition_tensor 2 2 false true (1 # 2) (1 # 2) = Raise ValueError
  /\ ~ slices_are_distributions 2 2
         (helper.comp_transition_tensor 2 2 false true (1 # 2) (1 # 2)).
Proof.
  split; [reflexivity|].
  intros (T & HT & _). discriminate HT.
Qed.

(** C9 (amended): for [num_parent], [num_child] in {2,3}, spread_prob and
    micro_mod in [0,1], and every flag combination other than a growth edge
    (without tumor spread) into a binary child, the tensor is returned and each
    slice [T[parent_state, child_prev, :]] is a probability distribution. *)
Theorem comp_transition_tensor_slices
    (num_parent num_child : nat) (is_tumor_spread is_growth : bool)
    (spread_prob micro_mod : Q) :
  num_parent = 2%nat \/ num_parent = 3%nat ->
  num_child = 2%nat \/ num_child = 3%nat ->
  is_tumor_spread = true \/ is_growth = false \/ num_child = 3%nat ->
  0 <= spread_prob <= 1 -> 0 <= micro_mod <= 1 ->
  slices_are_distributions num_parent num_child
    (helper.comp_transition_tensor num_parent num_child
       is_tumor_spread is_growth spread_prob micro_mod).
Proof.
  intros Hp Hc Hflags Hs Hm.
  pose proof (mult_unit_interval _ _ Hs Hm) as Hmicro.
  assert (Hdist : forall x pad, 0 <= x <= 1 -> Forall (fun y => y = 0) pad ->
            is_distribution (1 - x :: x :: pad))
    by (intros; by apply (spread_row_distribution x pad)).
  assert (Hg : is_distribution [0; 1 - spread_prob; spread_prob])
    by (split; [repeat constructor; lra | simpl; lra]).
  assert (He0 : forall l, Forall (fun y => y = 0) l -> is_distribution (1 :: l)).
  { intros l Hl. replace 1 with (1 - 0) at 1 by reflexivity.
    destruct l as [|y l]; [split; [repeat constructor; lra|simpl; lra]|].
    inversion Hl; subst. apply Hdist; [lra|done]. }
  assert (He1 : forall l, Forall (fun y => y = 0) l -> is_distribution (0 :: 1 :: l)).
  { intros l Hl. replace 0 with (1 - 1) at 1 by reflexivity.
    apply Hdist; [lra|done]. }
  assert (He2 : is_distribution [0; 0; 1])
    by (split; [repeat constructor; lra | simpl; lra]).
  destruct Hp as [-> | ->], Hc as [-> | ->],
    is_tumor_spread, is_growth;
    try (exfalso; destruct Hflags as [? | [? | ?]]; discriminate);
    (eexists; split; [reflexivity|]);
    intros ps cp Hps Hcp;
    (destruct ps as [|[|[|ps]]]; try lia);
    (destruct cp as [|[|[|cp]]]; try lia);
    (eexists _, _; split; [reflexivity|]; split; [reflexivity|];
     split; [reflexivity|]);
    first [ apply Hdist; [assumption | repeat constructor]
          | apply He0; repeat constructor
          | apply He1; repeat constructor
          | exact He2 | exact Hg ].
Qed.

(** The theorem at a trinary growth edge. *)
Lemma comp_transition_tensor_slices_witness :
  slices_are_distributions 3 3
    (helper.comp_transition_tensor 3 3 false true (1 # 5) (1 # 2)).
Proof.
  apply (comp_transition_tensor_slices 3 3 false true (1 # 5) (1 # 2));
    try (split; discriminate); auto.
Defined.

End TransitionTensorProofs.

Section TransitionMatrix.

Import unilateral.

(** ** Results of loops *)

Lemma map_result_Return {A B : Type} (f : A -> result B) (g : A -> B) (l : list A) :
  (forall x, x ∈ l -> f x = Return (g x)) ->
  map_result f l = Return (map g l).
Proof.
  induction l as [|x l IH]; intros H; [reflexivity|].
  cbn. rewrite H by left. cbn. rewrite IH; [reflexivity|].
  intros y Hy. apply H. by right.
Qed.

Lemma replicate_snoc {A : Type} (n : nat) (x : A) :
  replicate n x ++ [x] = x :: replicate n x.
Proof. induction n as [|n IH]; [reflexivity|]. cbn. by rewrite IH. Qed.

Lemma rev_replicate {A : Type} (n : nat) (x : A) :
  rev (replicate n x) = replicate n x.
Proof.
  induction n as [|n IH]; [reflexivity|].
  cbn. by rewrite IH, replicate_snoc.
Qed.

(** ** Binary digits *)



Lemma lsb_digits_app (a b : nat) (n : Z) :
  lsb_digits (a + b) n = lsb_digits a n ++ lsb_digits b (n / 2 ^ Z.of_nat a)%Z.
Proof.
  revert n. induction a as [|a IH]; intros n.
  - cbn. by rewrite Z.div_1_r.
  - cbn [Nat.add lsb_digits app]. rewrite IH. do 2 f_equal.
    rewrite Nat2Z.inj_succ, Z.pow_succ_r by lia.
    rewrite Z.div_div by lia. reflexivity.
Qed.

Lemma lsb_digits_zero (k : nat) : lsb_digits k 0 = replicate k 0%Z.
Proof.
  induction k as [|k IH]; [reflexivity|].
  cbn [lsb_digits replicate]. rewrite Z.mod_0_l, Z.div_0_l by lia. by rewrite IH.
Qed.

Lemma lsb_digits_length k n : length (lsb_digits k n) = k.
Proof. revert n. induction k as [|k IH]; intros n; cbn; [reflexivity|]. by rewrite IH. Qed.

Lemma convertString_bit (d : Z) :
  (0 <= d < 2)%Z -> py_index convertString d = Return (chr d).
Proof.
  intros Hd. assert (d = 0 \/ d = 1)%Z as [-> | ->] by lia; reflexivity.
Qed.

Lemma int_of_digit_chr (d : Z) : (0 <= d < 2)%Z -> int_of_digit (chr d) = Return d.
Proof.
  intros Hd. assert (d = 0 \/ d = 1)%Z as [-> | ->] by lia; reflexivity.
Qed.

Lemma change_base_loop_binary (fuel : nat) (n : Z) (res : list ascii) :
  (0 <= n)%Z -> (n <= Z.of_nat fuel)%Z ->
  exists k : nat,
    change_base_loop fuel n 2 res
      = Return ((n / 2 ^ Z.of_nat k)%Z, res ++ map chr (lsb_digits k n))
    /\ (n / 2 ^ Z.of_nat k < 2)%Z
    /\ (n = 0%Z \/ 0 < n / 2 ^ Z.of_nat k)%Z.
Proof.
  revert n res. induction fuel as [|fuel IH]; intros n res Hn Hf.
  - exists 0%nat. assert (n = 0%Z) as -> by lia. cbn [change_base_loop Z.leb Z.compare lsb_digits map Z.of_nat].
    rewrite app_nil_r, Z.div_0_l by lia. auto with lia.
  - cbn [change_base_loop].
    destruct (Z.leb_spec 2 n) as [H2|H2].
    + cbn [Z.eqb]. rewrite convertString_bit by (apply Z.mod_pos_bound; lia).
      cbn [mbind result_bind].
      destruct (IH (n / 2)%Z (res ++ [chr (n mod 2)])) as (k & Hk & Hlt & Hpos).
      { apply Z.div_pos; lia. }
      { assert (n / 2 < n)%Z by (apply Z.div_lt; lia). lia. }
      exists (S k). rewrite Hk.
      rewrite Nat2Z.inj_succ, Z.pow_succ_r by lia.
      rewrite <- Z.div_div by lia.
      cbn [lsb_digits map]. rewrite <- app_assoc. cbn [app].
      split; [reflexivity|]. split; [exact Hlt|].
      right. destruct Hpos as [H0|Hpos]; [|exact Hpos].
      exfalso. assert (n / 2 >= 1)%Z; [|lia].
      apply Z.le_ge, Z.div_le_lower_bound; lia.
    + exists 0%nat. cbn. rewrite Z.div_1_r, app_nil_r.
      split; [reflexivity|]. split; lia.
Qed.


Lemma small_div_pow2 (i : Z) (a b : nat) :
  (0 <= i)%Z -> (i / 2 ^ Z.of_nat a < 2)%Z -> (0 < i / 2 ^ Z.of_nat a)%Z ->
  (i < 2 ^ Z.of_nat b)%Z -> (a < b)%nat.
Proof.
  intros Hi Hlt Hpos Hb.
  destruct (decide (a < b)%nat) as [|Hge]; [done|exfalso].
  assert (2 ^ Z.of_nat b <= 2 ^ Z.of_nat a)%Z by (apply Z.pow_le_mono_r; lia).
  rewrite Z.div_small in Hpos by lia. lia.
Qed.

Lemma change_base_binary (L : nat) (i : Z) :
  (0 <= i < 2 ^ Z.of_nat L)%Z ->
  change_base i 2 false (Some (Z.of_nat L)) = Return (map chr (bits L i)).
Proof.
  intros [Hi HL].
  assert (Hzeros : forall n, map chr (replicate n 0%Z) = replicate n "0"%char).
  { intros n. induction n as [|n IH]; [reflexivity|]. cbn. by f_equal. }
  destruct (decide (i = 0%Z)) as [-> | Hnz].
  { unfold bits. rewrite lsb_digits_zero, rev_replicate, Hzeros.
    unfold change_base.
    change (16 <? 2)%Z with false. cbv iota.
    change (change_base_loop (Z.to_nat 0) 0 2 [])
      with (Return (0%Z, @nil ascii)).
    cbn [mbind result_bind]. change (0 <? 0)%Z with false.
    cbn [mbind result_bind length rev Z.of_nat].
    rewrite app_nil_r, Z.sub_0_r.
    replace (Z.of_nat L <? Z.of_nat 0)%Z with false
      by (symmetry; apply Z.ltb_ge; lia).
    by rewrite Nat2Z.id. }
  unfold change_base. change (16 <? 2)%Z with false. cbv iota.
  destruct (change_base_loop_binary (Z.to_nat i) i [] Hi) as (k & Hk & Hlt & Hpos);
    [lia|].
  rewrite Hk. cbn [mbind result_bind app].
  set (hi := (i / 2 ^ Z.of_nat k)%Z) in *.
  assert (Hhi0 : (0 <= hi)%Z) by (apply Z.div_pos; lia).
  destruct (Z.ltb_spec 0 hi) as [Hp|Hz].
  - rewrite convertString_bit by lia. cbn [mbind result_bind].
    assert (Hkl : (k < L)%nat) by (apply (small_div_pow2 i k L); subst hi; lia).
    assert (Hd : lsb_digits L i =
                 (lsb_digits k i ++ [hi]) ++ replicate (L - S k) 0%Z).
    { replace L with (k + (1 + (L - S k)))%nat at 1 by lia.
      rewrite lsb_digits_app, lsb_digits_app. fold hi. cbn [lsb_digits].
      change (2 ^ Z.of_nat 1)%Z with 2%Z.
      rewrite (Z.mod_small hi) by lia.
      rewrite (Z.div_small hi) by lia. rewrite lsb_digits_zero.
      rewrite <- app_assoc. reflexivity. }
    assert (Hb : map chr (bits L i) =
                 replicate (L - S k) "0"%char
                   ++ rev (map chr (lsb_digits k i) ++ [chr hi])).
    { unfold bits. rewrite Hd.
      rewrite (rev_app_distr _ (replicate _ _)), map_app, !map_rev, map_app.
      f_equal.
      rewrite Hzeros. apply rev_replicate. }
    rewrite Hb, length_app, length_map, lsb_digits_length. cbn [length].
    replace (Z.of_nat L <? Z.of_nat (k + 1))%Z with false
      by (symmetry; apply Z.ltb_ge; lia).
    replace (Z.to_nat (Z.of_nat L - Z.of_nat (k + 1))) with (L - S k)%nat by lia.
    reflexivity.
  - lia.
Qed.

(** ** The state list *)

Lemma pow2_Z (L : nat) : Z.of_nat (2 ^ L) = (2 ^ Z.of_nat L)%Z.
Proof. by rewrite Nat2Z.inj_pow. Qed.

Lemma lsb_digits_add_pow2 (L : nat) (n c : Z) :
  lsb_digits L (n + 2 ^ Z.of_nat L * c) = lsb_digits L n.
Proof.
  revert n c. induction L as [|L IH]; intros n c; [reflexivity|].
  cbn [lsb_digits]. rewrite Nat2Z.inj_succ, Z.pow_succ_r by lia.
  f_equal.
  - rewrite <- Z.mul_assoc, Z.mul_comm, Z_mod_plus_full. reflexivity.
  - replace (n + 2 * 2 ^ Z.of_nat L * c)%Z with (n + (2 ^ Z.of_nat L * c) * 2)%Z by lia.
    rewrite Z_div_plus_full by lia. apply IH.
Qed.

Lemma bits_succ (L : nat) (i : Z) :
  bits (S L) i = ((i / 2 ^ Z.of_nat L) mod 2)%Z :: bits L i.
Proof.
  unfold bits. replace (S L) with (L + 1)%nat by lia.
  rewrite lsb_digits_app. cbn [lsb_digits]. rewrite rev_app_distr. reflexivity.
Qed.

Lemma bits_length L i : length (bits L i) = L.
Proof. unfold bits. by rewrite length_rev, lsb_digits_length. Qed.

Lemma bits_are_bits L i : Forall (fun d => d = 0%Z \/ d = 1%Z) (bits L i).
Proof.
  unfold bits. apply Forall_forall. intros d Hd. apply list_elem_of_In, in_rev in Hd.
  revert i Hd. induction L as [|L IH]; intros i Hd; [destruct Hd|].
  destruct Hd as [<- | Hd]; [|by eapply IH].
  pose proof (Z.mod_pos_bound i 2). lia.
Qed.

Lemma all_states_bits (L : nat) :
  map (fun i => bits L (Z.of_nat i)) (seq 0 (2 ^ L)) = all_states L.
Proof.
  induction L as [|L IH]; [reflexivity|].
  cbn [all_states]. rewrite <- IH, !map_map.
  replace (2 ^ S L)%nat with (2 ^ L + 2 ^ L)%nat by (cbn; lia).
  rewrite seq_app, map_app. f_equal.
  - apply map_ext_in. intros i Hi. apply in_seq in Hi.
    rewrite bits_succ. f_equal.
    assert (Z.of_nat i < 2 ^ Z.of_nat L)%Z.
    { rewrite <- pow2_Z. lia. }
    rewrite Z.div_small by lia. reflexivity.
  - cbn [Nat.add].
    replace (seq (2 ^ L) (2 ^ L))
      with (map (Nat.add (2 ^ L)) (seq 0 (2 ^ L)))
      by (etrans; [apply (fmap_add_seq (2 ^ L) 0) | f_equal; lia]).
    rewrite map_map. apply map_ext_in. intros i Hi. apply in_seq in Hi.
    assert (Hlt : (Z.of_nat i < 2 ^ Z.of_nat L)%Z).
    { rewrite <- pow2_Z. lia. }
    assert (Hpos : (0 < 2 ^ Z.of_nat L)%Z) by (apply Z.pow_pos_nonneg; lia).
    rewrite bits_succ.
    replace (Z.of_nat (2 ^ L + i)) with (Z.of_nat i + 2 ^ Z.of_nat L * 1)%Z
      by (rewrite Nat2Z.inj_add, pow2_Z; lia).
    f_equal.
    + rewrite Z.mul_1_r.
      replace (Z.of_nat i + 2 ^ Z.of_nat L)%Z
        with (Z.of_nat i + 1 * 2 ^ Z.of_nat L)%Z by lia.
      rewrite Z_div_plus_full by lia. rewrite Z.div_small by lia. reflexivity.
    + unfold bits. by rewrite lsb_digits_add_pow2.
Qed.

Lemma map_result_int_of_digit (ds : list Z) :
  Forall (fun d => d = 0%Z \/ d = 1%Z) ds ->
  map_result int_of_digit (map chr ds) = Return ds.
Proof.
  induction 1 as [|d ds Hd _ IH]; [reflexivity|].
  cbn [map map_result]. rewrite int_of_digit_chr by lia.
  cbn [mbind result_bind]. rewrite IH. reflexivity.
Qed.

Lemma state_list_eq (m : Unilateral) :
  state_list m = Return (all_states (length (lnls m))).
Proof.
  unfold state_list. rewrite <- all_states_bits.
  apply map_result_Return. intros i Hi.
  apply list_elem_of_In, in_seq in Hi.
  rewrite change_base_binary.
  2:{ split; [lia|]. rewrite <- pow2_Z. lia. }
  cbn [mbind result_bind].
  rewrite map_result_int_of_digit by apply bits_are_bits.
  cbn [mbind result_bind]. unfold np_assign_row.
  rewrite bits_length. by rewrite decide_True.
Qed.

Lemma all_states_length (L : nat) : length (all_states L) = (2 ^ L)%nat.
Proof. by rewrite <- all_states_bits, length_map, length_seq. Qed.

Lemma all_states_elem (L : nat) (s : list Z) :
  s ∈ all_states L -> length s = L /\ Forall (fun d => d = 0%Z \/ d = 1%Z) s.
Proof.
  rewrite <- all_states_bits. intros Hs.
  apply list_elem_of_In, in_map_iff in Hs. destruct Hs as (i & <- & _).
  split; [apply bits_length | apply bits_are_bits].
Qed.

(** ** Positions and enumeration *)

Lemma enumerate_cons {A : Type} (x : A) (l : list A) :
  enumerate (x :: l) = (0%nat, x) :: map (fun p => (S (fst p), snd p)) (enumerate l).
Proof.
  unfold enumerate. cbn [length seq zip zip_with]. f_equal.
  generalize 0%nat. induction l as [|y l IH]; intros k; [reflexivity|].
  cbn [length seq zip zip_with map fst snd]. f_equal. apply IH.
Qed.

Lemma positions_cons {A : Type} (p : A -> bool) (x : A) (l : list A) :
  positions p (x :: l) = (if p x then [0%nat] else []) ++ map S (positions p l).
Proof.
  unfold positions. rewrite enumerate_cons. cbn [List.filter snd].
  assert (H : map fst (List.filter (fun y => p (snd y))
                (map (fun q : nat * A => (S (fst q), snd q)) (enumerate l)))
              = map S (map fst (List.filter (fun y => p (snd y)) (enumerate l)))).
  { induction (enumerate l) as [|[k y] e IH]; [reflexivity|].
    cbn [map List.filter fst snd]. destruct (p y); cbn [map fst]; by rewrite IH. }
  destruct (p x); cbn [map fst app]; by rewrite H.
Qed.

Lemma positions_nil {A : Type} (p : A -> bool) : positions p [] = [].
Proof. reflexivity. Qed.

Lemma elem_of_positions {A : Type} (p : A -> bool) (l : list A) (j : nat) :
  j ∈ positions p l <-> exists x, l !! j = Some x /\ p x = true.
Proof.
  revert j. induction l as [|x l IH]; intros j.
  - rewrite positions_nil. split; [by intros ?%elem_of_nil|by intros (? & ? & _)].
  - rewrite positions_cons, elem_of_app. split.
    + intros [H|H].
      * destruct (p x) eqn:Hp; [|by apply elem_of_nil in H].
        apply list_elem_of_singleton in H as ->. eauto.
      * apply list_elem_of_In, in_map_iff in H. destruct H as (k & <- & Hk).
        apply list_elem_of_In, IH in Hk. exact Hk.
    + intros (y & Hy & Hp). destruct j as [|j].
      * left. injection Hy as ->. rewrite Hp. by apply list_elem_of_singleton.
      * right. apply list_elem_of_In, in_map_iff. exists j. split; [done|].
        apply list_elem_of_In, IH. eauto.
Qed.

Lemma positions_ext {A B : Type} (p : A -> bool) (q : B -> bool) l l' :
  map p l = map q l' -> positions p l = positions q l'.
Proof.
  revert l'. induction l as [|x l IH]; intros [|y l'] H; try discriminate; [done|].
  cbn [map] in H. injection H as Hx Hl.
  rewrite !positions_cons, Hx. by rewrite (IH l').
Qed.

(** ** The state setter *)

Lemma with_nodes_nodes (m : Unilateral) : with_nodes (nodes m) m = m.
Proof. by destruct m. Qed.

Lemma with_nodes_twice ns ns' (m : Unilateral) :
  with_nodes ns (with_nodes ns' m) = with_nodes ns m.
Proof. reflexivity. Qed.



Lemma set_state_loop (ns : list Node) :
  forall (pre : list Node) (sdone s : list Z) (m : Unilateral),
    nodes m = pre ++ ns ->
    length s = length (positions not_tumor ns) ->
    forM (zip (seq (length sdone) (length s))
              (map (Nat.add (length pre)) (positions not_tumor ns)))
         (set_state_body (sdone ++ s)) m
    = (Return (), with_nodes (pre ++ assign_states ns s) m).
Proof.
  induction ns as [|nd ns IH]; intros pre sdone s m Hm Hs.
  - rewrite positions_nil in *. destruct s; [|discriminate].
    cbn. rewrite <- Hm. by rewrite with_nodes_nodes.
  - rewrite positions_cons in *. cbn [assign_states].
    unfold not_tumor in *. destruct (is_tumor nd) eqn:Ht; cbn [negb app] in *.
    + rewrite length_map in Hs.
      specialize (IH (pre ++ [nd]) sdone s m).
      rewrite <- !app_assoc in IH. cbn [app] in IH.
      rewrite map_map. rewrite length_app in IH. cbn [length] in IH.
      rewrite <- (IH Hm Hs). do 2 f_equal.
      apply map_ext. intros; lia.
    + cbn [length] in Hs. rewrite length_map in Hs.
      destruct s as [|v s]; [discriminate|]. cbn [length] in *.
      cbn [seq map zip zip_with forM]. unfold bindM at 1.
      unfold set_state_body at 1. unfold bindM, liftM, modifyM, index.
      rewrite lookup_app_r by lia. rewrite Nat.sub_diag. cbn [lookup list_lookup].
      rewrite Hm, Nat.add_0_r.
      replace (alter (Node_set_state v) (length pre) (pre ++ nd :: ns))
        with (pre ++ Node_set_state v nd :: ns).
      2:{ clear. induction pre; [reflexivity|]. cbn. by f_equal. }
      specialize (IH (pre ++ [Node_set_state v nd]) (sdone ++ [v]) s
                    (with_nodes (pre ++ Node_set_state v nd :: ns) m)).
      rewrite <- !app_assoc in IH. cbn [app] in IH.
      rewrite !length_app in IH. cbn [length] in IH.
      replace (length sdone + 1)%nat with (S (length sdone)) in IH by lia.
      rewrite map_map.
      erewrite (map_ext (fun x => (length pre + S x)%nat)); [rewrite IH|]; try done.
      * intros; lia.
      * lia.
Qed.

Lemma set_state_eq (s : list Z) (m : Unilateral) :
  length s = length (lnls m) ->
  set_state s m = (Return (), in_state m s).
Proof.
  intros Hs. unfold set_state, bindM, getM.
  rewrite decide_False by (intros H; apply H; exact Hs).
  pose proof (set_state_loop (nodes m) [] [] s m eq_refl Hs) as H.
  cbn [length app] in H. unfold enumerate. rewrite <- Hs.
  change (lnls m) with (positions not_tumor (nodes m)).
  rewrite <- (map_id (positions not_tumor (nodes m))).
  erewrite map_ext; [|intros; symmetry; apply Nat.add_0_l].
  erewrite (map_ext (Nat.add 0) id) in H; [|intros; apply Nat.add_0_l].
  rewrite map_id in *.
  exact H.
Qed.

Lemma set_state_length_mismatch (s : list Z) (m : Unilateral) :
  length s ≠ length (lnls m) -> set_state s m = (Raise ValueError, m).
Proof.
  intros Hs. unfold set_state, bindM, getM. by rewrite decide_True.
Qed.

(** ** The frame of the state setter *)

Lemma assign_states_typ (ns : list Node) (s : list Z) :
  map typ (assign_states ns s) = map typ ns.
Proof.
  revert s. induction ns as [|nd ns IH]; intros s; [reflexivity|].
  cbn [assign_states]. destruct (is_tumor nd).
  - cbn [map]. by rewrite IH.
  - destruct s as [|v s]; [reflexivity|]. cbn [map]. by rewrite IH.
Qed.

Lemma positions_not_tumor_typ (ns ns' : list Node) :
  map typ ns = map typ ns' ->
  positions not_tumor ns = positions not_tumor ns'.
Proof.
  intros H. apply positions_ext.
  revert ns' H. induction ns as [|n ns IH]; intros [|n' ns'] H;
    try discriminate; [reflexivity|].
  cbn [map] in *. injection H as Hn Hns.
  unfold not_tumor at 1 3, is_tumor. rewrite Hn. f_equal. by apply IH.
Qed.

Lemma lnls_in_state (m : Unilateral) (s : list Z) : lnls (in_state m s) = lnls m.
Proof. apply positions_not_tumor_typ, assign_states_typ. Qed.

Lemma assign_states_twice (ns : list Node) (s s' : list Z) :
  length s' = length (positions not_tumor ns) ->
  length s = length (positions not_tumor ns) ->
  assign_states (assign_states ns s') s = assign_states ns s.
Proof.
  revert s s'. induction ns as [|nd ns IH]; intros s s' Hs' Hs; [reflexivity|].
  rewrite positions_cons in Hs', Hs. cbn [assign_states].
  change (not_tumor nd) with (negb (is_tumor nd)) in Hs', Hs.
  destruct (is_tumor nd) eqn:Ht; cbn [negb app length] in Hs', Hs;
    rewrite length_map in Hs', Hs.
  - cbn [assign_states]. rewrite Ht. by rewrite IH.
  - destruct s' as [|v' s']; [discriminate|]. cbn [assign_states].
    assert (Ht' : is_tumor (Node_set_state v' nd) = false) by exact Ht.
    rewrite Ht'. destruct s as [|v s]; [discriminate|].
    cbn [length] in Hs', Hs. f_equal. apply IH; lia.
Qed.

Lemma in_state_twice (m : Unilateral) (s s' : list Z) :
  length s' = length (lnls m) -> length s = length (lnls m) ->
  in_state (in_state m s') s = in_state m s.
Proof.
  intros Hs' Hs. unfold in_state. cbn [nodes with_nodes].
  rewrite assign_states_twice by done. reflexivity.
Qed.

Lemma assign_states_lookup (ns : list Node) (s : list Z) :
  length s = length (positions not_tumor ns) ->
  map (fun node => default 0%Z (state <$> assign_states ns s !! node))
      (positions not_tumor ns) = s.
Proof.
  revert s. induction ns as [|nd ns IH]; intros s Hs.
  - by destruct s.
  - rewrite positions_cons in *. cbn [assign_states].
    change (not_tumor nd) with (negb (is_tumor nd)) in *.
    destruct (is_tumor nd) eqn:Ht; cbn [negb app length] in *;
      rewrite length_map in Hs.
    + rewrite map_map. cbn [lookup list_lookup]. by apply IH.
    + destruct s as [|v s]; [discriminate|]. cbn [map]. f_equal.
      * cbn. unfold is_tumor in Ht. destruct (typ nd); [discriminate|reflexivity].
      * rewrite map_map. cbn [lookup list_lookup]. apply IH.
        cbn [length] in Hs; lia.
Qed.

Lemma in_state_lnl_states (m : Unilateral) (s : list Z) :
  length s = length (lnls m) ->
  map (node_state (in_state m s)) (lnls m) = s.
Proof. intros Hs. by apply assign_states_lookup. Qed.

(** ** [comp_transition_prob] computes [trans_prob] *)


Lemma transition_factors (m : Unilateral) (ls : list nat) :
  forall (pre sj : list Z) (res : Q),
    length sj = length ls -> Forall is_bit sj ->
    for_each (zip (seq (length pre) (length ls)) ls)
             (transition_factor m (pre ++ sj)) res
    = Return (foldl (lnl_step m) res (zip sj ls)).
Proof.
  induction ls as [|node ls IH]; intros pre sj res Hlen Hbits.
  - by destruct sj.
  - destruct sj as [|v sj]; [discriminate|]. inversion Hbits as [|? ? Hv Hsj]; subst.
    cbn [length seq zip zip_with for_each foldl].
    assert (Hstep : transition_factor m (pre ++ v :: sj) res (length pre, node)
                    = Return (lnl_step m res (v, node))).
    { unfold transition_factor, lnl_step. cbn [fst snd].
      destruct (decide (node_state m node = 0%Z)); [|reflexivity].
      unfold index. rewrite lookup_app_r, Nat.sub_diag by lia.
      cbn [lookup list_lookup mbind result_bind].
      unfold lnl_trans_prob, node_trans_prob.
      destruct Hv as [-> | ->]; reflexivity. }
    rewrite Hstep. cbn [mbind result_bind].
    specialize (IH (pre ++ [v]) sj (lnl_step m res (v, node))).
    rewrite length_app, <- app_assoc in IH. cbn [length app] in IH.
    replace (length pre + 1)%nat with (S (length pre)) in IH by lia.
    apply IH; [cbn in Hlen; lia|done].
Qed.

Lemma comp_transition_prob_eq (m : Unilateral) (sj : list Z) :
  length sj = length (lnls m) -> Forall is_bit sj ->
  comp_transition_prob sj false m
  = (Return (foldl (lnl_step m) 1 (zip sj (lnls m))), m).
Proof.
  intros Hlen Hbits. unfold comp_transition_prob, bindM, getM, liftM, retM.
  unfold enumerate.
  pose proof (transition_factors m (lnls m) [] sj 1 Hlen Hbits) as H.
  cbn [length app] in H. rewrite H. reflexivity.
Qed.

(** ** The loops of [_gen_A] *)

Lemma foldl_insert_lookup {A : Type} (val : nat -> A) (js : list nat) :
  forall (row : list A) (j' : nat),
    foldl (fun r j => <[j := val j]> r) row js !! j'
    = (fun old => if decide (j' ∈ js) then val j' else old) <$> row !! j'.
Proof.
  induction js as [|j js IH]; intros row j'.
  - cbn [foldl]. destruct (row !! j'); cbn; [|done].
    by rewrite decide_False by apply not_elem_of_nil.
  - cbn [foldl]. rewrite IH. destruct (decide (j = j')) as [-> | Hne].
    + destruct (row !! j') as [old|] eqn:Hrow.
      * rewrite list_lookup_insert_eq by (by eapply lookup_lt_Some).
        cbn. rewrite (decide_True (P := j' ∈ j' :: js)) by left.
        by destruct (decide (j' ∈ js)).
      * rewrite list_insert_ge by (by apply lookup_ge_None). by rewrite Hrow.
    + rewrite list_lookup_insert_ne by done.
      destruct (row !! j'); cbn; [|done]. f_equal.
      destruct (decide (j' ∈ js)) as [Hin|Hin].
      * by rewrite decide_True by (by right).
      * rewrite decide_False; [done|].
        intros [->|?]%elem_of_cons; done.
Qed.

Lemma gen_A_entry_eq (x : Unilateral) (a : matrix) (row : list Q) (i j : nat) :
  _A x = Some a -> a !! i = Some row ->
  (j < length row)%nat -> (j < 2 ^ length (lnls x))%nat ->
  _gen_A_entry i j x
  = (Return (), with_A (Some (<[i := <[j := entry_value x j]> row]> a)) x).
Proof.
  intros Ha Hrow Hj Hjs. rewrite <- all_states_length in Hjs.
  destruct (lookup_lt_is_Some_2 _ j Hjs) as [sj Hsj].
  destruct (all_states_elem (length (lnls x)) sj) as [Hlen Hbits];
    [by eapply list_elem_of_lookup_2|].
  unfold _gen_A_entry, bindM at 1, getM.
  unfold bindM at 1, liftM at 1. rewrite state_list_eq.
  unfold bindM at 1, liftM at 1, index. rewrite Hsj.
  unfold bindM at 1. rewrite comp_transition_prob_eq by done.
  unfold bindM at 1, getM. rewrite Ha.
  unfold bindM, liftM, set_entry, modifyM. rewrite Hrow.
  rewrite decide_True by done.
  unfold entry_value. by rewrite Hsj.
Qed.

Lemma gen_A_entries (i : nat) (js : list nat) :
  forall (x : Unilateral) (a : matrix) (row : list Q),
    _A x = Some a -> a !! i = Some row ->
    Forall (fun j => (j < length row)%nat /\ (j < 2 ^ length (lnls x))%nat) js ->
    forM js (_gen_A_entry i) x
    = (Return (),
       with_A (Some (<[i := foldl (fun r j => <[j := entry_value x j]> r) row js]> a)) x).
Proof.
  induction js as [|j js IH]; intros x a row Ha Hrow Hjs.
  - cbn [forM foldl]. unfold retM. rewrite list_insert_id by done.
    destruct x; cbn in *; by subst.
  - inversion Hjs as [|? ? [Hj1 Hj2] Hjs']; subst.
    cbn [forM foldl]. unfold bindM.
    rewrite (gen_A_entry_eq x a row i j) by done.
    rewrite (IH _ (<[i := <[j := entry_value x j]> row]> a)
               (<[j := entry_value x j]> row)).
    + rewrite list_insert_insert_eq. reflexivity.
    + reflexivity.
    + apply list_lookup_insert_eq. by eapply lookup_lt_Some.
    + rewrite length_insert. exact Hjs'.
Qed.

Lemma lnls_with_A (a : option matrix) (x : Unilateral) :
  lnls (with_A a x) = lnls x.
Proof. reflexivity. Qed.

Lemma mask_eq (x : Unilateral) :
  mask x = Return (map (fun si => positions (reachable si)
                                    (all_states (length (lnls x))))
                       (all_states (length (lnls x)))).
Proof. unfold mask. rewrite state_list_eq. reflexivity. Qed.

Lemma gen_A_row_eq (m : Unilateral) (s si : list Z) (a : matrix) (i : nat) :
  length s = length (lnls m) ->
  all_states (length (lnls m)) !! i = Some si ->
  a !! i = Some (replicate (2 ^ length (lnls m)) 0) ->
  _gen_A_row (i, si) (with_A (Some a) (in_state m s))
  = (Return (), with_A (Some (<[i := row_spec m si]> a)) (in_state m si)).
Proof.
  intros Hs Hsi Hrow.
  destruct (all_states_elem (length (lnls m)) si) as [Hlen Hbits];
    [by eapply list_elem_of_lookup_2|].
  unfold _gen_A_row. unfold bindM at 1.
  rewrite set_state_eq by (rewrite lnls_with_A, lnls_in_state; lia).
  change (in_state (with_A (Some a) (in_state m s)) si)
    with (with_A (Some a) (in_state (in_state m s) si)).
  rewrite in_state_twice by lia.
  unfold bindM at 1, getM. unfold bindM at 1, liftM at 1.
  rewrite mask_eq.
  rewrite lnls_with_A, lnls_in_state.
  unfold bindM at 1, liftM. rewrite list_lookup_fmap, Hsi.
  cbn [fmap option_fmap option_map].
  rewrite (gen_A_entries i _ _ a (replicate (2 ^ length (lnls m)) 0)).
  - assert (Hr : foldl (fun (r : list Q) (j : nat) =>
                          <[j := entry_value (with_A (Some a) (in_state m si)) j]> r)
                   (replicate (2 ^ length (lnls m)) 0)
                   (positions (reachable si) (all_states (length (lnls m))))
                 = row_spec m si); [|by rewrite Hr].
    apply list_eq. intros j.
    rewrite foldl_insert_lookup. unfold row_spec.
    rewrite list_lookup_fmap.
    destruct (all_states (length (lnls m)) !! j) as [sj|] eqn:Hsj.
    + assert (Hj : (j < 2 ^ length (lnls m))%nat).
      { rewrite <- all_states_length. by eapply lookup_lt_Some. }
      rewrite lookup_replicate_2 by done. cbn. f_equal.
      destruct (decide (j ∈ positions (reachable si) (all_states (length (lnls m)))))
        as [Hin|Hnin].
      * apply elem_of_positions in Hin as (sj' & Hsj' & Hr).
        assert (sj' = sj) as -> by congruence.
        rewrite Hr. unfold entry_value, trans_prob.
        rewrite lnls_with_A, lnls_in_state, Hsj. reflexivity.
      * destruct (reachable si sj) eqn:Hr; [|reflexivity].
        exfalso. apply Hnin, elem_of_positions. eauto.
    + assert (replicate (2 ^ length (lnls m)) (0 : Q) !! j = None) as ->; [|done].
      apply lookup_replicate_None.
      rewrite <- all_states_length. by apply lookup_ge_None.
  - reflexivity.
  - exact Hrow.
  - apply Forall_forall. intros j Hj.
    apply elem_of_positions in Hj as (sj & Hsj & _).
    apply lookup_lt_Some in Hsj. rewrite all_states_length in Hsj.
    rewrite length_replicate, lnls_with_A, lnls_in_state. done.
Qed.

Lemma last_cons_default {A : Type} (l : list A) :
  forall x a : A, default a (last (x :: l)) = default x (last l).
Proof.
  induction l as [|y l IH]; intros x a; [done|].
  change (last (x :: y :: l)) with (last (y :: l)).
  by rewrite !IH.
Qed.

Lemma gen_A_rows (m : Unilateral) (sts : list (list Z)) :
  forall (done_ : list (list Z)) (s : list Z),
    all_states (length (lnls m)) = done_ ++ sts ->
    length s = length (lnls m) ->
    forM (zip (seq (length done_) (length sts)) sts) _gen_A_row
      (with_A (Some (map (row_spec m) done_
                     ++ replicate (length sts)
                          (replicate (2 ^ length (lnls m)) 0)))
              (in_state m s))
    = (Return (),
       with_A (Some (transition_matrix m)) (in_state m (default s (last sts)))).
Proof.
  induction sts as [|si sts IH]; intros done_ s Hsl Hs.
  - cbn [length seq zip zip_with forM replicate last default]. unfold retM.
    rewrite !app_nil_r in *. unfold transition_matrix. by rewrite Hsl.
  - cbn [length seq zip zip_with forM]. unfold bindM.
    rewrite (gen_A_row_eq m s si).
    + rewrite last_cons_default.
      rewrite <- (IH (done_ ++ [si]) si).
      * rewrite length_app. cbn [length].
        replace (length done_ + 1)%nat with (S (length done_)) by lia.
        do 3 f_equal.
        rewrite map_app. cbn [map]. rewrite <- app_assoc. cbn [app replicate].
        rewrite insert_app_r_alt by (rewrite length_map; lia).
        rewrite length_map, Nat.sub_diag. reflexivity.
      * by rewrite <- app_assoc.
      * eapply all_states_elem. rewrite Hsl. apply elem_of_app. right. left.
    + done.
    + rewrite Hsl. rewrite lookup_app_r, Nat.sub_diag by lia. reflexivity.
    + rewrite lookup_app_r by (rewrite length_map; lia).
      rewrite length_map, Nat.sub_diag. reflexivity.
Qed.

Lemma last_all_states (L : nat) : last (all_states L) = Some (replicate L 1%Z).
Proof.
  induction L as [|L IH]; [reflexivity|].
  cbn [all_states replicate]. rewrite last_app.
  assert (H : last (map (cons 1%Z) (all_states L)) = Some (1%Z :: replicate L 1%Z)).
  { revert IH. generalize (all_states L) (replicate L 1%Z).
    intros l r. induction l as [|x [|y l] IHl]; intros H; try discriminate.
    - cbn in H. by injection H as ->.
    - cbn [map last] in *. by apply IHl. }
  by rewrite H.
Qed.

Lemma assign_states_current (ns : list Node) :
  assign_states ns
    (map (fun node => default 0%Z (state <$> ns !! node)) (positions not_tumor ns))
  = ns.
Proof.
  induction ns as [|nd ns IH]; [reflexivity|].
  rewrite positions_cons. cbn [assign_states].
  change (not_tumor nd) with (negb (is_tumor nd)).
  destruct (is_tumor nd) eqn:Ht; cbn [negb app map].
  - rewrite map_map. f_equal. exact IH.
  - rewrite map_map. f_equal; [|exact IH].
    destruct nd as [nm ty st]. unfold is_tumor in Ht. cbn in *.
    destruct ty; [discriminate|reflexivity].
Qed.

Lemma in_state_current (m : Unilateral) :
  in_state m (map (node_state m) (lnls m)) = m.
Proof.
  unfold in_state. change (map (node_state m) (lnls m))
    with (map (fun node => default 0%Z (state <$> nodes m !! node))
              (positions not_tumor (nodes m))).
  rewrite assign_states_current. apply with_nodes_nodes.
Qed.

Lemma gen_A_eq (m : Unilateral) :
  _A m = None ->
  _gen_A m
  = (Return (),
     with_A (Some (transition_matrix m))
       (in_state m (replicate (length (lnls m)) 1%Z))).
Proof.
  intros HA.
  pose proof (gen_A_rows m (all_states (length (lnls m))) []
                (map (node_state m) (lnls m)) eq_refl) as Heq.
  rewrite length_map, last_all_states in Heq. specialize (Heq eq_refl).
  unfold _gen_A, bindM at 1, getM. rewrite HA.
  unfold bindM at 1, modifyM. unfold bindM at 1, getM.
  unfold bindM, liftM. rewrite state_list_eq, lnls_with_A.
  unfold enumerate. rewrite in_state_current in Heq.
  cbn [map app length] in Heq. rewrite all_states_length in Heq at 2.
  exact Heq.
Qed.

Lemma A_eq (m : Unilateral) :
  _A m = None ->
  A m = (Return (transition_matrix m),
         with_A (Some (transition_matrix m))
           (in_state m (replicate (length (lnls m)) 1%Z))).
Proof.
  intros HA. unfold A, bindM at 1, getM. rewrite HA. unfold bindM at 1.
  rewrite (gen_A_eq m HA). reflexivity.
Qed.

Lemma A_cached (m : Unilateral) (a : matrix) :
  _A m = Some a -> A m = (Return a, m).
Proof. intros HA. unfold A, bindM, getM. by rewrite HA. Qed.

(** ** Sums of rationals *)

Lemma Qsum_app (l1 l2 : list Q) : Qsum (l1 ++ l2) == Qsum l1 + Qsum l2.
Proof.
  induction l1 as [|x l1 IH]; cbn [app]; rewrite ?Qsum_cons.
  - cbn. lra.
  - rewrite IH. lra.
Qed.

Lemma Qsum_map_ext {A : Type} (f g : A -> Q) (l : list A) :
  (forall x, x ∈ l -> f x == g x) -> Qsum (map f l) == Qsum (map g l).
Proof.
  induction l as [|x l IH]; intros H; [reflexivity|].
  cbn [map]. rewrite !Qsum_cons, IH, (H x) by (try left; intros; apply H; by right).
  reflexivity.
Qed.

Lemma Qsum_map_scale {A : Type} (k : Q) (f : A -> Q) (l : list A) :
  Qsum (map (fun x => k * f x) l) == k * Qsum (map f l).
Proof.
  induction l as [|x l IH]; cbn [map]; rewrite ?Qsum_cons.
  - cbn. lra.
  - rewrite IH. lra.
Qed.

Lemma Qsum_map_zero {A : Type} (l : list A) : Qsum (map (fun _ => 0) l) == 0.
Proof. induction l as [|x l IH]; cbn [map]; rewrite ?Qsum_cons, ?IH; cbn; lra. Qed.

(** ** Rows of the transition matrix sum to one *)


Lemma bit_step_scale (xs : list (Z * (Z * Q))) (res : Q) :
  foldl bit_step res xs == res * foldl bit_step 1 xs.
Proof.
  revert res. induction xs as [|[new [c stay]] xs IH]; intros res; cbn [foldl].
  - lra.
  - rewrite (IH (bit_step res _)), (IH (bit_step 1 _)).
    unfold bit_step. destruct (decide (c = 0%Z)); lra.
Qed.

Lemma row_sum_abstract (cs : list (Z * Q)) :
  Forall is_bit (map fst cs) ->
  Qsum (map (fun sj => if reachable (map fst cs) sj
                       then foldl bit_step 1 (zip sj cs) else 0)
            (all_states (length cs))) == 1.
Proof.
  induction cs as [|[c stay] cs IH]; intros Hbits.
  - cbn. lra.
  - cbn [map fst] in Hbits. inversion Hbits as [|? ? Hc Hcs]; subst.
    specialize (IH Hcs).
    cbn [length all_states]. rewrite map_app, Qsum_app, !map_map.
    assert (Hstep : forall b sj,
      foldl bit_step 1 (zip (b :: sj) ((c, stay) :: cs))
      == bit_step 1 (b, (c, stay)) * foldl bit_step 1 (zip sj cs)).
    { intros b sj. cbn [zip zip_with foldl]. apply bit_step_scale. }
    assert (Hreach : forall b sj,
      reachable (map fst ((c, stay) :: cs)) (b :: sj)
      = negb (b <? c)%Z && reachable (map fst cs) sj).
    { intros b sj. unfold reachable, np_any_greater.
      cbn [map fst zip zip_with existsb snd]. by rewrite negb_orb. }
    destruct Hc as [-> | ->].
    + (* the LNL is healthy: it stays healthy or becomes involved *)
      rewrite (Qsum_map_ext _
        (fun sj => stay * (if reachable (map fst cs) sj
                           then foldl bit_step 1 (zip sj cs) else 0))).
      2:{ intros sj _. rewrite Hreach.
          change (negb (0 <? 0)%Z) with true. cbn [andb].
          destruct (reachable (map fst cs) sj); [|lra].
          rewrite Hstep. change (bit_step 1 (0%Z, (0%Z, stay))) with (1 * stay).
          lra. }
      rewrite (Qsum_map_ext (fun sj => if reachable _ (1%Z :: sj) then _ else _)
        (fun sj => (1 - stay) * (if reachable (map fst cs) sj
                                 then foldl bit_step 1 (zip sj cs) else 0))).
      2:{ intros sj _. rewrite Hreach.
          change (negb (1 <? 0)%Z) with true. cbn [andb].
          destruct (reachable (map fst cs) sj); [|lra].
          rewrite Hstep.
          change (bit_step 1 (1%Z, (0%Z, stay))) with (1 * (1 - stay)).
          lra. }
      rewrite !Qsum_map_scale, IH. lra.
    + (* the LNL is involved: it stays involved *)
      rewrite (Qsum_map_ext _ (fun _ => 0)).
      2:{ intros sj _. rewrite Hreach. reflexivity. }
      rewrite (Qsum_map_ext (fun sj => if reachable _ (1%Z :: sj) then _ else _)
        (fun sj => if reachable (map fst cs) sj
                   then foldl bit_step 1 (zip sj cs) else 0)).
      2:{ intros sj _. rewrite Hreach.
          change (negb (1 <? 1)%Z) with true. cbn [andb].
          destruct (reachable (map fst cs) sj); [|lra].
          rewrite Hstep. change (bit_step 1 (1%Z, (1%Z, stay))) with 1.
          lra. }
      rewrite Qsum_map_zero, IH. lra.
Qed.


Lemma lnl_step_bit_step (mi : Unilateral) (ls : list nat) :
  forall (sj : list Z) (res : Q),
    foldl (lnl_step mi) res (zip sj ls)
    = foldl bit_step res (zip sj (map (lnl_params mi) ls)).
Proof.
  induction ls as [|node ls IH]; intros sj res.
  - by destruct sj.
  - destruct sj as [|b sj]; [reflexivity|].
    cbn [zip zip_with map foldl]. rewrite <- IH. f_equal.
Qed.

Lemma row_spec_sum (m : Unilateral) (si : list Z) :
  si ∈ all_states (length (lnls m)) -> Qsum (row_spec m si) == 1.
Proof.
  intros Hsi. destruct (all_states_elem _ _ Hsi) as [Hlen Hbits].
  set (cs := map (lnl_params (in_state m si)) (lnls m)).
  assert (Hfst : map fst cs = si).
  { unfold cs. rewrite map_map. cbn [lnl_params fst].
    by apply in_state_lnl_states. }
  assert (Hlcs : length cs = length (lnls m)) by (unfold cs; by rewrite length_map).
  pose proof (row_sum_abstract cs) as H. rewrite Hfst, Hlcs in H.
  rewrite <- (H Hbits). unfold row_spec.
  apply Qsum_map_ext. intros sj _.
  destruct (reachable si sj); [|reflexivity].
  unfold trans_prob. rewrite lnl_step_bit_step. reflexivity.
Qed.

Lemma np_any_greater_lookup (si sj : list Z) (k : nat) (x y : Z) :
  si !! k = Some x -> sj !! k = Some y -> (y < x)%Z ->
  np_any_greater si sj = true.
Proof.
  intros Hx Hy Hlt. unfold np_any_greater. apply existsb_exists.
  exists (x, y). split; [|cbn; by apply Z.ltb_lt].
  apply (proj1 (list_elem_of_In _ _)), (list_elem_of_lookup_2 _ k).
  rewrite lookup_zip_with, Hx, Hy. reflexivity.
Qed.

Lemma transition_matrix_lookup (m : Unilateral) (i : nat) (si : list Z) :
  all_states (length (lnls m)) !! i = Some si ->
  transition_matrix m !! i = Some (row_spec m si).
Proof. intros H. unfold transition_matrix. by rewrite list_lookup_fmap, H. Qed.

Lemma row_spec_length (m : Unilateral) (si : list Z) :
  length (row_spec m si) = (2 ^ length (lnls m))%nat.
Proof. unfold row_spec. by rewrite length_map, all_states_length. Qed.

Lemma transition_matrix_length (m : Unilateral) :
  length (transition_matrix m) = (2 ^ length (lnls m))%nat.
Proof. unfold transition_matrix. by rewrite length_map, all_states_length. Qed.

(** C2: when no matrix is stored, the property [A] returns a matrix in which
    [A[i,j]] is 0 whenever some component of state [j] is strictly less than
    the same component of state [i]: the matrix is upper triangular under the
    componentwise order of the states, [_gen_A] writes only the entries the
    mask lists. *)
Theorem transition_matrix_upper_triangular (m : Unilateral) :
  _A m = None ->
  exists (a : matrix) (m' : Unilateral) (sl : list (list Z)),
    A m = (Return a, m') /\ state_list m = Return sl /\
    forall (i j : nat) (si sj : list Z),
      sl !! i = Some si -> sl !! j = Some sj ->
      (exists (k : nat) (x y : Z),
          si !! k = Some x /\ sj !! k = Some y /\ (y < x)%Z) ->
      exists row, a !! i = Some row /\ row !! j = Some 0.
Proof.
  intros HA. pose proof (A_eq m HA) as Heq.
  eexists _, _, _. split; [exact Heq|]. split; [apply state_list_eq|].
  intros i j si sj Hi Hj (k & x & y & Hx & Hy & Hlt).
  exists (row_spec m si). split; [by apply transition_matrix_lookup|].
  unfold row_spec. rewrite list_lookup_fmap, Hj. cbn.
  unfold reachable. by rewrite (np_any_greater_lookup si sj k x y).
Qed.

(** C1: when no matrix is stored, the property [A] returns a square matrix
    over the hidden states each of whose rows sums to 1, exactly and hence
    within the tolerance 1e-9, whatever the graph and the spread probabilities
    of the edges. *)
Theorem transition_matrix_rows_sum_to_one (m : Unilateral) :
  _A m = None ->
  exists (a : matrix) (m' : Unilateral),
    A m = (Return a, m') /\ length a = (2 ^ length (lnls m))%nat /\
    forall i : nat, (i < 2 ^ length (lnls m))%nat ->
      exists row, a !! i = Some row /\
        length row = (2 ^ length (lnls m))%nat /\
        Qsum row == 1 /\
        Qabs (Qsum row - 1) <= 1 # 1000000000.
Proof.
  intros HA. pose proof (A_eq m HA) as Heq.
  eexists _, _. split; [exact Heq|]. split; [apply transition_matrix_length|].
  intros i Hi. rewrite <- all_states_length in Hi.
  destruct (lookup_lt_is_Some_2 _ _ Hi) as [si Hsi].
  exists (row_spec m si). split; [by apply transition_matrix_lookup|].
  split; [apply row_spec_length|].
  assert (Hsum : Qsum (row_spec m si) == 1).
  { apply row_spec_sum. by eapply list_elem_of_lookup_2. }
  split; [exact Hsum|]. rewrite Hsum. discriminate.
Qed.

(** ** One tumor and one LNL *)



Lemma single_lnl_init (tn ln : string) :
  tn ≠ ln ->
  __init__ (single_lnl_graph tn ln) = Return (single_lnl_model tn ln 0 None).
Proof.
  intros Hne. unfold __init__, single_lnl_graph.
  cbn [map flat_map fst snd app map_result new_Node].
  unfold find_node. cbn [list_find name fmap option_fmap option_map].
  rewrite decide_True by done. cbn [fst fmap option_fmap option_map].
  rewrite decide_False by done. rewrite decide_True by done.
  reflexivity.
Qed.

Lemma single_lnl_set_spread_probs (tn ln : string) (p p0 : Q) (a : option matrix) :
  set_spread_probs [p] (single_lnl_model tn ln p0 a)
  = (Return (), single_lnl_model tn ln p None).
Proof. reflexivity. Qed.


Lemma single_lnl_transition_matrix (tn ln : string) (p : Q) (a : option matrix) :
  transition_matrix (single_lnl_model tn ln p a) = single_lnl_A p.
Proof. reflexivity. Qed.

(** The powers of the matrix of one LNL. *)
Lemma single_lnl_power (p : Q) (t : nat) :
  exists x y z w : Q,
    mat_pow_nat (single_lnl_A p) t = [[x; y]; [z; w]] /\
    x == (1 - p) ^ Z.of_nat t /\ y == 1 - (1 - p) ^ Z.of_nat t /\
    z == 0 /\ w == 1.
Proof.
  induction t as [|t (x & y & z & w & HP & Hx & Hy & Hz & Hw)].
  - exists 1, 0, 0, 1. split; [reflexivity|]. cbn. repeat split; lra.
  - cbn [mat_pow_nat]. rewrite HP.
    eexists _, _, _, _. split; [reflexivity|].
    assert (Hpow : (1 - p) ^ Z.of_nat (S t) == (1 - p) ^ Z.of_nat t * (1 - p)).
    { rewrite Nat2Z.inj_succ. unfold Z.succ.
      rewrite Qpower_plus' by lia. by rewrite Qpower_1_r. }
    rewrite Hpow. set (qt := (1 - p) ^ Z.of_nat t) in *.
    cbn. rewrite Hx, Hy, Hz, Hw. repeat split; ring.
Qed.

Lemma single_lnl_evolve (np_linalg_inv : matrix -> result matrix)
    (tn ln : string) (p : Q) (t : nat) :
  exists healthy involved : Q,
    _evolve np_linalg_inv (Z.of_nat t) None (single_lnl_model tn ln p None)
    = (Return [healthy; involved],
       mkUnilateral [mkNode tn tumor 1; mkNode ln lnl 1] [mkEdge 0 1 p]
         (Some (single_lnl_A p)) None None None None None)
    /\ healthy == (1 - p) ^ Z.of_nat t
    /\ involved == 1 - (1 - p) ^ Z.of_nat t.
Proof.
  destruct (single_lnl_power p t) as (x & y & z & w & HP & Hx & Hy & Hz & Hw).
  eexists _, _. split.
  - unfold _evolve, bindM at 1, getM.
    unfold bindM at 1, liftM at 1. rewrite state_list_eq.
    change (lnls (single_lnl_model tn ln p None)) with [1%nat].
    cbn [length all_states map app replicate].
    unfold bindM at 1, liftM at 1.
    unfold bindM at 1.
    rewrite (A_eq (single_lnl_model tn ln p None) eq_refl).
    rewrite single_lnl_transition_matrix.
    unfold bindM at 1, liftM at 1, mat_pow.
    change (is_square (single_lnl_A p)) with true. cbn [negb].
    replace (Z.of_nat t <? 0)%Z with false by (symmetry; apply Z.ltb_ge; lia).
    rewrite Nat2Z.id, HP.
    unfold bindM, liftM, np_vec_mat, retM. cbn [length]. rewrite decide_True by done.
    cbn. reflexivity.
  - split; [rewrite <- Hx | rewrite <- Hy]. 
    + cbn. rewrite Hz. ring.
    + cbn. rewrite Hw. ring.
Qed.

(** C6: for the binary model of one tumor connected to one LNL with spread
    probability [p], the state distribution that [_evolve] computes at
    diagnose time [t], from mass 1 on the healthy state, has [(1 - p)^t] on
    the healthy and [1 - (1 - p)^t] on the involved state. *)
Theorem evolve_single_lnl (np_linalg_inv : matrix -> result matrix)
    (tn ln : string) (p : Q) (t : nat) (m0 m1 : Unilateral) :
  tn ≠ ln ->
  __init__ (single_lnl_graph tn ln) = Return m0 ->
  set_spread_probs [p] m0 = (Return (), m1) ->
  exists (healthy involved : Q) (m' : Unilateral),
    _evolve np_linalg_inv (Z.of_nat t) None m1
    = (Return [healthy; involved], m')
    /\ healthy == (1 - p) ^ Z.of_nat t
    /\ involved == 1 - (1 - p) ^ Z.of_nat t.
Proof.
  intros Hne Hinit Hset.
  rewrite single_lnl_init in Hinit by done. injection Hinit as <-.
  rewrite single_lnl_set_spread_probs in Hset. injection Hset as <-.
  destruct (single_lnl_evolve np_linalg_inv tn ln p t)
    as (healthy & involved & Hev & Hh & Hi).
  eexists healthy, involved, _. split; [exact Hev|]. by split.
Qed.

(** The scenario S1 of the specification: spread probability 0.3 and
    diagnose time 2 give the distribution [0.49, 0.51]. *)
Lemma evolve_single_lnl_witness :
  exists (healthy involved : Q) (m' : Unilateral),
    _evolve (fun _ => Raise LinAlgError) 2 None
      (single_lnl_model "T" "I" (3 # 10) None)
    = (Return [healthy; involved], m')
    /\ healthy == (1 - (3 # 10)) ^ 2
    /\ involved == 1 - (1 - (3 # 10)) ^ 2.
Proof.
  apply (evolve_single_lnl (fun _ => Raise LinAlgError) "T" "I" (3 # 10) 2
           (single_lnl_model "T" "I" 0 None)
           (single_lnl_model "T" "I" (3 # 10) None));
    [discriminate | reflexivity | reflexivity].
Defined.

(** ** The state setter: what it writes and what it leaves *)

Lemma assign_states_lookup_tumor (ns : list Node) (s : list Z) (n : nat) (nd : Node) :
  ns !! n = Some nd -> is_tumor nd = true -> assign_states ns s !! n = Some nd.
Proof.
  revert s n. induction ns as [|x ns IH]; intros s n Hn Ht; [done|].
  cbn [assign_states]. destruct n as [|n].
  - injection Hn as ->. by rewrite Ht.
  - cbn in Hn. destruct (is_tumor x); [by apply IH|].
    destruct s as [|v s]; [done|]. by apply IH.
Qed.

Lemma lookup_map {A B : Type} (g : A -> B) (l : list A) (k : nat) :
  map g l !! k = g <$> l !! k.
Proof. apply (list_lookup_fmap g). Qed.

Lemma assign_states_lookup_lnl (ns : list Node) (s : list Z) (k n : nat) :
  length s = length (positions not_tumor ns) ->
  positions not_tumor ns !! k = Some n ->
  exists nd v, ns !! n = Some nd /\ is_tumor nd = false /\ s !! k = Some v /\
    assign_states ns s !! n = Some (Node_set_state v nd).
Proof.
  revert s k n. induction ns as [|x ns IH]; intros s k n Hs Hk; [done|].
  rewrite positions_cons in Hs, Hk. cbn [assign_states].
  change (not_tumor x) with (negb (is_tumor x)) in Hs, Hk.
  destruct (is_tumor x) eqn:Ht; cbn [negb app length] in Hs, Hk;
    rewrite length_map in Hs.
  - rewrite lookup_map in Hk.
    destruct (positions not_tumor ns !! k) as [n'|] eqn:Hn'; [|done].
    injection Hk as <-. destruct (IH s k n' Hs Hn') as (nd & v & ? & ? & ? & ?).
    exists nd, v. done.
  - destruct s as [|v s]; [done|]. cbn [length] in Hs. destruct k as [|k].
    + injection Hk as <-. exists x, v. done.
    + change ((0%nat :: map S (positions not_tumor ns)) !! S k)
        with (map S (positions not_tumor ns) !! k) in Hk.
      rewrite lookup_map in Hk.
      destruct (positions not_tumor ns !! k) as [n'|] eqn:Hn'; [|done].
      injection Hk as <-.
      destruct (IH s k n' ltac:(lia) Hn') as (nd & v' & ? & ? & ? & ?).
      exists nd, v'. done.
Qed.

(** C10: a sequence as long as the list of LNLs is written to the LNLs, entry
    by entry, and the tumor nodes and the edges stay as they are; a sequence
    of another length raises ValueError and nothing is modified. *)
Theorem state_setter_frame (m : Unilateral) (newstate : list Z) :
  (length newstate = length (lnls m) ->
   exists m' : Unilateral,
     set_state newstate m = (Return (), m') /\
     (forall (i node : nat), lnls m !! i = Some node ->
        exists (nd : Node) (v : Z),
          nodes m !! node = Some nd /\ newstate !! i = Some v /\
          nodes m' !! node = Some (mkNode (name nd) (typ nd) v)) /\
     (forall (node : nat) (nd : Node),
        nodes m !! node = Some nd -> typ nd = tumor ->
        nodes m' !! node = Some nd) /\
     edges m' = edges m)
  /\ (length newstate ≠ length (lnls m) ->
      set_state newstate m = (Raise ValueError, m)).
Proof.
  split; [|apply set_state_length_mismatch].
  intros Hlen. exists (in_state m newstate).
  split; [by apply set_state_eq|]. split; [|split; [|reflexivity]].
  - intros i node Hi.
    destruct (assign_states_lookup_lnl (nodes m) newstate i node Hlen Hi)
      as (nd & v & Hnd & Ht & Hv & Hnew).
    exists nd, v. split; [done|]. split; [done|].
    cbn [in_state nodes with_nodes]. rewrite Hnew. f_equal.
    unfold Node_set_state, is_tumor in *. destruct (typ nd); [done|reflexivity].
  - intros node nd Hnd Ht. apply assign_states_lookup_tumor; [done|].
    unfold is_tumor. by rewrite Ht.
Qed.

(** ** The setters of the spread probabilities *)

Lemma with_edges_edges (m : Unilateral) : with_edges (edges m) m = m.
Proof. by destruct m. Qed.

Lemma set_probs_loop (p : Edge -> bool) (es : list Edge) :
  forall (pre : list Edge) (done_ new : list Q) (m : Unilateral),
    edges m = pre ++ es ->
    (length (positions p es) <= length new)%nat ->
    forM (zip (seq (length done_) (length (positions p es)))
              (map (Nat.add (length pre)) (positions p es)))
         (set_probs_body (done_ ++ new)) m
    = (Return (), with_edges (pre ++ assign_probs p es new) m).
Proof.
  induction es as [|e es IH]; intros pre done_ new m Hm Hlen.
  - rewrite positions_nil. cbn. rewrite <- Hm. by rewrite with_edges_edges.
  - rewrite positions_cons in *. cbn [assign_probs].
    destruct (p e) eqn:Hp; cbn [app length] in *; rewrite length_map in *.
    + destruct new as [|x new]; [cbn in Hlen; lia|]. cbn [length] in Hlen.
      cbn [seq map zip zip_with forM]. unfold bindM at 1.
      unfold set_probs_body at 1. unfold bindM, liftM, index, assign_edge_t, modifyM.
      rewrite lookup_app_r by lia. rewrite Nat.sub_diag. cbn [lookup list_lookup].
      rewrite Hm, Nat.add_0_r.
      replace (alter (set_t x) (length pre) (pre ++ e :: es))
        with (pre ++ set_t x e :: es).
      2:{ clear. induction pre; [reflexivity|]. cbn. by f_equal. }
      specialize (IH (pre ++ [set_t x e]) (done_ ++ [x]) new
                    (with_edges (pre ++ set_t x e :: es) m)).
      rewrite <- !app_assoc in IH. cbn [app] in IH.
      rewrite !length_app in IH. cbn [length] in IH.
      replace (length done_ + 1)%nat with (S (length done_)) in IH by lia.
      rewrite map_map.
      erewrite (map_ext (fun x => (length pre + S x)%nat)); [rewrite IH|]; try done.
      * intros; lia.
      * lia.
    + specialize (IH (pre ++ [e]) done_ new m).
      rewrite <- !app_assoc in IH. cbn [app] in IH.
      rewrite map_map. rewrite length_app in IH. cbn [length] in IH.
      rewrite <- (IH Hm Hlen). do 2 f_equal.
      apply map_ext. intros; lia.
Qed.

Lemma set_probs_eq (p : Edge -> bool) (new : list Q) (m : Unilateral) :
  (length (positions p (edges m)) <= length new)%nat ->
  forM (enumerate (positions p (edges m))) (set_probs_body new) m
  = (Return (), with_edges (assign_probs p (edges m) new) m).
Proof.
  intros Hlen.
  pose proof (set_probs_loop p (edges m) [] [] new m eq_refl Hlen) as H.
  cbn [length app] in H. unfold enumerate.
  erewrite (map_ext (Nat.add 0) id) in H; [|intros; apply Nat.add_0_l].
  rewrite map_id in H. exact H.
Qed.

Lemma set_base_probs_eq (new : list Q) (m : Unilateral) :
  (length (base_edges m) <= length new)%nat ->
  set_base_probs new m
  = (Return (),
     with_A None
       (with_edges (assign_probs (starts_at_tumor (nodes m)) (edges m) new) m)).
Proof.
  intros Hlen. unfold set_base_probs, bindM at 1, getM. unfold bindM.
  unfold base_edges in *. by rewrite set_probs_eq.
Qed.

Lemma set_trans_probs_eq (new : list Q) (m : Unilateral) :
  (length (trans_edges m) <= length new)%nat ->
  set_trans_probs new m
  = (Return (),
     with_A None
       (with_edges (assign_probs (starts_at_lnl (nodes m)) (edges m) new) m)).
Proof.
  intros Hlen. unfold set_trans_probs, bindM at 1, getM. unfold bindM.
  unfold trans_edges in *. by rewrite set_probs_eq.
Qed.

Lemma assign_probs_start (p : Edge -> bool) (es : list Edge) (new : list Q) :
  map start (assign_probs p es new) = map start es.
Proof.
  revert new. induction es as [|e es IH]; intros new; [done|].
  cbn [assign_probs]. destruct (p e).
  - destruct new as [|x new]; [done|]. cbn [map]. by rewrite IH.
  - cbn [map]. by rewrite IH.
Qed.

Lemma positions_start (ns : list Node) (f : bool -> bool) (es es' : list Edge) :
  map start es = map start es' ->
  positions (fun e => f (starts_at_tumor ns e)) es
  = positions (fun e => f (starts_at_tumor ns e)) es'.
Proof.
  intros H. apply positions_ext.
  revert es' H. induction es as [|e es IH]; intros [|e' es'] H;
    try discriminate; [done|].
  cbn [map] in *. injection H as He Hes. unfold starts_at_tumor at 1 3.
  rewrite He. f_equal. by apply IH.
Qed.

Lemma assign_probs_values (p : Edge -> bool) (es : list Edge) (new : list Q) :
  (length (positions p es) <= length new)%nat ->
  map (fun edge => default 0 (t <$> assign_probs p es new !! edge)) (positions p es)
  = take (length (positions p es)) new.
Proof.
  revert new. induction es as [|e es IH]; intros new Hlen; [done|].
  rewrite positions_cons in *. cbn [assign_probs].
  destruct (p e) eqn:Hp; cbn [app length map] in *; rewrite length_map in *.
  - destruct new as [|x new]; [cbn in Hlen; lia|]. cbn [length] in Hlen.
    cbn [take]. f_equal. rewrite map_map. apply IH. lia.
  - rewrite map_map. by apply IH.
Qed.

Lemma assign_probs_other (p : Edge -> bool) (es : list Edge) (new : list Q)
    (n : nat) (e : Edge) :
  es !! n = Some e -> p e = false -> assign_probs p es new !! n = Some e.
Proof.
  revert new n. induction es as [|x es IH]; intros new n Hn Hp; [done|].
  cbn [assign_probs]. destruct n as [|n].
  - injection Hn as ->. by rewrite Hp.
  - cbn in Hn. destruct (p x); [|by apply IH].
    destruct new as [|y new]; [done|]. by apply IH.
Qed.

Lemma assign_probs_other_values (p q : Edge -> bool) (es : list Edge) (new : list Q) :
  (forall e, q e = true -> p e = false) ->
  map (fun edge => default 0 (t <$> assign_probs p es new !! edge)) (positions q es)
  = map (fun edge => default 0 (t <$> es !! edge)) (positions q es).
Proof.
  intros Hpq. apply map_ext_in. intros n Hn.
  apply list_elem_of_In, elem_of_positions in Hn as (e & He & Hq).
  by rewrite (assign_probs_other p es new n e He (Hpq e Hq)), He.
Qed.

Lemma base_edges_assign (ns : list Node) (p : Edge -> bool) (es : list Edge) (new : list Q) :
  positions (starts_at_tumor ns) (assign_probs p es new)
  = positions (starts_at_tumor ns) es.
Proof. apply (positions_start ns id), assign_probs_start. Qed.

Lemma trans_edges_assign (ns : list Node) (p : Edge -> bool) (es : list Edge) (new : list Q) :
  positions (starts_at_lnl ns) (assign_probs p es new)
  = positions (starts_at_lnl ns) es.
Proof. apply (positions_start ns negb), assign_probs_start. Qed.

Lemma set_base_probs_spec (new : list Q) (m : Unilateral) :
  (length (base_edges m) <= length new)%nat ->
  exists m', set_base_probs new m = (Return (), m') /\ _A m' = None /\
    nodes m' = nodes m /\
    base_edges m' = base_edges m /\ trans_edges m' = trans_edges m /\
    base_probs m' = take (length (base_edges m)) new /\
    trans_probs m' = trans_probs m.
Proof.
  intros Hlen. eexists. split; [by apply set_base_probs_eq|].
  split; [reflexivity|]. split; [reflexivity|].
  unfold base_probs, trans_probs, base_edges, trans_edges, edge_t.
  cbn [edges nodes with_A with_edges].
  rewrite base_edges_assign, trans_edges_assign.
  split; [reflexivity|]. split; [reflexivity|]. split.
  - by apply assign_probs_values.
  - apply assign_probs_other_values. intros e. unfold starts_at_lnl.
    by destruct (starts_at_tumor (nodes m) e).
Qed.

Lemma set_trans_probs_spec (new : list Q) (m : Unilateral) :
  (length (trans_edges m) <= length new)%nat ->
  exists m', set_trans_probs new m = (Return (), m') /\ _A m' = None /\
    nodes m' = nodes m /\
    base_edges m' = base_edges m /\ trans_edges m' = trans_edges m /\
    trans_probs m' = take (length (trans_edges m)) new /\
    base_probs m' = base_probs m.
Proof.
  intros Hlen. eexists. split; [by apply set_trans_probs_eq|].
  split; [reflexivity|]. split; [reflexivity|].
  unfold base_probs, trans_probs, base_edges, trans_edges, edge_t.
  cbn [edges nodes with_A with_edges].
  rewrite base_edges_assign, trans_edges_assign.
  split; [reflexivity|]. split; [reflexivity|]. split.
  - by apply assign_probs_values.
  - apply assign_probs_other_values. intros e. unfold starts_at_lnl.
    by destruct (starts_at_tumor (nodes m) e).
Qed.

Lemma spread_probs_length (m : Unilateral) :
  length (spread_probs m) = (length (base_edges m) + length (trans_edges m))%nat.
Proof.
  unfold spread_probs, base_probs, trans_probs.
  by rewrite length_app, !length_map.
Qed.

Lemma set_spread_probs_spec (new : list Q) (m : Unilateral) :
  (length (spread_probs m) <= length new)%nat ->
  exists m', set_spread_probs new m = (Return (), m') /\ _A m' = None /\
    nodes m' = nodes m /\
    base_edges m' = base_edges m /\ trans_edges m' = trans_edges m /\
    spread_probs m' = take (length (spread_probs m)) new.
Proof.
  intros Hlen. rewrite spread_probs_length in *.
  destruct (set_base_probs_spec (take (length (base_edges m)) new) m)
    as (m1 & H1 & HA1 & Hn1 & Hb1 & Ht1 & Hbp1 & Htp1).
  { rewrite length_take. lia. }
  destruct (set_trans_probs_spec (drop (length (base_edges m)) new) m1)
    as (m2 & H2 & HA2 & Hn2 & Hb2 & Ht2 & Htp2 & Hbp2).
  { rewrite length_drop, Ht1. lia. }
  exists m2. split.
  { unfold set_spread_probs, bindM at 1, getM. unfold bindM. by rewrite H1, H2. }
  split; [done|]. split; [congruence|]. split; [congruence|]. split; [congruence|].
  unfold spread_probs. rewrite Hbp2, Hbp1, Htp2, Ht1.
  rewrite take_take, Nat.min_id.
  rewrite <- (take_drop (length (base_edges m))
                (take (length (base_edges m) + length (trans_edges m)) new)).
  rewrite take_take. f_equal; [f_equal; lia|].
  by rewrite take_drop_commute.
Qed.

(** C4: each of the setters [base_probs], [trans_probs] and [spread_probs],
    given enough values, writes them to its edges and leaves the model
    without a stored matrix, whatever was stored before; the next read of [A]
    is then the transition matrix of the model with the new parameters. *)
Theorem setters_discard_cached_matrix (m : Unilateral) (new : list Q) :
  ((length (base_edges m) <= length new)%nat ->
   exists m' : Unilateral,
     set_base_probs new m = (Return (), m') /\ _A m' = None /\
     base_probs m' = take (length (base_edges m)) new /\
     fst (A m') = Return (transition_matrix m'))
  /\ ((length (trans_edges m) <= length new)%nat ->
      exists m' : Unilateral,
        set_trans_probs new m = (Return (), m') /\ _A m' = None /\
        trans_probs m' = take (length (trans_edges m)) new /\
        fst (A m') = Return (transition_matrix m'))
  /\ ((length (spread_probs m) <= length new)%nat ->
      exists m' : Unilateral,
        set_spread_probs new m = (Return (), m') /\ _A m' = None /\
        spread_probs m' = take (length (spread_probs m)) new /\
        fst (A m') = Return (transition_matrix m')).
Proof.
  split; [|split]; intros Hlen.
  - destruct (set_base_probs_spec new m Hlen) as (m' & H & HA & _ & _ & _ & Hp & _).
    exists m'. by rewrite (A_eq m' HA).
  - destruct (set_trans_probs_spec new m Hlen) as (m' & H & HA & _ & _ & _ & Hp & _).
    exists m'. by rewrite (A_eq m' HA).
  - destruct (set_spread_probs_spec new m Hlen) as (m' & H & HA & _ & _ & _ & Hp).
    exists m'. by rewrite (A_eq m' HA).
Qed.

(** ** The theorems at the example model *)

Lemma transition_matrix_upper_triangular_witness :
  _A example_model = None /\
  exists (a : matrix) (m' : Unilateral) (sl : list (list Z)),
    A example_model = (Return a, m') /\ state_list example_model = Return sl /\
    forall (i j : nat) (si sj : list Z),
      sl !! i = Some si -> sl !! j = Some sj ->
      (exists (k : nat) (x y : Z),
          si !! k = Some x /\ sj !! k = Some y /\ (y < x)%Z) ->
      exists row, a !! i = Some row /\ row !! j = Some 0.
Proof.
  split; [reflexivity|].
  apply (transition_matrix_upper_triangular example_model). reflexivity.
Defined.

Lemma transition_matrix_rows_sum_to_one_witness :
  _A example_model = None /\
  exists (a : matrix) (m' : Unilateral),
    A example_model = (Return a, m') /\
    length a = (2 ^ length (lnls example_model))%nat /\
    forall i : nat, (i < 2 ^ length (lnls example_model))%nat ->
      exists row, a !! i = Some row /\
        length row = (2 ^ length (lnls example_model))%nat /\
        Qsum row == 1 /\
        Qabs (Qsum row - 1) <= 1 # 1000000000.
Proof.
  split; [reflexivity|].
  apply (transition_matrix_rows_sum_to_one example_model). reflexivity.
Defined.

Lemma state_setter_frame_witness :
  (exists m' : Unilateral,
     set_state [1%Z; 0%Z] example_model = (Return (), m') /\
     (forall (i node : nat), lnls example_model !! i = Some node ->
        exists (nd : Node) (v : Z),
          nodes example_model !! node = Some nd /\
          [1%Z; 0%Z] !! i = Some v /\
          nodes m' !! node = Some (mkNode (name nd) (typ nd) v)) /\
     (forall (node : nat) (nd : Node),
        nodes example_model !! node = Some nd -> typ nd = tumor ->
        nodes m' !! node = Some nd) /\
     edges m' = edges example_model)
  /\ set_state [1%Z] example_model = (Raise ValueError, example_model).
Proof.
  split.
  - apply (proj1 (state_setter_frame example_model [1%Z; 0%Z])). reflexivity.
  - apply (proj2 (state_setter_frame example_model [1%Z])). vm_compute. lia.
Defined.

Lemma setters_discard_cached_matrix_witness :
  exists m' : Unilateral,
    set_spread_probs [1 # 5; 2 # 5; 3 # 5]
      (with_A (Some (transition_matrix example_model)) example_model)
    = (Return (), m') /\ _A m' = None /\
    spread_probs m' = [1 # 5; 2 # 5; 3 # 5] /\
    fst (A m') = Return (transition_matrix m').
Proof.
  apply (proj2 (proj2 (setters_discard_cached_matrix
           (with_A (Some (transition_matrix example_model)) example_model)
           [1 # 5; 2 # 5; 3 # 5]))).
  vm_compute. lia.
Defined.

End TransitionMatrix.

(** ** The log-likelihood of invalid parameters *)

Section LogLikelihood.

Import unilateral.

Variable np_linalg_inv : matrix -> result matrix.

Lemma transition_matrix_in_state (m : Unilateral) (s : list Z) (a : option matrix) :
  length s = length (lnls m) ->
  transition_matrix (with_A a (in_state m s)) = transition_matrix m.
Proof.
  intros Hs. unfold transition_matrix.
  rewrite lnls_with_A, lnls_in_state.
  apply map_ext_in. intros si Hsi.
  apply list_elem_of_In, all_states_elem in Hsi. destruct Hsi as [Hsi _].
  unfold row_spec. rewrite lnls_with_A, lnls_in_state.
  apply map_ext. intros sj. destruct (reachable si sj); [|reflexivity].
  unfold trans_prob. rewrite lnls_with_A, lnls_in_state.
  change (in_state (with_A a (in_state m s)) si)
    with (with_A a (in_state (in_state m s) si)).
  rewrite in_state_twice by done.
  reflexivity.
Qed.

Lemma A_current (m : Unilateral) :
  matrix_current m ->
  exists m', A m = (Return (transition_matrix m), m') /\
    _A m' = Some (transition_matrix m') /\
    transition_matrix m' = transition_matrix m /\
    lnls m' = lnls m /\ edges m' = edges m /\
    _modality_tables m' = _modality_tables m /\ _obs_list m' = _obs_list m /\
    _B m' = _B m /\ _C m' = _C m /\ _f m' = _f m.
Proof.
  intros [HA|HA].
  - rewrite (A_eq m HA). eexists. split; [reflexivity|].
    assert (Ht : transition_matrix
                   (with_A (Some (transition_matrix m))
                      (in_state m (replicate (length (lnls m)) 1%Z)))
                 = transition_matrix m).
    { apply transition_matrix_in_state. by rewrite length_replicate. }
    split; [by rewrite Ht|]. split; [exact Ht|].
    split; [by rewrite lnls_with_A, lnls_in_state|]. done.
  - rewrite (A_cached m _ HA). exists m. done.
Qed.

Lemma mat_pow_nat_length (a : matrix) (n : nat) :
  length (mat_pow_nat a n) = length a.
Proof.
  destruct n; cbn [mat_pow_nat].
  - unfold np_eye. by rewrite length_map, length_seq.
  - unfold mat_mat. rewrite length_map. induction n; cbn [mat_pow_nat].
    + unfold np_eye. by rewrite length_map, length_seq.
    + unfold mat_mat. by rewrite length_map.
Qed.

Lemma is_square_transition_matrix (m : Unilateral) :
  is_square (transition_matrix m) = true.
Proof.
  unfold is_square. apply forallb_forall. intros row Hrow.
  rewrite transition_matrix_length.
  unfold transition_matrix in Hrow. apply in_map_iff in Hrow.
  destruct Hrow as (si & <- & _). rewrite row_spec_length. apply Nat.eqb_refl.
Qed.

Lemma vec_mat_length (v : list Q) (a : matrix) :
  length (vec_mat v a) = ncols a.
Proof. unfold vec_mat. by rewrite length_map, length_seq. Qed.

Lemma pow2_pos (L : nat) : (0 < 2 ^ L)%nat.
Proof. induction L; cbn; lia. Qed.

Lemma ncols_mat_pow_nat (a : matrix) (n : nat) :
  is_square a = true -> ncols (mat_pow_nat a n) = length a.
Proof.
  intros Hsq. destruct n; cbn [mat_pow_nat].
  - destruct (length a) eqn:E; [reflexivity|].
    change (ncols (np_eye (S n)))
      with (length (map (fun j => if Nat.eqb 0 j then 1 else 0) (seq 0 (S n)))).
    by rewrite length_map, length_seq.
  - unfold mat_mat. destruct (mat_pow_nat a n) as [|r rs] eqn:E.
    + pose proof (mat_pow_nat_length a n) as Hl. rewrite E in Hl.
      cbn in Hl. cbn. done.
    + cbn [map ncols]. rewrite vec_mat_length.
      destruct a as [|row a']; [reflexivity|]. cbn [ncols].
      cbn [is_square forallb] in Hsq. apply andb_prop in Hsq as [Hsq _].
      by apply Nat.eqb_eq in Hsq.
Qed.

Lemma evolve_returns (t : Z) (m : Unilateral) :
  (0 <= t)%Z -> matrix_current m ->
  exists v m', _evolve np_linalg_inv t None m = (Return v, m') /\
    length v = (2 ^ length (lnls m))%nat /\
    _A m' = Some (transition_matrix m') /\
    transition_matrix m' = transition_matrix m /\
    lnls m' = lnls m /\ edges m' = edges m /\
    _modality_tables m' = _modality_tables m /\ _obs_list m' = _obs_list m /\
    _B m' = _B m /\ _C m' = _C m /\ _f m' = _f m.
Proof.
  intros Ht Hcur.
  destruct (A_current m Hcur) as (m' & HA & Hrest).
  unfold _evolve, bindM at 1, getM.
  unfold bindM at 1, liftM at 1. rewrite state_list_eq, all_states_length.
  pose proof (pow2_pos (length (lnls m))) as Hpos.
  destruct (2 ^ length (lnls m))%nat as [|n] eqn:En; [lia|].
  cbn [replicate]. unfold bindM at 1, liftM at 1.
  unfold bindM at 1. rewrite HA.
  unfold bindM at 1, liftM at 1, mat_pow.
  rewrite is_square_transition_matrix. cbn [negb].
  replace (t <? 0)%Z with false by (symmetry; apply Z.ltb_ge; lia).
  unfold bindM, liftM, np_vec_mat, retM.
  rewrite decide_True.
  2:{ cbn [length]. by rewrite length_replicate, mat_pow_nat_length,
        transition_matrix_length. }
  eexists _, m'. split; [reflexivity|]. split; [|exact Hrest].
  rewrite vec_mat_length, ncols_mat_pow_nat by apply is_square_transition_matrix.
  by rewrite transition_matrix_length.
Qed.


Lemma diag_times_loop_exceeds (dts : gmap string Q) (mt : Z) (ts : list string) :
  forall (sp : gmap string (list Q)) (m : Unilateral) (k : nat) (stage : string) (dt : Q),
    matrix_current m ->
    ts !! k = Some stage -> dts !! stage = Some dt -> (mt < np_around dt)%Z ->
    (forall j s, (j < k)%nat -> ts !! j = Some s ->
       exists dt', dts !! s = Some dt' /\ (0 <= np_around dt')%Z) ->
    exists m', diag_times_loop np_linalg_inv ts dts (Some mt) sp m = (Return None, m').
Proof.
  induction ts as [|s0 ts IH]; intros sp m k stage dt Hcur Hk Hdt Hex Hbefore.
  - by rewrite lookup_nil in Hk.
  - cbn [diag_times_loop]. destruct k as [|k].
    + injection Hk as ->.
      unfold bindM, liftM, getitem. rewrite Hdt.
      replace (mt <? np_around dt)%Z with true by (symmetry; apply Z.ltb_lt; lia).
      by eexists.
    + destruct (Hbefore 0%nat s0 ltac:(lia) eq_refl) as (dt0 & Hdt0 & Hpos).
      unfold bindM at 1, liftM at 1, getitem. rewrite Hdt0.
      unfold bindM at 1, liftM at 1.
      destruct (mt <? np_around dt0)%Z; [by eexists|].
      destruct (evolve_returns (np_around dt0) m Hpos Hcur)
        as (v & m1 & Hev & _ & HA1 & _).
      unfold bindM at 1. rewrite Hev.
      apply (IH _ m1 k stage dt); try done.
      * by right.
      * intros j s Hj Hs. apply (Hbefore (S j) s); [lia|done].
Qed.

Lemma spread_probs_invalid (new : list Q) (m : Unilateral) :
  length new = length (spread_probs m) ->
  (exists x, x ∈ new /\ ~ (0 <= x <= 1)) ->
  _spread_probs_are_valid new m = Return false.
Proof.
  intros Hlen (x & Hx & Hbad). unfold _spread_probs_are_valid.
  rewrite decide_False by (intros H; by apply H).
  destruct (existsb (Qgreater 0) new) eqn:E0; [reflexivity|].
  destruct (existsb (fun x => Qgreater x 1) new) eqn:E1; [reflexivity|].
  exfalso. apply Hbad.
  apply list_elem_of_In in Hx.
  pose proof (existsb_exists (Qgreater 0) new) as H0.
  pose proof (existsb_exists (fun x => Qgreater x 1) new) as H1.
  split.
  - destruct (Qle_bool 0 x) eqn:E; [by apply Qle_bool_iff|].
    enough (true = false) by done. rewrite <- E0. symmetry. apply H0.
    exists x. split; [done|]. unfold Qgreater. by rewrite E.
  - destruct (Qle_bool x 1) eqn:E; [by apply Qle_bool_iff|].
    enough (true = false) by done. rewrite <- E1. symmetry. apply H1.
    exists x. split; [done|]. unfold Qgreater. by rewrite E.
Qed.

Lemma spread_probs_valid_cases (new : list Q) (m : Unilateral) :
  length new = length (spread_probs m) ->
  exists b, _spread_probs_are_valid new m = Return b.
Proof.
  intros Hlen. unfold _spread_probs_are_valid.
  rewrite decide_False by (intros H; by apply H).
  destruct (existsb (Qgreater 0) new); [by eexists|].
  destruct (existsb (fun x => Qgreater x 1) new); by eexists.
Qed.

Lemma spread_probs_valid (new : list Q) (m : Unilateral) :
  length new = length (spread_probs m) ->
  Forall (fun x => 0 <= x <= 1) new ->
  _spread_probs_are_valid new m = Return true.
Proof.
  intros Hlen Hall. unfold _spread_probs_are_valid.
  rewrite decide_False by (intros H; by apply H).
  assert (H0 : existsb (Qgreater 0) new = false).
  { destruct (existsb (Qgreater 0) new) eqn:E; [|done].
    apply existsb_exists in E as (x & Hx & Hg).
    apply list_elem_of_In in Hx.
    pose proof (proj1 (Forall_forall _ _) Hall x Hx) as [Hx0 _].
    unfold Qgreater in Hg. apply Qle_bool_iff in Hx0. by rewrite Hx0 in Hg. }
  assert (H1 : existsb (fun x => Qgreater x 1) new = false).
  { destruct (existsb (fun x => Qgreater x 1) new) eqn:E; [|done].
    apply existsb_exists in E as (x & Hx & Hg).
    apply list_elem_of_In in Hx.
    pose proof (proj1 (Forall_forall _ _) Hall x Hx) as [_ Hx1].
    unfold Qgreater in Hg. apply Qle_bool_iff in Hx1. by rewrite Hx1 in Hg. }
  by rewrite H0, H1.
Qed.

(** C3, amended: for spread probabilities that are numbers,
    [log_likelihood] raises [ValueError] when their number differs from the
    number of edges; it returns minus infinity, leaving the model as it was,
    when the number matches and some entry lies outside [0,1]; in HMM mode,
    with the T-stages listed, an integer [max_t] and one diagnose time given
    per listed T-stage, it returns minus infinity when the rounded diagnose
    time of a listed T-stage exceeds [max_t] and every T-stage listed before
    it has a diagnose time that rounds to a non-negative number; and in HMM
    mode, with the T-stages listed and one spread probability in [0,1] per
    edge, it raises [ValueError] when the number of diagnose times differs
    from the number of listed T-stages. *)
Theorem log_likelihood_invalid_parameters (m : Unilateral)
    (new_spread_probs : list Q) (t_stages : option (list string))
    (diag_times : option (gmap string Q)) (max_t : option Z)
    (time_dists : option (gmap string (list Q))) (mode : string) :
  (length new_spread_probs ≠ length (spread_probs m) ->
   log_likelihood np_linalg_inv new_spread_probs t_stages diag_times max_t
     time_dists mode m = (Raise ValueError, m))
  /\ (length new_spread_probs = length (spread_probs m) ->
      (exists x, x ∈ new_spread_probs /\ ~ (0 <= x <= 1)) ->
      log_likelihood np_linalg_inv new_spread_probs t_stages diag_times max_t
        time_dists mode m = (Return neg_inf, m))
  /\ (length new_spread_probs = length (spread_probs m) ->
      mode = "HMM"%string ->
      forall (ts : list string) (dts : gmap string Q) (mt : Z),
        t_stages = Some ts -> diag_times = Some dts -> max_t = Some mt ->
        size dts = length ts ->
        forall (k : nat) (stage : string) (dt : Q),
          ts !! k = Some stage -> dts !! stage = Some dt ->
          (mt < np_around dt)%Z ->
          (forall j s, (j < k)%nat -> ts !! j = Some s ->
             exists dt', dts !! s = Some dt' /\ (0 <= np_around dt')%Z) ->
          exists m',
            log_likelihood np_linalg_inv new_spread_probs t_stages diag_times
              max_t time_dists mode m = (Return neg_inf, m'))
  /\ (length new_spread_probs = length (spread_probs m) ->
      Forall (fun x => 0 <= x <= 1) new_spread_probs ->
      mode = "HMM"%string ->
      forall (ts : list string) (dts : gmap string Q),
        t_stages = Some ts -> diag_times = Some dts ->
        size dts ≠ length ts ->
        exists m',
          log_likelihood np_linalg_inv new_spread_probs t_stages diag_times
            max_t time_dists mode m = (Raise ValueError, m')).
Proof.
  split; [|split; [|split]].
  - intros Hlen. unfold log_likelihood, bindM, getM, liftM, _spread_probs_are_valid.
    by rewrite decide_True.
  - intros Hlen Hbad. unfold log_likelihood, bindM, getM, liftM.
    by rewrite spread_probs_invalid.
  - intros Hlen -> ts dts mt -> -> -> Hsize k stage dt Hk Hdt Hex Hbefore.
    destruct (spread_probs_valid_cases new_spread_probs m Hlen) as [b Hb].
    unfold log_likelihood, bindM at 1, getM. unfold bindM at 1, liftM at 1.
    rewrite Hb. destruct b; cbn [negb]; [|by eexists].
    destruct (set_spread_probs_spec new_spread_probs m) as (m1 & Hset & HA1 & _).
    { lia. }
    unfold bindM at 1. rewrite Hset.
    rewrite decide_True by reflexivity.
    unfold bindM at 1, retM at 1. unfold bindM at 1.
    rewrite decide_False by (intros H; by apply H).
    destruct (diag_times_loop_exceeds dts mt ts ∅ m1 k stage dt) as (m' & Hloop);
      try done.
    { by left. }
    rewrite Hloop. by eexists.
  - intros Hlen Hvalid -> ts dts -> -> Hsize.
    destruct (set_spread_probs_spec new_spread_probs m) as (m1 & Hset & _).
    { lia. }
    exists m1.
    unfold log_likelihood, bindM at 1, getM. unfold bindM at 1, liftM at 1.
    rewrite (spread_probs_valid new_spread_probs m Hlen Hvalid). cbn [negb].
    unfold bindM at 1. rewrite Hset.
    rewrite decide_True by reflexivity.
    unfold bindM at 1, retM at 1. unfold bindM at 1.
    by rewrite decide_True.
Qed.

End LogLikelihood.

Section LogLikelihoodExamples.

Import unilateral.

(** C3 as stated fails, in three ways.  With valid spread probabilities, in
    HMM mode, with two T-stages listed and a diagnose time for one of them
    only, which rounds to 20 and exceeds [max_t = 10], [log_likelihood]
    raises [ValueError].  With no T-stages listed and the same diagnose time,
    it raises [AttributeError], because it reads the attribute [f_dict] that
    the object does not have.  And with the spread probability 1 from the
    tumor to level I, the diagnose time -1 for the first T-stage and 20 for
    the second, it raises [LinAlgError]: for a negative time [matrix_power]
    inverts the transition matrix, whose first column is zero. *)
Lemma log_likelihood_diag_times_mismatch_raises :
  (10 < np_around 20)%Z /\
  fst (log_likelihood (fun _ => Raise LinAlgError) [1 # 2; 1 # 3; 1 # 4]
         (Some ["early"; "late"]%string) (Some {["early"%string := 20]})
         (Some 10%Z) None "HMM" example_model)
  = Raise ValueError /\
  fst (log_likelihood (fun _ => Raise LinAlgError) [1 # 2; 1 # 3; 1 # 4]
         None (Some {["early"%string := 20]})
         (Some 10%Z) None "HMM" example_model)
  = Raise AttributeError /\
  np_around (-1) = (-1)%Z /\
  forallb (fun row => Qeq_bool (default 1 (row !! 0%nat)) 0)
    (transition_matrix (snd (set_spread_probs [1; 1 # 3; 1 # 4] example_model)))
  = true /\
  fst (log_likelihood (fun _ => Raise LinAlgError) [1; 1 # 3; 1 # 4]
         (Some ["early"; "late"]%string)
         (Some (<["early"%string := -1]> {["late"%string := 20]}))
         (Some 10%Z) None "HMM" example_model)
  = Raise LinAlgError.
Proof. repeat split; vm_compute; reflexivity. Qed.

(** The four cases on the example model: two values for three edges, the
    value 5/4, the diagnose times 2 for [early] and 20 for [late] under
    [max_t = 10], and one diagnose time for two T-stages. *)
Lemma log_likelihood_invalid_parameters_witness :
  log_likelihood (fun _ => Raise LinAlgError) [1 # 2; 1 # 3] None None None None
    "HMM" example_model = (Raise ValueError, example_model)
  /\ log_likelihood (fun _ => Raise LinAlgError) [1 # 2; 1 # 3; 5 # 4] None None
       None None "HMM" example_model = (Return neg_inf, example_model)
  /\ (exists m',
       log_likelihood (fun _ => Raise LinAlgError) [1 # 2; 1 # 3; 1 # 4]
         (Some ["early"; "late"]%string)
         (Some (<["early"%string := 2]> {["late"%string := 20]}))
         (Some 10%Z) None "HMM" example_model = (Return neg_inf, m'))
  /\ exists m',
       log_likelihood (fun _ => Raise LinAlgError) [1 # 2; 1 # 3; 1 # 4]
         (Some ["early"; "late"]%string) (Some {["early"%string := 2]})
         (Some 10%Z) None "HMM" example_model = (Raise ValueError, m').
Proof.
  split; [|split; [|split]].
  - apply (proj1 (log_likelihood_invalid_parameters (fun _ => Raise LinAlgError)
                    example_model [1 # 2; 1 # 3] None None None None "HMM")).
    vm_compute. lia.
  - apply (proj1 (proj2 (log_likelihood_invalid_parameters
                           (fun _ => Raise LinAlgError) example_model
                           [1 # 2; 1 # 3; 5 # 4] None None None None "HMM"))).
    + reflexivity.
    + exists (5 # 4). split; [repeat constructor|]. intros [_ H]. vm_compute in H. done.
  - apply (proj1 (proj2 (proj2 (log_likelihood_invalid_parameters
                           (fun _ => Raise LinAlgError) example_model
                           [1 # 2; 1 # 3; 1 # 4] (Some ["early"; "late"]%string)
                           (Some (<["early"%string := 2]> {["late"%string := 20]}))
                           (Some 10%Z) None "HMM")))
             eq_refl eq_refl ["early"; "late"]%string
             (<["early"%string := 2]> {["late"%string := 20]}) 10%Z
             eq_refl eq_refl eq_refl) with (k := 1%nat) (stage := "late"%string)
             (dt := 20).
    + vm_compute. reflexivity.
    + reflexivity.
    + vm_compute. reflexivity.
    + vm_compute. reflexivity.
    + intros j s Hj Hs. destruct j as [|j]; [|lia].
      injection Hs as <-. exists 2. split; [reflexivity|]. vm_compute. discriminate.
  - apply (proj2 (proj2 (proj2 (log_likelihood_invalid_parameters
                           (fun _ => Raise LinAlgError) example_model
                           [1 # 2; 1 # 3; 1 # 4] (Some ["early"; "late"]%string)
                           (Some {["early"%string := 2]})
                           (Some 10%Z) None "HMM")))
             eq_refl) with (ts := ["early"; "late"]%string)
             (dts := {["early"%string := 2]}).
    + repeat (apply List.Forall_cons; [split; unfold Qle; cbn; lia|]).
      apply List.Forall_nil.
    + reflexivity.
    + reflexivity.
    + reflexivity.
    + vm_compute. lia.
Defined.

End LogLikelihoodExamples.

Section Observations.

Import unilateral.

Lemma obs_index_bound (n_obs L j k : nat) :
  (j < L)%nat -> (k < n_obs)%nat -> (k * L + j < n_obs * L)%nat.
Proof. intros Hj Hk. nia. Qed.

Lemma obs_position (n_obs j k : nat) :
  (k < n_obs)%nat ->
  ((j * n_obs + k) mod n_obs = k /\ (j * n_obs + k) / n_obs = j)%nat.
Proof.
  intros Hk. split.
  - rewrite Nat.add_comm, Nat.Div0.mod_add. by apply Nat.mod_small.
  - rewrite Nat.add_comm, Nat.div_add by lia. rewrite Nat.div_small by done. lia.
Qed.

Lemma gen_obs_list_entry_eq (n_obs L i j k : nat) (x : Unilateral)
    (ol : list (list Z)) (row : list Z) :
  _obs_list x = Some ol -> ol !! i = Some row ->
  (j < L)%nat -> (k < n_obs)%nat -> length row = (n_obs * L)%nat ->
  _gen_obs_list_entry n_obs L i (map chr (bits (n_obs * L) (Z.of_nat i))) (j, k) x
  = (Return (),
     with_obs_list
       (Some (<[i := <[(j * n_obs + k)%nat := obs_entry n_obs L i (j * n_obs + k)]> row]> ol))
       x).
Proof.
  intros Hol Hrow Hj Hk Hlen.
  pose proof (obs_index_bound n_obs L j k Hj Hk) as Hidx.
  destruct (obs_position n_obs j k Hk) as [Hmod Hdiv].
  destruct (lookup_lt_is_Some_2 (bits (n_obs * L) (Z.of_nat i)) (k * L + j)) as [d Hd].
  { by rewrite bits_length. }
  assert (Hbit : (0 <= d < 2)%Z).
  { pose proof (bits_are_bits (n_obs * L) (Z.of_nat i)) as Hb.
    rewrite Forall_forall in Hb.
    specialize (Hb d (list_elem_of_lookup_2 _ _ _ Hd)). lia. }
  unfold _gen_obs_list_entry, bindM at 1, liftM at 1, index.
  rewrite list_lookup_fmap, Hd. cbn [fmap option_fmap option_map].
  unfold bindM at 1, liftM at 1. rewrite int_of_digit_chr by done.
  unfold bindM at 1, getM. rewrite Hol.
  unfold bindM, liftM, set_entry_Z, modifyM. rewrite Hrow.
  rewrite decide_True by nia.
  unfold obs_entry. rewrite Hmod, Hdiv, Hd. reflexivity.
Qed.

Lemma gen_obs_list_entries (n_obs L i : nat) (jks : list (nat * nat)) :
  forall (x : Unilateral) (ol : list (list Z)) (row : list Z),
    _obs_list x = Some ol -> ol !! i = Some row -> length row = (n_obs * L)%nat ->
    Forall (fun jk => (fst jk < L)%nat /\ (snd jk < n_obs)%nat) jks ->
    forM jks (_gen_obs_list_entry n_obs L i (map chr (bits (n_obs * L) (Z.of_nat i)))) x
    = (Return (),
       with_obs_list
         (Some (<[i := foldl (fun r p => <[p := obs_entry n_obs L i p]> r) row
                         (map (fun jk => (fst jk * n_obs + snd jk)%nat) jks)]> ol))
         x).
Proof.
  induction jks as [|[j k] jks IH]; intros x ol row Hol Hrow Hlen Hjks.
  - cbn [forM foldl map]. unfold retM. rewrite list_insert_id by done.
    destruct x; cbn in *; by subst.
  - inversion Hjks as [|? ? [Hj Hk] Hjks']; subst. cbn [fst snd] in Hj, Hk.
    cbn [forM foldl map fst snd]. unfold bindM.
    rewrite (gen_obs_list_entry_eq n_obs L i j k x ol row) by done.
    rewrite (IH _ (<[i := <[(j * n_obs + k)%nat := obs_entry n_obs L i (j * n_obs + k)]> row]> ol)
               (<[(j * n_obs + k)%nat := obs_entry n_obs L i (j * n_obs + k)]> row)).
    + rewrite list_insert_insert_eq. reflexivity.
    + reflexivity.
    + apply list_lookup_insert_eq. by eapply lookup_lt_Some.
    + by rewrite length_insert.
    + exact Hjks'.
Qed.

Lemma elem_of_nested_range (a b j k : nat) :
  (j, k) ∈ nested_range a b <-> (j < a)%nat /\ (k < b)%nat.
Proof.
  unfold nested_range. rewrite list_elem_of_In, in_flat_map. split.
  - intros (j' & Hj' & Hin). apply in_map_iff in Hin as (k' & Heq & Hk').
    injection Heq as <- <-. apply in_seq in Hj', Hk'. lia.
  - intros [Hj Hk]. exists j. split; [apply in_seq; lia|].
    apply in_map_iff. exists k. split; [done|]. apply in_seq; lia.
Qed.

Lemma obs_row_filled (n_obs L i : nat) (row : list Z) :
  length row = (n_obs * L)%nat ->
  foldl (fun r p => <[p := obs_entry n_obs L i p]> r) row
    (map (fun jk => (fst jk * n_obs + snd jk)%nat) (nested_range L n_obs))
  = obs_row n_obs L i.
Proof.
  intros Hlen. apply list_eq. intros p.
  rewrite foldl_insert_lookup. unfold obs_row.
  destruct (decide (p < n_obs * L)%nat) as [Hp|Hp].
  - destruct (lookup_lt_is_Some_2 row p) as [old Hold]; [lia|].
    rewrite Hold. cbn [fmap option_fmap option_map].
    rewrite list_lookup_fmap, lookup_seq_lt by done. cbn.
    rewrite decide_True; [done|].
    apply list_elem_of_fmap. exists (p / n_obs, p mod n_obs)%nat.
    assert (n_obs <> 0)%nat by lia.
    cbn [fst snd]. split.
    + rewrite (Nat.div_mod_eq p n_obs) at 1. lia.
    + apply elem_of_nested_range. split.
      * apply Nat.Div0.div_lt_upper_bound. lia.
      * by apply Nat.mod_upper_bound.
  - rewrite (lookup_ge_None_2 row) by lia.
    rewrite list_lookup_fmap, lookup_seq_ge by lia. reflexivity.
Qed.

Lemma gen_obs_list_row_eq (n_obs L i : nat) (x : Unilateral)
    (ol : list (list Z)) (row : list Z) :
  _obs_list x = Some ol -> ol !! i = Some row -> length row = (n_obs * L)%nat ->
  (i < 2 ^ (n_obs * L))%nat ->
  _gen_obs_list_row n_obs L i x
  = (Return (), with_obs_list (Some (<[i := obs_row n_obs L i]> ol)) x).
Proof.
  intros Hol Hrow Hlen Hi.
  unfold _gen_obs_list_row, bindM, liftM.
  rewrite change_base_binary.
  2:{ split; [lia|]. rewrite <- pow2_Z. lia. }
  rewrite (gen_obs_list_entries n_obs L i (nested_range L n_obs) x ol row);
    try done.
  - by rewrite obs_row_filled.
  - apply Forall_forall. intros [j k] Hjk. by apply elem_of_nested_range.
Qed.


Lemma with_obs_list_twice (a b : option (list (list Z))) (x : Unilateral) :
  with_obs_list a (with_obs_list b x) = with_obs_list a x.
Proof. reflexivity. Qed.

Lemma obs_row_length (n_obs L i : nat) : length (obs_row n_obs L i) = (n_obs * L)%nat.
Proof. unfold obs_row. by rewrite length_map, length_seq. Qed.

Lemma gen_obs_list_rows (n_obs L : nat) (n : nat) :
  forall (a : nat) (x : Unilateral),
    (a + n <= 2 ^ (n_obs * L))%nat ->
    _obs_list x
    = Some (map (obs_row n_obs L) (seq 0 a)
            ++ replicate (2 ^ (n_obs * L) - a) (replicate (n_obs * L) 0%Z)) ->
    forM (seq a n) (_gen_obs_list_row n_obs L) x
    = (Return (),
       with_obs_list
         (Some (map (obs_row n_obs L) (seq 0 (a + n))
                ++ replicate (2 ^ (n_obs * L) - (a + n)) (replicate (n_obs * L) 0%Z)))
         x).
Proof.
  induction n as [|n IH]; intros a x Ha Hol.
  - cbn [seq forM]. unfold retM. rewrite Nat.add_0_r, <- Hol.
    destruct x; reflexivity.
  - cbn [seq forM]. unfold bindM.
    assert (Hrow : (map (obs_row n_obs L) (seq 0 a)
                    ++ replicate (2 ^ (n_obs * L) - a) (replicate (n_obs * L) 0%Z)) !! a
                   = Some (replicate (n_obs * L) 0%Z)).
    { rewrite lookup_app_r by (by rewrite length_map, length_seq).
      rewrite length_map, length_seq, Nat.sub_diag.
      apply lookup_replicate_2. lia. }
    rewrite (gen_obs_list_row_eq n_obs L a x _ _ Hol Hrow)
      by (rewrite ?length_replicate; lia).
    rewrite (IH (S a)).
    + rewrite with_obs_list_twice.
      replace (S a + n)%nat with (a + S n)%nat by lia. reflexivity.
    + lia.
    + cbn [_obs_list with_obs_list]. f_equal.
      replace (2 ^ (n_obs * L) - a)%nat with (S (2 ^ (n_obs * L) - S a)) by lia.
      cbn [replicate].
      rewrite insert_app_r_alt by (by rewrite length_map, length_seq).
      rewrite length_map, length_seq, Nat.sub_diag. cbn [insert list_insert].
      rewrite seq_S, map_app. cbn [map Nat.add]. by rewrite <- app_assoc.
Qed.

Lemma obs_list_eq (m : Unilateral) (tables : list (string * matrix)) :
  _modality_tables m = Some tables -> _obs_list m = None ->
  obs_list m
  = (Return (all_observations (length tables) (length (lnls m))),
     with_obs_list (Some (all_observations (length tables) (length (lnls m)))) m).
Proof.
  intros Ht Hol. unfold obs_list, bindM at 1, getM. rewrite Hol.
  unfold bindM at 1, _gen_obs_list, bindM at 1, modality_tables, bindM at 1, getM.
  rewrite Ht. unfold retM at 1. unfold bindM at 1, getM. rewrite Hol.
  unfold bindM at 1, modifyM.
  rewrite (gen_obs_list_rows (length tables) (length (lnls m))
             (2 ^ (length tables * length (lnls m))) 0).
  - rewrite with_obs_list_twice. unfold bindM, getM. cbn [_obs_list with_obs_list].
    unfold retM. rewrite Nat.add_0_l, Nat.sub_diag. cbn [replicate].
    by rewrite app_nil_r.
  - lia.
  - cbn [_obs_list with_obs_list seq map app]. by rewrite Nat.sub_0_r.
Qed.

Lemma obs_list_current (m : Unilateral) (tables : list (string * matrix)) :
  _modality_tables m = Some tables -> observations_current m ->
  exists m',
    obs_list m = (Return (all_observations (length tables) (length (lnls m))), m') /\
    m' = with_obs_list (Some (all_observations (length tables) (length (lnls m)))) m.
Proof.
  intros Ht [Hol|Hol].
  - rewrite (obs_list_eq m tables Ht Hol). by eexists.
  - unfold n_modalities in Hol. rewrite Ht in Hol. cbn [default] in Hol.
    exists m. split.
    + unfold obs_list, bindM, getM. by rewrite Hol.
    + destruct m; cbn in *; by subst.
Qed.

End Observations.

Section Unique.

Import unilateral.

Lemma lex_compare_eq (c d : list bool) : lex_compare c d = Eq <-> c = d.
Proof.
  revert d. induction c as [|x c IH]; intros [|y d]; cbn [lex_compare]; try done.
  destruct x, y; try (split; (discriminate || congruence)).
  - rewrite IH. split; congruence.
  - rewrite IH. split; congruence.
Qed.

Lemma lex_compare_antisym (c d : list bool) :
  lex_compare d c = CompOpp (lex_compare c d).
Proof.
  revert d. induction c as [|x c IH]; intros [|y d]; cbn [lex_compare]; try done.
  destruct x, y; cbn; try done; apply IH.
Qed.

Lemma lex_compare_trans (a b c : list bool) :
  lex_compare a b = Lt -> lex_compare b c = Lt -> lex_compare a c = Lt.
Proof.
  revert b c. induction a as [|x a IH]; intros [|y b] [|z c]; cbn [lex_compare];
    try done.
  destruct x, y, z; try done; apply IH.
Qed.

Lemma insert_count_Forall (P : list bool * Z -> Prop) (c : list bool)
    (acc : list (list bool * Z)) :
  P (c, 1%Z) -> (forall d n, P (d, n) -> P (d, (n + 1)%Z)) ->
  Forall P acc -> Forall P (insert_count c acc).
Proof.
  intros Hc Hinc. induction acc as [|[d n] acc IH]; intros Hacc; cbn [insert_count].
  - by constructor.
  - inversion Hacc as [|? ? Hd Hacc']; subst.
    destruct (lex_compare c d); constructor; auto.
Qed.

Lemma insert_count_sorted (c : list bool) (acc : list (list bool * Z)) :
  StronglySorted keys_lt acc -> StronglySorted keys_lt (insert_count c acc).
Proof.
  induction acc as [|[d n] acc IH]; intros Hs; cbn [insert_count].
  - repeat constructor.
  - inversion Hs as [|? ? Hs' Hall]; subst.
    destruct (lex_compare c d) eqn:Hcd.
    + constructor; [done|]. eapply Forall_impl; [exact Hall|]. by intros [d' n'].
    + constructor; [done|]. constructor; [exact Hcd|].
      eapply Forall_impl; [exact Hall|]. intros [d' n'] Hd'.
      unfold keys_lt in *. cbn [fst] in *. by eapply lex_compare_trans.
    + constructor; [by apply IH|].
      apply insert_count_Forall; [| |done].
      * unfold keys_lt. cbn [fst]. by rewrite lex_compare_antisym, Hcd.
      * by intros d' n'.
Qed.

Lemma np_unique_sorted (cols : list (list bool)) :
  StronglySorted keys_lt (np_unique cols).
Proof.
  induction cols as [|c cols IH]; cbn [np_unique foldr]; [constructor|].
  by apply insert_count_sorted.
Qed.

Lemma sorted_keys_NoDup (acc : list (list bool * Z)) :
  StronglySorted keys_lt acc -> NoDup (map fst acc).
Proof.
  induction 1 as [|x acc Hs IH Hall]; cbn [map]; constructor; [|done].
  intros Hin. apply list_elem_of_fmap in Hin as (y & Hxy & Hy).
  rewrite Forall_forall in Hall. specialize (Hall y Hy).
  unfold keys_lt in Hall. rewrite Hxy in Hall.
  assert (lex_compare (fst y) (fst y) = Eq) as Heq by (by apply lex_compare_eq).
  congruence.
Qed.

Lemma np_unique_NoDup (cols : list (list bool)) : NoDup (map fst (np_unique cols)).
Proof. apply sorted_keys_NoDup, np_unique_sorted. Qed.

Lemma np_unique_keys (cols : list (list bool)) :
  Forall (fun x => fst x ∈ cols) (np_unique cols).
Proof.
  induction cols as [|c cols IH]; cbn [np_unique foldr]; [constructor|].
  apply insert_count_Forall.
  - cbn. left.
  - by intros d n.
  - eapply Forall_impl; [exact IH|]. intros x Hx. by right.
Qed.

Lemma count_of_cons (d : list bool) (n : Z) (acc : list (list bool * Z))
    (c' : list bool) :
  count_of ((d, n) :: acc) c'
  = ((if decide (d = c') then n else 0) + count_of acc c')%Z.
Proof.
  unfold count_of. cbn [List.filter fst].
  destruct (decide (d = c')) as [->|Hne].
  - rewrite bool_decide_eq_true_2 by done. reflexivity.
  - rewrite bool_decide_eq_false_2 by done. reflexivity.
Qed.

Lemma count_of_insert (c c' : list bool) (acc : list (list bool * Z)) :
  count_of (insert_count c acc) c'
  = (count_of acc c' + if decide (c = c') then 1 else 0)%Z.
Proof.
  induction acc as [|[d n] acc IH]; cbn [insert_count].
  - rewrite count_of_cons. unfold count_of. cbn. lia.
  - destruct (lex_compare c d) eqn:Hcd.
    + apply lex_compare_eq in Hcd as ->. rewrite !count_of_cons.
      destruct (decide (d = c')); lia.
    + rewrite !count_of_cons. destruct (decide (c = c')), (decide (d = c')); lia.
    + rewrite !count_of_cons, IH. lia.
Qed.

Lemma np_unique_count_of (cols : list (list bool)) (c' : list bool) :
  count_of (np_unique cols) c'
  = Z.of_nat (count_where (fun c => bool_decide (c = c')) cols).
Proof.
  induction cols as [|c cols IH]; [reflexivity|].
  cbn [np_unique foldr]. fold (np_unique cols).
  rewrite count_of_insert, IH. unfold count_where. cbn [List.filter].
  destruct (decide (c = c')) as [->|Hne].
  - rewrite bool_decide_eq_true_2 by done. cbn [length]. lia.
  - rewrite bool_decide_eq_false_2 by done. lia.
Qed.

Lemma count_of_absent (acc : list (list bool * Z)) (c : list bool) :
  c ∉ map fst acc -> count_of acc c = 0%Z.
Proof.
  induction acc as [|[d n] acc IH]; intros Hnotin; [reflexivity|].
  cbn [map fst] in Hnotin. apply not_elem_of_cons in Hnotin as [Hne Hnotin].
  rewrite count_of_cons, IH by done. rewrite decide_False by done. lia.
Qed.

Lemma count_of_lookup (acc : list (list bool * Z)) (k : nat) (c : list bool) (n : Z) :
  NoDup (map fst acc) -> acc !! k = Some (c, n) -> count_of acc c = n.
Proof.
  revert k. induction acc as [|[d n'] acc IH]; intros k Hnd Hk.
  - by rewrite lookup_nil in Hk.
  - cbn [map fst] in Hnd. apply NoDup_cons in Hnd as [Hnotin Hnd].
    rewrite count_of_cons. destruct k as [|k].
    + injection Hk as -> ->. rewrite decide_True by done.
      rewrite count_of_absent by done. lia.
    + cbn [lookup list_lookup] in Hk.
      assert (d <> c).
      { intros ->. apply Hnotin. apply list_elem_of_fmap.
        exists (c, n). split; [done|]. by eapply list_elem_of_lookup_2. }
      rewrite decide_False by done. rewrite (IH k) by done. lia.
Qed.

Lemma Zsum_cons (x : Z) (l : list Z) : Zsum (x :: l) = (x + Zsum l)%Z.
Proof. reflexivity. Qed.

Lemma Zsum_insert_count (c : list bool) (acc : list (list bool * Z)) :
  Zsum (map snd (insert_count c acc)) = (Zsum (map snd acc) + 1)%Z.
Proof.
  induction acc as [|[d n] acc IH]; cbn [insert_count]; [reflexivity|].
  destruct (lex_compare c d); cbn [map snd]; rewrite ?Zsum_cons, ?IH; lia.
Qed.

Lemma np_unique_Zsum (cols : list (list bool)) :
  Zsum (map snd (np_unique cols)) = Z.of_nat (length cols).
Proof.
  induction cols as [|c cols IH]; [reflexivity|].
  cbn [np_unique foldr]. fold (np_unique cols).
  rewrite Zsum_insert_count, IH. cbn [length]. lia.
Qed.

End Unique.

Section Compression.

Import unilateral.

Lemma count_true_le (col : list bool) : (count_true col <= length col)%nat.
Proof.
  unfold count_true. induction col as [|[] col IH]; cbn [List.filter id length]; lia.
Qed.

Lemma count_true_all (col : list bool) :
  Nat.eqb (count_true col) (length col) = forallb id col.
Proof.
  induction col as [|b col IH]; [reflexivity|].
  pose proof (count_true_le col) as Hle.
  destruct b; unfold count_true in *; cbn [List.filter id length forallb andb].
  - exact IH.
  - apply Nat.eqb_neq. lia.
Qed.

Lemma compatibility_length (ol : list (list Z)) (row : list (option bool)) :
  length (compatibility ol row) = length ol.
Proof. unfold compatibility. by rewrite length_map. Qed.

Lemma all_observations_length (n_obs L : nat) :
  length (all_observations n_obs L) = (2 ^ (n_obs * L))%nat.
Proof. unfold all_observations. by rewrite length_map, length_seq. Qed.

Lemma all_observations_row_length (n_obs L : nat) (obs : list Z) :
  obs ∈ all_observations n_obs L -> length obs = (n_obs * L)%nat.
Proof.
  intros Hin. apply list_elem_of_fmap in Hin as (i & -> & _). apply obs_row_length.
Qed.

Lemma lsb_digits_ones (k : nat) :
  lsb_digits k (2 ^ Z.of_nat k - 1) = replicate k 1%Z.
Proof.
  induction k as [|k IH]; [reflexivity|].
  cbn [lsb_digits replicate].
  rewrite Nat2Z.inj_succ, Z.pow_succ_r by lia.
  assert (Hpos : (0 < 2 ^ Z.of_nat k)%Z) by (apply Z.pow_pos_nonneg; lia).
  replace (2 * 2 ^ Z.of_nat k - 1)%Z with (1 + (2 ^ Z.of_nat k - 1) * 2)%Z by lia.
  rewrite Z.mod_add, Z.div_add by lia.
  change (1 mod 2)%Z with 1%Z. change (1 / 2)%Z with 0%Z.
  rewrite Z.add_0_l. by rewrite IH.
Qed.

Lemma obs_row_zeros (n_obs L : nat) :
  obs_row n_obs L 0 = replicate (n_obs * L) 0%Z.
Proof.
  apply list_eq. intros p. unfold obs_row.
  rewrite list_lookup_fmap.
  destruct (decide (p < n_obs * L)%nat) as [Hp|Hp].
  - rewrite lookup_seq_lt, lookup_replicate_2 by done. cbn.
    unfold obs_entry, bits. change (Z.of_nat 0) with 0%Z.
    rewrite lsb_digits_zero, rev_replicate.
    by destruct (replicate _ _ !! _) as [d|] eqn:E;
      [apply lookup_replicate_1 in E as [-> _]|].
  - rewrite lookup_seq_ge by lia. cbn. symmetry. apply lookup_replicate_None. lia.
Qed.

Lemma obs_row_ones (n_obs L : nat) :
  obs_row n_obs L (2 ^ (n_obs * L) - 1) = replicate (n_obs * L) 1%Z.
Proof.
  apply list_eq. intros p. unfold obs_row.
  rewrite list_lookup_fmap.
  destruct (decide (p < n_obs * L)%nat) as [Hp|Hp].
  - rewrite lookup_seq_lt, lookup_replicate_2 by done. cbn.
    unfold obs_entry, bits.
    pose proof (pow2_pos (n_obs * L)) as Hpos.
    rewrite Nat2Z.inj_sub, pow2_Z by lia. change (Z.of_nat 1) with 1%Z.
    rewrite lsb_digits_ones, rev_replicate.
    assert (n_obs <> 0)%nat by lia.
    rewrite lookup_replicate_2; [done|].
    pose proof (Nat.mod_upper_bound p n_obs ltac:(done)).
    assert (p / n_obs < L)%nat by (apply Nat.Div0.div_lt_upper_bound; lia).
    nia.
  - rewrite lookup_seq_ge by lia. cbn. symmetry. apply lookup_replicate_None. lia.
Qed.

Lemma constant_observed (n_obs L : nat) (b : bool) :
  replicate (n_obs * L) (Z.b2z b) ∈ all_observations n_obs L.
Proof.
  pose proof (pow2_pos (n_obs * L)) as Hpos.
  unfold all_observations. apply list_elem_of_fmap. destruct b.
  - exists (2 ^ (n_obs * L) - 1)%nat. split; [by rewrite obs_row_ones|].
    apply list_elem_of_In, in_seq. lia.
  - exists 0%nat. split; [by rewrite obs_row_zeros|].
    apply list_elem_of_In, in_seq. lia.
Qed.

Lemma matches_all_missing (row : list (option bool)) (obs : list Z) :
  has_entry row = false -> forallb id (zip_with matches row obs) = true.
Proof.
  revert obs. induction row as [|[b|] row IH]; intros obs Hrow; [done|done|].
  destruct obs as [|v obs]; [done|]. cbn [zip_with forallb matches id andb].
  by apply IH.
Qed.

Lemma mismatch_constant (row : list (option bool)) (b : bool) :
  Some b ∈ row ->
  forallb id (zip_with matches row (replicate (length row) (Z.b2z (negb b)))) = false.
Proof.
  induction row as [|x row IH]; intros Hin; [by apply elem_of_nil in Hin|].
  cbn [length replicate zip_with forallb].
  apply elem_of_cons in Hin as [<-|Hin].
  - by destruct b.
  - rewrite IH by done. apply andb_false_r.
Qed.

Lemma compatibility_all_ones (n_obs L : nat) (row : list (option bool)) :
  length row = (n_obs * L)%nat ->
  forallb id (compatibility (all_observations n_obs L) row) = negb (has_entry row).
Proof.
  intros Hlen. destruct (has_entry row) eqn:Hrow; cbn [negb].
  - unfold has_entry in Hrow. apply existsb_exists in Hrow as ([b|] & Hin & Hb);
      [|discriminate].
    apply list_elem_of_In in Hin.
    destruct (forallb id (compatibility (all_observations n_obs L) row)) eqn:E;
      [|done].
    rewrite forallb_forall in E.
    specialize (E (forallb id (zip_with matches row
                                 (replicate (n_obs * L) (Z.b2z (negb b)))))).
    rewrite <- Hlen, mismatch_constant in E by done. symmetry. apply E.
    apply list_elem_of_In. unfold compatibility. apply list_elem_of_fmap.
    exists (replicate (n_obs * L) (Z.b2z (negb b))).
    split; [by rewrite <- Hlen, mismatch_constant by done|].
    apply constant_observed.
  - apply forallb_forall. intros x Hx. unfold compatibility in Hx.
    apply in_map_iff in Hx as (obs & <- & _). by apply matches_all_missing.
Qed.

Lemma first_row_length {A : Type} (d : A) (nrows : nat) (cols : list (list A)) :
  (0 < nrows)%nat ->
  match rows_of_columns d nrows cols with
  | [] => 0%nat
  | r :: _ => length r
  end = length cols.
Proof.
  intros Hpos. destruct nrows as [|n]; [lia|].
  unfold rows_of_columns. cbn [seq map]. by rewrite length_map.
Qed.

Lemma columns_of_rows_of_columns {A : Type} (d : A) (nrows : nat)
    (cols : list (list A)) :
  (0 < nrows)%nat -> Forall (fun c => length c = nrows) cols ->
  columns_of_rows d (rows_of_columns d nrows cols) = cols.
Proof.
  intros Hpos Hcols. unfold columns_of_rows.
  rewrite first_row_length by done. unfold rows_of_columns.
  apply list_eq. intros k. rewrite list_lookup_fmap.
  destruct (cols !! k) as [c|] eqn:Hc.
  - rewrite lookup_seq_lt by (by eapply lookup_lt_Some).
    cbn [fmap option_fmap option_map]. f_equal. rewrite Nat.add_0_l.
    rewrite map_map. rewrite Forall_forall in Hcols.
    specialize (Hcols c (list_elem_of_lookup_2 _ _ _ Hc)).
    apply list_eq. intros j. rewrite list_lookup_fmap.
    destruct (decide (j < nrows)%nat) as [Hj|Hj].
    + rewrite lookup_seq_lt by done.
      cbn [fmap option_fmap option_map]. rewrite Nat.add_0_l.
      rewrite list_lookup_fmap, Hc. cbn [fmap option_fmap option_map default].
      destruct (lookup_lt_is_Some_2 c j) as [x Hx]; [lia|]. by rewrite Hx.
    + rewrite lookup_seq_ge by lia. cbn [fmap option_fmap option_map].
      symmetry. apply lookup_ge_None. lia.
  - rewrite lookup_seq_ge by (by apply lookup_ge_None). reflexivity.
Qed.

End Compression.

Section DataMatrix.

Import unilateral.

Lemma compatibility_computed (ol : list (list Z)) (N : nat)
    (table : list (list (option bool))) :
  Forall (fun obs => length obs = N) ol ->
  Forall (fun row => length row = N) table ->
  map_result (fun row => map_result (fun obs => np_all_equal_where obs row) ol) table
  = Return (map (compatibility ol) table).
Proof.
  intros Hol Htable. apply map_result_Return. intros row Hrow.
  rewrite Forall_forall in Htable. specialize (Htable row Hrow).
  unfold compatibility. apply map_result_Return. intros obs Hobs.
  rewrite Forall_forall in Hol. specialize (Hol obs Hobs).
  unfold np_all_equal_where. rewrite decide_True by congruence. reflexivity.
Qed.

Lemma gen_C_eq (m : Unilateral) (tables : list (string * matrix))
    (table : list (list (option bool))) (t_stage : option string) :
  _modality_tables m = Some tables -> observations_current m ->
  Forall (fun row => length row = (length tables * length (lnls m))%nat) table ->
  _gen_C table t_stage true true m
  = (Return (),
     with_C_f
       (Some (<[default "BN"%string t_stage :=
                  rows_of_columns false (2 ^ (length tables * length (lnls m)))
                    (map fst (compressed
                                (all_observations (length tables) (length (lnls m)))
                                table))]>
                (default ∅ (_C (with_dicts m)))))
       (Some (<[default "BN"%string t_stage :=
                  map snd (compressed
                             (all_observations (length tables) (length (lnls m)))
                             table)]>
                (default ∅ (_f (with_dicts m)))))
       (with_obs_list
          (Some (all_observations (length tables) (length (lnls m))))
          (with_dicts m))).
Proof.
  intros Ht Hcur Htable.
  assert (Hstep : (match _C m, _f m with
                   | Some _, Some _ => retM ()
                   | _, _ => modifyM (with_C_f (Some ∅) (Some ∅))
                   end) m = (Return (), with_dicts m)).
  { unfold with_dicts. by destruct (_C m), (_f m). }
  assert (Ht0 : _modality_tables (with_dicts m) = Some tables).
  { unfold with_dicts. by destruct (_C m), (_f m). }
  assert (Hl0 : lnls (with_dicts m) = lnls m).
  { unfold with_dicts. by destruct (_C m), (_f m). }
  assert (Hcur0 : observations_current (with_dicts m)).
  { unfold with_dicts. by destruct (_C m), (_f m). }
  destruct (obs_list_current (with_dicts m) tables Ht0 Hcur0) as (m1 & Hol & ->).
  rewrite Hl0 in Hol.
  unfold _gen_C, bindM at 1, getM. unfold bindM at 1. rewrite Hstep.
  unfold bindM at 1. rewrite Hol.
  unfold bindM at 1, liftM at 1.
  rewrite (compatibility_computed _ (length tables * length (lnls m)) table);
    [|apply Forall_forall; intros obs Hobs;
      by apply all_observations_row_length|done].
  unfold modifyM, compressed. rewrite all_observations_length. reflexivity.
Qed.


Lemma count_true_replicate (n : nat) : count_true (replicate n true) = n.
Proof.
  pose proof (count_true_all (replicate n true)) as H.
  rewrite length_replicate in H.
  assert (Hall : forallb id (replicate n true) = true).
  { apply forallb_forall. intros x Hx. apply list_elem_of_In in Hx.
    by apply elem_of_replicate in Hx as [-> _]. }
  rewrite Hall in H. by apply Nat.eqb_eq in H.
Qed.

Lemma kept_iff_has_entry (n_obs L : nat) (row : list (option bool)) :
  length row = (n_obs * L)%nat ->
  negb (Nat.eqb (count_true (compatibility (all_observations n_obs L) row))
                (length (all_observations n_obs L)))
  = has_entry row.
Proof.
  intros Hlen.
  rewrite <- (compatibility_length (all_observations n_obs L) row).
  rewrite count_true_all, compatibility_all_ones by done.
  apply negb_involutive.
Qed.

Lemma count_where_filter_map {A B : Type} `{EqDecision B} (g : A -> B)
    (p : B -> bool) (y : B) (l : list A) :
  p y = true ->
  count_where (fun c => bool_decide (c = y)) (List.filter p (map g l))
  = count_where (fun x => bool_decide (g x = y)) l.
Proof.
  intros Hy. unfold count_where. induction l as [|x l IH]; [reflexivity|].
  cbn [map List.filter]. destruct (decide (g x = y)) as [Heq|Hne].
  - rewrite Heq, Hy. cbn [List.filter].
    rewrite !bool_decide_eq_true_2 by done. cbn [length]. by rewrite IH.
  - rewrite (bool_decide_eq_false_2 (g x = y)) by done.
    destruct (p (g x)); [|exact IH].
    cbn [List.filter]. rewrite bool_decide_eq_false_2 by done. exact IH.
Qed.

Lemma length_filter_map {A B : Type} (g : A -> B) (p : B -> bool) (q : A -> bool)
    (l : list A) :
  Forall (fun x => p (g x) = q x) l ->
  length (List.filter p (map g l)) = length (List.filter q l).
Proof.
  induction 1 as [|x l Hx Hl IH]; [reflexivity|].
  cbn [map List.filter]. rewrite Hx. destruct (q x); cbn [length]; by rewrite IH.
Qed.

Lemma compressed_spec (n_obs L : nat) (table : list (list (option bool))) :
  Forall (fun row => length row = (n_obs * L)%nat) table ->
  NoDup (map fst (compressed (all_observations n_obs L) table))
  /\ Forall (fun col => length col = (2 ^ (n_obs * L))%nat /\
                        col <> replicate (2 ^ (n_obs * L)) true)
       (map fst (compressed (all_observations n_obs L) table))
  /\ (forall k col cnt,
        compressed (all_observations n_obs L) table !! k = Some (col, cnt) ->
        cnt = Z.of_nat (count_where
                          (fun row => bool_decide
                             (compatibility (all_observations n_obs L) row = col))
                          table))
  /\ Zsum (map snd (compressed (all_observations n_obs L) table))
     = Z.of_nat (count_where has_entry table).
Proof.
  intros Htable. unfold compressed.
  set (ol := all_observations n_obs L).
  set (keep := fun col : list bool => negb (Nat.eqb (count_true col) (length ol))).
  set (kept := List.filter keep (map (compatibility ol) table)).
  assert (Hkept : forall col, col ∈ kept ->
            keep col = true /\ length col = (2 ^ (n_obs * L))%nat).
  { intros col Hcol. apply list_elem_of_In, filter_In in Hcol as [Hin Hk].
    split; [done|]. apply in_map_iff in Hin as (row & <- & _).
    unfold ol. by rewrite compatibility_length, all_observations_length. }
  pose proof (np_unique_keys kept) as Hkeys. rewrite Forall_forall in Hkeys.
  split; [apply np_unique_NoDup|]. split; [|split].
  - apply Forall_forall. intros col Hcol.
    apply list_elem_of_fmap in Hcol as (x & -> & Hx).
    destruct (Hkept _ (Hkeys x Hx)) as [Hk Hlen]. split; [done|].
    intros Heq. unfold keep in Hk. rewrite Heq, count_true_replicate in Hk.
    unfold ol in Hk. rewrite all_observations_length, Nat.eqb_refl in Hk.
    discriminate.
  - intros k col cnt Hk.
    rewrite <- (count_of_lookup _ k col cnt (np_unique_NoDup kept) Hk).
    rewrite np_unique_count_of. f_equal.
    apply count_where_filter_map.
    apply (Hkept col). apply (Hkeys (col, cnt)). by eapply list_elem_of_lookup_2.
  - rewrite np_unique_Zsum. f_equal. unfold count_where.
    apply length_filter_map.
    eapply Forall_impl; [exact Htable|]. intros row Hrow.
    by apply kept_iff_has_entry.
Qed.

End DataMatrix.

Section LoadData.

Import unilateral.

Variable tables : list (string * matrix).
Variable L : nat.
Variable data : patient_data.
Hypothesis Hdata : Forall (fun pr => length (snd pr) = (length tables * L)%nat) data.

Lemma patients_of_length (stage : string) :
  Forall (fun row => length row = (length tables * L)%nat) (patients_of data stage).
Proof.
  apply Forall_forall. intros row Hrow. unfold patients_of in Hrow.
  apply list_elem_of_fmap in Hrow as (pr & -> & Hpr).
  apply list_elem_of_In, filter_In in Hpr as [Hpr _].
  rewrite Forall_forall in Hdata. apply Hdata. by apply list_elem_of_In.
Qed.

Lemma load_data_stage_eq (stage : string) (m : Unilateral) :
  _modality_tables m = Some tables -> length (lnls m) = L ->
  observations_current m ->
  load_data_stage data true true stage m
  = (Return (),
     with_C_f
       (Some (<[stage := data_matrix (length tables) L (patients_of data stage)]>
                (default ∅ (_C (with_dicts m)))))
       (Some (<[stage := frequencies (length tables) L (patients_of data stage)]>
                (default ∅ (_f (with_dicts m)))))
       (with_obs_list (Some (all_observations (length tables) L)) (with_dicts m))).
Proof.
  intros Ht HL Hcur.
  unfold load_data_stage, bindM at 1, modality_tables, bindM at 1, getM.
  rewrite Ht. unfold retM at 1.
  fold (patients_of data stage).
  rewrite (gen_C_eq m tables (patients_of data stage) (Some stage) Ht Hcur).
  - rewrite HL. reflexivity.
  - rewrite HL. apply patients_of_length.
Qed.

Lemma load_data_stages (stages : list string) :
  forall (m : Unilateral) (Cd : gmap string (list (list bool)))
         (fd : gmap string (list Z)),
    _modality_tables m = Some tables -> length (lnls m) = L ->
    observations_current m -> _C m = Some Cd -> _f m = Some fd ->
    exists (m' : Unilateral) (Cd' : gmap string (list (list bool)))
           (fd' : gmap string (list Z)),
      forM stages (load_data_stage data true true) m = (Return (), m') /\
      _C m' = Some Cd' /\ _f m' = Some fd' /\
      (forall s, s ∈ stages ->
         Cd' !! s = Some (data_matrix (length tables) L (patients_of data s)) /\
         fd' !! s = Some (frequencies (length tables) L (patients_of data s))) /\
      (forall s, s ∉ stages -> Cd' !! s = Cd !! s /\ fd' !! s = fd !! s).
Proof.
  induction stages as [|stage stages IH]; intros m Cd fd Ht HL Hcur HC Hf.
  - exists m, Cd, fd. cbn [forM]. unfold retM.
    split; [done|]. split; [done|]. split; [done|]. split; [|done].
    intros st Hs. by apply elem_of_nil in Hs.
  - cbn [forM]. unfold bindM.
    rewrite (load_data_stage_eq stage m Ht HL Hcur).
    assert (Hd : with_dicts m = m) by (unfold with_dicts; by rewrite HC, Hf).
    rewrite Hd, HC, Hf. cbn [from_option id].
    edestruct (IH (with_C_f
                     (Some (<[stage := data_matrix (length tables) L
                                         (patients_of data stage)]> Cd))
                     (Some (<[stage := frequencies (length tables) L
                                         (patients_of data stage)]> fd))
                     (with_obs_list (Some (all_observations (length tables) L)) m)))
      as (m' & Cd' & fd' & Hrun & HC' & Hf' & Hin & Hout); try reflexivity.
    + exact Ht.
    + exact HL.
    + right. unfold n_modalities.
      cbn [_modality_tables _obs_list with_C_f with_obs_list].
      rewrite Ht. cbn [default]. by rewrite <- HL.
    + exists m', Cd', fd'. rewrite Hrun.
      split; [done|]. split; [done|]. split; [done|]. split.
      * intros st Hs0. destruct (decide (st ∈ stages)) as [Hs|Hs]; [by apply Hin|].
        apply elem_of_cons in Hs0 as [->|?]; [|done].
        destruct (Hout _ Hs) as [-> ->]. split; apply lookup_insert_eq.
      * intros st Hs0. apply not_elem_of_cons in Hs0 as [Hne Hs].
        destruct (Hout _ Hs) as [-> ->]. split; by apply lookup_insert_ne.
Qed.


Lemma load_data_stages_any (stages : list string) (m : Unilateral) :
  _modality_tables m = Some tables -> length (lnls m) = L ->
  observations_current m ->
  exists m' : Unilateral,
    forM stages (load_data_stage data true true) m = (Return (), m') /\
    forall s, s ∈ stages ->
      exists (Cd : gmap string (list (list bool))) (fd : gmap string (list Z)),
        _C m' = Some Cd /\ _f m' = Some fd /\
        Cd !! s = Some (data_matrix (length tables) L (patients_of data s)) /\
        fd !! s = Some (frequencies (length tables) L (patients_of data s)).
Proof.
  intros Ht HL Hcur. destruct stages as [|stage stages].
  - exists m. split; [reflexivity|]. intros st Hs. by apply elem_of_nil in Hs.
  - cbn [forM]. unfold bindM.
    rewrite (load_data_stage_eq stage m Ht HL Hcur).
    edestruct (load_data_stages stages
                 (with_C_f
                    (Some (<[stage := data_matrix (length tables) L
                                        (patients_of data stage)]>
                             (default ∅ (_C (with_dicts m)))))
                    (Some (<[stage := frequencies (length tables) L
                                        (patients_of data stage)]>
                             (default ∅ (_f (with_dicts m)))))
                    (with_obs_list (Some (all_observations (length tables) L))
                       (with_dicts m))))
      as (m' & Cd' & fd' & Hrun & HC' & Hf' & Hin & Hout); try reflexivity.
    + unfold with_dicts. by destruct (_C m), (_f m).
    + unfold with_dicts. by destruct (_C m), (_f m).
    + right. unfold n_modalities.
      assert (_modality_tables (with_dicts m) = Some tables) as Ht'
        by (unfold with_dicts; by destruct (_C m), (_f m)).
      assert (lnls (with_dicts m) = lnls m) as Hl'
        by (unfold with_dicts; by destruct (_C m), (_f m)).
      cbn [_modality_tables _obs_list with_C_f with_obs_list].
      change (lnls (with_C_f _ _ (with_obs_list _ (with_dicts m))))
        with (lnls (with_dicts m)).
      rewrite Ht', Hl', HL. reflexivity.
    + exists m'. split; [exact Hrun|]. intros st Hs0. exists Cd', fd'.
      split; [done|]. split; [done|].
      destruct (decide (st ∈ stages)) as [Hs|Hs]; [by apply Hin|].
      apply elem_of_cons in Hs0 as [->|?]; [|done].
      destruct (Hout _ Hs) as [-> ->]. split; apply lookup_insert_eq.
Qed.

End LoadData.

Section DataCompression.

Import unilateral.

Lemma data_matrix_spec (n_obs L : nat) (table : list (list (option bool))) :
  Forall (fun row => length row = (n_obs * L)%nat) table ->
  length (data_matrix n_obs L table) = (2 ^ (n_obs * L))%nat
  /\ columns_of_rows false (data_matrix n_obs L table)
     = map fst (compressed (all_observations n_obs L) table)
  /\ length (frequencies n_obs L table)
     = length (columns_of_rows false (data_matrix n_obs L table)).
Proof.
  intros Htable.
  destruct (compressed_spec n_obs L table Htable) as (_ & Hcols & _).
  assert (Hc : columns_of_rows false (data_matrix n_obs L table)
               = map fst (compressed (all_observations n_obs L) table)).
  { unfold data_matrix. apply columns_of_rows_of_columns; [apply pow2_pos|].
    eapply Forall_impl; [exact Hcols|]. by intros col [Hlen _]. }
  split; [|split; [exact Hc|]].
  - unfold data_matrix, rows_of_columns. by rewrite length_map, length_seq.
  - rewrite Hc. unfold frequencies. by rewrite !length_map.
Qed.

End DataCompression.

Section DataCompressionTheorem.

Import unilateral.

(** The compression that C7 describes, where the stored observation list is
    not stale: on a model with registered modalities, whose observation list
    is absent or the one of these modalities, and a patient table whose rows
    have one entry per modality and LNL, [load_data] in HMM mode with
    [delete_ones] and [aggregate_duplicates] returns, and for every T-stage
    it went through the stored matrix [C] has pairwise distinct columns, none
    of them all ones; [f[k]] is the number of patients of the stage whose
    compatibility vector is column [k], and the entries of [f] sum to the
    number of patients of the stage with an entry that is not missing. *)
Theorem data_compression (m : Unilateral) (tables : list (string * matrix))
    (data : patient_data) (t_stages : option (list string)) :
  _modality_tables m = Some tables -> tables <> [] -> observations_current m ->
  Forall (fun pr => length (snd pr) = (length tables * length (lnls m))%nat) data ->
  exists m' : Unilateral,
    load_data data t_stages None "HMM" true true m = (Return (), m') /\
    forall stage : string,
      stage ∈ match t_stages with
              | Some ts => ts
              | None => remove_dups (map fst data)
              end ->
      exists (Cd : gmap string (list (list bool))) (fd : gmap string (list Z))
             (c : list (list bool)) (fs : list Z),
        C m' = (Return Cd, m') /\ f m' = (Return fd, m') /\
        Cd !! stage = Some c /\ fd !! stage = Some fs /\
        NoDup (columns_of_rows false c) /\
        Forall (fun col => col <> replicate (length c) true)
          (columns_of_rows false c) /\
        length fs = length (columns_of_rows false c) /\
        (forall (k : nat) (col : list bool),
           columns_of_rows false c !! k = Some col ->
           fs !! k
           = Some (Z.of_nat
                     (count_where
                        (fun row =>
                           bool_decide
                             (compatibility
                                (all_observations (length tables) (length (lnls m)))
                                row = col))
                        (patients_of data stage)))) /\
        Zsum fs = Z.of_nat (count_where has_entry (patients_of data stage)).
Proof.
  intros Ht Hne Hcur Hdata.
  set (stages := match t_stages with
                 | Some ts => ts
                 | None => remove_dups (map fst data)
                 end).
  destruct (load_data_stages_any tables (length (lnls m)) data Hdata stages m
              Ht eq_refl Hcur) as (m' & Hrun & Hin).
  exists m'. split.
  - unfold load_data, bindM at 1, bindM at 1, getM. rewrite Ht.
    destruct tables as [|tb tbs]; [done|]. unfold retM at 1.
    rewrite decide_True by reflexivity. exact Hrun.
  - intros stage Hstage.
    destruct (Hin stage Hstage) as (Cd & fd & HC & Hf & HCd & Hfd).
    pose proof (patients_of_length tables (length (lnls m)) data Hdata stage)
      as Htable.
    destruct (data_matrix_spec _ _ _ Htable) as (Hlen & Hcols & Hfs).
    destruct (compressed_spec _ _ _ Htable) as (Hnd & Hall & Hcnt & Hsum).
    exists Cd, fd, (data_matrix (length tables) (length (lnls m))
                      (patients_of data stage)),
      (frequencies (length tables) (length (lnls m)) (patients_of data stage)).
    split; [unfold C, bindM, getM; by rewrite HC|].
    split; [unfold f, bindM, getM; by rewrite Hf|].
    split; [exact HCd|]. split; [exact Hfd|].
    rewrite Hcols, Hlen.
    split; [exact Hnd|]. split.
    { eapply Forall_impl; [exact Hall|]. by intros col [_ Hcol]. }
    split; [by rewrite Hfs, Hcols|]. split; [|exact Hsum].
    intros k col Hk. unfold frequencies.
    rewrite list_lookup_fmap in Hk. rewrite list_lookup_fmap.
    destruct (compressed _ _ !! k) as [[col' cnt]|] eqn:E; [|done].
    cbn in Hk. injection Hk as ->. cbn. f_equal. by eapply Hcnt.
Qed.

(** The theorem at the example model with one modality and five patients. *)
Lemma data_compression_witness :
  exists m' : Unilateral,
    load_data example_data None None "HMM" true true example_diagnosed_model
    = (Return (), m') /\
    forall stage : string,
      stage ∈ remove_dups (map fst example_data) ->
      exists (Cd : gmap string (list (list bool))) (fd : gmap string (list Z))
             (c : list (list bool)) (fs : list Z),
        C m' = (Return Cd, m') /\ f m' = (Return fd, m') /\
        Cd !! stage = Some c /\ fd !! stage = Some fs /\
        NoDup (columns_of_rows false c) /\
        Forall (fun col => col <> replicate (length c) true)
          (columns_of_rows false c) /\
        length fs = length (columns_of_rows false c) /\
        (forall (k : nat) (col : list bool),
           columns_of_rows false c !! k = Some col ->
           fs !! k
           = Some (Z.of_nat
                     (count_where
                        (fun row =>
                           bool_decide
                             (compatibility
                                (all_observations 1
                                   (length (lnls example_diagnosed_model)))
                                row = col))
                        (patients_of example_data stage)))) /\
        Zsum fs = Z.of_nat (count_where has_entry (patients_of example_data stage)).
Proof.
  apply (data_compression example_diagnosed_model
           [("CT"%string, [[4 # 5; 1 - (9 # 10)]; [1 - (4 # 5); 9 # 10]])]
           example_data None).
  - reflexivity.
  - discriminate.
  - left. reflexivity.
  - repeat constructor.
Defined.

End DataCompressionTheorem.

Section StaleObservations.

Import unilateral.

(** C7, as the code behaves: the [modalities] setter keeps the observation
    list that was computed for the modalities before, and [_gen_C] then
    compresses against that list.  On a model with one LNL, data are loaded
    with the modality CT, which stores the two observations of one modality;
    then data are loaded with the modalities CT and MRI, for two patients
    with the diagnoses (CT involved, MRI healthy) and (CT healthy, MRI
    involved).  The call returns; the model has two modalities and still
    the two observations of one, instead of the four complete observations.
    The stored [C] has two rows and the single column (False, False), with
    [f = [2]]; the compatibility vectors of the two patients over the four
    complete observations have four entries and differ from each other, so
    no patient has this column as compatibility vector, while [f[0]] is 2.
    On the example model with two LNLs, going from two modalities to one,
    the second [load_data] raises [ValueError].  Where the observation list
    is absent or current, the compression is as C7 says
    ([data_compression]). *)
Theorem data_compression_stale_observation_list :
  exists m0 m1 m2 : Unilateral,
    __init__ (single_lnl_graph "T" "I") = Return m0 /\
    load_data [("early"%string, [Some true])] None
      (Some [("CT"%string, [4 # 5; 9 # 10])]) "HMM" true true m0
    = (Return (), m1) /\
    _obs_list m1 = Some [[0%Z]; [1%Z]] /\
    load_data
      [("early"%string, [Some true; Some false]);
       ("early"%string, [Some false; Some true])] None
      (Some [("CT"%string, [4 # 5; 9 # 10]); ("MRI"%string, [7 # 10; 3 # 4])])
      "HMM" true true m1
    = (Return (), m2) /\
    n_modalities m2 = 2%nat /\
    _obs_list m2 = Some [[0%Z]; [1%Z]] /\
    all_observations 2 1 = [[0; 0]; [0; 1]; [1; 0]; [1; 1]]%Z /\
    C m2 = (Return {["early"%string := [[false]; [false]]]}, m2) /\
    f m2 = (Return {["early"%string := [2%Z]]}, m2) /\
    map (compatibility (all_observations 2 1))
      (patients_of
         [("early"%string, [Some true; Some false]);
          ("early"%string, [Some false; Some true])] "early")
    = [[false; false; true; false]; [false; true; false; false]] /\
    exists x1 x2 x3 : Unilateral,
      set_modalities
        [("CT"%string, [4 # 5; 9 # 10]); ("MRI"%string, [7 # 10; 3 # 4])]
        example_model = (Return (), x1) /\
      load_data [("early"%string, [Some true; Some false; None; None])] None None
        "HMM" true true x1 = (Return (), x2) /\
      set_modalities [("CT"%string, [4 # 5; 9 # 10])] x2 = (Return (), x3) /\
      fst (load_data [("early"%string, [Some true; Some false])] None None
             "HMM" true true x3) = Raise ValueError.
Proof.
  eexists _, _, _. repeat split; try (vm_compute; reflexivity).
  eexists _, _, _. repeat split; vm_compute; reflexivity.
Qed.

End StaleObservations.

Section ObservationMatrix.

Import unilateral.

Variable modality : string.
Variables a b c d : Q.

Let tab : matrix := [[a; b]; [c; d]].

Lemma Node_obs_prob_binary (st obs : Z) :
  is_bit st -> is_bit obs ->
  Node_obs_prob st obs tab = Return (table_entry tab obs st).
Proof. intros [-> | ->] [-> | ->]; reflexivity. Qed.

Lemma dict_get_single {A : Type} (x : A) :
  dict_get [(modality, x)] modality = Return x.
Proof. unfold dict_get. cbn. by rewrite decide_True. Qed.

Lemma observation_factors (x : Unilateral) (ls : list nat) :
  Forall (fun node => is_bit (node_state x node)) ls ->
  forall (pre diagnoses : list Z) (prob : Q),
    length diagnoses = length ls -> Forall is_bit diagnoses ->
    for_each (zip (seq (length pre) (length ls)) ls)
      (fun prob '(i, node) =>
         obs ← index (pre ++ diagnoses) i;
         obstable ← dict_get [(modality, tab)] modality;
         p ← Node_obs_prob (node_state x node) obs obstable;
         Return (prob * p))
      prob
    = Return (foldl (obs_step x tab) prob (zip diagnoses ls)).
Proof.
  induction ls as [|node ls IH]; intros Hst pre diagnoses prob Hlen Hbits.
  - by destruct diagnoses.
  - destruct diagnoses as [|v diagnoses]; [discriminate|].
    inversion Hbits as [|? ? Hv Hrest]; subst.
    inversion Hst as [|? ? Hnode Hst']; subst.
    cbn [length seq zip zip_with for_each foldl].
    assert (Hstep : (obs ← index (pre ++ v :: diagnoses) (length pre);
                     obstable ← dict_get [(modality, tab)] modality;
                     p ← Node_obs_prob (node_state x node) obs obstable;
                     Return (prob * p))
                    = Return (obs_step x tab prob (v, node))).
    { unfold index. rewrite lookup_app_r, Nat.sub_diag by lia.
      cbn [lookup list_lookup mbind result_bind].
      rewrite dict_get_single. cbn [mbind result_bind].
      rewrite Node_obs_prob_binary by done. reflexivity. }
    rewrite Hstep. cbn [mbind result_bind].
    specialize (IH Hst' (pre ++ [v]) diagnoses (obs_step x tab prob (v, node))).
    rewrite length_app, <- app_assoc in IH. cbn [length app] in IH.
    replace (length pre + 1)%nat with (S (length pre)) in IH by lia.
    apply IH; [cbn in Hlen; lia|done].
Qed.

Lemma comp_observation_prob_eq (x : Unilateral) (obs : list Z) :
  _modality_tables x = Some [(modality, tab)] ->
  Forall (fun node => is_bit (node_state x node)) (lnls x) ->
  length obs = length (lnls x) -> Forall is_bit obs ->
  comp_observation_prob x [(modality, obs)] = Return (observation_prob x tab obs).
Proof.
  intros Ht Hst Hlen Hbits. unfold comp_observation_prob. rewrite Ht.
  cbn [mbind result_bind for_each].
  rewrite decide_False by (intros H; by apply H).
  unfold enumerate.
  pose proof (observation_factors x (lnls x) Hst [] obs 1 Hlen Hbits) as H.
  cbn [length app] in H. rewrite H. reflexivity.
Qed.

Lemma gen_B_entry_eq (x : Unilateral) (bm : matrix) (row : list Q) (i j : nat)
    (obs : list Z) :
  _modality_tables x = Some [(modality, tab)] ->
  Forall (fun node => is_bit (node_state x node)) (lnls x) ->
  length obs = length (lnls x) -> Forall is_bit obs ->
  _B x = Some bm -> bm !! i = Some row -> (j < length row)%nat ->
  _gen_B_entry (length (lnls x)) i (j, obs) x
  = (Return (),
     with_B (Some (<[i := <[j := observation_prob x tab obs]> row]> bm)) x).
Proof.
  intros Ht Hst Hlen Hbits HB Hrow Hj.
  unfold _gen_B_entry, bindM at 1, modality_tables, bindM at 1, getM.
  rewrite Ht. unfold retM at 1. unfold bindM at 1, getM.
  unfold bindM at 1, liftM at 1.
  cbn [enumerate length seq zip zip_with map fst snd].
  assert (Hslice : slice obs (length (lnls x) * 0) (length (lnls x) * (0 + 1)) = obs).
  { unfold slice. rewrite Nat.mul_0_r, Nat.sub_0_r, Nat.add_0_l, Nat.mul_1_r.
    rewrite drop_0. apply take_ge. lia. }
  rewrite Hslice, comp_observation_prob_eq by done.
  rewrite HB. unfold bindM, liftM, set_entry, modifyM. rewrite Hrow.
  by rewrite decide_True.
Qed.


Lemma gen_B_entries (x : Unilateral) (i : nat) (todo : list (list Z)) :
  _modality_tables x = Some [(modality, tab)] ->
  Forall (fun node => is_bit (node_state x node)) (lnls x) ->
  Forall (fun obs => length obs = length (lnls x) /\ Forall is_bit obs) todo ->
  forall (done_ : list (list Z)) (bm : matrix) (rest : list Q),
    length rest = length todo ->
    bm !! i = Some (map (observation_prob x tab) done_ ++ rest) ->
    forM (zip (seq (length done_) (length todo)) todo)
      (_gen_B_entry (length (lnls x)) i) (with_B (Some bm) x)
    = (Return (),
       with_B (Some (<[i := map (observation_prob x tab) (done_ ++ todo)
                            ++ drop (length todo) rest]> bm)) x).
Proof.
  intros Ht Hst. induction todo as [|obs todo IH];
    intros Htodo done_ bm rest Hlen Hrow.
  - cbn [length seq zip zip_with forM]. unfold retM.
    rewrite app_nil_r, drop_0, list_insert_id by done. reflexivity.
  - inversion Htodo as [|? ? [Hobs Hbits] Htodo']; subst.
    destruct rest as [|r rest]; [discriminate|].
    cbn [length seq zip zip_with forM]. unfold bindM.
    pose proof (gen_B_entry_eq (with_B (Some bm) x) bm
                  (map (observation_prob x tab) done_ ++ r :: rest) i
                  (length done_) obs Ht Hst Hobs Hbits eq_refl Hrow) as Hstep.
    change (lnls (with_B (Some bm) x)) with (lnls x) in Hstep.
    rewrite Hstep by (rewrite length_app, length_map; cbn [length]; lia).
    change (observation_prob (with_B (Some bm) x) tab obs)
      with (observation_prob x tab obs).
    change (with_B ?u (with_B ?v x)) with (with_B u x).
    rewrite insert_app_r_alt by (by rewrite length_map).
    rewrite length_map, Nat.sub_diag. cbn [insert list_insert].
    specialize (IH Htodo' (done_ ++ [obs])
                  (<[i := map (observation_prob x tab) done_
                          ++ observation_prob x tab obs :: rest]> bm) rest).
    rewrite length_app in IH. cbn [length] in IH.
    replace (length done_ + 1)%nat with (S (length done_)) in IH by lia.
    rewrite IH.
    + rewrite list_insert_insert_eq, <- app_assoc. reflexivity.
    + cbn [length] in Hlen. lia.
    + rewrite list_lookup_insert_eq by (by eapply lookup_lt_Some).
      rewrite map_app, <- app_assoc. reflexivity.
Qed.


Lemma all_observations_bits (n_obs L : nat) (obs : list Z) :
  obs ∈ all_observations n_obs L -> Forall is_bit obs.
Proof.
  intros Hin. apply list_elem_of_fmap in Hin as (i & -> & _).
  unfold obs_row. apply Forall_forall. intros v Hv.
  apply list_elem_of_fmap in Hv as (p & -> & _). unfold obs_entry.
  destruct (bits _ _ !! _) as [v|] eqn:E; [|by left].
  pose proof (bits_are_bits (n_obs * L) (Z.of_nat i)) as Hb.
  rewrite Forall_forall in Hb. apply Hb. by eapply list_elem_of_lookup_2.
Qed.

Lemma in_state_bits (m : Unilateral) (s : list Z) :
  length s = length (lnls m) -> Forall is_bit s ->
  Forall (fun node => is_bit (node_state (in_state m s) node)) (lnls (in_state m s)).
Proof.
  intros Hlen Hbits. rewrite lnls_in_state.
  rewrite <- (in_state_lnl_states m s Hlen) in Hbits.
  rewrite Forall_forall in Hbits. apply Forall_forall. intros node Hnode.
  apply Hbits. apply list_elem_of_fmap. by exists node.
Qed.

Lemma gen_B_row_eq (m : Unilateral) (s si : list Z) (bm : matrix) (i : nat) :
  _modality_tables m = Some [(modality, tab)] ->
  _obs_list m = Some (all_observations 1 (length (lnls m))) ->
  length s = length (lnls m) ->
  si ∈ all_states (length (lnls m)) ->
  bm !! i = Some (replicate (2 ^ (1 * length (lnls m))) 0) ->
  _gen_B_row (length (lnls m)) (i, si) (with_B (Some bm) (in_state m s))
  = (Return (),
     with_B (Some (<[i := observation_row m tab si]> bm)) (in_state m si)).
Proof.
  intros Ht Hol Hs Hsi Hrow.
  destruct (all_states_elem _ _ Hsi) as [Hlen Hbits].
  unfold _gen_B_row. unfold bindM at 1.
  rewrite set_state_eq by (change (lnls (with_B ?u ?v)) with (lnls v);
                           rewrite lnls_in_state; lia).
  change (in_state (with_B (Some bm) (in_state m s)) si)
    with (with_B (Some bm) (in_state (in_state m s) si)).
  rewrite in_state_twice by lia.
  unfold bindM at 1, obs_list, bindM at 1, getM.
  change (_obs_list (with_B (Some bm) (in_state m si))) with (_obs_list m).
  rewrite Hol. unfold retM at 1. unfold enumerate.
  pose proof (gen_B_entries (in_state m si) i
                (all_observations 1 (length (lnls m))) Ht
                (in_state_bits m si Hlen Hbits)) as Hentries.
  rewrite lnls_in_state in Hentries.
  assert (Hall : Forall (fun obs => length obs = length (lnls m) /\ Forall is_bit obs)
                   (all_observations 1 (length (lnls m)))).
  { apply Forall_forall. intros obs Hobs. split.
    - rewrite (all_observations_row_length _ _ _ Hobs). lia.
    - by eapply all_observations_bits. }
  specialize (Hentries Hall [] bm (replicate (2 ^ (1 * length (lnls m))) 0)).
  rewrite length_replicate, all_observations_length in Hentries.
  specialize (Hentries eq_refl Hrow).
  cbn [length app] in Hentries.
  rewrite all_observations_length, Hentries.
  rewrite drop_ge, app_nil_r by (rewrite length_replicate; lia).
  reflexivity.
Qed.


Lemma gen_B_rows (m : Unilateral) (sts : list (list Z)) :
  _modality_tables m = Some [(modality, tab)] ->
  _obs_list m = Some (all_observations 1 (length (lnls m))) ->
  forall (done_ : list (list Z)) (s : list Z),
    all_states (length (lnls m)) = done_ ++ sts ->
    length s = length (lnls m) ->
    forM (zip (seq (length done_) (length sts)) sts) (_gen_B_row (length (lnls m)))
      (with_B (Some (map (observation_row m tab) done_
                     ++ replicate (length sts)
                          (replicate (2 ^ (1 * length (lnls m))) 0)))
              (in_state m s))
    = (Return (),
       with_B (Some (observation_matrix m tab)) (in_state m (default s (last sts)))).
Proof.
  intros Ht Hol. induction sts as [|si sts IH]; intros done_ s Hsl Hs.
  - cbn [length seq zip zip_with forM replicate last default]. unfold retM.
    rewrite !app_nil_r in *. unfold observation_matrix. by rewrite Hsl.
  - assert (Hsi : si ∈ all_states (length (lnls m))).
    { rewrite Hsl. apply elem_of_app. right. left. }
    cbn [length seq zip zip_with forM]. unfold bindM.
    rewrite (gen_B_row_eq m s si); try done.
    + rewrite last_cons_default.
      rewrite <- (IH (done_ ++ [si]) si).
      * rewrite length_app. cbn [length].
        replace (length done_ + 1)%nat with (S (length done_)) by lia.
        do 3 f_equal.
        rewrite map_app. cbn [map]. rewrite <- app_assoc. cbn [app replicate].
        rewrite insert_app_r_alt by (rewrite length_map; lia).
        rewrite length_map, Nat.sub_diag. reflexivity.
      * by rewrite <- app_assoc.
      * by eapply all_states_elem.
    + rewrite lookup_app_r by (rewrite length_map; lia).
      rewrite length_map, Nat.sub_diag. reflexivity.
Qed.

Lemma gen_B_eq (m : Unilateral) :
  _modality_tables m = Some [(modality, tab)] ->
  observations_current m -> _B m = None ->
  _gen_B m
  = (Return (),
     with_B (Some (observation_matrix m tab))
       (with_obs_list (Some (all_observations 1 (length (lnls m))))
          (in_state m (replicate (length (lnls m)) 1%Z)))).
Proof.
  intros Ht Hcur HB.
  destruct (obs_list_current m _ Ht Hcur) as (m1 & Hol & Hm1).
  cbn [length] in Hol, Hm1.
  assert (Hl1 : lnls m1 = lnls m) by (by rewrite Hm1).
  assert (Ht1 : _modality_tables m1 = Some [(modality, tab)]) by (by rewrite Hm1).
  assert (Hol1 : _obs_list m1 = Some (all_observations 1 (length (lnls m1))))
    by (by rewrite Hm1).
  pose proof (gen_B_rows m1 (all_states (length (lnls m1))) Ht1 Hol1 []
                (map (node_state m1) (lnls m1)) eq_refl) as Hrows.
  rewrite length_map, last_all_states in Hrows. specialize (Hrows eq_refl).
  rewrite in_state_current in Hrows. cbn [map app length default] in Hrows.
  unfold _gen_B, bindM at 1, getM. rewrite HB.
  unfold bindM at 1. unfold bindM at 1, liftM at 1. rewrite state_list_eq.
  unfold bindM at 1. rewrite Hol.
  unfold modifyM at 1. unfold bindM at 1, getM.
  unfold bindM, liftM.
  change (state_list (with_B ?u m1)) with (state_list m1).
  rewrite state_list_eq. unfold enumerate.
  rewrite !all_states_length, all_observations_length.
  rewrite all_states_length, Hl1 in Hrows. rewrite Hl1.
  unfold np_zeros2. rewrite Hrows. rewrite Hm1. reflexivity.
Qed.

Lemma B_eq (m : Unilateral) :
  _modality_tables m = Some [(modality, tab)] ->
  observations_current m -> _B m = None ->
  B m
  = (Return (observation_matrix m tab),
     with_B (Some (observation_matrix m tab))
       (with_obs_list (Some (all_observations 1 (length (lnls m))))
          (in_state m (replicate (length (lnls m)) 1%Z)))).
Proof.
  intros Ht Hcur HB. unfold B, bindM at 1, getM. rewrite HB.
  unfold bindM at 1. rewrite (gen_B_eq m Ht Hcur HB). reflexivity.
Qed.

End ObservationMatrix.

Section StateProbabilities.

Import unilateral.

Variable np_linalg_inv : matrix -> result matrix.

Lemma bindM_Return {S A B : Type} (c : M S A) (k : A -> M S B) (s s' : S) (x : A) :
  c s = (Return x, s') -> bindM c k s = k x s'.
Proof. intros H. unfold bindM. by rewrite H. Qed.

Lemma same_diagnostics_refl (x : Unilateral) : same_diagnostics x x.
Proof. by repeat split. Qed.

Lemma same_diagnostics_trans (x y z : Unilateral) :
  same_diagnostics x y -> same_diagnostics y z -> same_diagnostics x z.
Proof.
  intros (H1 & H2 & H3 & H4) (H1' & H2' & H3' & H4').
  repeat split; congruence.
Qed.

Lemma A_current_frame (m : Unilateral) :
  matrix_current m ->
  exists m', A m = (Return (transition_matrix m), m') /\
    matrix_current m' /\ transition_matrix m' = transition_matrix m /\
    same_diagnostics m m'.
Proof.
  intros Hcur.
  destruct (A_current m Hcur)
    as (m' & HA & HA' & Htm & Hl & _ & Ht & Hol & HB & _).
  exists m'. split; [done|]. split; [by right|]. split; [done|]. by repeat split.
Qed.

Lemma ncols_transition_matrix (m : Unilateral) :
  ncols (transition_matrix m) = (2 ^ length (lnls m))%nat.
Proof.
  pose proof (transition_matrix_length m) as Hlen.
  pose proof (pow2_pos (length (lnls m))) as Hpos.
  destruct (transition_matrix m) as [|row tm] eqn:E; [cbn in Hlen; lia|].
  cbn [ncols].
  assert (Hrow : row ∈ transition_matrix m) by (rewrite E; left).
  unfold transition_matrix in Hrow.
  apply list_elem_of_fmap in Hrow as (si & -> & _). apply row_spec_length.
Qed.

Lemma evolve_loop_returns (n : nat) :
  forall (state : list Q) (state_probs : matrix) (m : Unilateral),
    matrix_current m -> length state = (2 ^ length (lnls m))%nat ->
    Forall (fun row => length row = (2 ^ length (lnls m))%nat) state_probs ->
    exists (st : list Q) (sp : matrix) (m' : Unilateral),
      evolve_loop n state state_probs m = (Return (st, sp), m') /\
      length st = (2 ^ length (lnls m))%nat /\
      length sp = (length state_probs + n)%nat /\
      Forall (fun row => length row = (2 ^ length (lnls m))%nat) sp /\
      matrix_current m' /\ same_diagnostics m m'.
Proof.
  induction n as [|n IH]; intros state state_probs m Hcur Hst Hsp.
  - exists state, state_probs, m. cbn [evolve_loop]. unfold retM.
    rewrite Nat.add_0_r. by repeat split.
  - cbn [evolve_loop].
    destruct (A_current_frame m Hcur) as (m1 & HA & Hcur1 & Htm & Hsame).
    unfold bindM at 1. rewrite HA.
    unfold bindM at 1, liftM at 1, np_vec_mat.
    rewrite decide_True by (by rewrite Hst, transition_matrix_length).
    destruct Hsame as (Hl & Hrest).
    destruct (IH (vec_mat state (transition_matrix m)) (state_probs ++ [state]) m1)
      as (st & sp & m' & Hrun & Hlst & Hlsp & Hall & Hcur' & Hsame'); try done.
    + by rewrite vec_mat_length, ncols_transition_matrix, Hl.
    + rewrite Hl. apply Forall_app. split; [done|]. by constructor.
    + exists st, sp, m'. rewrite Hrun. rewrite Hl in Hlst, Hall.
      split; [done|]. split; [done|].
      split; [rewrite Hlsp, length_app; cbn [length]; lia|].
      split; [done|]. split; [done|].
      apply (same_diagnostics_trans m m1 m'); [|done].
      destruct Hrest as (? & ? & ?). by repeat split.
Qed.


Lemma evolve_returns_frame (t : Z) (m : Unilateral) :
  (0 <= t)%Z -> matrix_current m ->
  exists (v : list Q) (m' : Unilateral),
    _evolve np_linalg_inv t None m = (Return v, m') /\
    length v = (2 ^ length (lnls m))%nat /\
    matrix_current m' /\ same_diagnostics m m'.
Proof.
  intros Ht Hcur.
  destruct (evolve_returns np_linalg_inv t m Ht Hcur)
    as (v & m' & Hev & Hlen & HA' & _ & Hl & _ & Htab & Hol & HB & _).
  exists v, m'. split; [done|]. split; [done|]. split; [by right|].
  by repeat split.
Qed.

Lemma evolve_range_returns (t_first t_last : Z) (m : Unilateral) :
  (0 <= t_first <= t_last)%Z -> matrix_current m ->
  exists (sp : matrix) (m' : Unilateral),
    _evolve np_linalg_inv t_first (Some t_last) m = (Return sp, m') /\
    matrix_shaped (Z.to_nat (t_last - t_first) + 1) (2 ^ length (lnls m)) sp /\
    matrix_current m' /\ same_diagnostics m m'.
Proof.
  intros Ht Hcur.
  destruct (A_current_frame m Hcur) as (m1 & HA & Hcur1 & Htm & Hsame).
  pose proof (pow2_pos (length (lnls m))) as Hpos.
  set (state := vec_mat (1 :: replicate (2 ^ length (lnls m) - 1) 0)
                  (mat_pow_nat (transition_matrix m) (Z.to_nat t_first))).
  assert (Hstate : length state = (2 ^ length (lnls m1))%nat).
  { unfold state.
    rewrite vec_mat_length, ncols_mat_pow_nat by apply is_square_transition_matrix.
    destruct Hsame as [-> _]. apply transition_matrix_length. }
  destruct (evolve_loop_returns (Z.to_nat (t_last - t_first)) state [] m1 Hcur1
              Hstate ltac:(constructor))
    as (st & sp & m' & Hrun & Hlst & Hlsp & Hall & Hcur' & Hsame').
  exists (sp ++ [st]), m'. split.
  - unfold _evolve, bindM at 1, getM.
    unfold bindM at 1, liftM at 1. rewrite state_list_eq, all_states_length.
    destruct (2 ^ length (lnls m))%nat as [|n] eqn:En; [lia|].
    cbn [replicate]. unfold bindM at 1, liftM at 1.
    unfold bindM at 1. rewrite HA.
    unfold bindM at 1, liftM at 1, mat_pow.
    rewrite is_square_transition_matrix. cbn [negb].
    replace (t_first <? 0)%Z with false by (symmetry; apply Z.ltb_ge; lia).
    unfold bindM at 1, liftM at 1, np_vec_mat.
    rewrite decide_True.
    2:{ cbn [length]. by rewrite length_replicate, mat_pow_nat_length,
          transition_matrix_length. }
    replace (t_last - t_first <? 0)%Z with false by (symmetry; apply Z.ltb_ge; lia).
    unfold bindM. unfold state in Hrun.
    replace (S n - 1)%nat with n in Hrun by lia.
    rewrite Hrun. reflexivity.
  - destruct Hsame as (Hl & Hrest). rewrite Hl in Hlst, Hall.
    split; [split|split].
    + rewrite length_app, Hlsp. cbn [length]. lia.
    + apply Forall_app. split; [done|]. by constructor.
    + done.
    + apply (same_diagnostics_trans m m1 m'); [|done].
      destruct Hrest as (? & ? & ?). by repeat split.
Qed.


Lemma same_diagnostics_in_state (x : Unilateral) (s : list Z) :
  same_diagnostics x (in_state x s).
Proof. split; [apply lnls_in_state|]. by repeat split. Qed.

Lemma Node_bn_prob_binary (x : Unilateral) (node : nat) :
  is_bit (node_state x node) -> exists p, Node_bn_prob x node = Return p.
Proof.
  intros Hbit. unfold Node_bn_prob, node_trans_prob.
  destruct Hbit as [-> | ->]; by eexists.
Qed.

Lemma bn_factors (x : Unilateral) (i : nat) (ls : list nat) :
  Forall (fun node => is_bit (node_state x node)) ls ->
  forall a : list Q, (i < length a)%nat ->
    exists a' : list Q,
      foldM ls (bn_factor i) a x = (Return a', x) /\ length a' = length a.
Proof.
  induction ls as [|node ls IH]; intros Hls a0 Hi.
  - by exists a0.
  - inversion Hls as [|? ? Hnode Hls']; subst.
    destruct (Node_bn_prob_binary x node Hnode) as [p Hp].
    destruct (lookup_lt_is_Some_2 a0 i Hi) as [ai Hai].
    assert (Hstep : bn_factor i a0 node x = (Return (<[i := ai * p]> a0), x)).
    { unfold bn_factor, bindM, getM, liftM, index. by rewrite Hp, Hai. }
    cbn [foldM]. unfold bindM. rewrite Hstep.
    destruct (IH Hls' (<[i := ai * p]> a0)) as (a' & Hrun & Hlen).
    { by rewrite length_insert. }
    exists a'. rewrite Hrun. split; [done|]. by rewrite Hlen, length_insert.
Qed.

Lemma bn_states (sts : list (list Z)) :
  forall (k : nat) (a : list Q) (x : Unilateral),
    Forall (fun s => length s = length (lnls x) /\ Forall is_bit s) sts ->
    (k + length sts <= length a)%nat ->
    exists (a' : list Q) (x' : Unilateral),
      foldM (zip (seq k (length sts)) sts)
        (fun a istate =>
           set_state (snd istate) ;;;
           m' <~ getM ;;
           foldM (lnls m') (bn_factor (fst istate)) a)
        a x
      = (Return a', x') /\
      length a' = length a /\ same_diagnostics x x'.
Proof.
  induction sts as [|s sts IH]; intros k a0 x Hsts Hk.
  - exists a0, x. split; [reflexivity|]. split; [done|]. apply same_diagnostics_refl.
  - inversion Hsts as [|? ? [Hlen Hbits] Hsts']; subst.
    destruct (bn_factors (in_state x s) k (lnls (in_state x s))
                (in_state_bits x s Hlen Hbits) a0) as (a1 & Hinner & Hlen1).
    { cbn [length] in Hk. lia. }
    assert (Hstep : (set_state s ;;;
                     m' <~ getM ;; foldM (lnls m') (bn_factor k) a0) x
                    = (Return a1, in_state x s)).
    { unfold bindM, getM. rewrite set_state_eq by done. exact Hinner. }
    cbn [length seq zip zip_with foldM fst snd].
    rewrite (bindM_Return _ _ _ _ _ Hstep).
    destruct (IH (S k) a1 (in_state x s)) as (a' & x' & Hrun & Hlen' & Hsame).
    + eapply Forall_impl; [exact Hsts'|]. intros s' [Hs' Hb'].
      by rewrite lnls_in_state.
    + cbn [length] in Hk. lia.
    + exists a', x'. rewrite Hrun. split; [done|]. split; [congruence|].
      eapply same_diagnostics_trans; [apply same_diagnostics_in_state|done].
Qed.

Lemma bn_state_probs_returns (m : Unilateral) :
  exists (a : list Q) (m' : Unilateral),
    bn_state_probs m = (Return a, m') /\
    length a = (2 ^ length (lnls m))%nat /\ same_diagnostics m m'.
Proof.
  destruct (bn_states (all_states (length (lnls m))) 0
              (replicate (2 ^ length (lnls m)) 1) m)
    as (a' & m' & Hrun & Hlen & Hsame).
  - apply Forall_forall. intros s Hs. by apply all_states_elem.
  - by rewrite length_replicate, all_states_length.
  - exists a', m'. split; [|split; [by rewrite Hlen, length_replicate|done]].
    unfold bn_state_probs, bindM at 1, getM.
    unfold bindM at 1, liftM at 1. rewrite state_list_eq.
    unfold enumerate. rewrite all_states_length.
    rewrite all_states_length in Hrun. exact Hrun.
Qed.

End StateProbabilities.

Section Encoding.

Import unilateral.

Lemma encode_loop (obs : list (option bool)) (todo : list (list Z)) :
  Forall (fun complete_obs => length complete_obs = length obs) todo ->
  forall (done_ : list (list Z)) (rest : list bool),
    length rest = length todo ->
    for_each (zip (seq (length done_) (length todo)) todo) (encode_step obs)
      (map (fun complete_obs => forallb id (zip_with matches obs complete_obs)) done_
       ++ rest)
    = Return (map (fun complete_obs => forallb id (zip_with matches obs complete_obs))
                (done_ ++ todo)).
Proof.
  induction todo as [|complete_obs todo IH]; intros Htodo done_ rest Hlen.
  - destruct rest; [|discriminate]. by rewrite !app_nil_r.
  - inversion Htodo as [|? ? Hobs Htodo']; subst.
    destruct rest as [|r rest]; [discriminate|].
    assert (Hstep :
      encode_step obs
        (map (fun c => forallb id (zip_with matches obs c)) done_ ++ r :: rest)
        (length done_, complete_obs)
      = Return (map (fun c => forallb id (zip_with matches obs c)) done_
                ++ forallb id (zip_with matches obs complete_obs) :: rest)).
    { unfold encode_step. cbn [fst snd]. unfold np_all_equal_where.
      rewrite decide_True by done. cbn [mbind result_bind].
      unfold set_item. rewrite decide_True
        by (rewrite length_app, length_map; cbn [length]; lia).
      rewrite insert_app_r_alt by (by rewrite length_map).
      rewrite length_map, Nat.sub_diag. reflexivity. }
    cbn [length seq zip zip_with for_each]. rewrite Hstep.
    cbn [mbind result_bind].
    specialize (IH Htodo' (done_ ++ [complete_obs]) rest).
    rewrite length_app, map_app, <- !app_assoc in IH. cbn [length map app] in IH.
    replace (length done_ + 1)%nat with (S (length done_)) in IH by lia.
    apply IH. cbn [length] in Hlen. lia.
Qed.

Lemma comp_encoding_eq (x : Unilateral) (tables : list (string * matrix))
    (obs : list (option bool)) :
  _modality_tables x = Some tables -> observations_current x ->
  length obs = (length tables * length (lnls x))%nat ->
  comp_encoding obs (2 ^ (length tables * length (lnls x))) x
  = (Return (compatibility (all_observations (length tables) (length (lnls x))) obs),
     with_obs_list (Some (all_observations (length tables) (length (lnls x)))) x).
Proof.
  intros Ht Hcur Hobs.
  destruct (obs_list_current x tables Ht Hcur) as (x' & Hol & ->).
  unfold comp_encoding, bindM. rewrite Hol. unfold liftM, enumerate.
  pose proof (encode_loop obs (all_observations (length tables) (length (lnls x))))
    as Hloop.
  assert (Hall : Forall (fun complete_obs => length complete_obs = length obs)
                   (all_observations (length tables) (length (lnls x)))).
  { apply Forall_forall. intros complete_obs Hin.
    by rewrite (all_observations_row_length _ _ _ Hin). }
  specialize (Hloop Hall []
                (replicate (2 ^ (length tables * length (lnls x))) false)).
  rewrite length_replicate, all_observations_length in Hloop.
  specialize (Hloop eq_refl). cbn [length map app] in Hloop.
  rewrite all_observations_length, Hloop. reflexivity.
Qed.

Lemma obs_row_single (L i : nat) : obs_row 1 L i = bits L (Z.of_nat i).
Proof.
  unfold obs_row. apply list_eq. intros p. rewrite list_lookup_fmap.
  rewrite Nat.mul_1_l.
  destruct (decide (p < L)%nat) as [Hp|Hp].
  - rewrite lookup_seq_lt by done. cbn [fmap option_fmap option_map].
    unfold obs_entry. rewrite Nat.mul_1_l, Nat.mod_1_r, Nat.div_1_r.
    cbn [Nat.mul Nat.add].
    destruct (lookup_lt_is_Some_2 (bits L (Z.of_nat i)) p) as [v Hv];
      [by rewrite bits_length|].
    by rewrite Hv.
  - rewrite lookup_seq_ge by lia. cbn [fmap option_fmap option_map].
    symmetry. apply lookup_ge_None. rewrite bits_length. lia.
Qed.

Lemma all_observations_single (L : nat) : all_observations 1 L = all_states L.
Proof.
  unfold all_observations. rewrite Nat.mul_1_l, <- all_states_bits.
  apply map_ext. intros i. apply obs_row_single.
Qed.

Lemma count_true_map {A : Type} (g : A -> bool) (l : list A) :
  count_true (map g l) = count_where g l.
Proof.
  unfold count_true, count_where. induction l as [|x l IH]; [reflexivity|].
  cbn [map List.filter]. unfold id at 1. destruct (g x); cbn [length]; by rewrite IH.
Qed.

Lemma count_where_app {A : Type} (p : A -> bool) (l1 l2 : list A) :
  count_where p (l1 ++ l2) = (count_where p l1 + count_where p l2)%nat.
Proof. unfold count_where. by rewrite List.filter_app, length_app. Qed.

Lemma count_where_map {A B : Type} (p : B -> bool) (g : A -> B) (l : list A) :
  count_where p (map g l) = count_where (fun x => p (g x)) l.
Proof.
  unfold count_where. induction l as [|x l IH]; [reflexivity|].
  cbn [map List.filter]. destruct (p (g x)); cbn [length]; by rewrite IH.
Qed.

Lemma count_where_false {A : Type} (l : list A) : count_where (fun _ => false) l = 0%nat.
Proof. unfold count_where. by induction l. Qed.

Lemma complete_matches_once (L : nat) :
  forall bs : list bool, length bs = L ->
    count_where (fun s => forallb id (zip_with matches (map Some bs) s))
      (all_states L) = 1%nat.
Proof.
  induction L as [|L IH]; intros bs Hlen.
  - by destruct bs.
  - destruct bs as [|b bs]; [discriminate|]. cbn [length] in Hlen.
    cbn [all_states]. rewrite count_where_app, !count_where_map.
    cbn [map zip_with forallb matches].
    destruct b; cbn [Z.b2z Z.eqb id andb Pos.eqb].
    + rewrite count_where_false. cbn [Nat.add]. apply IH. lia.
    + rewrite count_where_false, Nat.add_0_r. apply IH. lia.
Qed.

Lemma encoding_single (L : nat) (bs : list bool) :
  length bs = L ->
  count_true (compatibility (all_observations 1 L) (map Some bs)) = 1%nat.
Proof.
  intros Hlen. unfold compatibility.
  rewrite count_true_map, all_observations_single. by apply complete_matches_once.
Qed.

End Encoding.

Section PosteriorSum.

Import unilateral.

Lemma Qsum_map_plus {A : Type} (f g : A -> Q) (l : list A) :
  Qsum (map (fun x => f x + g x) l) == Qsum (map f l) + Qsum (map g l).
Proof.
  induction l as [|x l IH]; cbn [map]; rewrite ?Qsum_cons.
  - cbn. lra.
  - rewrite IH. lra.
Qed.

Lemma dot_nil_r (u : list Q) : dot u [] = 0.
Proof. unfold dot. by destruct u. Qed.

Lemma dot_cons (x y : Q) (u v : list Q) : dot (x :: u) (y :: v) = x * y + dot u v.
Proof. reflexivity. Qed.

Lemma dot_comm (u v : list Q) : dot u v == dot v u.
Proof.
  revert v. induction u as [|x u IH]; intros [|y v]; try reflexivity.
  rewrite !dot_cons, IH. ring.
Qed.

Lemma dot_ext (c : list Q) {A : Type} (f g : A -> Q) (l : list A) :
  (forall x, x ∈ l -> f x == g x) -> dot c (map f l) == dot c (map g l).
Proof.
  revert c. induction l as [|x l IH]; intros c H.
  - reflexivity.
  - destruct c as [|c0 c]; [reflexivity|]. cbn [map]. rewrite !dot_cons.
    rewrite (H x) by left. rewrite IH; [reflexivity|].
    intros y Hy. apply H. by right.
Qed.

Lemma column_cons (row : list Q) (P : matrix) (j : nat) :
  column (row :: P) j = default 0 (row !! j) :: column P j.
Proof. reflexivity. Qed.

Lemma row_from_entries (row : list Q) :
  map (fun j => default 0 (row !! j)) (seq 0 (length row)) = row.
Proof.
  apply list_eq. intros j. rewrite list_lookup_fmap.
  destruct (row !! j) as [x|] eqn:E.
  - rewrite lookup_seq_lt by (by eapply lookup_lt_Some).
    cbn [fmap option_fmap option_map]. by rewrite Nat.add_0_l, E.
  - rewrite lookup_seq_ge by (by apply lookup_ge_None). reflexivity.
Qed.

(** Summing the entries of [c @ P] is weighting the row sums of [P] by [c]. *)
Lemma Qsum_weighted_rows (w : nat) (P : matrix) :
  Forall (fun row => length row = w) P ->
  forall c : list Q,
    Qsum (map (fun j => dot c (column P j)) (seq 0 w)) == dot c (map Qsum P).
Proof.
  induction 1 as [|row P Hrow HP IH]; intros c.
  - cbn [map]. rewrite dot_nil_r.
    rewrite (Qsum_map_ext _ (fun _ => 0)); [apply Qsum_map_zero|].
    intros j _. unfold column. cbn [map]. by rewrite dot_nil_r.
  - destruct c as [|c0 c].
    + rewrite (Qsum_map_ext _ (fun _ => 0)); [apply Qsum_map_zero|].
      intros j _. reflexivity.
    + cbn [map]. rewrite dot_cons, <- IH.
      rewrite (Qsum_map_ext _ (fun j => c0 * default 0 (row !! j)
                                         + dot c (column P j))).
      2:{ intros j _. by rewrite column_cons, dot_cons. }
      rewrite Qsum_map_plus, Qsum_map_scale.
      rewrite <- Hrow, row_from_entries. reflexivity.
Qed.

Lemma Qsum_vec_mat (c : list Q) (P : matrix) :
  Forall (fun row => length row = ncols P) P ->
  Qsum (vec_mat c P) == dot c (map Qsum P).
Proof. intros HP. unfold vec_mat. by apply Qsum_weighted_rows. Qed.

Lemma Qsum_map_div (d : Q) (l : list Q) :
  Qsum (map (fun x => x / d) l) == Qsum l / d.
Proof.
  induction l as [|x l IH]; cbn [map]; rewrite ?Qsum_cons.
  - cbn. unfold Qdiv. ring.
  - rewrite IH. unfold Qdiv. ring.
Qed.

Lemma np_divide_sum (num : list Q) (den : Q) (res : list Q) :
  Qsum num == den -> np_divide num den = Some res ->
  length res = length num /\ Qsum res == 1.
Proof.
  intros Hsum Hdiv. unfold np_divide in Hdiv.
  destruct (Qeq_bool den 0) eqn:E; [discriminate|]. injection Hdiv as <-.
  split; [by rewrite length_map|].
  rewrite Qsum_map_div, Hsum. apply Qeq_bool_neq in E. by field.
Qed.

End PosteriorSum.

Section Risk.

Import unilateral.

Variable np_linalg_inv : matrix -> result matrix.
Variable modality : string.
Variables a b c d : Q.

Let tab : matrix := [[a; b]; [c; d]].

Lemma set_spread_probs_frame (new : list Q) (m : Unilateral) :
  (length (spread_probs m) <= length new)%nat ->
  exists m', set_spread_probs new m = (Return (), m') /\
    matrix_current m' /\ same_diagnostics m m'.
Proof.
  intros Hlen.
  destruct (set_spread_probs_spec new m Hlen) as (m' & Hset & HA & Hnodes & _).
  exists m'. split; [done|]. split; [by left|].
  rewrite spread_probs_length in Hlen.
  unfold set_spread_probs, bindM at 1, getM in Hset. unfold bindM in Hset.
  rewrite set_base_probs_eq in Hset by (rewrite length_take; lia).
  rewrite set_trans_probs_eq in Hset.
  - injection Hset as <-. by repeat split.
  - destruct (set_base_probs_spec (take (length (base_edges m)) new) m)
      as (m1 & H1 & _ & _ & _ & Ht1 & _); [rewrite length_take; lia|].
    rewrite set_base_probs_eq in H1 by (rewrite length_take; lia).
    injection H1 as <-. rewrite length_drop, Ht1. lia.
Qed.

Lemma observation_matrix_shape (m : Unilateral) :
  matrix_shaped (2 ^ length (lnls m)) (2 ^ (1 * length (lnls m)))
    (observation_matrix m tab).
Proof.
  split.
  - unfold observation_matrix. by rewrite length_map, all_states_length.
  - apply Forall_forall. intros row Hrow. unfold observation_matrix in Hrow.
    apply list_elem_of_fmap in Hrow as (s & -> & _).
    unfold observation_row. by rewrite length_map, all_observations_length.
Qed.

Lemma B_returns (x : Unilateral) :
  _modality_tables x = Some [(modality, tab)] ->
  observations_current x -> observation_matrix_shaped x ->
  exists (bm : matrix) (x' : Unilateral),
    B x = (Return bm, x') /\
    matrix_shaped (2 ^ length (lnls x)) (2 ^ (1 * length (lnls x))) bm /\
    _B x' = Some bm /\ _modality_tables x' = Some [(modality, tab)] /\
    lnls x' = lnls x /\ observations_current x'.
Proof.
  intros Ht Hcur Hshape. destruct (_B x) as [bm|] eqn:HB.
  - exists bm, x. unfold observation_matrix_shaped, n_modalities in Hshape.
    rewrite HB, Ht in Hshape.
    split; [unfold B, bindM, getM; by rewrite HB|].
    split; [exact Hshape|]. by repeat split.
  - rewrite (B_eq modality a b c d x Ht Hcur HB).
    eexists _, _. split; [reflexivity|].
    split; [apply observation_matrix_shape|]. split; [reflexivity|].
    split; [exact Ht|].
    split; [exact (lnls_in_state x (replicate (length (lnls x)) 1%Z))|].
    right. unfold n_modalities.
    cbn [_modality_tables _obs_list with_B with_obs_list in_state with_nodes].
    rewrite Ht. cbn [from_option id length].
    change (lnls (with_B _ (with_obs_list _ (in_state x ?s))))
      with (lnls (in_state x s)).
    by rewrite lnls_in_state.
Qed.


Lemma joint_rows_shape (bm : matrix) (pX : list Q) (n : nat) :
  matrix_shaped n n bm -> length pX = n -> (0 < n)%nat ->
  length (map (fun z => zip_with Qmult (column bm z) pX) (seq 0 (ncols bm))) = n /\
  ncols (map (fun z => zip_with Qmult (column bm z) pX) (seq 0 (ncols bm))) = n /\
  Forall (fun row => length row = n)
    (map (fun z => zip_with Qmult (column bm z) pX) (seq 0 (ncols bm))).
Proof.
  intros [Hlen Hrows] HpX Hn.
  assert (Hcols : ncols bm = n).
  { destruct bm as [|row bm]; [cbn in Hlen; lia|]. cbn [ncols].
    by inversion Hrows. }
  assert (Hrow : forall z, length (zip_with Qmult (column bm z) pX) = n).
  { intros z. rewrite length_zip_with. unfold column. rewrite length_map. lia. }
  rewrite Hcols. split; [by rewrite length_map, length_seq|]. split.
  - destruct n as [|n]; [lia|]. cbn [seq map ncols]. apply Hrow.
  - apply Forall_forall. intros row Hin.
    apply list_elem_of_fmap in Hin as (z & -> & _). apply Hrow.
Qed.

Lemma posterior_sum (bm : matrix) (pX : list Q) (cZ : list Q) (n : nat) :
  matrix_shaped n n bm -> length pX = n -> (0 < n)%nat ->
  Qsum (vec_mat cZ (map (fun z => zip_with Qmult (column bm z) pX)
                      (seq 0 (ncols bm))))
  == dot cZ (vec_mat pX bm).
Proof.
  intros Hshape HpX Hn.
  destruct (joint_rows_shape bm pX n Hshape HpX Hn) as (_ & Hcols & Hrows).
  rewrite Qsum_vec_mat by (by rewrite Hcols).
  rewrite map_map. unfold vec_mat at 1. apply dot_ext.
  intros z _. apply dot_comm.
Qed.

Lemma risk_posterior (x : Unilateral) (pX : list Q) (bs : list bool) :
  _modality_tables x = Some [(modality, tab)] ->
  observations_current x -> observation_matrix_shaped x ->
  length pX = (2 ^ length (lnls x))%nat -> length bs = length (lnls x) ->
  exists (bm : matrix) (cZ : list bool) (x' m' : Unilateral),
    comp_encoding (map Some bs) (length (vec_mat pX bm)) x' = (Return cZ, m') /\
    count_true cZ = 1%nat /\
    (b <~ B ;;
     pZX <~ liftM (if decide (length pX = length b)
                   then Return (map (fun z => zip_with Qmult (column b z) pX)
                                    (seq 0 (ncols b)))
                   else Raise ValueError) ;;
     b' <~ B ;;
     pZ <~ liftM (np_vec_mat pX b') ;;
     cZ <~ comp_encoding (map Some bs) (length pZ) ;;
     num <~ liftM (np_vec_mat (map b2q cZ) pZX) ;;
     retM (np_divide num (dot (map b2q cZ) pZ))) x
    = (Return (np_divide
                 (vec_mat (map b2q cZ)
                    (map (fun z => zip_with Qmult (column bm z) pX)
                       (seq 0 (ncols bm))))
                 (dot (map b2q cZ) (vec_mat pX bm))),
       m') /\
    forall res : list Q,
      np_divide
        (vec_mat (map b2q cZ)
           (map (fun z => zip_with Qmult (column bm z) pX) (seq 0 (ncols bm))))
        (dot (map b2q cZ) (vec_mat pX bm)) = Some res ->
      length res = (2 ^ length (lnls x))%nat /\ Qsum res == 1.
Proof.
  intros Ht Hcur Hshape HpX Hbs.
  pose proof (pow2_pos (length (lnls x))) as Hpos.
  destruct (B_returns x Ht Hcur Hshape)
    as (bm & x' & HB & Hbm & HB' & Ht' & Hl' & Hcur').
  rewrite Nat.mul_1_l in Hbm.
  destruct (joint_rows_shape bm pX _ Hbm HpX Hpos) as (HlenP & HcolsP & HrowsP).
  assert (Hcols : ncols bm = (2 ^ length (lnls x))%nat).
  { destruct Hbm as [Hlen Hrows]. destruct bm as [|row bm]; [cbn in Hlen; lia|].
    cbn [ncols]. by inversion Hrows. }
  assert (HpZ : length (vec_mat pX bm) = (2 ^ (1 * length (lnls x')))%nat).
  { by rewrite vec_mat_length, Hcols, Hl', Nat.mul_1_l. }
  pose proof (comp_encoding_eq x' [(modality, tab)] (map Some bs) Ht' Hcur') as Henc.
  cbn [length] in Henc. rewrite <- HpZ in Henc.
  specialize (Henc ltac:(rewrite length_map, Hl'; lia)).
  set (cZ := compatibility (all_observations 1 (length (lnls x'))) (map Some bs))
    in *.
  assert (HcZ : length cZ = (2 ^ length (lnls x))%nat).
  { unfold cZ. by rewrite compatibility_length, all_observations_length,
      Nat.mul_1_l, Hl'. }
  exists bm, cZ, x', (with_obs_list (Some (all_observations 1 (length (lnls x')))) x').
  split; [exact Henc|].
  split; [unfold cZ; apply encoding_single; by rewrite Hl'|].
  split.
  - rewrite (bindM_Return _ _ _ _ _ HB).
    rewrite decide_True by (destruct Hbm as [-> _]; done).
    unfold bindM at 1, liftM at 1.
    assert (HBc : B x' = (Return bm, x')) by (unfold B, bindM, getM; by rewrite HB').
    rewrite (bindM_Return _ _ _ _ _ HBc).
    unfold bindM at 1, liftM at 1, np_vec_mat.
    rewrite decide_True by (destruct Hbm as [-> _]; done).
    rewrite (bindM_Return _ _ _ _ _ Henc).
    unfold bindM, liftM, retM.
    rewrite decide_True by (by rewrite length_map, HcZ, HlenP).
    reflexivity.
  - intros res Hres.
    apply np_divide_sum in Hres.
    + destruct Hres as [Hlen Hsum]. split; [|done].
      by rewrite Hlen, vec_mat_length, HcolsP.
    + by apply (posterior_sum bm pX _ (2 ^ length (lnls x))).
Qed.

End Risk.

Section RiskTheorem.

Import unilateral.

Lemma diagnose_vector_single (modality : string) (tab : matrix)
    (diagnoses : gmap string (list (option bool))) (obs : list (option bool))
    (n_lnl : nat) :
  diagnoses !! modality = Some obs ->
  diagnose_vector [(modality, tab)] diagnoses n_lnl = obs.
Proof.
  intros Hd. unfold diagnose_vector. cbn [flat_map fst]. rewrite Hd.
  apply app_nil_r.
Qed.

Lemma same_diagnostics_invariant (m x : Unilateral) (tables : list (string * matrix)) :
  same_diagnostics m x -> _modality_tables m = Some tables ->
  observations_current m -> observation_matrix_shaped m ->
  _modality_tables x = Some tables /\ observations_current x /\
  observation_matrix_shaped x /\ lnls x = lnls m.
Proof.
  intros (Hl & Ht & Hol & HB) Htab Hcur Hshape.
  unfold observations_current, observation_matrix_shaped, n_modalities in *.
  rewrite Hl, Ht, Hol, HB. by repeat split.
Qed.

(** C8, amended: on a model with exactly one modality, whose stored
    observation list, if any, is the one of this modality and whose stored
    observation matrix, if any, has one row per state and one column per
    complete observation of this modality (the [modalities] setter discards
    neither), [risk] with [inv = None] and a complete diagnosis of that
    modality, called with valid arguments (no new spread probabilities, the
    stored transition matrix then being absent or the one of the current
    parameters, or at least one new spread probability per edge; mode HMM
    with a non-negative diagnose time or a non-empty time distribution, or
    mode BN), returns.  The encoding vector [cZ] it builds has exactly one
    true entry, and the result is the vector [cZ @ pZX] divided by the
    probability [cZ @ pZ] of the diagnosis: when that probability is not 0,
    the result has one entry per hidden state and its entries sum to 1; it
    is 0 exactly when the division gives no vector of numbers ([nan] or
    infinite entries). *)
Theorem risk_complete_diagnosis (np_linalg_inv : matrix -> result matrix)
    (m : Unilateral) (modality : string) (a b c d : Q)
    (spread_probs : option (list Q))
    (diagnoses : gmap string (list (option bool))) (bs : list bool)
    (diag_time : option Z) (time_dist : option (list Q)) (mode : string) :
  _modality_tables m = Some [(modality, [[a; b]; [c; d]])] ->
  observations_current m -> observation_matrix_shaped m ->
  match spread_probs with
  | Some sp => (length (unilateral.spread_probs m) <= length sp)%nat
  | None => matrix_current m
  end ->
  diagnoses !! modality = Some (map Some bs) -> length bs = length (lnls m) ->
  (mode = "HMM"%string /\
   match diag_time, time_dist with
   | Some t, _ => (0 <= t)%Z
   | None, Some td => td <> []
   | None, None => False
   end) \/ mode = "BN"%string ->
  exists (pX : list Q) (bm : matrix) (cZ : list bool) (x m' : Unilateral),
    comp_encoding (map Some bs) (length (vec_mat pX bm)) x = (Return cZ, m') /\
    count_true cZ = 1%nat /\
    risk np_linalg_inv spread_probs None diagnoses diag_time time_dist mode m
    = (Return (np_divide
                 (vec_mat (map b2q cZ)
                    (map (fun z => zip_with Qmult (column bm z) pX)
                       (seq 0 (ncols bm))))
                 (dot (map b2q cZ) (vec_mat pX bm))),
       m') /\
    (forall res : list Q,
      np_divide
        (vec_mat (map b2q cZ)
           (map (fun z => zip_with Qmult (column bm z) pX) (seq 0 (ncols bm))))
        (dot (map b2q cZ) (vec_mat pX bm)) = Some res ->
      length res = (2 ^ length (lnls m))%nat /\ Qsum res == 1) /\
    (dot (map b2q cZ) (vec_mat pX bm) == 0 <->
     np_divide
       (vec_mat (map b2q cZ)
          (map (fun z => zip_with Qmult (column bm z) pX) (seq 0 (ncols bm))))
       (dot (map b2q cZ) (vec_mat pX bm)) = None).
Proof.
  intros Ht Hcur Hshape Hsp Hdiag Hbs Hmode.
  (* the spread probabilities *)
  assert (Hset : exists m1,
            (match spread_probs with
             | Some sp => set_spread_probs sp
             | None => retM ()
             end) m = (Return (), m1) /\
            matrix_current m1 /\ same_diagnostics m m1).
  { destruct spread_probs as [sp|].
    - by apply set_spread_probs_frame.
    - exists m. split; [reflexivity|]. split; [done|]. apply same_diagnostics_refl. }
  destruct Hset as (m1 & Hset & HA1 & Hsame1).
  destruct (same_diagnostics_invariant m m1 _ Hsame1 Ht Hcur Hshape)
    as (Ht1 & Hcur1 & Hshape1 & Hl1).
  (* the distribution over the hidden states *)
  assert (HpX : exists pX m2,
            (if decide (mode = "HMM"%string) then
               match diag_time, time_dist with
               | Some diag_time, _ => _evolve np_linalg_inv diag_time None
               | None, Some time_dist =>
                   let max_t := Z.of_nat (length time_dist) in
                   state_probs <~ _evolve np_linalg_inv 0 (Some (max_t - 1)%Z) ;;
                   liftM (np_vec_mat time_dist state_probs)
               | None, None => raiseM ValueError
               end
             else if decide (mode = "BN"%string) then bn_state_probs
             else (_ <~ B ;; raiseM UnboundLocalError)) m1 = (Return pX, m2) /\
            length pX = (2 ^ length (lnls m1))%nat /\ same_diagnostics m1 m2).
  { destruct Hmode as [[-> Htime] | ->].
    - rewrite decide_True by reflexivity.
      destruct diag_time as [t|]; [|destruct time_dist as [td|]; [|done]].
      + destruct (evolve_returns_frame np_linalg_inv t m1 Htime HA1)
          as (v & m2 & Hev & Hlen & _ & Hsame).
        by exists v, m2.
      + destruct (evolve_range_returns np_linalg_inv 0 (Z.of_nat (length td) - 1) m1)
          as (sp & m2 & Hev & [Hlen Hrows] & _ & Hsame); [|done|].
        { destruct td; [done|]. cbn [length]. lia. }
        exists (vec_mat td sp), m2. cbv zeta.
        rewrite (bindM_Return _ _ _ _ _ Hev). unfold liftM, np_vec_mat.
        assert (Hsp' : length sp = length td).
        { rewrite Hlen. destruct td; [done|]. cbn [length]. lia. }
        rewrite decide_True by done. split; [reflexivity|]. split; [|done].
        rewrite vec_mat_length. destruct sp as [|row sp].
        * destruct td; [done|discriminate].
        * cbn [ncols]. by inversion Hrows.
    - rewrite decide_False by discriminate. rewrite decide_True by reflexivity.
      destruct (bn_state_probs_returns m1) as (v & m2 & Hbn & Hlen & Hsame).
      by exists v, m2. }
  destruct HpX as (pX & m2 & HpX & HlenpX & Hsame2).
  destruct (same_diagnostics_invariant m1 m2 _ Hsame2 Ht1 Hcur1 Hshape1)
    as (Ht2 & Hcur2 & Hshape2 & Hl2).
  rewrite <- Hl2 in HlenpX.
  destruct (risk_posterior modality a b c d m2 pX bs Ht2 Hcur2 Hshape2 HlenpX)
    as (bm & cZ & x & m' & Henc & Hcount & Hrun & Hsum).
  { by rewrite Hl2, Hl1. }
  exists pX, bm, cZ, x, m'. split; [exact Henc|]. split; [exact Hcount|]. split.
  - unfold risk. rewrite (bindM_Return _ _ _ _ _ Hset).
    unfold bindM at 1, modality_tables, bindM at 1, getM. rewrite Ht1.
    unfold retM at 1. unfold bindM at 1, getM.
    rewrite (bindM_Return _ _ _ _ _ HpX).
    rewrite (diagnose_vector_single _ _ _ _ _ Hdiag).
    exact Hrun.
  - split.
    + intros res Hres. rewrite <- Hl1, <- Hl2. by apply Hsum.
    + unfold np_divide.
      destruct (Qeq_bool (dot (map b2q cZ) (vec_mat pX bm)) 0) eqn:E.
      * split; [reflexivity|]. intros _. by apply Qeq_bool_iff.
      * split; [|discriminate]. intros H0. apply Qeq_bool_iff in H0. congruence.
Qed.

(** C8 as stated fails: a modality with specificity and sensitivity 1 is
    accepted by the setter; with spread probability 0 the LNL stays healthy,
    the diagnosis [involved] has probability 0, and [risk] divides 0 by 0:
    the vector it returns holds [nan], its entries do not sum to 1. *)
Lemma risk_zero_probability_diagnosis :
  exists m0 m1 m' : Unilateral,
    __init__ (single_lnl_graph "T" "I") = Return m0 /\
    set_modalities [("CT"%string, [1; 1])] m0 = (Return (), m1) /\
    risk (fun _ => Raise LinAlgError) (Some [0]) None
      {["CT"%string := [Some true]]} (Some 1%Z) None "HMM" m1
    = (Return None, m').
Proof. eexists _, _, _. repeat split; vm_compute; reflexivity. Qed.

(** What the amended statement leaves out: the [modalities] setter keeps the
    observation list and the observation matrix of the modalities before.
    On a model with one LNL and the modalities CT and MRI, [risk] returns a
    vector; after the modalities are set to CT alone, [risk] with a complete
    diagnosis of CT raises [ValueError], because the diagnosis has one entry
    and the stored observations have two. *)
Lemma risk_stale_observation_list_raises :
  exists (m0 m1 m2 m3 : Unilateral) (res : list Q),
    __init__ (single_lnl_graph "T" "I") = Return m0 /\
    set_modalities
      [("CT"%string, [4 # 5; 9 # 10]); ("MRI"%string, [7 # 10; 3 # 4])] m0
    = (Return (), m1) /\
    risk (fun _ => Raise LinAlgError) (Some [1 # 2]) None
      {["CT"%string := [Some true]; "MRI"%string := [Some true]]}
      (Some 1%Z) None "HMM" m1
    = (Return (Some res), m2) /\
    set_modalities [("CT"%string, [4 # 5; 9 # 10])] m2 = (Return (), m3) /\
    fst (risk (fun _ => Raise LinAlgError) (Some [1 # 2]) None
           {["CT"%string := [Some true]]} (Some 1%Z) None "HMM" m3)
    = Raise ValueError.
Proof. eexists _, _, _, _, _. repeat split; vm_compute; reflexivity. Qed.

(** The theorem at the example model with one modality, for the diagnosis
    "level I involved, level II healthy" at diagnose time 2. *)
Lemma risk_complete_diagnosis_witness :
  exists (pX : list Q) (bm : matrix) (cZ : list bool) (x m' : Unilateral),
    comp_encoding (map Some [true; false]) (length (vec_mat pX bm)) x
    = (Return cZ, m') /\
    count_true cZ = 1%nat /\
    risk (fun _ => Raise LinAlgError) None None
      {["CT"%string := [Some true; Some false]]} (Some 2%Z) None "HMM"
      example_diagnosed_model
    = (Return (np_divide
                 (vec_mat (map b2q cZ)
                    (map (fun z => zip_with Qmult (column bm z) pX)
                       (seq 0 (ncols bm))))
                 (dot (map b2q cZ) (vec_mat pX bm))),
       m') /\
    (forall res : list Q,
      np_divide
        (vec_mat (map b2q cZ)
           (map (fun z => zip_with Qmult (column bm z) pX) (seq 0 (ncols bm))))
        (dot (map b2q cZ) (vec_mat pX bm)) = Some res ->
      length res = (2 ^ length (lnls example_diagnosed_model))%nat /\
      Qsum res == 1) /\
    (dot (map b2q cZ) (vec_mat pX bm) == 0 <->
     np_divide
       (vec_mat (map b2q cZ)
          (map (fun z => zip_with Qmult (column bm z) pX) (seq 0 (ncols bm))))
       (dot (map b2q cZ) (vec_mat pX bm)) = None).
Proof.
  apply (risk_complete_diagnosis (fun _ => Raise LinAlgError)
           example_diagnosed_model "CT" (4 # 5) (1 - (9 # 10)) (1 - (4 # 5))
           (9 # 10) None {["CT"%string := [Some true; Some false]]}
           [true; false] (Some 2%Z) None "HMM").
  - reflexivity.
  - left. reflexivity.
  - exact I.
  - left. reflexivity.
  - vm_compute. reflexivity.
  - reflexivity.
  - left. split; [reflexivity|]. lia.
Defined.

End RiskTheorem.

Section BilateralSync.

(** The callback that [create_property_sync_callback] returns copies the
    value of [other] to [this]. *)
Lemma run_callback_copies_other (this other : nat) (h : bilateral.store) (v : Q) :
  bilateral.getattr h other bilateral.spread_prob = Return v ->
  bilateral.run_callback
    (bilateral.create_property_sync_callback [bilateral.spread_prob] this other) h
  = (Return (), bilateral.setattr_private this bilateral.spread_prob v h).
Proof.
  intros Hv. cbn. unfold bindM, getM, liftM. rewrite Hv. reflexivity.
Qed.

(** C5, as the code behaves: in a bilateral model with one tumor edge and
    [tumor_spread_symmetric = True], writing the spread probability [p] to
    the ipsilateral tumor edge leaves the contralateral tumor edge at its
    initial spread probability 0, whether [Edge] objects compare by identity
    (no callback is registered, because the intersection is taken over the
    edge objects of the two sides) or by name (the callback of the written
    edge copies the contralateral value back, so the write itself is
    undone).  The older [BilateralSystem.set_theta] of [system.py] does
    write each value to both sides ([set_symmetric_mirrors] below). *)
Theorem tumor_spread_write_not_mirrored (by_name : bool) (nm : string) (p : Q) :
  let same := if by_name then bilateral.same_name else bilateral.same_object in
  exists self h h',
    bilateral.__init__ same [nm] true = (Return self, h) /\
    bilateral.ipsi_tumor_edges self = [0%nat] /\
    bilateral.contra_tumor_edges self = [1%nat] /\
    bilateral.getattr h 1 bilateral.spread_prob = Return 0 /\
    bilateral.set_spread_prob 0 p h = (Return (), h') /\
    bilateral.getattr h' 1 bilateral.spread_prob = Return 0 /\
    (by_name = true -> bilateral.getattr h' 0 bilateral.spread_prob = Return 0).
Proof.
  destruct by_name; cbv zeta.
  - cbv -[bool_decide].
    rewrite !bool_decide_eq_true_2 by reflexivity.
    eexists _, _, _. repeat split; reflexivity.
  - eexists _, _, _. repeat split; try reflexivity. discriminate.
Qed.

End BilateralSync.

(** ** [BilateralSystem.set_theta] writes a symmetric block to both sides *)

Section SetTheta.

Import system.

Lemma written_length (writes : list (nat * Q)) (es : list unilateral.Edge) :
  length (written writes es) = length es.
Proof.
  revert es. induction writes as [|w writes IH]; intros es; [reflexivity|].
  cbn [written foldl]. fold (written writes (alter (unilateral.set_t (snd w)) (fst w) es)).
  by rewrite IH, length_alter.
Qed.

Lemma written_other (writes : list (nat * Q)) (es : list unilateral.Edge) (e : nat) :
  e ∉ map fst writes -> written writes es !! e = es !! e.
Proof.
  revert es. induction writes as [|w writes IH]; intros es Hnotin; [reflexivity|].
  cbn [map] in Hnotin. apply not_elem_of_cons in Hnotin as [Hne Hnotin].
  cbn [written foldl]. fold (written writes (alter (unilateral.set_t (snd w)) (fst w) es)).
  rewrite IH by done. by apply list_lookup_alter_ne.
Qed.

Lemma written_value (writes : list (nat * Q)) :
  forall (es : list unilateral.Edge) (e : nat) (x : Q),
    NoDup (map fst writes) -> (e, x) ∈ writes -> (e < length es)%nat ->
    default 0 (unilateral.t <$> written writes es !! e) = x.
Proof.
  induction writes as [|w writes IH]; intros es e x Hnd Hin He.
  - by apply elem_of_nil in Hin.
  - cbn [map] in Hnd. apply NoDup_cons in Hnd as [Hnotin Hnd].
    cbn [written foldl].
    fold (written writes (alter (unilateral.set_t (snd w)) (fst w) es)).
    apply elem_of_cons in Hin as [<-|Hin].
    + cbn [fst snd] in *. rewrite written_other by done.
      destruct (lookup_lt_is_Some_2 es e He) as [edge Hedge].
      rewrite list_lookup_alter_eq, Hedge. reflexivity.
    + apply IH; [done|done|by rewrite length_alter].
Qed.

Lemma mirrored_refs (ipsi contra : list nat) (theta : list Q) (e : nat) :
  e ∈ map fst (mirrored_writes ipsi contra theta) -> e ∈ ipsi \/ e ∈ contra.
Proof.
  revert contra theta. induction ipsi as [|a ipsi IH]; intros [|b contra] [|x theta] Hin;
    try (by apply elem_of_nil in Hin).
  cbn in Hin. apply elem_of_cons in Hin as [->|Hin]; [left; left|].
  apply elem_of_cons in Hin as [->|Hin]; [right; left|].
  destruct (IH contra theta Hin); [left|right]; by right.
Qed.

Lemma mirrored_writes_NoDup (ipsi contra : list nat) (theta : list Q) :
  NoDup (ipsi ++ contra) -> NoDup (map fst (mirrored_writes ipsi contra theta)).
Proof.
  revert contra theta.
  induction ipsi as [|a ipsi IH]; intros [|b contra] [|x theta] Hnd;
    try apply NoDup_nil_2.
  cbn [app] in Hnd. apply NoDup_cons in Hnd as [Ha Hnd].
  apply NoDup_app in Hnd as (Hi & Hdisj & Hc).
  apply NoDup_cons in Hc as [Hb Hc].
  change (map fst (mirrored_writes (a :: ipsi) (b :: contra) (x :: theta)))
    with (a :: b :: map fst (mirrored_writes ipsi contra theta)).
  apply NoDup_cons. split; [|apply NoDup_cons; split].
  - intros Hin. apply Ha. apply elem_of_cons in Hin as [->|Hin].
    + apply elem_of_app. right. left.
    + apply elem_of_app. destruct (mirrored_refs _ _ _ _ Hin); [by left|].
      right. by right.
  - intros Hin. destruct (mirrored_refs _ _ _ _ Hin) as [Hin'|Hin']; [|done].
    apply (Hdisj b Hin'). left.
  - apply IH. apply NoDup_app. split; [done|]. split; [|done].
    intros y Hy Hy'. apply (Hdisj y Hy). by right.
Qed.

Lemma mirrored_writes_lookup (ipsi contra : list nat) (theta : list Q)
    (i e e' : nat) (x : Q) :
  ipsi !! i = Some e -> contra !! i = Some e' -> theta !! i = Some x ->
  (e, x) ∈ mirrored_writes ipsi contra theta /\
  (e', x) ∈ mirrored_writes ipsi contra theta.
Proof.
  revert contra theta i.
  induction ipsi as [|a ipsi IH]; intros [|b contra] [|y theta] [|i] Hi Hc Ht;
    try discriminate.
  - injection Hi as ->. injection Hc as ->. injection Ht as ->.
    split; [left|right; left].
  - cbn [lookup list_lookup] in Hi, Hc, Ht.
    destruct (IH contra theta i Hi Hc Ht) as [H1 H2].
    split; right; by right.
Qed.

Lemma set_symmetric_loop (ipsi contra : list nat) (theta : list Q) (n : nat) :
  forall (k cursor : nat) (s : BilateralSystem),
    (k + n = length ipsi)%nat -> (length ipsi <= length contra)%nat ->
    (cursor + n <= length theta)%nat ->
    foldM (seq k n)
      (fun cursor i =>
         x <~ liftM (index theta cursor) ;;
         edge <~ liftM (index ipsi i) ;;
         assign_t edge x ;;;
         x' <~ liftM (index theta cursor) ;;
         edge' <~ liftM (index contra i) ;;
         assign_t edge' x' ;;;
         retM (cursor + 1)%nat)
      cursor s
    = (Return (cursor + n)%nat,
       mkBilateralSystem
         (written (mirrored_writes (drop k ipsi) (drop k contra) (drop cursor theta))
            (edges s))
         (ipsi_base s) (ipsi_trans s) (contra_base s) (contra_trans s)).
Proof.
  induction n as [|n IH]; intros k cursor s Hk Hlen Hth.
  - cbn [seq foldM]. unfold retM. rewrite Nat.add_0_r.
    rewrite (drop_ge ipsi) by lia. destruct s; reflexivity.
  - destruct (lookup_lt_is_Some_2 ipsi k ltac:(lia)) as [e He].
    destruct (lookup_lt_is_Some_2 contra k ltac:(lia)) as [e' He'].
    destruct (lookup_lt_is_Some_2 theta cursor ltac:(lia)) as [x Hx].
    cbn [seq foldM].
    assert (Hstep :
      (x <~ liftM (index theta cursor) ;;
       edge <~ liftM (index ipsi k) ;;
       assign_t edge x ;;;
       x' <~ liftM (index theta cursor) ;;
       edge' <~ liftM (index contra k) ;;
       assign_t edge' x' ;;;
       retM (cursor + 1)%nat) s
      = (Return (cursor + 1)%nat,
         mkBilateralSystem
           (alter (unilateral.set_t x) e' (alter (unilateral.set_t x) e (edges s)))
           (ipsi_base s) (ipsi_trans s) (contra_base s) (contra_trans s))).
    { unfold bindM, liftM, index, assign_t, modifyM, retM. by rewrite Hx, He, He'. }
    rewrite (bindM_Return _ _ _ _ _ Hstep).
    rewrite IH by (cbn [edges]; lia).
    rewrite (drop_S ipsi e k He), (drop_S contra e' k He'), (drop_S theta x cursor Hx).
    replace (cursor + 1)%nat with (S cursor) by lia.
    replace (S cursor + n)%nat with (cursor + S n)%nat by lia.
    reflexivity.
Qed.

(** The symmetric block of [set_theta] writes [theta[i]] to edge [i] of both
    sides. *)
Lemma set_symmetric_mirrors (ipsi contra : list nat) (theta : list Q)
    (s : BilateralSystem) :
  NoDup (ipsi ++ contra) -> length contra = length ipsi ->
  (length ipsi <= length theta)%nat ->
  Forall (fun e => (e < length (edges s))%nat) (ipsi ++ contra) ->
  exists s' : BilateralSystem,
    set_symmetric ipsi contra theta 0 s = (Return (length ipsi), s') /\
    forall (i e e' : nat) (x : Q),
      ipsi !! i = Some e -> contra !! i = Some e' -> theta !! i = Some x ->
      edge_t s' e = x /\ edge_t s' e' = x.
Proof.
  intros Hnd Hlen Hth Hrange. eexists. split.
  - unfold set_symmetric.
    rewrite (set_symmetric_loop ipsi contra theta (length ipsi) 0 0 s) by lia.
    reflexivity.
  - intros i e e' x Hi Hc Ht. rewrite !drop_0. unfold edge_t. cbn [edges].
    destruct (mirrored_writes_lookup ipsi contra theta i e e' x Hi Hc Ht) as [H1 H2].
    rewrite Forall_forall in Hrange.
    split; apply written_value; try done.
    + by apply mirrored_writes_NoDup.
    + apply Hrange, elem_of_app. left. by eapply list_elem_of_lookup_2.
    + by apply mirrored_writes_NoDup.
    + apply Hrange, elem_of_app. right. by eapply list_elem_of_lookup_2.
Qed.

(** [set_theta] with [base_symmetric], on a system without edges among the
    LNLs and outside mode HMM: every base probability is written to the
    ipsilateral and to the contralateral edge. *)
Lemma set_theta_base_symmetric (_gen_A : M BilateralSystem unit) (theta : list Q)
    (trans_symmetric : bool) (s : BilateralSystem) :
  ipsi_trans s = [] -> contra_trans s = [] ->
  NoDup (ipsi_base s ++ contra_base s) ->
  length (contra_base s) = length (ipsi_base s) ->
  (length (ipsi_base s) <= length theta)%nat ->
  Forall (fun e => (e < length (edges s))%nat) (ipsi_base s ++ contra_base s) ->
  exists s' : BilateralSystem,
    set_theta _gen_A theta true trans_symmetric "BN" s = (Return (), s') /\
    forall (i e e' : nat) (x : Q),
      ipsi_base s !! i = Some e -> contra_base s !! i = Some e' ->
      theta !! i = Some x ->
      edge_t s' e = x /\ edge_t s' e' = x.
Proof.
  intros Hit Hct Hnd Hlen Hth Hrange.
  destruct (set_symmetric_mirrors _ _ theta s Hnd Hlen Hth Hrange)
    as (s' & Hrun & Hmirror).
  exists s'. split; [|exact Hmirror].
  unfold set_theta, bindM at 1, getM. cbv zeta.
  rewrite (bindM_Return _ _ _ _ _ Hrun). rewrite Hit, Hct.
  destruct trans_symmetric; reflexivity.
Qed.

End SetTheta.

(** * Further properties of the code *)

(** ** The [state] property: reading after writing *)

Section StateRoundTrip.

Import unilateral.

(** Reading [state] after assigning a sequence with one entry per LNL gives
    the truth values of the entries: the getter builds a boolean array. *)
Theorem state_read_after_write (m : Unilateral) (newstate : list Z) :
  length newstate = length (lnls m) ->
  exists m' : Unilateral,
    set_state newstate m = (Return (), m') /\
    get_state m' = map (fun v => negb (v =? 0)%Z) newstate.
Proof.
  intros Hlen. exists (in_state m newstate).
  split; [by apply set_state_eq|].
  unfold get_state. rewrite lnls_in_state.
  transitivity (map (fun v => negb (v =? 0)%Z)
                  (map (node_state (in_state m newstate)) (lnls m))).
  - by rewrite map_map.
  - by rewrite in_state_lnl_states.
Qed.

Lemma state_read_after_write_witness :
  exists m' : Unilateral,
    set_state [2%Z; 0%Z] example_model = (Return (), m') /\
    get_state m' = map (fun v => negb (v =? 0)%Z) [2%Z; 0%Z].
Proof. apply (state_read_after_write example_model [2%Z; 0%Z]). reflexivity. Defined.

End StateRoundTrip.

(** ** The setters of the spread probabilities with too few values *)

Section ShortSetter.

Import unilateral.

Lemma set_probs_loop_short (p : Edge -> bool) (es : list Edge) :
  forall (pre : list Edge) (done_ new : list Q) (m : Unilateral),
    edges m = pre ++ es ->
    (length new < length (positions p es))%nat ->
    forM (zip (seq (length done_) (length (positions p es)))
              (map (Nat.add (length pre)) (positions p es)))
         (set_probs_body (done_ ++ new)) m
    = (Raise IndexError, with_edges (pre ++ assign_probs p es new) m).
Proof.
  induction es as [|e es IH]; intros pre done_ new m Hm Hlen.
  - rewrite positions_nil in Hlen. cbn in Hlen. lia.
  - rewrite positions_cons in *. cbn [assign_probs].
    destruct (p e) eqn:Hp; cbn [app length] in *; rewrite length_map in *.
    + cbn [seq map zip zip_with forM]. unfold bindM at 1.
      unfold set_probs_body at 1. unfold bindM at 1, liftM, index.
      destruct new as [|x new].
      * rewrite app_nil_r, lookup_ge_None_2 by lia.
        rewrite <- Hm. by rewrite with_edges_edges.
      * cbn [length] in Hlen.
        rewrite lookup_app_r by lia. rewrite Nat.sub_diag. cbn [lookup list_lookup].
        unfold assign_edge_t, modifyM.
        rewrite Hm, Nat.add_0_r.
        replace (alter (set_t x) (length pre) (pre ++ e :: es))
          with (pre ++ set_t x e :: es).
        2:{ clear. induction pre; [reflexivity|]. cbn. by f_equal. }
        specialize (IH (pre ++ [set_t x e]) (done_ ++ [x]) new
                      (with_edges (pre ++ set_t x e :: es) m)).
        rewrite <- !app_assoc in IH. cbn [app] in IH.
        rewrite !length_app in IH. cbn [length] in IH.
        replace (length done_ + 1)%nat with (S (length done_)) in IH by lia.
        rewrite map_map.
        erewrite (map_ext (fun x => (length pre + S x)%nat)); [rewrite IH|]; try done.
        -- intros; lia.
        -- lia.
    + specialize (IH (pre ++ [e]) done_ new m).
      rewrite <- !app_assoc in IH. cbn [app] in IH.
      rewrite map_map. rewrite length_app in IH. cbn [length] in IH.
      rewrite <- (IH Hm Hlen). do 2 f_equal.
      apply map_ext. intros; lia.
Qed.

Lemma assign_probs_partial (p : Edge -> bool) (es : list Edge) (new : list Q) :
  map (fun edge => default 0 (t <$> assign_probs p es new !! edge)) (positions p es)
  = take (length (positions p es)) new
    ++ drop (length new)
         (map (fun edge => default 0 (t <$> es !! edge)) (positions p es)).
Proof.
  revert new. induction es as [|e es IH]; intros new; [by destruct new|].
  rewrite positions_cons. cbn [assign_probs].
  destruct (p e) eqn:Hp; cbn [app length map].
  - destruct new as [|x new].
    + reflexivity.
    + cbn [take length drop app]. rewrite length_map. f_equal.
      rewrite !map_map. cbn [lookup list_lookup]. apply IH.
  - rewrite length_map, !map_map. cbn [lookup list_lookup]. apply IH.
Qed.

(** Assigning [base_probs] with fewer values than there are base edges
    raises [IndexError] after the values given have been written to the
    first base edges; the other edges keep their probabilities, and the
    stored transition matrix is not deleted. *)
Theorem base_probs_setter_too_short (m : Unilateral) (new_base_probs : list Q) :
  (length new_base_probs < length (base_edges m))%nat ->
  exists m' : Unilateral,
    set_base_probs new_base_probs m = (Raise IndexError, m') /\
    _A m' = _A m /\
    base_probs m'
    = new_base_probs ++ drop (length new_base_probs) (base_probs m) /\
    trans_probs m' = trans_probs m.
Proof.
  intros Hlen.
  exists (with_edges (assign_probs (starts_at_tumor (nodes m)) (edges m)
                        new_base_probs) m).
  split; [|split; [reflexivity|split]].
  - unfold set_base_probs, bindM at 1, getM. unfold bindM at 1.
    unfold base_edges in *. unfold enumerate.
    pose proof (set_probs_loop_short (starts_at_tumor (nodes m)) (edges m) [] []
                  new_base_probs m eq_refl Hlen) as H.
    cbn [length app] in H.
    erewrite (map_ext (Nat.add 0) id) in H; [|intros; apply Nat.add_0_l].
    rewrite map_id in H. by rewrite H.
  - unfold base_probs, base_edges, edge_t in *. cbn [nodes edges with_edges].
    rewrite base_edges_assign, assign_probs_partial. f_equal.
    apply take_ge. lia.
  - unfold trans_probs, trans_edges, edge_t. cbn [nodes edges with_edges].
    rewrite trans_edges_assign.
    apply assign_probs_other_values. intros e. unfold starts_at_lnl.
    by destruct (starts_at_tumor (nodes m) e).
Qed.

Lemma base_probs_setter_too_short_witness :
  exists m' : Unilateral,
    set_base_probs [3 # 4] (with_A (Some (transition_matrix example_model)) example_model)
    = (Raise IndexError, m') /\
    _A m' = _A (with_A (Some (transition_matrix example_model)) example_model) /\
    base_probs m'
    = [3 # 4] ++ drop (length [3 # 4])
                   (base_probs (with_A (Some (transition_matrix example_model))
                                  example_model)) /\
    trans_probs m'
    = trans_probs (with_A (Some (transition_matrix example_model)) example_model).
Proof.
  apply (base_probs_setter_too_short
           (with_A (Some (transition_matrix example_model)) example_model) [3 # 4]).
  vm_compute. lia.
Defined.

End ShortSetter.

(** ** The all-involved state is absorbing *)

Section Absorbing.

Import unilateral.

Lemma all_states_NoDup (L : nat) : NoDup (all_states L).
Proof.
  induction L as [|L IH]; cbn [all_states]; [apply NoDup_singleton|].
  apply NoDup_app. split; [|split].
  - by apply (NoDup_fmap_2 (cons 0%Z)).
  - intros s Hs Hs'. apply list_elem_of_fmap in Hs as (x & -> & _).
    apply list_elem_of_fmap in Hs' as (y & Heq & _). discriminate.
  - by apply (NoDup_fmap_2 (cons 1%Z)).
Qed.

Lemma reachable_from_all_involved (sj : list Z) :
  Forall is_bit sj ->
  reachable (replicate (length sj) 1%Z) sj
  = bool_decide (sj = replicate (length sj) 1%Z).
Proof.
  unfold reachable, np_any_greater.
  induction 1 as [|v sj Hv Hsj IH]; [reflexivity|].
  cbn [length replicate zip zip_with existsb fst snd].
  rewrite negb_orb, IH.
  destruct Hv as [-> | ->]; cbn [Z.ltb Z.compare negb andb].
  - symmetry. apply bool_decide_eq_false_2. discriminate.
  - destruct (decide (sj = replicate (length sj) 1%Z)) as [Heq|Hne].
    + rewrite !bool_decide_eq_true_2; [done| |done]. by f_equal.
    + rewrite !bool_decide_eq_false_2; [done| |done]. by intros [= ?].
Qed.

Lemma stay_all_involved (x : Unilateral) (ls : list nat) :
  Forall (fun node => node_state x node <> 0%Z) ls ->
  forall (sj : list Z) (res : Q), foldl (lnl_step x) res (zip sj ls) = res.
Proof.
  induction 1 as [|node ls Hnode Hls IH]; intros sj res; [by destruct sj|].
  destruct sj as [|v sj]; [reflexivity|]. cbn [zip zip_with foldl].
  rewrite IH. unfold lnl_step. cbn [snd]. by rewrite decide_False.
Qed.

Lemma row_all_involved (m : Unilateral) :
  row_spec m (replicate (length (lnls m)) 1%Z)
  = map (fun sj => if bool_decide (sj = replicate (length (lnls m)) 1%Z)
                   then 1 else 0)
        (all_states (length (lnls m))).
Proof.
  unfold row_spec. apply map_ext_in. intros sj Hsj.
  apply list_elem_of_In, all_states_elem in Hsj as [Hlen Hbits].
  rewrite <- Hlen at 1. rewrite reachable_from_all_involved, Hlen by done.
  destruct (bool_decide _); [|reflexivity].
  unfold trans_prob. apply stay_all_involved.
  apply Forall_forall. intros node Hnode.
  pose proof (in_state_lnl_states m (replicate (length (lnls m)) 1%Z)
                (length_replicate _ _)) as Hmap.
  assert (Hst : node_state (in_state m (replicate (length (lnls m)) 1%Z)) node
                ∈ map (node_state (in_state m (replicate (length (lnls m)) 1%Z)))
                      (lnls m)).
  { apply list_elem_of_fmap. by exists node. }
  rewrite Hmap in Hst.
  apply elem_of_replicate in Hst as [-> _]. discriminate.
Qed.

Lemma indicator_of_last {A : Type} `{EqDecision A} (l : list A) (x : A) :
  NoDup (l ++ [x]) ->
  map (fun y => if bool_decide (y = x) then 1 else 0) (l ++ [x])
  = replicate (length l) 0 ++ [1].
Proof.
  intros Hnd. apply NoDup_app in Hnd as (_ & Hdisj & _).
  rewrite map_app. cbn [map]. rewrite bool_decide_eq_true_2 by done. f_equal.
  induction l as [|y l IH]; [reflexivity|]. cbn [map length replicate].
  rewrite bool_decide_eq_false_2.
  - f_equal. apply IH. intros z Hz. apply Hdisj. by right.
  - intros ->. apply (Hdisj x); left.
Qed.

(** The state in which every LNL is involved is absorbing: the last row of
    the transition matrix is 0 everywhere but in its last entry, which is
    1, whatever the spread probabilities. *)
Theorem all_involved_is_absorbing (m : Unilateral) :
  _A m = None ->
  exists (a : matrix) (m' : Unilateral),
    A m = (Return a, m') /\
    length a = (2 ^ length (lnls m))%nat /\
    last a = Some (replicate (2 ^ length (lnls m) - 1) 0 ++ [1]).
Proof.
  intros HA. rewrite (A_eq m HA). eexists _, _. split; [reflexivity|].
  split; [apply transition_matrix_length|].
  unfold transition_matrix. rewrite fmap_last, last_all_states.
  cbn [fmap option_fmap option_map]. f_equal. rewrite row_all_involved.
  pose proof (last_all_states (length (lnls m))) as Hlast.
  apply last_Some in Hlast as [front Hfront].
  pose proof (all_states_NoDup (length (lnls m))) as Hnd.
  pose proof (all_states_length (length (lnls m))) as Hlen.
  rewrite Hfront in *. rewrite length_app in Hlen. cbn [length] in Hlen.
  rewrite indicator_of_last by done. do 2 f_equal. lia.
Qed.

Lemma all_involved_is_absorbing_witness :
  exists (a : matrix) (m' : Unilateral),
    A example_model = (Return a, m') /\
    length a = (2 ^ length (lnls example_model))%nat /\
    last a = Some (replicate (2 ^ length (lnls example_model) - 1) 0 ++ [1]).
Proof. apply (all_involved_is_absorbing example_model). reflexivity. Defined.

End Absorbing.

(** ** The time evolution keeps a probability distribution *)

Section Evolution.

Import unilateral.

Variable np_linalg_inv : matrix -> result matrix.

Lemma dot_row_sums (P : matrix) :
  Forall (fun row => Qsum row == 1) P ->
  forall v : list Q, length v = length P -> dot v (map Qsum P) == Qsum v.
Proof.
  induction 1 as [|row P Hrow HP IH]; intros [|x v] Hlen; try discriminate.
  - reflexivity.
  - cbn [map]. rewrite dot_cons, Qsum_cons, Hrow, IH by (cbn in Hlen; lia). ring.
Qed.

Lemma Qsum_vec_mat_stochastic (w : nat) (v : list Q) (P : matrix) :
  Forall (fun row => length row = w /\ Qsum row == 1) P ->
  length v = length P ->
  Qsum (vec_mat v P) == Qsum v.
Proof.
  intros HP Hlen. rewrite Qsum_vec_mat.
  - apply dot_row_sums; [|done]. eapply Forall_impl; [exact HP|]. by intros ? [_ ?].
  - destruct P as [|row P]; [constructor|].
    apply Forall_cons in HP as HP'. destruct HP' as [[Hw _] _]. cbn [ncols].
    eapply Forall_impl; [exact HP|]. intros r [Hr _]. by rewrite Hr, Hw.
Qed.

Lemma indicator_sum (i n : nat) :
  forall a : nat,
    Qsum (map (fun j => if Nat.eqb i j then 1 else 0) (seq a n))
    == if (a <=? i)%nat && (i <? a + n)%nat then 1 else 0.
Proof.
  induction n as [|n IH]; intros a.
  - cbn [seq map]. destruct (Nat.leb_spec a i), (Nat.ltb_spec i (a + 0)); cbn;
      try reflexivity; lia.
  - cbn [seq map]. rewrite Qsum_cons, IH.
    destruct (Nat.eqb_spec i a) as [->|Hne].
    + rewrite Nat.leb_refl.
      destruct (Nat.leb_spec (S a) a), (Nat.ltb_spec a (a + S n)); cbn;
        try lia; reflexivity.
    + destruct (Nat.leb_spec (S a) i), (Nat.ltb_spec i (S a + n)),
        (Nat.leb_spec a i), (Nat.ltb_spec i (a + S n)); cbn; try lia; reflexivity.
Qed.

Lemma np_eye_stochastic (n : nat) :
  Forall (fun row => length row = n /\ Qsum row == 1) (np_eye n).
Proof.
  unfold np_eye. apply Forall_forall. intros row Hrow.
  apply list_elem_of_fmap in Hrow as (i & -> & Hi).
  apply list_elem_of_In, in_seq in Hi. split.
  - by rewrite length_map, length_seq.
  - rewrite indicator_sum.
    destruct (Nat.leb_spec 0 i), (Nat.ltb_spec i (0 + n)); cbn; try lia; reflexivity.
Qed.

Lemma ncols_stochastic (w : nat) (a : matrix) :
  Forall (fun row => length row = w /\ Qsum row == 1) a ->
  a <> [] -> ncols a = w.
Proof. intros Ha Hne. destruct a as [|row a]; [done|]. by inversion Ha as [|?? [? _]]. Qed.

Lemma mat_pow_nat_stochastic (a : matrix) (n : nat) :
  Forall (fun row => length row = length a /\ Qsum row == 1) a ->
  Forall (fun row => length row = length a /\ Qsum row == 1) (mat_pow_nat a n).
Proof.
  intros Ha. induction n as [|n IH]; cbn [mat_pow_nat]; [apply np_eye_stochastic|].
  unfold mat_mat. apply Forall_forall. intros row Hrow.
  apply list_elem_of_fmap in Hrow as (r & -> & Hr).
  destruct (proj1 (Forall_forall _ _) IH r Hr) as [Hlen Hsum].
  destruct a as [|row0 a].
  { pose proof (mat_pow_nat_length [] n) as Hl.
    destruct (mat_pow_nat [] n); [by apply elem_of_nil in Hr | discriminate]. }
  split.
  - rewrite vec_mat_length. by apply (ncols_stochastic _ _ Ha).
  - rewrite (Qsum_vec_mat_stochastic _ _ _ Ha) by done. exact Hsum.
Qed.

Lemma transition_matrix_stochastic (m : Unilateral) :
  Forall (fun row => length row = length (transition_matrix m) /\ Qsum row == 1)
         (transition_matrix m).
Proof.
  apply Forall_forall. intros row Hrow. unfold transition_matrix in Hrow.
  apply list_elem_of_fmap in Hrow as (si & -> & Hsi).
  split; [by rewrite row_spec_length, transition_matrix_length|].
  by apply row_spec_sum.
Qed.

(** Non-negativity *)

Lemma Qsum_nonneg (l : list Q) : Forall (Qle 0) l -> 0 <= Qsum l.
Proof.
  induction 1 as [|x l Hx Hl IH]; [cbn; lra|]. rewrite Qsum_cons. lra.
Qed.

Lemma dot_nonneg (u : list Q) :
  Forall (Qle 0) u -> forall v, Forall (Qle 0) v -> 0 <= dot u v.
Proof.
  induction 1 as [|x u Hx Hu IH]; intros v Hv; [cbn; lra|].
  destruct Hv as [|y v Hy Hv]; [cbn; lra|].
  rewrite dot_cons. pose proof (IH v Hv). pose proof (Qmult_le_0_compat x y Hx Hy).
  lra.
Qed.

Lemma column_nonneg (P : matrix) (j : nat) :
  Forall (Forall (Qle 0)) P -> Forall (Qle 0) (column P j).
Proof.
  intros HP. unfold column. apply Forall_fmap. eapply Forall_impl; [exact HP|].
  intros row Hrow. cbn. destruct (row !! j) as [x|] eqn:E; cbn; [|lra].
  apply list_elem_of_lookup_2 in E. by apply (proj1 (Forall_forall _ _) Hrow).
Qed.

Lemma vec_mat_nonneg (v : list Q) (P : matrix) :
  Forall (Qle 0) v -> Forall (Forall (Qle 0)) P -> Forall (Qle 0) (vec_mat v P).
Proof.
  intros Hv HP. unfold vec_mat. apply Forall_fmap, Forall_forall. intros j _. cbn.
  apply dot_nonneg; [done|]. by apply column_nonneg.
Qed.

Lemma np_eye_nonneg (n : nat) : Forall (Forall (Qle 0)) (np_eye n).
Proof.
  unfold np_eye. apply Forall_fmap, Forall_forall. intros i _. cbn.
  apply Forall_fmap, Forall_forall. intros j _. cbn. destruct (Nat.eqb i j); lra.
Qed.

Lemma mat_pow_nat_nonneg (a : matrix) (n : nat) :
  Forall (Forall (Qle 0)) a -> Forall (Forall (Qle 0)) (mat_pow_nat a n).
Proof.
  intros Ha. induction n as [|n IH]; cbn [mat_pow_nat]; [apply np_eye_nonneg|].
  unfold mat_mat. apply Forall_fmap. eapply Forall_impl; [exact IH|].
  intros row Hrow. cbn. by apply vec_mat_nonneg.
Qed.

Lemma stay_prob_bounds (ws : list Q) :
  Forall (fun w => 0 <= w <= 1) ws ->
  forall (ss : list Z) (stay : Q), 0 <= stay <= 1 ->
    0 <= foldl (fun stay '(state, weight) =>
                  if decide (state = 0%Z) then stay else stay * (1 - weight))
               stay (zip ss ws) <= 1.
Proof.
  induction 1 as [|w ws Hw Hws IH]; intros [|s ss] stay Hstay; try (cbn; lra).
  cbn [zip zip_with foldl]. apply IH. destruct (decide (s = 0%Z)); [done|].
  split; [apply Qmult_le_0_compat; lra|].
  assert (0 <= stay * w) by (apply Qmult_le_0_compat; lra).
  lra.
Qed.

Lemma lnl_trans_prob_nonneg (m : Unilateral) (node k : nat) :
  valid_edges m -> 0 <= default 0 (lnl_trans_prob m node !! k).
Proof.
  intros Hm. unfold lnl_trans_prob, node_trans_prob.
  match goal with |- context [foldl ?f 1 ?l] => set (stay := foldl f 1 l) end.
  assert (Hstay : 0 <= stay <= 1).
  { apply stay_prob_bounds; [|lra]. apply Forall_fmap.
    unfold inc. apply Forall_forall. intros e He.
    apply list_elem_of_In, filter_In in He as [He _].
    apply (proj1 (Forall_forall _ _) Hm). by apply list_elem_of_In. }
  clearbody stay. destruct k as [|[|k]]; cbn; [lra|lra|]. destruct k; cbn; lra.
Qed.

Lemma trans_steps_nonneg (x : Unilateral) (ls : list nat) :
  valid_edges x ->
  forall (sj : list Z) (res : Q), 0 <= res -> 0 <= foldl (lnl_step x) res (zip sj ls).
Proof.
  intros Hx. induction ls as [|node ls IH]; intros [|v sj] res Hres; try done.
  cbn [zip zip_with foldl]. apply IH. unfold lnl_step.
  destruct (decide _); [|done]. apply Qmult_le_0_compat; [done|].
  by apply lnl_trans_prob_nonneg.
Qed.

Lemma transition_matrix_nonneg (m : Unilateral) :
  valid_edges m -> Forall (Forall (Qle 0)) (transition_matrix m).
Proof.
  intros Hm. unfold transition_matrix. apply Forall_fmap, Forall_forall.
  intros si _. cbn. unfold row_spec. apply Forall_fmap, Forall_forall.
  intros sj _. cbn. destruct (reachable si sj); [|lra].
  unfold trans_prob. apply trans_steps_nonneg; [|lra]. exact Hm.
Qed.

Lemma start_state_length (m : Unilateral) :
  length (start_state m) = (2 ^ length (lnls m))%nat.
Proof.
  unfold start_state. cbn [length]. rewrite length_replicate.
  pose proof (pow2_pos (length (lnls m))). lia.
Qed.

Lemma Qsum_replicate_zero (n : nat) : Qsum (replicate n 0) == 0.
Proof. induction n as [|n IH]; [reflexivity|]. cbn [replicate]. rewrite Qsum_cons, IH. lra. Qed.

Lemma start_state_distribution (m : Unilateral) :
  Forall (Qle 0) (start_state m) /\ Qsum (start_state m) == 1.
Proof.
  unfold start_state. split.
  - constructor; [lra|]. apply Forall_replicate. lra.
  - rewrite Qsum_cons, Qsum_replicate_zero. lra.
Qed.

Lemma evolved_state_length (m : Unilateral) (n : nat) :
  length (evolved_state m n) = (2 ^ length (lnls m))%nat.
Proof.
  unfold evolved_state.
  rewrite vec_mat_length, ncols_mat_pow_nat by apply is_square_transition_matrix.
  apply transition_matrix_length.
Qed.

Lemma evolved_state_sum (m : Unilateral) (n : nat) : Qsum (evolved_state m n) == 1.
Proof.
  unfold evolved_state.
  rewrite (Qsum_vec_mat_stochastic (length (transition_matrix m))).
  - apply start_state_distribution.
  - apply mat_pow_nat_stochastic, transition_matrix_stochastic.
  - by rewrite start_state_length, mat_pow_nat_length, transition_matrix_length.
Qed.

Lemma evolved_state_nonneg (m : Unilateral) (n : nat) :
  valid_edges m -> Forall (Qle 0) (evolved_state m n).
Proof.
  intros Hm. apply vec_mat_nonneg; [apply start_state_distribution|].
  by apply mat_pow_nat_nonneg, transition_matrix_nonneg.
Qed.

Lemma entries_at_most_sum (l : list Q) :
  Forall (Qle 0) l -> Forall (fun x => 0 <= x <= Qsum l) l.
Proof.
  induction 1 as [|x l Hx Hl IH]; [constructor|].
  pose proof (Qsum_nonneg l Hl) as Hs. rewrite Qsum_cons. constructor; [lra|].
  eapply Forall_impl; [exact IH|]. cbn. intros y Hy.
  change (0 <= y <= x + Qsum l). lra.
Qed.

Lemma evolved_state_distribution (m : Unilateral) (n : nat) :
  valid_edges m -> is_distribution (evolved_state m n).
Proof.
  intros Hm. split; [|apply evolved_state_sum].
  pose proof (entries_at_most_sum _ (evolved_state_nonneg m n Hm)) as H.
  eapply Forall_impl; [exact H|]. cbn. intros x Hx.
  pose proof (evolved_state_sum m n) as Hs. rewrite Hs in Hx. exact Hx.
Qed.

Lemma evolve_value (t : Z) (m : Unilateral) :
  (0 <= t)%Z -> matrix_current m ->
  exists m', _evolve np_linalg_inv t None m
             = (Return (evolved_state m (Z.to_nat t)), m') /\
    matrix_current m' /\ transition_matrix m' = transition_matrix m /\
    same_diagnostics m m'.
Proof.
  intros Ht Hcur.
  destruct (A_current_frame m Hcur) as (m' & HA & Hrest).
  unfold _evolve, bindM at 1, getM.
  unfold bindM at 1, liftM at 1. rewrite state_list_eq, all_states_length.
  unfold evolved_state, start_state.
  pose proof (pow2_pos (length (lnls m))) as Hpos.
  destruct (2 ^ length (lnls m))%nat as [|n] eqn:En; [lia|].
  cbn [replicate]. unfold bindM at 1, liftM at 1.
  unfold bindM at 1. rewrite HA.
  unfold bindM at 1, liftM at 1, mat_pow.
  rewrite is_square_transition_matrix. cbn [negb].
  replace (t <? 0)%Z with false by (symmetry; apply Z.ltb_ge; lia).
  unfold bindM, liftM, np_vec_mat, retM.
  rewrite decide_True.
  2:{ cbn [length]. by rewrite length_replicate, mat_pow_nat_length,
        transition_matrix_length. }
  exists m'. split; [|exact Hrest].
  by replace (S n - 1)%nat with n by lia.
Qed.

(** On a model whose matrix is up to date, [_evolve(t)] with [t >= 0] returns
    a vector with one entry per state whose entries sum to one; when every
    edge carries a probability, every entry lies between 0 and 1 as well. *)
Theorem evolve_returns_distribution (t : Z) (m : Unilateral) :
  (0 <= t)%Z -> matrix_current m ->
  exists (v : list Q) (m' : Unilateral),
    _evolve np_linalg_inv t None m = (Return v, m') /\
    length v = (2 ^ length (lnls m))%nat /\
    Qsum v == 1 /\
    (valid_edges m -> is_distribution v).
Proof.
  intros Ht Hcur. destruct (evolve_value t m Ht Hcur) as (m' & Hev & _).
  exists (evolved_state m (Z.to_nat t)), m'. split; [exact Hev|].
  split; [apply evolved_state_length|]. split; [apply evolved_state_sum|].
  apply evolved_state_distribution.
Qed.

Lemma trajectory_length (a : matrix) (n : nat) :
  forall state, length (trajectory a state n) = S n.
Proof. induction n as [|n IH]; intros state; cbn [trajectory length]; by rewrite ?IH. Qed.

Lemma trajectory_sums (m : Unilateral) (n : nat) :
  forall state : list Q,
    length state = (2 ^ length (lnls m))%nat -> Qsum state == 1 ->
    Forall (fun row => length row = (2 ^ length (lnls m))%nat /\ Qsum row == 1)
           (trajectory (transition_matrix m) state n).
Proof.
  induction n as [|n IH]; intros state Hlen Hsum; cbn [trajectory].
  - by repeat constructor.
  - constructor; [done|]. apply IH.
    + by rewrite vec_mat_length, ncols_transition_matrix.
    + rewrite (Qsum_vec_mat_stochastic _ _ _ (transition_matrix_stochastic m));
        [done|]. by rewrite transition_matrix_length.
Qed.

Lemma trajectory_nonneg (a : matrix) (n : nat) :
  Forall (Forall (Qle 0)) a ->
  forall state : list Q,
    Forall (Qle 0) state -> Forall (Forall (Qle 0)) (trajectory a state n).
Proof.
  intros Ha. induction n as [|n IH]; intros state Hst; cbn [trajectory].
  - by repeat constructor.
  - constructor; [done|]. apply IH. by apply vec_mat_nonneg.
Qed.

Lemma evolve_loop_value (n : nat) :
  forall (state : list Q) (state_probs : matrix) (m : Unilateral),
    matrix_current m -> length state = (2 ^ length (lnls m))%nat ->
    exists (st : list Q) (sp : matrix) (m' : Unilateral),
      evolve_loop n state state_probs m = (Return (st, sp), m') /\
      sp ++ [st] = state_probs ++ trajectory (transition_matrix m) state n /\
      matrix_current m' /\ transition_matrix m' = transition_matrix m /\
      same_diagnostics m m'.
Proof.
  induction n as [|n IH]; intros state state_probs m Hcur Hst.
  - exists state, state_probs, m. cbn [evolve_loop trajectory]. unfold retM.
    split; [done|]. split; [done|]. split; [done|]. split; [done|].
    apply same_diagnostics_refl.
  - cbn [evolve_loop trajectory].
    destruct (A_current_frame m Hcur) as (m1 & HA & Hcur1 & Htm & Hsame).
    unfold bindM at 1. rewrite HA.
    unfold bindM at 1, liftM at 1, np_vec_mat.
    rewrite decide_True by (by rewrite Hst, transition_matrix_length).
    pose proof Hsame as (Hl & _).
    destruct (IH (vec_mat state (transition_matrix m)) (state_probs ++ [state]) m1)
      as (st & sp & m' & Hrun & Hval & Hcur' & Htm' & Hsame'); try done.
    + by rewrite vec_mat_length, ncols_transition_matrix, Hl.
    + exists st, sp, m'. rewrite Hrun. split; [done|].
      split; [by rewrite Hval, Htm, <- app_assoc|].
      split; [done|]. split; [by rewrite Htm'|].
      by apply (same_diagnostics_trans m m1 m').
Qed.

Lemma evolve_prefix (t_first : Z) (t_last : option Z) (m m1 : Unilateral)
    (k : list Q -> M Unilateral (evolved t_last)) :
  (0 <= t_first)%Z ->
  A m = (Return (transition_matrix m), m1) ->
  (m0 <~ getM ;;
   sl <~ liftM (state_list m0) ;;
   start_state <~ liftM (match replicate (length sl) 0 with
                         | [] => Raise IndexError
                         | _ :: zeros => Return (1 :: zeros)
                         end) ;;
   a <~ A ;;
   p <~ liftM (mat_pow np_linalg_inv a t_first) ;;
   state <~ liftM (np_vec_mat start_state p) ;;
   k state) m
  = k (evolved_state m (Z.to_nat t_first)) m1.
Proof.
  intros Ht HA.
  unfold bindM at 1, getM.
  unfold bindM at 1, liftM at 1. rewrite state_list_eq, all_states_length.
  unfold evolved_state, start_state.
  pose proof (pow2_pos (length (lnls m))) as Hpos.
  destruct (2 ^ length (lnls m))%nat as [|n] eqn:En; [lia|].
  cbn [replicate]. unfold bindM at 1, liftM at 1.
  unfold bindM at 1. rewrite HA.
  unfold bindM at 1, liftM at 1, mat_pow.
  rewrite is_square_transition_matrix. cbn [negb].
  replace (t_first <? 0)%Z with false by (symmetry; apply Z.ltb_ge; lia).
  unfold bindM at 1, liftM at 1, np_vec_mat.
  rewrite decide_True.
  2:{ cbn [length]. by rewrite length_replicate, mat_pow_nat_length,
        transition_matrix_length. }
  by replace (S n - 1)%nat with n by lia.
Qed.

(** On a model whose matrix is up to date, [_evolve(t_first, t_last)] with
    [0 <= t_first <= t_last] returns one row per time step from [t_first] to
    [t_last]: the first is the state vector of [t_first], each further one
    is the row before it times the transition matrix, and every row has one
    entry per state and sums to one. *)
Theorem evolve_range_trajectory (t_first t_last : Z) (m : Unilateral) :
  (0 <= t_first <= t_last)%Z -> matrix_current m ->
  exists (sp : matrix) (m' : Unilateral),
    _evolve np_linalg_inv t_first (Some t_last) m = (Return sp, m') /\
    sp = trajectory (transition_matrix m) (evolved_state m (Z.to_nat t_first))
                    (Z.to_nat (t_last - t_first)) /\
    length sp = Z.to_nat (t_last - t_first + 1) /\
    Forall (fun row => length row = (2 ^ length (lnls m))%nat /\ Qsum row == 1) sp.
Proof.
  intros Ht Hcur.
  destruct (A_current_frame m Hcur) as (m1 & HA & Hcur1 & Htm & Hsame).
  pose proof Hsame as (Hl & _).
  destruct (evolve_loop_value (Z.to_nat (t_last - t_first))
              (evolved_state m (Z.to_nat t_first)) [] m1 Hcur1)
    as (st & sp & m' & Hrun & Hval & _).
  { by rewrite evolved_state_length, Hl. }
  exists (sp ++ [st]), m'. split.
  - unfold _evolve. rewrite (evolve_prefix t_first (Some t_last) m m1) by (lia || done).
    replace (t_last - t_first <? 0)%Z with false by (symmetry; apply Z.ltb_ge; lia).
    unfold bindM. rewrite Hrun. reflexivity.
  - rewrite Hval, Htm. cbn [app]. split; [done|].
    split; [rewrite trajectory_length; lia|].
    apply trajectory_sums; [apply evolved_state_length | apply evolved_state_sum].
Qed.

(** [_evolve(t_first, t_last)] with [0 <= t_first] and [t_last < t_first]
    raises [ValueError]; the transition matrix has been computed by then and
    stays stored. *)
Theorem evolve_range_reversed (t_first t_last : Z) (m : Unilateral) :
  (0 <= t_first)%Z -> (t_last < t_first)%Z -> matrix_current m ->
  exists m' : Unilateral,
    _evolve np_linalg_inv t_first (Some t_last) m = (Raise ValueError, m') /\
    _A m' = Some (transition_matrix m).
Proof.
  intros Ht Hlast Hcur.
  destruct (A_current m Hcur) as (m1 & HA & HA1 & Htm & _).
  exists m1. split; [|by rewrite HA1, Htm].
  unfold _evolve. rewrite (evolve_prefix t_first (Some t_last) m m1) by (lia || done).
  by replace (t_last - t_first <? 0)%Z with true by (symmetry; apply Z.ltb_lt; lia).
Qed.

End Evolution.

Section EvolutionExamples.

Import unilateral.

Lemma evolve_returns_distribution_witness :
  exists (v : list Q) (m' : Unilateral),
    _evolve (fun _ => Raise LinAlgError) 3 None example_model = (Return v, m') /\
    length v = (2 ^ length (lnls example_model))%nat /\
    Qsum v == 1 /\
    (valid_edges example_model -> is_distribution v).
Proof.
  apply (evolve_returns_distribution (fun _ => Raise LinAlgError) 3 example_model).
  - lia.
  - left. reflexivity.
Defined.

Lemma evolve_range_trajectory_witness :
  exists (sp : matrix) (m' : Unilateral),
    _evolve (fun _ => Raise LinAlgError) 1 (Some 3%Z) example_model
    = (Return sp, m') /\
    sp = trajectory (transition_matrix example_model)
           (evolved_state example_model (Z.to_nat 1)) (Z.to_nat (3 - 1)) /\
    length sp = Z.to_nat (3 - 1 + 1) /\
    Forall (fun row => length row = (2 ^ length (lnls example_model))%nat
                       /\ Qsum row == 1) sp.
Proof.
  apply (evolve_range_trajectory (fun _ => Raise LinAlgError) 1 3 example_model).
  - lia.
  - left. reflexivity.
Defined.

Lemma evolve_range_reversed_witness :
  exists m' : Unilateral,
    _evolve (fun _ => Raise LinAlgError) 2 (Some 1%Z) example_model
    = (Raise ValueError, m') /\
    _A m' = Some (transition_matrix example_model).
Proof.
  apply (evolve_range_reversed (fun _ => Raise LinAlgError) 2 1 example_model).
  - lia.
  - lia.
  - left. reflexivity.
Defined.

End EvolutionExamples.

(** ** The modalities *)

Section Modalities.

Import unilateral.

Lemma set_modality_valid (mod_ : string) (spsn : list Q) (m : Unilateral) :
  valid_spsn spsn ->
  set_modality (mod_, spsn) m
  = (Return (),
     with_modality_tables
       (Some (default [] (_modality_tables m) ++ [(mod_, confusion_table spsn)])) m).
Proof.
  intros (sp & sn & -> & Hsp & Hsn). unfold set_modality.
  cbn [length forallb andb]. rewrite bool_decide_eq_true_2 by done.
  assert (Hle : forall x y, x <= y -> Qle_bool x y = true)
    by (intros; by apply Qle_bool_iff).
  rewrite !Hle by lra. reflexivity.
Qed.

Lemma set_modality_invalid (mod_ : string) (spsn : list Q) (m : Unilateral) :
  ~ valid_spsn spsn -> set_modality (mod_, spsn) m = (Raise ValueError, m).
Proof.
  intros Hinv. unfold set_modality.
  destruct (negb _ || negb _ || negb _) eqn:E; [reflexivity|].
  apply orb_false_elim in E as [E Hub]. apply orb_false_elim in E as [Hlen Hlb].
  apply negb_false_iff in Hub, Hlb, Hlen. apply bool_decide_eq_true_1 in Hlen.
  destruct spsn as [|sp [|sn [|? ?]]]; try discriminate.
  exfalso. apply Hinv. exists sp, sn. cbn [forallb] in Hub, Hlb.
  apply andb_prop in Hub as [H1 H2]. apply andb_prop in H2 as [H2 _].
  apply andb_prop in Hlb as [H3 H4]. apply andb_prop in H4 as [H4 _].
  apply Qle_bool_iff in H1, H2, H3, H4. by repeat split.
Qed.

Lemma set_modalities_loop (items : list (string * list Q)) :
  Forall (fun item => valid_spsn item.2) items ->
  forall (tables : list (string * matrix)) (m : Unilateral),
    _modality_tables m = Some tables ->
    forM items set_modality m
    = (Return (),
       with_modality_tables
         (Some (tables ++ map (fun item => (item.1, confusion_table item.2)) items))
         m).
Proof.
  induction 1 as [|[mod_ spsn] items Hitem Hitems IH]; intros tables m Htab.
  - cbn [forM map]. unfold retM. rewrite app_nil_r, <- Htab. by destruct m.
  - cbn [forM]. unfold bindM. rewrite set_modality_valid by done.
    rewrite (IH (tables ++ [(mod_, confusion_table spsn)])).
    + cbn [map fst snd]. by rewrite <- app_assoc.
    + by rewrite Htab.
Qed.

Lemma set_modalities_loop_invalid (items : list (string * list Q)) :
  Forall (fun item => valid_spsn item.2) items ->
  forall (bad : string * list Q) (rest : list (string * list Q))
         (tables : list (string * matrix)) (m : Unilateral),
    ~ valid_spsn bad.2 ->
    _modality_tables m = Some tables ->
    forM (items ++ bad :: rest) set_modality m
    = (Raise ValueError,
       with_modality_tables
         (Some (tables ++ map (fun item => (item.1, confusion_table item.2)) items))
         m).
Proof.
  induction 1 as [|[mod_ spsn] items Hitem Hitems IH];
    intros [bmod bspsn] rest tables m Hbad Htab.
  - cbn [app forM map]. unfold bindM. rewrite set_modality_invalid by done.
    rewrite app_nil_r, <- Htab. by destruct m.
  - cbn [app forM]. unfold bindM at 1. rewrite set_modality_valid by done.
    rewrite (IH _ _ (tables ++ [(mod_, confusion_table spsn)])); [|done|].
    + cbn [map fst snd]. by rewrite <- app_assoc.
    + by rewrite Htab.
Qed.

Lemma modalities_of_tables (items : list (string * list Q)) :
  Forall (fun item => valid_spsn item.2) items ->
  map_result (fun '(mod_, table) =>
                sp ← table_item table 0 0;
                sn ← table_item table 1 1;
                Return (mod_, [sp; sn]))
             (map (fun item => (item.1, confusion_table item.2)) items)
  = Return items.
Proof.
  induction 1 as [|[mod_ spsn] items (sp & sn & Heq & _) Hitems IH]; [reflexivity|].
  cbn [map map_result fst snd] in *. rewrite IH. by subst spsn.
Qed.

(** When every modality is given two numbers between 0.5 and 1, the setter
    of [modalities] succeeds and the getter then returns the dictionary that
    was assigned; the setter changes nothing but the modality tables. *)
Theorem modalities_read_after_write
    (modality_spsn : list (string * list Q)) (m : Unilateral) :
  Forall (fun item => valid_spsn item.2) modality_spsn ->
  exists m' : Unilateral,
    set_modalities modality_spsn m = (Return (), m') /\
    modalities m' = Return modality_spsn /\
    m' = with_modality_tables (_modality_tables m') m.
Proof.
  intros Hvalid. unfold set_modalities, bindM at 1, modifyM.
  rewrite (set_modalities_loop _ Hvalid []) by reflexivity.
  eexists. split; [reflexivity|]. split; [|reflexivity].
  unfold modalities. cbn [_modality_tables with_modality_tables app].
  by apply modalities_of_tables.
Qed.

Lemma modalities_read_after_write_witness :
  exists m' : Unilateral,
    set_modalities [("CT"%string, [3 # 4; 4 # 5]); ("MRI"%string, [1; 1 # 2])]
      example_model = (Return (), m') /\
    modalities m'
    = Return [("CT"%string, [3 # 4; 4 # 5]); ("MRI"%string, [1; 1 # 2])] /\
    m' = with_modality_tables (_modality_tables m') example_model.
Proof.
  apply (modalities_read_after_write
           [("CT"%string, [3 # 4; 4 # 5]); ("MRI"%string, [1; 1 # 2])]
           example_model).
  repeat constructor; eexists _, _; (split; [reflexivity|]); cbn; lra.
Defined.

(** When the first modality whose value is not two numbers between 0.5 and 1
    is reached, the setter of [modalities] raises [ValueError]; the model
    then holds the tables of the modalities before it, and the tables it had
    before the assignment are gone. *)
Theorem modalities_setter_invalid
    (before : list (string * list Q)) (bad : string * list Q)
    (rest : list (string * list Q)) (m : Unilateral) :
  Forall (fun item => valid_spsn item.2) before ->
  ~ valid_spsn bad.2 ->
  exists m' : Unilateral,
    set_modalities (before ++ bad :: rest) m = (Raise ValueError, m') /\
    modalities m' = Return before /\
    m' = with_modality_tables (_modality_tables m') m.
Proof.
  intros Hvalid Hbad. unfold set_modalities, bindM at 1, modifyM.
  rewrite (set_modalities_loop_invalid _ Hvalid bad rest []) by done.
  eexists. split; [reflexivity|]. split; [|reflexivity].
  unfold modalities. cbn [_modality_tables with_modality_tables app].
  by apply modalities_of_tables.
Qed.

Lemma modalities_setter_invalid_witness :
  exists m' : Unilateral,
    set_modalities ([("CT"%string, [3 # 4; 4 # 5])]
                    ++ ("MRI"%string, [2 # 5; 1]) :: [("PET"%string, [1; 1])])
      (with_modality_tables (Some [("path"%string, [[1; 0]; [0; 1]])]) example_model)
    = (Raise ValueError, m') /\
    modalities m' = Return [("CT"%string, [3 # 4; 4 # 5])] /\
    m' = with_modality_tables (_modality_tables m')
           (with_modality_tables (Some [("path"%string, [[1; 0]; [0; 1]])])
              example_model).
Proof.
  apply (modalities_setter_invalid [("CT"%string, [3 # 4; 4 # 5])]
           ("MRI"%string, [2 # 5; 1]) [("PET"%string, [1; 1])]).
  - repeat constructor; eexists _, _; (split; [reflexivity|]); cbn; lra.
  - intros (sp & sn & [= <- <-] & Hsp & _). cbn in Hsp. lra.
Defined.

(** The setter of [modalities] keeps a stored observation matrix: after the
    modalities have been assigned, whether the assignment succeeded or not,
    [B] still returns the matrix that was stored before. *)
Theorem modalities_setter_keeps_B
    (modality_spsn : list (string * list Q)) (b : matrix) (m : Unilateral) :
  _B m = Some b ->
  B (set_modalities modality_spsn m).2
  = (Return b, (set_modalities modality_spsn m).2).
Proof.
  intros HB.
  assert (Hkeep : _B (set_modalities modality_spsn m).2 = Some b).
  { unfold set_modalities, bindM at 1, modifyM.
    assert (Hloop : forall items x, _B x = Some b ->
              _B (forM items set_modality x).2 = Some b).
    { induction items as [|[mod_ spsn] items IH]; intros x Hx; [done|].
      cbn [forM]. unfold bindM.
      destruct (set_modality (mod_, spsn) x) as [[[]|e] x'] eqn:E.
      - apply IH. unfold set_modality in E.
        destruct (negb _ || negb _ || negb _); [discriminate|].
        destruct spsn as [|sp [|sn [|? ?]]]; try discriminate.
        unfold modifyM in E. by injection E as <-.
      - unfold set_modality in E.
        destruct (negb _ || negb _ || negb _);
          [unfold raiseM in E; by injection E as _ <-|].
        destruct spsn as [|sp [|sn [|? ?]]];
          unfold raiseM, modifyM in E; try discriminate; by injection E as _ <-. }
    by apply Hloop. }
  unfold B, bindM, getM. by rewrite Hkeep.
Qed.

Lemma modalities_setter_keeps_B_witness :
  B (set_modalities [("CT"%string, [3 # 4; 4 # 5])]
       (with_B (Some [[1]]) example_model)).2
  = (Return [[1]],
     (set_modalities [("CT"%string, [3 # 4; 4 # 5])]
        (with_B (Some [[1]]) example_model)).2).
Proof.
  apply (modalities_setter_keeps_B [("CT"%string, [3 # 4; 4 # 5])] [[1]]
           (with_B (Some [[1]]) example_model)).
  reflexivity.
Defined.

End Modalities.

(** ** The change of base *)

Section ChangeBase.

Lemma convert_string_digit (d : Z) :
  (0 <= d < 16)%Z ->
  py_index helper.convert_string d = Return (digit_char d) /\
  digit_value (digit_char d) = d.
Proof.
  intros Hd. assert (Hk : exists k : nat, (k < 16)%nat /\ d = Z.of_nat k)
    by (exists (Z.to_nat d); lia).
  destruct Hk as (k & Hk & ->). clear Hd.
  do 16 (destruct k as [|k]; [split; reflexivity|]). lia.
Qed.

Lemma value_of_digits (base : Z) (k : nat) :
  (0 < base)%Z ->
  forall n : Z,
    foldr (fun d acc => d + base * acc)%Z 0%Z
          (lsb_digits_in base k n ++ [(n / base ^ Z.of_nat k)%Z]) = n.
Proof.
  intros Hb. induction k as [|k IH]; intros n.
  - cbn. rewrite Z.div_1_r. lia.
  - cbn [lsb_digits_in app foldr].
    rewrite Nat2Z.inj_succ, Z.pow_succ_r, <- Z.div_div by lia.
    rewrite IH. pose proof (Z.div_mod n base). lia.
Qed.

Lemma int_of_rev_digits (base : Z) (ds : list Z) :
  Forall (fun d => 0 <= d < 16)%Z ds ->
  int_of base (rev (map digit_char ds))
  = foldr (fun d acc => d + base * acc)%Z 0%Z ds.
Proof.
  unfold int_of. induction 1 as [|d ds Hd Hds IH]; [reflexivity|].
  cbn [map rev foldr]. rewrite foldl_app. cbn [foldl]. rewrite IH.
  destruct (convert_string_digit d Hd) as [_ ->]. lia.
Qed.

Lemma int_of_zeros (base : Z) (n : nat) (s : list ascii) :
  int_of base (replicate n "0"%char ++ s) = int_of base s.
Proof.
  unfold int_of. rewrite foldl_app. f_equal.
  induction n as [|n IH]; [reflexivity|].
  rewrite replicate_S_end, foldl_app. cbn [foldl]. rewrite IH. reflexivity.
Qed.

Lemma lsb_digits_in_bound (base : Z) (k : nat) :
  (0 < base)%Z ->
  forall n, Forall (fun d => 0 <= d < base)%Z (lsb_digits_in base k n).
Proof.
  intros Hb. induction k as [|k IH]; intros n; cbn [lsb_digits_in]; constructor.
  - by apply Z.mod_pos_bound.
  - apply IH.
Qed.

Lemma helper_change_base_loop (base : Z) (fuel : nat) :
  (2 <= base <= 16)%Z ->
  forall (n : Z) (res : list ascii),
    (0 <= n)%Z -> (n <= Z.of_nat fuel)%Z ->
    exists k : nat,
      helper.change_base_loop fuel n base res
      = Return ((n / base ^ Z.of_nat k)%Z,
                res ++ map digit_char (lsb_digits_in base k n))
      /\ (n / base ^ Z.of_nat k < base)%Z
      /\ (n = 0%Z \/ 0 < n / base ^ Z.of_nat k)%Z.
Proof.
  intros Hb. induction fuel as [|fuel IH]; intros n res Hn Hf.
  - exists 0%nat. assert (n = 0%Z) as -> by lia.
    cbn [helper.change_base_loop]. 
    replace (base <=? 0)%Z with false by (symmetry; apply Z.leb_gt; lia).
    cbn [lsb_digits_in map Z.of_nat]. rewrite app_nil_r, Z.div_0_l by lia.
    split; [done|]. split; lia.
  - cbn [helper.change_base_loop].
    destruct (Z.leb_spec base n) as [Hge|Hlt].
    + replace (base =? 0)%Z with false by (symmetry; apply Z.eqb_neq; lia).
      assert (Hmod : (0 <= n mod base < 16)%Z)
        by (pose proof (Z.mod_pos_bound n base); lia).
      destruct (convert_string_digit _ Hmod) as [-> _].
      cbn [mbind result_bind].
      destruct (IH (n / base)%Z (res ++ [digit_char (n mod base)]))
        as (k & Hk & Hlt & Hpos).
      { apply Z.div_pos; lia. }
      { assert (n / base < n)%Z by (apply Z.div_lt; lia). lia. }
      exists (S k). rewrite Hk.
      rewrite Nat2Z.inj_succ, Z.pow_succ_r by lia.
      rewrite <- Z.div_div by lia.
      cbn [lsb_digits_in map]. rewrite <- app_assoc. cbn [app].
      split; [reflexivity|]. split; [exact Hlt|].
      right. destruct Hpos as [H0|Hpos]; [|exact Hpos].
      exfalso. assert (1 <= n / base)%Z; [|lia].
      apply Z.div_le_lower_bound; lia.
    + exists 0%nat. cbn [lsb_digits_in map Z.of_nat]. rewrite Z.pow_0_r, Z.div_1_r, app_nil_r.
      split; [reflexivity|]. split; lia.
Qed.

Lemma rev_replicate_char (n : nat) (c : ascii) : rev (replicate n c) = replicate n c.
Proof.
  induction n as [|n IH]; [reflexivity|].
  cbn [replicate rev]. rewrite IH. symmetry. apply replicate_S_end.
Qed.

Lemma padded_digits (reverse : bool) (pad res : list ascii) (c : ascii) :
  pad = replicate (length pad) c ->
  (if reverse then rev (if reverse then res ++ pad else pad ++ rev res)
   else (if reverse then res ++ pad else pad ++ rev res))
  = pad ++ rev res.
Proof.
  intros Hpad. destruct reverse; [|reflexivity].
  by rewrite rev_app_distr, Hpad, rev_replicate_char.
Qed.

(** The digits [helper.change_base] computes before padding, least
    significant first. *)
Lemma helper_change_base_digits (number base : Z) :
  (0 < number)%Z -> (2 <= base <= 16)%Z ->
  exists ds : list Z,
    ('(number, res) ← helper.change_base_loop (Z.to_nat number) number base [];
     if (0 <? number)%Z
     then c ← py_index helper.convert_string number; Return (res ++ [c])
     else Return res) = Return (map digit_char ds) /\
    Forall (fun d => 0 <= d < base)%Z ds /\
    foldr (fun d acc => d + base * acc)%Z 0%Z ds = number /\
    exists hi, last ds = Some hi /\ (0 < hi)%Z.
Proof.
  intros Hn Hb.
  destruct (helper_change_base_loop base (Z.to_nat number) Hb number [])
    as (k & Hk & Hlt & Hpos); [lia|lia|].
  destruct Hpos as [?|Hpos]; [lia|].
  exists (lsb_digits_in base k number ++ [(number / base ^ Z.of_nat k)%Z]).
  rewrite Hk. cbn [mbind result_bind app].
  replace (0 <? number / base ^ Z.of_nat k)%Z with true
    by (symmetry; apply Z.ltb_lt; lia).
  destruct (convert_string_digit (number / base ^ Z.of_nat k)%Z) as [-> _]; [lia|].
  cbn [mbind result_bind]. rewrite map_app. split; [reflexivity|].
  split; [|split].
  - apply Forall_app. split; [apply lsb_digits_in_bound; lia|].
    constructor; [lia|constructor].
  - apply value_of_digits. lia.
  - eexists. split; [apply last_snoc|lia].
Qed.

(** For [number >= 0] and [2 <= base <= 16], [helper.change_base] returns a
    string of digits of that base that denotes [number], read from the left
    (from the right when [reverse] is set).  It is at least as long as the
    [length] asked for; without a [length], the string is ["0"] for 0 and has
    no leading zero otherwise. *)
Theorem helper_change_base_round_trip
    (number base : Z) (reverse : bool) (length : option Z) :
  (0 <= number)%Z -> (2 <= base <= 16)%Z ->
  exists s : list ascii,
    helper.change_base number base reverse length = Return s /\
    int_of base (if reverse then rev s else s) = number /\
    Forall (fun c => 0 <= digit_value c < base)%Z s /\
    match length with
    | Some l => (l <= Z.of_nat (List.length s))%Z
    | None =>
        if (number =? 0)%Z then s = ["0"%char]
        else hd_error (if reverse then rev s else s) <> Some "0"%char
    end.
Proof.
  intros Hn Hb. unfold helper.change_base.
  replace (number <? 0)%Z with false by (symmetry; apply Z.ltb_ge; lia).
  replace (16 <? base)%Z with false by (symmetry; apply Z.ltb_ge; lia).
  replace (base <? 2)%Z with false by (symmetry; apply Z.ltb_ge; lia).
  assert (Hres : exists ds : list Z,
    (if (number =? 0)%Z then Return ["0"%char]
     else
       '(number, res) ← helper.change_base_loop (Z.to_nat number) number base [];
       if (0 <? number)%Z
       then c ← py_index helper.convert_string number; Return (res ++ [c])
       else Return res) = Return (map digit_char ds) /\
    Forall (fun d => 0 <= d < base)%Z ds /\
    foldr (fun d acc => d + base * acc)%Z 0%Z ds = number /\
    (if (number =? 0)%Z then ds = [0%Z]
     else exists hi, last ds = Some hi /\ (0 < hi)%Z)).
  { destruct (Z.eqb_spec number 0) as [->|Hnz].
    - exists [0%Z]. split; [reflexivity|]. split; [repeat constructor; lia|].
      split; [cbn; lia|reflexivity].
    - apply helper_change_base_digits; lia. }
  destruct Hres as (ds & -> & Hds & Hval & Hlast). cbn [mbind result_bind].
  set (res := map digit_char ds).
  set (len := Z.of_nat (List.length res)).
  set (n := Z.to_nat (match length with
                      | Some l => if (l <? len)%Z then len else l
                      | None => len
                      end - len)).
  eexists. split; [reflexivity|].
  assert (Hds16 : Forall (fun d => 0 <= d < 16)%Z ds)
    by (eapply Forall_impl; [exact Hds|]; cbn; lia).
  rewrite (padded_digits reverse (replicate n "0"%char) res "0"%char)
    by (by rewrite length_replicate).
  split; [|split].
  - rewrite int_of_zeros. unfold res. by rewrite int_of_rev_digits.
  - assert (Hall : Forall (fun c => 0 <= digit_value c < base)%Z
                     (res ++ replicate n "0"%char)).
    { apply Forall_app. split.
      - unfold res. apply Forall_fmap. eapply Forall_impl; [exact Hds|].
        intros d Hd. cbv beta in Hd.
        change (0 <= digit_value (digit_char d) < base)%Z.
        destruct (convert_string_digit d) as [_ ->]; [lia|done].
      - apply Forall_replicate. change (digit_value "0"%char) with 0%Z. lia. }
    destruct reverse; [done|].
    apply Forall_app in Hall as [H1 H2]. apply Forall_app. split; [done|].
    by apply Forall_rev.
  - destruct length as [l|].
    + assert (Hlen : (l <= Z.of_nat (List.length res + n))%Z).
      { subst n. fold len. destruct (Z.ltb_spec l len); lia. }
      destruct reverse; rewrite length_app, ?length_rev, length_replicate; lia.
    + assert (n = 0%nat) as -> by (subst n; lia). cbn [replicate app].
      destruct (Z.eqb_spec number 0) as [->|Hnz].
      * subst res. rewrite Hlast. by destruct reverse.
      * destruct Hlast as (hi & Hlast & Hhi).
        apply last_Some in Hlast as [front ->].
        unfold res. rewrite map_app, rev_app_distr. cbn [map rev app hd_error].
        intros [= Heq].
        apply Forall_app in Hds16 as [_ Hhi16].
        apply Forall_cons in Hhi16 as [Hhi16 _].
        destruct (convert_string_digit hi Hhi16) as [_ Hv].
        rewrite Heq in Hv. change (digit_value "0"%char) with 0%Z in Hv. lia.
Qed.

Lemma helper_change_base_round_trip_witness :
  exists s : list ascii,
    helper.change_base 2026 16 false (Some 6%Z) = Return s /\
    int_of 16 s = 2026%Z /\
    Forall (fun c => 0 <= digit_value c < 16)%Z s /\
    (6 <= Z.of_nat (List.length s))%Z.
Proof.
  apply (helper_change_base_round_trip 2026 16 false (Some 6%Z)); lia.
Defined.

Lemma change_base_loops_agree (base : Z) (fuel : nat) :
  forall (number : Z) (res : list ascii),
    unilateral.change_base_loop fuel number base res
    = helper.change_base_loop fuel number base res.
Proof.
  induction fuel as [|fuel IH]; intros number res; [reflexivity|].
  cbn [unilateral.change_base_loop helper.change_base_loop].
  destruct (base <=? number)%Z; [|reflexivity].
  destruct (base =? 0)%Z; [reflexivity|].
  change unilateral.convertString with helper.convert_string.
  destruct (py_index helper.convert_string (number mod base)); [|reflexivity].
  cbn [mbind result_bind]. apply IH.
Qed.

(** For a positive number and [2 <= base <= 16], the [change_base] of
    [unilateral.py] returns the same string as the one of [helper.py]. *)
Theorem change_base_agree
    (number base : Z) (reverse : bool) (length : option Z) :
  (0 < number)%Z -> (2 <= base <= 16)%Z ->
  unilateral.change_base number base reverse length
  = helper.change_base number base reverse length.
Proof.
  intros Hn Hb. unfold unilateral.change_base, helper.change_base.
  replace (number <? 0)%Z with false by (symmetry; apply Z.ltb_ge; lia).
  replace (16 <? base)%Z with false by (symmetry; apply Z.ltb_ge; lia).
  replace (base <? 2)%Z with false by (symmetry; apply Z.ltb_ge; lia).
  replace (number =? 0)%Z with false by (symmetry; apply Z.eqb_neq; lia).
  rewrite change_base_loops_agree.
  destruct (helper.change_base_loop _ _ _ _) as [[n res]|e]; [|reflexivity].
  cbn [mbind result_bind].
  change unilateral.convertString with helper.convert_string.
  destruct (0 <? n)%Z; [|reflexivity].
  destruct (py_index helper.convert_string n); reflexivity.
Qed.

Lemma change_base_agree_witness :
  unilateral.change_base 11 2 true (Some 6%Z)
  = helper.change_base 11 2 true (Some 6%Z).
Proof. apply (change_base_agree 11 2 true (Some 6%Z)); lia. Defined.

(** The [change_base] of [unilateral.py] has no digit for a number that is
    not positive: for 0 and for a negative number below the base it returns
    only the padding, an empty string when no [length] is given, and raises
    nothing. *)
Theorem unilateral_change_base_not_positive
    (number base : Z) (reverse : bool) (length : option Z) :
  (number <= 0)%Z -> (number < base <= 16)%Z ->
  unilateral.change_base number base reverse length
  = Return (replicate (Z.to_nat (default 0%Z length)) "0"%char).
Proof.
  intros Hn Hb. unfold unilateral.change_base.
  replace (16 <? base)%Z with false by (symmetry; apply Z.ltb_ge; lia).
  assert (Hloop : unilateral.change_base_loop (Z.to_nat number) number base []
                  = Return (number, [])).
  { destruct (Z.to_nat number); cbn [unilateral.change_base_loop];
      by replace (base <=? number)%Z with false by (symmetry; apply Z.leb_gt; lia). }
  rewrite Hloop. cbn [mbind result_bind].
  replace (0 <? number)%Z with false by (symmetry; apply Z.ltb_ge; lia).
  cbn [mbind result_bind List.length Z.of_nat rev].
  change (Z.of_nat 0) with 0%Z.
  f_equal. destruct length as [l|]; cbn [from_option id].
  - destruct (Z.ltb_spec l 0).
    + replace (Z.to_nat (0 - 0)) with (Z.to_nat l) by lia.
      destruct reverse; [done|]. by rewrite app_nil_r.
    + rewrite Z.sub_0_r. destruct reverse; [done|]. by rewrite app_nil_r.
  - by destruct reverse.
Qed.

Lemma unilateral_change_base_not_positive_witness :
  unilateral.change_base (-5) 2 false (Some 3%Z)
  = Return (replicate (Z.to_nat (default 0%Z (Some 3%Z))) "0"%char).
Proof.
  apply (unilateral_change_base_not_positive (-5) 2 false (Some 3%Z)); lia.
Defined.

End ChangeBase.

(** ** The helpers *)

Section UniqueNames.

#[local] Set Warnings "-clear-no-such-hyp".

Lemma size_list_to_set_le (l : list string) :
  (size (list_to_set l : gset string) <= length l)%nat.
Proof.
  induction l as [|x l IH]; [done|]. cbn [list_to_set length].
  pose proof (size_union_alt ({[x]} : gset string) (list_to_set l)) as Hu.
  pose proof (subseteq_size (list_to_set l ∖ {[x]}) (list_to_set l : gset string)
                ltac:(set_solver)) as Hs.
  rewrite size_singleton in Hu. lia.
Qed.

Lemma size_list_to_set_NoDup (l : list string) :
  size (list_to_set l : gset string) = length l <-> NoDup l.
Proof.
  split; [|apply size_list_to_set].
  induction l as [|x l IH]; [constructor|]. cbn [list_to_set length]. intros Hsize.
  pose proof (size_list_to_set_le l) as Hle.
  destruct (decide (x ∈ l)) as [Hin|Hnin].
  - exfalso.
    assert (Heq : ({[x]} ∪ list_to_set l : gset string) = list_to_set l)
      by (apply leibniz_equiv; set_solver).
    rewrite Heq in Hsize. lia.
  - constructor; [done|]. apply IH.
    rewrite size_union in Hsize by set_solver.
    rewrite size_singleton in Hsize. lia.
Qed.

Lemma check_names_loop {K : Type} (graph : list ((K * string) * list string)) :
  forall seen : gset string,
    let body := fun (node_name_set : gset string)
                    (item : (K * string) * list string) =>
      let '((_, node_name), connections) := item in
      if decide (length connections ≠ size (list_to_set connections : gset string))
      then Raise ValueError
      else if bool_decide (node_name ∈ connections) then Raise ValueError
      else Return ({[node_name]} ∪ node_name_set) in
    (for_each graph body seen
     = Return (list_to_set (map (fun item => item.1.2) graph) ∪ seen) /\
     Forall (fun item => NoDup item.2 /\ item.1.2 ∉ item.2) graph) \/
    (for_each graph body seen = Raise ValueError /\
     ~ Forall (fun item => NoDup item.2 /\ item.1.2 ∉ item.2) graph).
Proof.
  induction graph as [|[[k node_name] connections] graph IH]; intros seen;
    cbv zeta.
  - left. split; [|constructor]. cbn. f_equal. apply leibniz_equiv. set_solver.
  - cbn [for_each].
    destruct (decide (length connections ≠ size (list_to_set connections : gset string)))
      as [Hdup|Hnodup].
    { right. split; [reflexivity|]. intros H.
      apply Forall_cons in H as [[Hnd _] _]. cbn in Hnd.
      apply size_list_to_set_NoDup in Hnd. by rewrite Hnd in Hdup. }
    destruct (bool_decide (node_name ∈ connections)) eqn:Hself.
    { right. split; [reflexivity|]. intros H.
      apply Forall_cons in H as [[_ Hn] _]. cbn in Hn.
      by apply bool_decide_eq_true_1 in Hself. }
    cbn [mbind result_bind].
    destruct (IH ({[node_name]} ∪ seen)) as [[Hrun Hall]|[Hrun Hall]];
      cbv zeta in Hrun.
    + left. rewrite Hrun. split.
      * f_equal. apply leibniz_equiv. cbn [map list_to_set fst snd]. set_solver.
      * constructor; [|done]. cbn. split.
        -- apply size_list_to_set_NoDup. apply dec_stable in Hnodup. done.
        -- by apply bool_decide_eq_false_1 in Hself.
    + right. rewrite Hrun. split; [done|]. intros H.
      apply Forall_cons in H as [_ H]. by apply Hall.
Qed.

(** [check_unique_names] returns when every connection list is free of
    duplicates and of the node's own name and no two nodes share a name;
    for every other graph it raises [ValueError]. *)
Theorem check_unique_names_spec {K : Type}
    (graph : list ((K * string) * list string)) :
  (helper.check_unique_names graph = Return () /\ unique_names graph) \/
  (helper.check_unique_names graph = Raise ValueError /\ ~ unique_names graph).
Proof.
  unfold helper.check_unique_names, unique_names.
  destruct (check_names_loop graph ∅) as [[Hrun Hall]|[Hrun Hall]]; cbv zeta in *.
  - rewrite Hrun. cbn [mbind result_bind].
    set (names := map (fun item => item.1.2) graph).
    assert (Hset : (list_to_set names ∪ ∅ : gset string) = list_to_set names)
      by (apply leibniz_equiv; set_solver).
    rewrite Hset.
    assert (Hlen : length graph = length names) by (unfold names; by rewrite length_map).
    rewrite Hlen.
    destruct (decide (size (list_to_set names : gset string) ≠ length names))
      as [Hne|Heq].
    + right. split; [done|]. intros [_ Hnd].
      apply size_list_to_set_NoDup in Hnd. done.
    + left. split; [done|]. split; [done|].
      apply size_list_to_set_NoDup. by apply dec_stable in Heq.
  - rewrite Hrun. right. split; [done|]. intros [H _]. by apply Hall.
Qed.

End UniqueNames.

Section ConfusionMatrices.

Lemma check_spsn_valid (spsn : list Q) :
  valid_spsn spsn -> helper.check_spsn spsn = Return ().
Proof.
  intros (sp & sn & -> & Hsp & Hsn). unfold helper.check_spsn.
  cbn [length forallb andb]. rewrite bool_decide_eq_true_2 by done.
  assert (Hle : forall x y, x <= y -> Qle_bool x y = true)
    by (intros; by apply Qle_bool_iff).
  rewrite !Hle by lra. reflexivity.
Qed.

Lemma check_spsn_invalid (spsn : list Q) :
  ~ valid_spsn spsn -> helper.check_spsn spsn = Raise ValueError.
Proof.
  intros Hinv. unfold helper.check_spsn.
  destruct (negb _ || negb _ || negb _) eqn:E; [reflexivity|].
  apply orb_false_elim in E as [E Hub]. apply orb_false_elim in E as [Hlen Hlb].
  apply negb_false_iff in Hub, Hlb, Hlen. apply bool_decide_eq_true_1 in Hlen.
  destruct spsn as [|sp [|sn [|? ?]]]; try discriminate.
  exfalso. apply Hinv. exists sp, sn. cbn [forallb] in Hub, Hlb.
  apply andb_prop in Hub as [H1 H2]. apply andb_prop in H2 as [H2 _].
  apply andb_prop in Hlb as [H3 H4]. apply andb_prop in H4 as [H4 _].
  apply Qle_bool_iff in H1, H2, H3, H4. by repeat split.
Qed.

Lemma pair_distribution (p : Q) : 1 # 2 <= p <= 1 -> is_distribution [p; 1 - p].
Proof.
  intros Hp. split; [|cbn; ring]. repeat constructor; cbn; lra.
Qed.

Lemma pair_distribution' (p : Q) : 1 # 2 <= p <= 1 -> is_distribution [1 - p; p].
Proof.
  intros Hp. split; [|cbn; ring]. repeat constructor; cbn; lra.
Qed.

(** For a specificity and a sensitivity between 0.5 and 1, [clinical] and
    [pathological] return matrices of three rows, one per state of an LNL
    (healthy, microscopic, macroscopic), each a probability distribution
    over the two outcomes.  The two matrices agree on the healthy and on the
    macroscopic row; [clinical] treats a microscopic LNL like a healthy one
    and [pathological] treats it like a macroscopic one. *)
Theorem confusion_matrices_valid (spsn : list Q) :
  valid_spsn spsn ->
  exists (healthy involved : list Q),
    helper.clinical spsn = Return [healthy; healthy; involved] /\
    helper.pathological spsn = Return [healthy; involved; involved] /\
    is_distribution healthy /\ is_distribution involved /\
    length healthy = 2%nat /\ length involved = 2%nat.
Proof.
  intros Hvalid. unfold helper.clinical, helper.pathological.
  rewrite check_spsn_valid by done. destruct Hvalid as (sp & sn & -> & Hsp & Hsn).
  cbn [mbind result_bind helper.unpack2].
  exists [sp; 1 - sp], [1 - sn; sn]. split; [done|]. split; [done|].
  split; [by apply pair_distribution|]. split; [by apply pair_distribution'|done].
Qed.

Lemma confusion_matrices_valid_witness :
  exists (healthy involved : list Q),
    helper.clinical [4 # 5; 3 # 4] = Return [healthy; healthy; involved] /\
    helper.pathological [4 # 5; 3 # 4] = Return [healthy; involved; involved] /\
    is_distribution healthy /\ is_distribution involved /\
    length healthy = 2%nat /\ length involved = 2%nat.
Proof.
  apply (confusion_matrices_valid [4 # 5; 3 # 4]).
  exists (4 # 5), (3 # 4). split; [reflexivity|]. cbn. lra.
Defined.

(** [clinical] and [pathological] raise [ValueError] for everything but two
    numbers between 0.5 and 1. *)
Theorem confusion_matrices_invalid (spsn : list Q) :
  ~ valid_spsn spsn ->
  helper.clinical spsn = Raise ValueError /\
  helper.pathological spsn = Raise ValueError.
Proof.
  intros Hinv. unfold helper.clinical, helper.pathological.
  by rewrite check_spsn_invalid.
Qed.

Lemma confusion_matrices_invalid_witness :
  helper.clinical [4 # 5; 2 # 5] = Raise ValueError /\
  helper.pathological [4 # 5; 2 # 5] = Raise ValueError.
Proof.
  apply (confusion_matrices_invalid [4 # 5; 2 # 5]).
  intros (sp & sn & [= <- <-] & _ & Hsn). cbn in Hsn. lra.
Defined.

End ConfusionMatrices.

Section RowWiseKron.

Lemma np_kron_length (u v : list Q) :
  length (helper.np_kron u v) = (length u * length v)%nat.
Proof.
  unfold helper.np_kron. induction u as [|x u IH]; [reflexivity|].
  cbn [flat_map length]. by rewrite length_app, length_map, IH.
Qed.

Lemma np_kron_sum (u v : list Q) :
  Qsum (helper.np_kron u v) == Qsum u * Qsum v.
Proof.
  unfold helper.np_kron. induction u as [|x u IH]; cbn [flat_map].
  - cbn. ring.
  - rewrite Qsum_app, IH, Qsum_cons, (Qsum_map_scale x (fun y => y) v), map_id. ring.
Qed.

Lemma np_kron_lookup (u v : list Q) (j k : nat) (x y : Q) :
  u !! j = Some x -> v !! k = Some y ->
  helper.np_kron u v !! (j * length v + k)%nat = Some (x * y).
Proof.
  unfold helper.np_kron. revert j. induction u as [|x0 u IH]; intros j Hx Hy; [done|].
  cbn [flat_map]. destruct j as [|j].
  - injection Hx as ->. rewrite lookup_app_l.
    + cbn [Nat.mul Nat.add]. by rewrite list_lookup_fmap, Hy.
    + rewrite length_map. by apply lookup_lt_Some in Hy.
  - rewrite lookup_app_r by (rewrite length_map; lia).
    rewrite length_map.
    replace (S j * length v + k - length v)%nat with (j * length v + k)%nat by lia.
    by apply IH.
Qed.

Lemma row_wise_kron_loop (p q : nat) (sa tail : matrix) (a b : matrix) :
  Forall (fun row => length row = p) a ->
  Forall (fun row => length row = q) b ->
  length a = length b ->
  forall (pa pb done_ : matrix),
    length pa = length done_ -> length pb = length done_ ->
    for_each (seq (length done_) (length a))
      (fun res i =>
         ai ← index (pa ++ a ++ sa) i;
         bi ← index (pb ++ b) i;
         helper.assign_row res i (helper.np_kron ai bi))
      (done_ ++ replicate (length a) (replicate (p * q) 0) ++ tail)
    = Return (done_ ++ zip_with helper.np_kron a b ++ tail).
Proof.
  intros Ha. revert b.
  induction Ha as [|ai a Hai Ha IH]; intros b Hb Hlen pa pb done_ Hpa Hpb.
  - by destruct b.
  - destruct b as [|bi b]; [discriminate|].
    apply Forall_cons in Hb as [Hbi Hb]. cbn [length seq for_each zip_with].
    assert (Hstep :
      (ai0 ← index (pa ++ (ai :: a) ++ sa) (length done_);
       bi0 ← index (pb ++ bi :: b) (length done_);
       helper.assign_row
         (done_ ++ replicate (S (length a)) (replicate (p * q) 0) ++ tail)
         (length done_) (helper.np_kron ai0 bi0))
      = Return ((done_ ++ [helper.np_kron ai bi])
                ++ replicate (length a) (replicate (p * q) 0) ++ tail)).
    { unfold index.
      rewrite !lookup_app_r, Hpa, Hpb, Nat.sub_diag by lia.
      cbn [app lookup list_lookup mbind result_bind].
      unfold helper.assign_row. cbn [replicate app].
      rewrite lookup_app_r, Nat.sub_diag by lia. cbn [lookup list_lookup].
      rewrite decide_True by (by rewrite np_kron_length, length_replicate, Hai, Hbi).
      rewrite insert_app_r_alt, Nat.sub_diag by lia. cbn [insert list_insert].
      by rewrite <- app_assoc. }
    rewrite Hstep. cbn [mbind result_bind].
    specialize (IH b Hb ltac:(cbn in Hlen; lia) (pa ++ [ai]) (pb ++ [bi])
                  (done_ ++ [helper.np_kron ai bi])).
    rewrite !length_app in IH. cbn [length] in IH.
    rewrite !Nat.add_1_r, <- !app_assoc in IH. cbn [app] in IH.
    rewrite <- app_assoc. cbn [app]. apply IH; lia.
Qed.

Lemma for_each_app {A S : Type} (l1 l2 : list A) (body : S -> A -> result S) (s : S) :
  for_each (l1 ++ l2) body s = (s' ← for_each l1 body s; for_each l2 body s').
Proof.
  revert s. induction l1 as [|x l1 IH]; intros s; [reflexivity|].
  cbn [app for_each]. destruct (body s x); [|reflexivity].
  cbn [mbind result_bind]. apply IH.
Qed.

(** For two matrices with the same number of rows, [row_wise_kron] returns
    the matrix whose row [i] is the Kronecker product of row [i] of [a] and
    row [i] of [b]: entry [j * q + k] is [a[i, j] * b[i, k]], the row has
    [p * q] entries, and its sum is the product of the sums of the two rows,
    so rows that sum to one give a row that sums to one. *)
Theorem row_wise_kron_rows (n p q : nat) (a b : matrix) :
  matrix_shaped n p a -> matrix_shaped n q b ->
  exists r : matrix,
    helper.row_wise_kron a b = Return r /\
    matrix_shaped n (p * q) r /\
    forall (i : nat) (ai bi : list Q),
      a !! i = Some ai -> b !! i = Some bi ->
      exists ri : list Q,
        r !! i = Some ri /\
        Qsum ri == Qsum ai * Qsum bi /\
        forall (j k : nat) (x y : Q),
          ai !! j = Some x -> bi !! k = Some y ->
          ri !! (j * q + k)%nat = Some (x * y).
Proof.
  intros [Hna Ha] [Hnb Hb].
  exists (zip_with helper.np_kron a b). split; [|split].
  - unfold helper.row_wise_kron.
    destruct a as [|a0 a'] eqn:Ea; [reflexivity|]. rewrite <- Ea in *.
    destruct b as [|b0 b'] eqn:Eb; [subst; cbn in *; lia|]. rewrite <- Eb in *.
    assert (Hp : ncols a = p)
      by (rewrite Ea in *; by apply Forall_cons in Ha as [? _]).
    assert (Hq : ncols b = q)
      by (rewrite Eb in *; by apply Forall_cons in Hb as [? _]).
    rewrite Hp, Hq.
    pose proof (row_wise_kron_loop p q [] [] a b Ha Hb ltac:(lia) [] [] []
                  eq_refl eq_refl) as Hloop.
    cbn [app length] in Hloop. rewrite !app_nil_r in Hloop. exact Hloop.
  - split.
    + rewrite length_zip_with. lia.
    + apply Forall_forall. intros ri Hri.
      apply list_elem_of_lookup in Hri as [i Hri].
      apply lookup_zip_with_Some in Hri as (ai & bi & -> & Hai & Hbi).
      rewrite np_kron_length.
      apply list_elem_of_lookup_2 in Hai, Hbi.
      by rewrite (proj1 (Forall_forall _ _) Ha ai Hai),
                 (proj1 (Forall_forall _ _) Hb bi Hbi).
  - intros i ai bi Hai Hbi. exists (helper.np_kron ai bi). split; [|split].
    + rewrite lookup_zip_with, Hai, Hbi. reflexivity.
    + apply np_kron_sum.
    + intros j k x y Hx Hy.
      assert (Hlen : length bi = q).
      { apply list_elem_of_lookup_2 in Hbi.
        apply (proj1 (Forall_forall _ _) Hb bi Hbi). }
      rewrite <- Hlen. by apply np_kron_lookup.
Qed.

Lemma row_wise_kron_rows_witness :
  exists r : matrix,
    helper.row_wise_kron [[1; 2]; [3; 4]] [[5; 6]; [7; 8]] = Return r /\
    matrix_shaped 2 (2 * 2) r /\
    forall (i : nat) (ai bi : list Q),
      [[1; 2]; [3; 4]] !! i = Some ai -> [[5; 6]; [7; 8]] !! i = Some bi ->
      exists ri : list Q,
        r !! i = Some ri /\
        Qsum ri == Qsum ai * Qsum bi /\
        forall (j k : nat) (x y : Q),
          ai !! j = Some x -> bi !! k = Some y ->
          ri !! (j * 2 + k)%nat = Some (x * y).
Proof.
  apply (row_wise_kron_rows 2 2 2 [[1; 2]; [3; 4]] [[5; 6]; [7; 8]]).
  - split; [reflexivity|]. by repeat constructor.
  - split; [reflexivity|]. by repeat constructor.
Defined.

(** When [b] has fewer rows than [a], [row_wise_kron] raises [IndexError]. *)
Theorem row_wise_kron_short (p q : nat) (a b : matrix) :
  Forall (fun row => length row = p) a ->
  Forall (fun row => length row = q) b ->
  (length b < length a)%nat ->
  helper.row_wise_kron a b = Raise IndexError.
Proof.
  intros Ha Hb Hlen. unfold helper.row_wise_kron.
  assert (Hw : (b = [] \/ (ncols a * ncols b = p * q)%nat)).
  { destruct b as [|b0 b]; [by left|right].
    destruct a as [|a0 a]; [cbn in Hlen; lia|]. cbn [ncols].
    apply Forall_cons in Ha as [-> _]. by apply Forall_cons in Hb as [-> _]. }
  generalize dependent (ncols a * ncols b)%nat. intros w Hw.
  assert (Hsplit : exists a1 a2 : matrix,
            a = a1 ++ a2 /\ length a1 = length b /\ (0 < length a2)%nat).
  { exists (take (length b) a), (drop (length b) a).
    split; [by rewrite take_drop|]. rewrite length_take, length_drop. lia. }
  destruct Hsplit as (a1 & a2 & -> & Ha1 & Ha2). clear Hlen.
  apply Forall_app in Ha as [Ha1p _].
  rewrite length_app, seq_app, for_each_app, replicate_add.
  assert (Hfirst :
    for_each (seq 0 (length a1))
      (fun res i =>
         ai ← index (a1 ++ a2) i;
         bi ← index b i;
         helper.assign_row res i (helper.np_kron ai bi))
      (replicate (length a1) (replicate w 0) ++ replicate (length a2) (replicate w 0))
    = Return (zip_with helper.np_kron a1 b
              ++ replicate (length a2) (replicate w 0))).
  { destruct Hw as [->| ->].
    - destruct a1; [reflexivity|discriminate].
    - apply (row_wise_kron_loop p q a2 _ a1 b Ha1p Hb Ha1 [] [] []); reflexivity. }
  rewrite Hfirst. cbn [mbind result_bind].
  destruct (length a2) as [|n2] eqn:En2; [lia|]. cbn [seq for_each].
  unfold index. rewrite (lookup_ge_None_2 b) by lia.
  destruct ((a1 ++ a2) !! (0 + length a1)%nat); reflexivity.
Qed.

Lemma row_wise_kron_short_witness :
  helper.row_wise_kron [[1; 2]; [3; 4]] [[5; 6]] = Raise IndexError.
Proof.
  apply (row_wise_kron_short 2 2 [[1; 2]; [3; 4]] [[5; 6]]).
  - by repeat constructor.
  - by repeat constructor.
  - cbn. lia.
Defined.

End RowWiseKron.

Section TileAndRepeat.

Lemma lookup_repeat_each {A : Type} (k : nat) (l : list A) (r : nat) :
  (0 < k)%nat -> flat_map (replicate k) l !! r = l !! (r / k)%nat.
Proof.
  intros Hk. revert r. induction l as [|x l IH]; intros r; [done|].
  cbn [flat_map]. destruct (decide (r < k)%nat) as [Hlt|Hge].
  - rewrite lookup_app_l by (by rewrite length_replicate).
    rewrite Nat.div_small by done. cbn. by apply lookup_replicate_2.
  - rewrite lookup_app_r by (rewrite length_replicate; lia).
    rewrite length_replicate, IH.
    replace r with ((r - k) + 1 * k)%nat at 2 by lia.
    rewrite Nat.div_add by lia. by rewrite Nat.add_1_r.
Qed.

Lemma length_repeat_each {A : Type} (k : nat) (l : list A) :
  length (flat_map (replicate k) l) = (length l * k)%nat.
Proof.
  induction l as [|x l IH]; [reflexivity|].
  cbn [flat_map length]. rewrite length_app, length_replicate, IH. lia.
Qed.

Lemma length_tiled {A : Type} (n : nat) (l : list A) :
  length (concat (replicate n l)) = (n * length l)%nat.
Proof.
  induction n as [|n IH]; [reflexivity|].
  cbn [replicate concat]. rewrite length_app, IH. lia.
Qed.

Lemma lookup_tiled {A : Type} (n : nat) (l : list A) (r : nat) :
  (r < n * length l)%nat ->
  concat (replicate n l) !! r = l !! (r mod length l)%nat.
Proof.
  revert r. induction n as [|n IH]; intros r Hr; [lia|].
  cbn [replicate concat]. destruct (decide (r < length l)%nat) as [Hlt|Hge].
  - rewrite lookup_app_l by done. by rewrite Nat.mod_small.
  - rewrite lookup_app_r by lia. rewrite IH by lia.
    replace r with ((r - length l) + 1 * length l)%nat at 2 by lia.
    by rewrite Nat.Div0.mod_add.
Qed.

(** Entry [(r, c)] of [tile_and_repeat(mat, tile, repeat)] is entry
    [(r // repeat[0] mod rows, c // repeat[1] mod columns)] of [mat], and the
    result has [rows * tile[0] * repeat[0]] rows. *)
Theorem tile_and_repeat_entry {A : Type} (rows columns : nat)
    (mat : list (list A)) (tile repeat : nat * nat) (r c : nat) :
  length mat = rows -> Forall (fun row => length row = columns) mat ->
  (r < rows * tile.1 * repeat.1)%nat ->
  (c < columns * tile.2 * repeat.2)%nat ->
  length (helper.tile_and_repeat mat tile repeat) = (rows * tile.1 * repeat.1)%nat /\
  helper.tile_and_repeat mat tile repeat !! r ≫= (.!! c)
  = mat !! ((r / repeat.1) mod rows)%nat
      ≫= (.!! ((c / repeat.2) mod columns)%nat).
Proof.
  intros Hrows Hcols Hr Hc.
  destruct tile as [t0 t1], repeat as [r0 r1]. cbn [fst snd] in *.
  assert (Hr0 : (0 < r0)%nat) by (destruct r0; lia).
  assert (Hr1 : (0 < r1)%nat) by (destruct r1; lia).
  unfold helper.tile_and_repeat, helper.np_repeat_columns, helper.np_repeat_rows,
    helper.np_tile. cbn [fst snd].
  split.
  - rewrite length_map, length_repeat_each, length_tiled, length_map. lia.
  - rewrite list_lookup_fmap, lookup_repeat_each by done.
    assert (Hq : (r / r0 < t0 * rows)%nat)
      by (apply Nat.Div0.div_lt_upper_bound; lia).
    rewrite lookup_tiled by (by rewrite length_map, Hrows).
    rewrite length_map, Hrows, list_lookup_fmap.
    destruct (mat !! ((r / r0) mod rows)%nat) as [row|] eqn:Erow; [|reflexivity].
    cbn [fmap option_fmap option_map mbind option_bind].
    assert (Hlen : length row = columns).
    { apply list_elem_of_lookup_2 in Erow.
      apply (proj1 (Forall_forall _ _) Hcols row Erow). }
    rewrite lookup_repeat_each by done.
    assert (Hq' : (c / r1 < t1 * columns)%nat)
      by (apply Nat.Div0.div_lt_upper_bound; lia).
    rewrite lookup_tiled by (by rewrite Hlen). by rewrite Hlen.
Qed.

Lemma tile_and_repeat_entry_witness :
  length (helper.tile_and_repeat [[1; 2]; [3; 4]]%nat (2, 2)%nat (2, 2)%nat)
  = (2 * (2, 2).1 * (2, 2).1)%nat /\
  helper.tile_and_repeat [[1; 2]; [3; 4]]%nat (2, 2)%nat (2, 2)%nat !! 6%nat
    ≫= (.!! 3%nat)
  = [[1; 2]; [3; 4]]%nat !! ((6 / (2, 2).1) mod 2)%nat
      ≫= (.!! ((3 / (2, 2).2) mod 2)%nat).
Proof.
  apply (tile_and_repeat_entry 2 2 [[1; 2]; [3; 4]]%nat (2, 2)%nat (2, 2)%nat 6 3).
  - reflexivity.
  - by repeat constructor.
  - cbn. lia.
  - cbn. lia.
Defined.

(** For [lnl_idx < num_lnls] and at least one state per LNL,
    [get_state_idx_matrix] returns a square matrix with one row and one
    column per state of the model; every entry of row [r] is the state of
    LNL [lnl_idx] in state [r] of the model: digit [lnl_idx], counted from
    the most significant one, of [r] written in base [num_states] with
    [num_lnls] digits. *)
Theorem get_state_idx_matrix_entry
    (lnl_idx num_lnls num_states r c : nat) :
  (lnl_idx < num_lnls)%nat -> (0 < num_states)%nat ->
  (r < num_states ^ num_lnls)%nat -> (c < num_states ^ num_lnls)%nat ->
  exists m : list (list nat),
    helper.get_state_idx_matrix lnl_idx num_lnls num_states = Return m /\
    length m = (num_states ^ num_lnls)%nat /\
    m !! r ≫= (.!! c)
    = Some ((r / num_states ^ (num_lnls - lnl_idx - 1)) mod num_states)%nat.
Proof.
  intros Hidx Hs Hr Hc. unfold helper.get_state_idx_matrix.
  rewrite decide_False by lia. rewrite decide_False by lia.
  eexists. split; [reflexivity|].
  set (k := (num_states ^ (num_lnls - lnl_idx - 1))%nat).
  assert (Hk : (0 < k)%nat) by (unfold k; apply Nat.neq_0_lt_0, Nat.pow_nonzero; lia).
  assert (Hpow : (num_states ^ num_lnls = num_states ^ lnl_idx * num_states * k)%nat).
  { unfold k.
    replace num_lnls with (lnl_idx + 1 + (num_lnls - lnl_idx - 1))%nat at 1 by lia.
    by rewrite !Nat.pow_add_r, Nat.pow_1_r. }
  unfold helper.np_repeat_rows, helper.np_tile. cbn [fst snd].
  split.
  - rewrite length_repeat_each, length_tiled, !length_map, length_seq. lia.
  - rewrite lookup_repeat_each by done.
    assert (Hq : (r / k < num_states ^ lnl_idx * num_states)%nat)
      by (apply Nat.Div0.div_lt_upper_bound; lia).
    rewrite lookup_tiled by (by rewrite !length_map, length_seq).
    rewrite !length_map, length_seq, !list_lookup_fmap.
    rewrite lookup_seq_lt by (apply Nat.mod_upper_bound; lia).
    cbn [fmap option_fmap option_map mbind option_bind Nat.add].
    rewrite lookup_tiled by (cbn [length]; lia).
    cbn [length]. by rewrite Nat.mod_1_r.
Qed.

Lemma get_state_idx_matrix_entry_witness :
  exists m : list (list nat),
    helper.get_state_idx_matrix 1 3 2 = Return m /\
    length m = (2 ^ 3)%nat /\
    m !! 6%nat ≫= (.!! 5%nat) = Some ((6 / 2 ^ (3 - 1 - 1)) mod 2)%nat.
Proof.
  apply (get_state_idx_matrix_entry 1 3 2 6 5); cbn; lia.
Defined.

End TileAndRepeat.

(** ** The data matrix with other flags, and what compression keeps *)

Section DataMatrixFlags.

Import unilateral.

Lemma gen_C_flags (m : Unilateral) (tables : list (string * matrix))
    (table : list (list (option bool))) (t_stage : option string)
    (delete_ones aggregate_duplicates : bool) :
  _modality_tables m = Some tables -> observations_current m ->
  Forall (fun row => length row = (length tables * length (lnls m))%nat) table ->
  let ol := all_observations (length tables) (length (lnls m)) in
  let cols := map (compatibility ol) table in
  let kept :=
    if delete_ones
    then List.filter (fun col => negb (Nat.eqb (count_true col) (length ol))) cols
    else cols in
  _gen_C table t_stage delete_ones aggregate_duplicates m
  = (Return (),
     with_C_f
       (Some (<[default "BN"%string t_stage :=
                  rows_of_columns false (length ol)
                    (if aggregate_duplicates then map fst (np_unique kept) else kept)]>
                (default ∅ (_C (with_dicts m)))))
       (Some (<[default "BN"%string t_stage :=
                  if aggregate_duplicates then map snd (np_unique kept)
                  else replicate (length table) 1%Z]>
                (default ∅ (_f (with_dicts m)))))
       (with_obs_list (Some ol) (with_dicts m))).
Proof.
  intros Ht Hcur Htable ol cols kept.
  assert (Hstep : (match _C m, _f m with
                   | Some _, Some _ => retM ()
                   | _, _ => modifyM (with_C_f (Some ∅) (Some ∅))
                   end) m = (Return (), with_dicts m)).
  { unfold with_dicts. by destruct (_C m), (_f m). }
  assert (Ht0 : _modality_tables (with_dicts m) = Some tables).
  { unfold with_dicts. by destruct (_C m), (_f m). }
  assert (Hl0 : lnls (with_dicts m) = lnls m).
  { unfold with_dicts. by destruct (_C m), (_f m). }
  assert (Hcur0 : observations_current (with_dicts m)).
  { unfold with_dicts. by destruct (_C m), (_f m). }
  destruct (obs_list_current (with_dicts m) tables Ht0 Hcur0) as (m1 & Hol & ->).
  rewrite Hl0 in Hol.
  unfold _gen_C, bindM at 1, getM. unfold bindM at 1. rewrite Hstep.
  unfold bindM at 1. rewrite Hol.
  unfold bindM at 1, liftM at 1.
  rewrite (compatibility_computed _ (length tables * length (lnls m)) table);
    [|apply Forall_forall; intros obs Hobs;
      by apply all_observations_row_length|done].
  unfold modifyM. subst kept cols ol.
  by destruct delete_ones, aggregate_duplicates.
Qed.

(** On a model with registered modalities whose stored observation list, if
    any, is the one of these modalities (the [modalities] setter does not
    discard the list of the modalities before), and for a table whose rows
    have one entry per modality and LNL: with [delete_ones] but without
    [aggregate_duplicates], [_gen_C] stores a data matrix with one column
    for each patient that has a finding, but a frequency vector with one
    entry for every patient of the table: the two have different lengths as
    soon as one patient has no finding at all. *)
Theorem gen_C_frequencies_without_aggregation
    (m : Unilateral) (tables : list (string * matrix))
    (table : list (list (option bool))) (t_stage : option string) :
  _modality_tables m = Some tables -> observations_current m ->
  Forall (fun row => length row = (length tables * length (lnls m))%nat) table ->
  exists (m' : Unilateral) (Cd : gmap string (list (list bool)))
         (fd : gmap string (list Z)) (c : list (list bool)),
    _gen_C table t_stage true false m = (Return (), m') /\
    _C m' = Some Cd /\ _f m' = Some fd /\
    Cd !! default "BN"%string t_stage = Some c /\
    fd !! default "BN"%string t_stage = Some (replicate (length table) 1%Z) /\
    columns_of_rows false c
    = map (compatibility (all_observations (length tables) (length (lnls m))))
          (List.filter has_entry table) /\
    length (columns_of_rows false c) = count_where has_entry table.
Proof.
  intros Ht Hcur Htable.
  pose proof (gen_C_flags m tables table t_stage true false Ht Hcur Htable) as Hrun.
  cbv zeta in Hrun. rewrite Hrun. clear Hrun.
  set (ol := all_observations (length tables) (length (lnls m))).
  assert (Hkept :
    List.filter (fun col => negb (Nat.eqb (count_true col) (length ol)))
      (map (compatibility ol) table)
    = map (compatibility ol) (List.filter has_entry table)).
  { unfold ol. clear -Htable.
    induction Htable as [|row table Hrow Htable IH]; [reflexivity|].
    cbn [map List.filter]. rewrite kept_iff_has_entry by done.
    destruct (has_entry row); cbn [map]; by rewrite IH. }
  rewrite Hkept.
  assert (Hcols : columns_of_rows false
            (rows_of_columns false (length ol)
               (map (compatibility ol) (List.filter has_entry table)))
          = map (compatibility ol) (List.filter has_entry table)).
  { apply columns_of_rows_of_columns.
    - unfold ol. rewrite all_observations_length. apply pow2_pos.
    - apply Forall_fmap, Forall_forall. intros row _. cbn.
      apply compatibility_length. }
  eexists _, _, _, _. split; [reflexivity|].
  cbn [_C _f with_C_f]. split; [reflexivity|]. split; [reflexivity|].
  rewrite !lookup_insert_eq. split; [reflexivity|]. split; [reflexivity|].
  split; [exact Hcols|]. rewrite Hcols, length_map. reflexivity.
Qed.

Lemma gen_C_frequencies_without_aggregation_witness :
  exists (m' : Unilateral) (Cd : gmap string (list (list bool)))
         (fd : gmap string (list Z)) (c : list (list bool)),
    _gen_C [[Some true; None]; [None; None]] (Some "early"%string) true false
      example_diagnosed_model = (Return (), m') /\
    _C m' = Some Cd /\ _f m' = Some fd /\
    Cd !! default "BN"%string (Some "early"%string) = Some c /\
    fd !! default "BN"%string (Some "early"%string)
    = Some (replicate (length [[Some true; None]; [@None bool; None]]) 1%Z) /\
    columns_of_rows false c
    = map (compatibility
             (all_observations
                (length [("CT"%string, [[4 # 5; 1 - (9 # 10)]; [1 - (4 # 5); 9 # 10]])])
                (length (lnls example_diagnosed_model))))
          (List.filter has_entry [[Some true; None]; [None; None]]) /\
    length (columns_of_rows false c)
    = count_where has_entry [[Some true; None]; [None; None]].
Proof.
  apply (gen_C_frequencies_without_aggregation example_diagnosed_model
           [("CT"%string, [[4 # 5; 1 - (9 # 10)]; [1 - (4 # 5); 9 # 10]])]
           [[Some true; None]; [None; None]] (Some "early"%string)).
  - reflexivity.
  - left. reflexivity.
  - by repeat constructor.
Defined.

Lemma insert_count_weighted (h : list bool -> Q) (c : list bool)
    (acc : list (list bool * Z)) :
  Qsum (map (fun x => inject_Z x.2 * h x.1) (insert_count c acc))
  == h c + Qsum (map (fun x => inject_Z x.2 * h x.1) acc).
Proof.
  induction acc as [|[d n] acc IH]; cbn [insert_count].
  - cbn [map fst snd]. rewrite !Qsum_cons. cbn. ring.
  - destruct (lex_compare c d) eqn:Hcd.
    + apply lex_compare_eq in Hcd as ->. cbn [map fst snd]. rewrite !Qsum_cons.
      rewrite inject_Z_plus. cbn. ring.
    + cbn [map fst snd]. rewrite !Qsum_cons. cbn. ring.
    + cbn [map fst snd]. rewrite !Qsum_cons, IH. cbn. ring.
Qed.

Lemma np_unique_weighted (h : list bool -> Q) (cols : list (list bool)) :
  Qsum (map (fun x => inject_Z x.2 * h x.1) (np_unique cols)) == Qsum (map h cols).
Proof.
  induction cols as [|c cols IH]; [reflexivity|].
  cbn [np_unique foldr map]. fold (np_unique cols).
  by rewrite insert_count_weighted, IH, Qsum_cons.
Qed.

(** Compression loses nothing a likelihood needs.  On a model with
    registered modalities whose stored observation list, if any, is the one
    of these modalities (the [modalities] setter does not discard the list
    of the modalities before), and for a table whose rows have one entry per
    modality and LNL: for the data matrix and the frequency vector that
    [_gen_C] stores with both flags set, and for every function [h] of a
    column (such as the logarithm of the probability of the column), the sum
    over the columns of frequency times [h] equals the sum of [h] of the
    compatibility vector over the patients that have a finding. *)
Theorem gen_C_keeps_sums
    (m : Unilateral) (tables : list (string * matrix))
    (table : list (list (option bool))) (t_stage : option string) :
  _modality_tables m = Some tables -> observations_current m ->
  Forall (fun row => length row = (length tables * length (lnls m))%nat) table ->
  exists (m' : Unilateral) (Cd : gmap string (list (list bool)))
         (fd : gmap string (list Z)) (c : list (list bool)) (fs : list Z),
    _gen_C table t_stage true true m = (Return (), m') /\
    _C m' = Some Cd /\ _f m' = Some fd /\
    Cd !! default "BN"%string t_stage = Some c /\
    fd !! default "BN"%string t_stage = Some fs /\
    forall h : list bool -> Q,
      Qsum (zip_with (fun n col => inject_Z n * h col) fs (columns_of_rows false c))
      == Qsum (map (fun row =>
                      h (compatibility
                           (all_observations (length tables) (length (lnls m))) row))
                   (List.filter has_entry table)).
Proof.
  intros Ht Hcur Htable.
  pose proof (gen_C_flags m tables table t_stage true true Ht Hcur Htable) as Hrun.
  cbv zeta in Hrun. rewrite Hrun. clear Hrun.
  set (ol := all_observations (length tables) (length (lnls m))).
  assert (Hkept :
    List.filter (fun col => negb (Nat.eqb (count_true col) (length ol)))
      (map (compatibility ol) table)
    = map (compatibility ol) (List.filter has_entry table)).
  { unfold ol. clear -Htable.
    induction Htable as [|row table Hrow Htable IH]; [reflexivity|].
    cbn [map List.filter]. rewrite kept_iff_has_entry by done.
    destruct (has_entry row); cbn [map]; by rewrite IH. }
  rewrite Hkept.
  set (u := np_unique (map (compatibility ol) (List.filter has_entry table))).
  assert (Hcols : columns_of_rows false (rows_of_columns false (length ol) (map fst u))
                  = map fst u).
  { apply columns_of_rows_of_columns.
    - unfold ol. rewrite all_observations_length. apply pow2_pos.
    - apply Forall_fmap. unfold u.
      eapply Forall_impl; [apply np_unique_keys|]. intros [col n] Hcol. cbn in *.
      apply list_elem_of_fmap in Hcol as (row & -> & _).
      apply compatibility_length. }
  eexists _, _, _, _, _. split; [reflexivity|].
  cbn [_C _f with_C_f]. split; [reflexivity|]. split; [reflexivity|].
  rewrite !lookup_insert_eq. split; [reflexivity|]. split; [reflexivity|].
  intros h. rewrite Hcols.
  assert (Hzip : zip_with (fun n col => inject_Z n * h col) (map snd u) (map fst u)
                 = map (fun x => inject_Z x.2 * h x.1) u).
  { clear. induction u as [|[col n] u IH]; [reflexivity|].
    cbn [map zip_with fst snd]. by rewrite IH. }
  rewrite Hzip. unfold u. rewrite np_unique_weighted, map_map. reflexivity.
Qed.

Lemma gen_C_keeps_sums_witness :
  exists (m' : Unilateral) (Cd : gmap string (list (list bool)))
         (fd : gmap string (list Z)) (c : list (list bool)) (fs : list Z),
    _gen_C [[Some true; None]; [None; None]; [Some true; None]]
      (Some "early"%string) true true example_diagnosed_model = (Return (), m') /\
    _C m' = Some Cd /\ _f m' = Some fd /\
    Cd !! default "BN"%string (Some "early"%string) = Some c /\
    fd !! default "BN"%string (Some "early"%string) = Some fs /\
    forall h : list bool -> Q,
      Qsum (zip_with (fun n col => inject_Z n * h col) fs (columns_of_rows false c))
      == Qsum (map (fun row =>
                      h (compatibility
                           (all_observations
                              (length [("CT"%string,
                                        [[4 # 5; 1 - (9 # 10)]; [1 - (4 # 5); 9 # 10]])])
                              (length (lnls example_diagnosed_model))) row))
                   (List.filter has_entry
                      [[Some true; None]; [None; None]; [Some true; None]])).
Proof.
  apply (gen_C_keeps_sums example_diagnosed_model
           [("CT"%string, [[4 # 5; 1 - (9 # 10)]; [1 - (4 # 5); 9 # 10]])]
           [[Some true; None]; [None; None]; [Some true; None]]
           (Some "early"%string)).
  - reflexivity.
  - left. reflexivity.
  - by repeat constructor.
Defined.

End DataMatrixFlags.

(** ** What computing the matrices does to the state *)

Section MatricesAndState.

Import unilateral.

Lemma get_state_in_state (m : Unilateral) (s : list Z) :
  length s = length (lnls m) ->
  get_state (in_state m s) = map (fun v => negb (v =? 0)%Z) s.
Proof.
  intros Hs. unfold get_state. rewrite lnls_in_state.
  transitivity (map (fun v => negb (v =? 0)%Z)
                  (map (node_state (in_state m s)) (lnls m))).
  - by rewrite map_map.
  - by rewrite in_state_lnl_states.
Qed.

Lemma get_state_all_involved (m : Unilateral) :
  get_state (in_state m (replicate (length (lnls m)) 1%Z))
  = replicate (length (lnls m)) true.
Proof.
  rewrite get_state_in_state by (by rewrite length_replicate).
  generalize (length (lnls m)). intros n.
  induction n as [|n IH]; [reflexivity|]. cbn [replicate map]. by rewrite IH.
Qed.

(** Computing the transition matrix overwrites the state of the model: when
    no matrix is stored, reading [A] after the state has been set leaves
    every LNL involved, whatever state was set. *)
Theorem A_overwrites_state (newstate : list Z) (m : Unilateral) :
  length newstate = length (lnls m) -> _A m = None ->
  exists (m1 : Unilateral) (a : matrix) (m2 : Unilateral),
    set_state newstate m = (Return (), m1) /\
    A m1 = (Return a, m2) /\
    get_state m2 = replicate (length (lnls m)) true.
Proof.
  intros Hlen HA.
  assert (HA1 : _A (in_state m newstate) = None) by exact HA.
  eexists _, _, _. split; [by apply set_state_eq|].
  split; [by apply A_eq|].
  rewrite lnls_in_state, in_state_twice by (by rewrite ?length_replicate).
  change (get_state (with_A ?a ?x)) with (get_state x).
  apply get_state_all_involved.
Qed.

Lemma A_overwrites_state_witness :
  exists (m1 : Unilateral) (a : matrix) (m2 : Unilateral),
    set_state [0%Z; 0%Z] example_model = (Return (), m1) /\
    A m1 = (Return a, m2) /\
    get_state m2 = replicate (length (lnls example_model)) true.
Proof.
  apply (A_overwrites_state [0%Z; 0%Z] example_model); reflexivity.
Defined.

End MatricesAndState.

Section ObservationRows.

Import unilateral.

Variable modality : string.
Variables a b c d : Q.

Let tab : matrix := [[a; b]; [c; d]].

Hypothesis healthy_column : a + c == 1.
Hypothesis involved_column : b + d == 1.

Lemma table_column_sum (st : Z) :
  is_bit st -> table_entry tab 0 st + table_entry tab 1 st == 1.
Proof. intros [-> | ->]; cbn; assumption. Qed.

Lemma obs_step_scale (x : Unilateral) (l : list (Z * nat)) (prob : Q) :
  foldl (obs_step x tab) prob l == prob * foldl (obs_step x tab) 1 l.
Proof.
  revert prob. induction l as [|onode l IH]; intros prob; cbn [foldl].
  - ring.
  - rewrite (IH (obs_step x tab prob onode)), (IH (obs_step x tab 1 onode)).
    unfold obs_step. ring.
Qed.

Lemma observation_sum (x : Unilateral) (ls : list nat) :
  Forall (fun node => is_bit (node_state x node)) ls ->
  Qsum (map (fun obs => foldl (obs_step x tab) 1 (zip obs ls))
            (all_states (length ls))) == 1.
Proof.
  induction 1 as [|node ls Hnode Hls IH]; [reflexivity|].
  cbn [length all_states]. rewrite map_app, Qsum_app, !map_map.
  assert (Hstep : forall o obs,
    foldl (obs_step x tab) 1 (zip (o :: obs) (node :: ls))
    == table_entry tab o (node_state x node)
       * foldl (obs_step x tab) 1 (zip obs ls)).
  { intros o obs. cbn [zip zip_with foldl]. rewrite obs_step_scale.
    unfold obs_step at 1. cbn [fst snd]. ring. }
  rewrite (Qsum_map_ext _ (fun obs => table_entry tab 0 (node_state x node)
                              * foldl (obs_step x tab) 1 (zip obs ls)))
    by (intros; apply Hstep).
  rewrite (Qsum_map_ext (fun obs => foldl _ 1 (zip (1%Z :: obs) _))
             (fun obs => table_entry tab 1 (node_state x node)
                         * foldl (obs_step x tab) 1 (zip obs ls)))
    by (intros; apply Hstep).
  rewrite !Qsum_map_scale, IH.
  pose proof (table_column_sum _ Hnode). lra.
Qed.

Lemma observation_row_sum (m : Unilateral) (s : list Z) :
  s ∈ all_states (length (lnls m)) -> Qsum (observation_row m tab s) == 1.
Proof.
  intros Hs. apply all_states_elem in Hs as [Hlen Hbits].
  unfold observation_row, observation_prob.
  rewrite all_observations_single, lnls_in_state.
  apply observation_sum.
  pose proof (in_state_bits m s Hlen Hbits) as H. by rewrite lnls_in_state in H.
Qed.

(** On a model with one modality, no stored observation matrix, and a stored
    observation list that, if there is one, is the list of this modality
    (the [modalities] setter does not discard the list of the modalities
    before): when the two columns of the table of the modality sum to one,
    as they do for every table the [modalities] setter stores, every row of
    the observation matrix that [B] computes sums to one; the matrix has one
    row per state and one column per observation, and computing it leaves
    every LNL of the model involved. *)
Theorem B_rows_sum_to_one (m : Unilateral) :
  _modality_tables m = Some [(modality, tab)] ->
  observations_current m -> _B m = None ->
  exists (bm : matrix) (m' : Unilateral),
    B m = (Return bm, m') /\
    matrix_shaped (2 ^ length (lnls m)) (2 ^ length (lnls m)) bm /\
    Forall (fun row => Qsum row == 1) bm /\
    get_state m' = replicate (length (lnls m)) true.
Proof.
  intros Ht Hcur HB. rewrite (B_eq modality a b c d m Ht Hcur HB).
  eexists _, _. split; [reflexivity|]. split; [|split].
  - pose proof (observation_matrix_shape a b c d m) as H.
    by rewrite Nat.mul_1_l in H.
  - unfold observation_matrix. apply Forall_fmap, Forall_forall.
    intros s Hs. by apply observation_row_sum.
  - change (get_state (with_B ?x (with_obs_list ?y ?z))) with (get_state z).
    apply get_state_all_involved.
Qed.

End ObservationRows.

Section ObservationRowsExamples.

Import unilateral.

Lemma B_rows_sum_to_one_witness :
  exists (bm : matrix) (m' : Unilateral),
    B example_diagnosed_model = (Return bm, m') /\
    matrix_shaped (2 ^ length (lnls example_diagnosed_model))
      (2 ^ length (lnls example_diagnosed_model)) bm /\
    Forall (fun row => Qsum row == 1) bm /\
    get_state m' = replicate (length (lnls example_diagnosed_model)) true.
Proof.
  apply (B_rows_sum_to_one "CT"%string (4 # 5) (1 - (9 # 10)) (1 - (4 # 5)) (9 # 10)).
  - reflexivity.
  - reflexivity.
  - reflexivity.
  - left. reflexivity.
  - reflexivity.
Defined.

End ObservationRowsExamples.

(** ** [get_theta] after [set_theta] *)

Section ThetaRoundTrip.

Import system.

Lemma written_app (w1 w2 : list (nat * Q)) (es : list unilateral.Edge) :
  written (w1 ++ w2) es = written w2 (written w1 es).
Proof. unfold written. apply foldl_app. Qed.

Lemma set_block_eq (block : list nat) (theta : list Q) :
  forall (cursor : nat) (s : BilateralSystem),
    (cursor + length block <= length theta)%nat ->
    set_block block theta cursor s
    = (Return (cursor + length block)%nat,
       mkBilateralSystem
         (written (zip block (drop cursor theta)) (edges s))
         (ipsi_base s) (ipsi_trans s) (contra_base s) (contra_trans s)).
Proof.
  unfold set_block.
  induction block as [|edge block IH]; intros cursor s Hlen.
  - cbn [foldM length zip zip_with written foldl]. unfold retM.
    rewrite Nat.add_0_r. by destruct s.
  - cbn [length] in Hlen.
    destruct (lookup_lt_is_Some_2 theta cursor ltac:(lia)) as [x Hx].
    cbn [foldM].
    assert (Hstep :
      (x <~ liftM (index theta cursor) ;;
       assign_t edge x ;;;
       retM (cursor + 1)%nat) s
      = (Return (cursor + 1)%nat,
         mkBilateralSystem (alter (unilateral.set_t x) edge (edges s))
           (ipsi_base s) (ipsi_trans s) (contra_base s) (contra_trans s))).
    { unfold bindM, liftM, index, assign_t, modifyM, retM. by rewrite Hx. }
    rewrite (bindM_Return _ _ _ _ _ Hstep).
    rewrite IH by (cbn [length]; lia).
    rewrite (drop_S theta x cursor Hx). cbn [edges length zip zip_with].
    replace (cursor + 1)%nat with (S cursor) by lia.
    replace (S cursor + length block)%nat with (cursor + S (length block))%nat by lia.
    reflexivity.
Qed.

Lemma written_block (refs : list nat) (theta : list Q) (es : list unilateral.Edge) :
  NoDup refs -> length theta = length refs ->
  Forall (fun e => (e < length es)%nat) refs ->
  map (fun e => default 0 (unilateral.t <$> written (zip refs theta) es !! e)) refs
  = theta.
Proof.
  intros Hnd Hlen Hrange. apply list_eq. intros i. rewrite list_lookup_fmap.
  destruct (refs !! i) as [e|] eqn:He.
  - destruct (lookup_lt_is_Some_2 theta i) as [x Hx];
      [rewrite Hlen; by eapply lookup_lt_Some|].
    cbn [fmap option_fmap option_map]. rewrite Hx. f_equal.
    apply written_value.
    + by rewrite fst_zip by lia.
    + apply list_elem_of_lookup. exists i. by rewrite lookup_zip_with, He, Hx.
    + apply (proj1 (Forall_forall _ _) Hrange). by eapply list_elem_of_lookup_2.
  - cbn. symmetry. apply lookup_ge_None. rewrite Hlen. by apply lookup_ge_None.
Qed.

(** When the four blocks of edges share no edge and [theta] has one entry
    per edge of the blocks, [set_theta] with both symmetries switched off
    writes all of [theta], and [get_theta] with list output then returns
    [theta] in the order [by_type], and the same values with the two middle
    blocks exchanged in the order [by_side]. *)
Theorem get_theta_after_set_theta (_gen_A : M BilateralSystem unit)
    (theta : list Q) (s : BilateralSystem) :
  NoDup (ipsi_base s ++ contra_base s ++ ipsi_trans s ++ contra_trans s) ->
  length theta
  = length (ipsi_base s ++ contra_base s ++ ipsi_trans s ++ contra_trans s) ->
  Forall (fun e => (e < length (edges s))%nat)
         (ipsi_base s ++ contra_base s ++ ipsi_trans s ++ contra_trans s) ->
  exists s' : BilateralSystem,
    set_theta _gen_A theta false false "BN" s = (Return (), s') /\
    get_theta_list "by_type" s' = Return theta /\
    get_theta_list "by_side" s'
    = Return (take (length (ipsi_base s)) theta
              ++ take (length (ipsi_trans s))
                   (drop (length (ipsi_base s) + length (contra_base s)) theta)
              ++ take (length (contra_base s)) (drop (length (ipsi_base s)) theta)
              ++ drop (length (ipsi_base s) + length (contra_base s)
                       + length (ipsi_trans s)) theta).
Proof.
  intros Hnd Hlen Hrange.
  rewrite !length_app in Hlen.
  set (ib := ipsi_base s) in *. set (cb := contra_base s) in *.
  set (it := ipsi_trans s) in *. set (ct := contra_trans s) in *.
  set (s' := mkBilateralSystem (written (zip (ib ++ cb ++ it ++ ct) theta) (edges s))
               ib it cb ct).
  assert (Hrun : set_theta _gen_A theta false false "BN" s = (Return (), s')).
  { unfold set_theta, bindM at 1, getM. cbv zeta. fold ib cb it ct.
    unfold bindM at 1. unfold bindM at 1.
    rewrite (set_block_eq ib theta 0 s) by lia.
    rewrite set_block_eq by (cbn [edges Nat.add]; lia).
    unfold bindM at 1. unfold bindM at 1.
    rewrite set_block_eq by (cbn [edges Nat.add]; lia).
    rewrite set_block_eq by (cbn [edges Nat.add]; lia).
    cbn [edges ipsi_base ipsi_trans contra_base contra_trans Nat.add].
    rewrite decide_False by discriminate. unfold retM. f_equal. unfold s'.
    f_equal. rewrite <- !written_app, drop_0. f_equal.
    rewrite <- (take_drop (length ib) theta) at 5.
    rewrite zip_with_app by (rewrite length_take; lia).
    rewrite zip_with_take_r by lia. f_equal.
    rewrite <- (take_drop (length cb) (drop (length ib) theta)) at 2.
    rewrite zip_with_app by (rewrite length_take, length_drop; lia).
    rewrite zip_with_take_r by (rewrite length_drop; lia).
    rewrite drop_drop. f_equal.
    rewrite <- (take_drop (length it) (drop (length ib + length cb) theta)) at 2.
    rewrite zip_with_app by (rewrite length_take, length_drop; lia).
    rewrite zip_with_take_r by (rewrite length_drop; lia).
    rewrite drop_drop. f_equal. }
  exists s'. split; [exact Hrun|].
  pose proof (written_block (ib ++ cb ++ it ++ ct) theta (edges s) Hnd) as Hall.
  rewrite !length_app in Hall. specialize (Hall Hlen Hrange).
  rewrite !map_app in Hall.
  fold (edge_t s') in Hall.
  change (fun e => default 0 (unilateral.t <$> edges s' !! e)) with (edge_t s') in Hall.
  assert (Hparts :
    map (edge_t s') ib = take (length ib) theta /\
    map (edge_t s') cb = take (length cb) (drop (length ib) theta) /\
    map (edge_t s') it = take (length it) (drop (length ib + length cb) theta) /\
    map (edge_t s') ct = drop (length ib + length cb + length it) theta).
  { rewrite <- Hall at 1 2 3 4.
    rewrite take_app_length' by (by rewrite length_map).
    rewrite drop_app_length' by (by rewrite length_map).
    rewrite take_app_length' by (by rewrite length_map).
    split; [done|]. split; [done|].
    rewrite <- Nat.add_assoc, <- !drop_drop.
    rewrite drop_app_length' by (by rewrite length_map).
    rewrite drop_app_length' by (by rewrite length_map).
    rewrite take_app_length' by (by rewrite length_map).
    rewrite drop_app_length' by (by rewrite length_map).
    done. }
  destruct Hparts as (Hib & Hcb & Hit & Hct).
  unfold get_theta_list.
  cbn [ipsi_base ipsi_trans contra_base contra_trans s'].
  fold s'. rewrite Hib, Hcb, Hit, Hct.
  split.
  - rewrite decide_False by discriminate. rewrite decide_True by done.
    cbn [mbind result_bind]. f_equal.
    rewrite <- !app_assoc.
    rewrite <- (take_drop (length ib) theta) at 5. f_equal.
    rewrite <- (take_drop (length cb) (drop (length ib) theta)) at 2. f_equal.
    rewrite drop_drop.
    rewrite <- (take_drop (length it) (drop (length ib + length cb) theta)) at 2.
    f_equal. by rewrite drop_drop.
  - rewrite decide_True by done. cbn [mbind result_bind].
    by rewrite <- !app_assoc.
Qed.

Lemma get_theta_after_set_theta_witness :
  exists s' : BilateralSystem,
    set_theta (retM ()) [1 # 2; 1 # 3; 1 # 4; 1 # 5] false false "BN"
      (mkBilateralSystem
         [unilateral.mkEdge 0 1 0; unilateral.mkEdge 0 3 0;
          unilateral.mkEdge 1 2 0; unilateral.mkEdge 3 4 0]
         [0%nat] [2%nat] [1%nat] [3%nat])
    = (Return (), s') /\
    get_theta_list "by_type" s' = Return [1 # 2; 1 # 3; 1 # 4; 1 # 5] /\
    get_theta_list "by_side" s' = Return [1 # 2; 1 # 4; 1 # 3; 1 # 5].
Proof.
  apply (get_theta_after_set_theta (retM ()) [1 # 2; 1 # 3; 1 # 4; 1 # 5]
           (mkBilateralSystem
              [unilateral.mkEdge 0 1 0; unilateral.mkEdge 0 3 0;
               unilateral.mkEdge 1 2 0; unilateral.mkEdge 3 4 0]
              [0%nat] [2%nat] [1%nat] [3%nat])).
  - apply (bool_decide_unpack _). vm_compute. exact I.
  - reflexivity.
  - cbn. repeat constructor; lia.
Defined.

End ThetaRoundTrip.

(** ** The bilateral likelihood *)

Section BilateralLikelihood.

Import bilateral.

(** [Bilateral.likelihood] passes [log] where [_likelihood] expects [mode],
    so neither the hidden Markov model nor the Bayesian network is
    evaluated: whenever loading the data and assigning the parameters
    succeed, the result is [0.], whatever the data, the parameters, [log]
    and [mode] are. *)
Theorem bilateral_likelihood_is_zero
    (model float : Type) (zero one minus_inf : float)
    (DataFrame params : Type)
    (load_patient_data : DataFrame -> M model unit)
    (assign_params : params -> M model unit)
    (hmm_likelihood bn_likelihood : bool -> float -> M model float)
    (data : option DataFrame) (given_params : option params)
    (log : bool) (mode : string) (self self1 self2 : model) :
  match data with
  | Some d => load_patient_data d self = (Return (), self1)
  | None => self1 = self
  end ->
  match given_params with
  | Some ps => assign_params ps self1 = (Return (), self2)
  | None => self2 = self1
  end ->
  likelihood model float zero one minus_inf DataFrame params
    load_patient_data assign_params hmm_likelihood bn_likelihood
    data given_params log mode self
  = (Return zero, self2).
Proof.
  intros Hload Hassign. unfold likelihood, bindM.
  assert (Hfirst : match data with
                   | Some d => load_patient_data d
                   | None => retM ()
                   end self = (Return (), self1)).
  { destruct data; [exact Hload|]. by subst. }
  rewrite Hfirst. destruct given_params as [ps|].
  - rewrite Hassign. reflexivity.
  - subst. reflexivity.
Qed.

Lemma bilateral_likelihood_is_zero_witness :
  likelihood unit Q 0 1 (-1) unit unit
    (fun _ => retM ()) (fun _ => retM ())
    (fun _ _ => retM (2 # 3)) (fun _ _ => retM (1 # 3))
    (Some ()) (Some ()) false "HMM" ()
  = (Return 0, ()).
Proof.
  apply (bilateral_likelihood_is_zero unit Q 0 1 (-1) unit unit
           (fun _ => retM ()) (fun _ => retM ())
           (fun _ _ => retM (2 # 3)) (fun _ _ => retM (1 # 3))
           (Some ()) (Some ()) false "HMM" () () ()); reflexivity.
Defined.

End BilateralLikelihood.

(** ** The marginal log-likelihood without time distributions *)

Section MarginalDefault.

Import unilateral.

Variable np_linalg_inv : matrix -> result matrix.

(** [marginal_log_likelihood] called without [time_dists] never computes a
    likelihood.  With valid spread probabilities it writes them to the model
    and then raises: [AttributeError] when no T-stages are given,
    [IndexError] for an empty list of T-stages and [ValueError] for a list
    that is not empty. *)
Theorem marginal_log_likelihood_default (theta : list Q)
    (t_stages : option (list string)) (m : Unilateral) :
  length theta = length (spread_probs m) ->
  Forall (fun x => 0 <= x <= 1) theta ->
  exists m' : Unilateral,
    marginal_log_likelihood np_linalg_inv theta t_stages None m
    = (Raise match t_stages with
             | None => AttributeError
             | Some [] => IndexError
             | Some (_ :: _) => ValueError
             end, m') /\
    spread_probs m' = theta /\ _A m' = None.
Proof.
  intros Hlen Hvalid.
  destruct (set_spread_probs_spec theta m ltac:(lia))
    as (m' & Hset & HA & _ & _ & _ & Hsp).
  rewrite <- Hlen, firstn_all in Hsp.
  exists m'. split; [|done].
  unfold marginal_log_likelihood, log_likelihood, bindM at 1, getM.
  unfold bindM at 1, liftM at 1. rewrite (spread_probs_valid theta m Hlen Hvalid).
  cbn [negb]. unfold bindM at 1. rewrite Hset.
  rewrite decide_True by reflexivity.
  destruct t_stages as [[|stage stages]|]; [| |reflexivity].
  - unfold bindM at 1, retM at 1. cbn [from_option id].
    rewrite decide_False by (rewrite map_size_empty; cbn; lia).
    reflexivity.
  - unfold bindM at 1, retM at 1. cbn [from_option id].
    rewrite decide_True by (rewrite map_size_empty; cbn; lia).
    reflexivity.
Qed.

End MarginalDefault.

Section MarginalDefaultExamples.

Import unilateral.

Lemma marginal_log_likelihood_default_witness :
  exists m' : Unilateral,
    marginal_log_likelihood (fun _ => Raise LinAlgError)
      [1 # 2; 1 # 3; 1 # 4] (Some ["early"%string]) None example_model
    = (Raise ValueError, m') /\
    spread_probs m' = [1 # 2; 1 # 3; 1 # 4] /\ _A m' = None.
Proof.
  apply (marginal_log_likelihood_default (fun _ => Raise LinAlgError)
           [1 # 2; 1 # 3; 1 # 4] (Some ["early"%string]) example_model).
  - reflexivity.
  - repeat (apply List.Forall_cons; [split; unfold Qle; cbn; lia|]).
    apply List.Forall_nil.
Defined.

End MarginalDefaultExamples.

(** ** The transition tensor never lets a node recover *)

Section TransitionTensorMonotone.

(** For two or three states of parent and child and every combination of
    flags for which the tensor is returned, the probability of a transition
    of the child to a lower state is 0, and unless the edge comes from a
    tumor a healthy parent leaves the child as it is: the slice of parent
    state 0 is the identity matrix. *)
Theorem comp_transition_tensor_no_recovery
    (num_parent num_child : nat) (is_tumor_spread is_growth : bool)
    (spread_prob micro_mod : Q) :
  num_parent = 2%nat \/ num_parent = 3%nat ->
  num_child = 2%nat \/ num_child = 3%nat ->
  is_tumor_spread = true \/ is_growth = false \/ num_child = 3%nat ->
  exists T : helper.tensor,
    helper.comp_transition_tensor num_parent num_child
      is_tumor_spread is_growth spread_prob micro_mod = Return T /\
    (forall parent_state child_prev child_new : nat,
       (parent_state < num_parent)%nat -> (child_prev < num_child)%nat ->
       (child_new < child_prev)%nat ->
       (T !! parent_state ≫= (.!! child_prev)) ≫= (.!! child_new) = Some 0) /\
    (is_tumor_spread = false -> T !! 0%nat = Some (np_eye num_child)).
Proof.
  intros Hp Hc Hflags.
  destruct Hp as [-> | ->], Hc as [-> | ->], is_tumor_spread, is_growth;
    try (exfalso; destruct Hflags as [? | [? | ?]]; discriminate);
    (eexists; split; [reflexivity|]); (split; [|try discriminate; reflexivity]);
    intros ps cp cn Hps Hcp Hcn;
    (destruct ps as [|[|[|ps]]]; try lia);
    (destruct cp as [|[|[|cp]]]; try lia);
    (destruct cn as [|[|[|cn]]]; try lia); reflexivity.
Qed.

Lemma comp_transition_tensor_no_recovery_witness :
  exists T : helper.tensor,
    helper.comp_transition_tensor 3 3 false true (1 # 5) (1 # 2) = Return T /\
    (forall parent_state child_prev child_new : nat,
       (parent_state < 3)%nat -> (child_prev < 3)%nat ->
       (child_new < child_prev)%nat ->
       (T !! parent_state ≫= (.!! child_prev)) ≫= (.!! child_new) = Some 0) /\
    (false = false -> T !! 0%nat = Some (np_eye 3)).
Proof.
  apply (comp_transition_tensor_no_recovery 3 3 false true (1 # 5) (1 # 2)).
  - right. reflexivity.
  - right. reflexivity.
  - right. right. reflexivity.
Defined.

End TransitionTensorMonotone.

(** ** The risk of an involvement pattern *)

Section RiskInvolvement.

Import unilateral.

Variable np_linalg_inv : matrix -> result matrix.
Variable modality : string.
Variables a b c d : Q.

Let tab : matrix := [[a; b]; [c; d]].

Lemma involvement_loop (inv : list (option bool)) (todo : list (list Z)) :
  Forall (fun state => length state = length inv) todo ->
  forall (done_ : list (list Z)) (rest : list bool),
    length rest = length todo ->
    for_each (zip (seq (length done_) (length todo)) todo) (involvement_step inv)
      (map (fun state => forallb id (zip_with matches inv state)) done_ ++ rest)
    = Return (map (fun state => forallb id (zip_with matches inv state))
                (done_ ++ todo)).
Proof.
  induction todo as [|state todo IH]; intros Htodo done_ rest Hlen.
  - destruct rest; [|discriminate]. by rewrite !app_nil_r.
  - inversion Htodo as [|? ? Hst Htodo']; subst.
    destruct rest as [|r rest]; [discriminate|].
    assert (Hstep :
      involvement_step inv
        (map (fun s => forallb id (zip_with matches inv s)) done_ ++ r :: rest)
        (length done_, state)
      = Return (map (fun s => forallb id (zip_with matches inv s)) done_
                ++ forallb id (zip_with matches inv state) :: rest)).
    { unfold involvement_step. cbn [fst snd]. unfold np_all_equal_where_full.
      rewrite decide_True by done. cbn [mbind result_bind].
      unfold set_item. rewrite decide_True
        by (rewrite length_app, length_map; cbn [length]; lia).
      rewrite insert_app_r_alt by (by rewrite length_map).
      rewrite length_map, Nat.sub_diag. reflexivity. }
    cbn [length seq zip zip_with for_each]. rewrite Hstep.
    cbn [mbind result_bind].
    specialize (IH Htodo' (done_ ++ [state]) rest).
    rewrite length_app, map_app, <- !app_assoc in IH. cbn [length map app] in IH.
    replace (length done_ + 1)%nat with (S (length done_)) in IH by lia.
    apply IH. cbn [length] in Hlen. lia.
Qed.

(** The part of [risk] from the observation matrix to the vector [cZ @ pZX],
    followed by any continuation. *)
Lemma risk_chain (x : Unilateral) (pX : list Q) (bs : list bool) :
  _modality_tables x = Some [(modality, tab)] ->
  observations_current x -> observation_matrix_shaped x ->
  length pX = (2 ^ length (lnls x))%nat -> length bs = length (lnls x) ->
  exists (bm : matrix) (m' : Unilateral),
    let cZ := compatibility (all_observations 1 (length (lnls x))) (map Some bs) in
    let num := vec_mat (map b2q cZ)
                 (map (fun z => zip_with Qmult (column bm z) pX) (seq 0 (ncols bm))) in
    let pZ := vec_mat pX bm in
    (forall (R : Type) (k : list Q -> list Q -> list bool -> M Unilateral R),
       (b <~ B ;;
        pZX <~ liftM (if decide (length pX = length b)
                      then Return (map (fun z => zip_with Qmult (column b z) pX)
                                       (seq 0 (ncols b)))
                      else Raise ValueError) ;;
        b' <~ B ;;
        pZ <~ liftM (np_vec_mat pX b') ;;
        cZ <~ comp_encoding (map Some bs) (length pZ) ;;
        num <~ liftM (np_vec_mat (map b2q cZ) pZX) ;;
        k num pZ cZ) x
       = k num pZ cZ m') /\
    lnls m' = lnls x /\
    length num = (2 ^ length (lnls x))%nat /\
    Qsum num == dot (map b2q cZ) pZ.
Proof.
  intros Ht Hcur Hshape HpX Hbs.
  pose proof (pow2_pos (length (lnls x))) as Hpos.
  destruct (B_returns modality a b c d x Ht Hcur Hshape)
    as (bm & x' & HB & Hbm & HB' & Ht' & Hl' & Hcur').
  rewrite Nat.mul_1_l in Hbm.
  destruct (joint_rows_shape bm pX _ Hbm HpX Hpos) as (HlenP & HcolsP & HrowsP).
  assert (Hcols : ncols bm = (2 ^ length (lnls x))%nat).
  { destruct Hbm as [Hlen Hrows]. destruct bm as [|row bm]; [cbn in Hlen; lia|].
    cbn [ncols]. by inversion Hrows. }
  assert (HpZ : length (vec_mat pX bm) = (2 ^ (1 * length (lnls x')))%nat).
  { by rewrite vec_mat_length, Hcols, Hl', Nat.mul_1_l. }
  pose proof (comp_encoding_eq x' [(modality, tab)] (map Some bs) Ht' Hcur') as Henc.
  cbn [length] in Henc. rewrite <- HpZ in Henc.
  specialize (Henc ltac:(rewrite length_map, Hl'; lia)).
  rewrite Hl' in Henc.
  set (cZ := compatibility (all_observations 1 (length (lnls x))) (map Some bs))
    in *.
  assert (HcZ : length cZ = (2 ^ length (lnls x))%nat).
  { unfold cZ. by rewrite compatibility_length, all_observations_length,
      Nat.mul_1_l. }
  exists bm, (with_obs_list (Some (all_observations 1 (length (lnls x)))) x').
  cbv zeta. fold cZ. split; [|split; [|split]].
  - intros R k. rewrite (bindM_Return _ _ _ _ _ HB).
    rewrite decide_True by (destruct Hbm as [-> _]; done).
    unfold bindM at 1, liftM at 1.
    assert (HBc : B x' = (Return bm, x')) by (unfold B, bindM, getM; by rewrite HB').
    rewrite (bindM_Return _ _ _ _ _ HBc).
    unfold bindM at 1, liftM at 1, np_vec_mat.
    rewrite decide_True by (destruct Hbm as [-> _]; done).
    rewrite (bindM_Return _ _ _ _ _ Henc).
    unfold bindM, liftM.
    rewrite decide_True by (by rewrite length_map, HcZ, HlenP).
    reflexivity.
  - exact Hl'.
  - by rewrite vec_mat_length, HcolsP.
  - by apply (posterior_sum bm pX _ (2 ^ length (lnls x))).
Qed.

Lemma dot_all_true (states : list (list Z)) (inv : list (option bool))
    (res : list Q) :
  Forall (fun x => x = None) inv -> length res = length states ->
  dot (map b2q (compatibility states inv)) res == Qsum res.
Proof.
  intros Hinv. unfold compatibility. rewrite map_map.
  assert (Hone : forall state, b2q (forallb id (zip_with matches inv state)) = 1).
  { intros state.
    assert (Hall : forallb id (zip_with matches inv state) = true); [|by rewrite Hall].
    clear -Hinv. revert state.
    induction Hinv as [|p inv -> _ IH]; intros [|v state]; try reflexivity.
    cbn [zip_with forallb matches id andb]. apply IH. }
  revert res. induction states as [|state states IH]; intros [|r res] Hlen;
    try discriminate; [reflexivity|].
  cbn [map]. rewrite dot_cons, Qsum_cons, Hone, IH by (cbn in Hlen; lia). ring.
Qed.

(** On a model with exactly one modality, whose stored observation list, if
    any, is the one of this modality and whose stored observation matrix, if
    any, has one row per state and one column per complete observation of
    this modality (the [modalities] setter discards neither), and for a
    complete diagnosis of that modality and valid arguments (no new spread
    probabilities, the stored transition matrix then being absent or the one
    of the current parameters, or at least one new spread probability per
    edge; mode HMM with a non-negative diagnose time or a non-empty time
    distribution, or mode BN): [risk] with an involvement pattern [inv] of
    one entry per LNL returns the sum of the entries of the posterior (the
    vector [risk] returns without [inv]) over the states that agree with the
    entries of [inv] that are not [None], and no number where the division
    by the probability of the diagnosis gave none.  For a pattern of [None]
    only, the risk is 1. *)
Theorem risk_involvement (m : Unilateral)
    (spread_probs : option (list Q)) (inv : list (option bool))
    (diagnoses : gmap string (list (option bool))) (bs : list bool)
    (diag_time : option Z) (time_dist : option (list Q)) (mode : string) :
  _modality_tables m = Some [(modality, tab)] ->
  observations_current m -> observation_matrix_shaped m ->
  match spread_probs with
  | Some sp => (length (unilateral.spread_probs m) <= length sp)%nat
  | None => matrix_current m
  end ->
  diagnoses !! modality = Some (map Some bs) -> length bs = length (lnls m) ->
  (mode = "HMM"%string /\
   match diag_time, time_dist with
   | Some t, _ => (0 <= t)%Z
   | None, Some td => td <> []
   | None, None => False
   end) \/ mode = "BN"%string ->
  length inv = length (lnls m) ->
  exists (posterior : option (list Q)) (m1 m2 : Unilateral),
    risk np_linalg_inv spread_probs None diagnoses diag_time time_dist mode m
    = (Return posterior, m1) /\
    risk np_linalg_inv spread_probs (Some inv) diagnoses diag_time time_dist mode m
    = (Return ((fun res =>
                  dot (map b2q (compatibility (all_states (length (lnls m))) inv)) res)
               <$> posterior), m2) /\
    forall res : list Q,
      posterior = Some res -> Forall (fun x => x = None) inv ->
      dot (map b2q (compatibility (all_states (length (lnls m))) inv)) res == 1.
Proof.
  intros Ht Hcur Hshape Hsp Hdiag Hbs Hmode Hinv.
  (* the spread probabilities *)
  assert (Hset : exists m1,
            (match spread_probs with
             | Some sp => set_spread_probs sp
             | None => retM ()
             end) m = (Return (), m1) /\
            matrix_current m1 /\ same_diagnostics m m1).
  { destruct spread_probs as [sp|].
    - by apply set_spread_probs_frame.
    - exists m. split; [reflexivity|]. split; [done|]. apply same_diagnostics_refl. }
  destruct Hset as (m1 & Hset & HA1 & Hsame1).
  destruct (same_diagnostics_invariant m m1 _ Hsame1 Ht Hcur Hshape)
    as (Ht1 & Hcur1 & Hshape1 & Hl1).
  (* the distribution over the hidden states *)
  assert (HpX : exists pX m2,
            (if decide (mode = "HMM"%string) then
               match diag_time, time_dist with
               | Some diag_time, _ => _evolve np_linalg_inv diag_time None
               | None, Some time_dist =>
                   let max_t := Z.of_nat (length time_dist) in
                   state_probs <~ _evolve np_linalg_inv 0 (Some (max_t - 1)%Z) ;;
                   liftM (np_vec_mat time_dist state_probs)
               | None, None => raiseM ValueError
               end
             else if decide (mode = "BN"%string) then bn_state_probs
             else (_ <~ B ;; raiseM UnboundLocalError)) m1 = (Return pX, m2) /\
            length pX = (2 ^ length (lnls m1))%nat /\ same_diagnostics m1 m2).
  { destruct Hmode as [[-> Htime] | ->].
    - rewrite decide_True by reflexivity.
      destruct diag_time as [t|]; [|destruct time_dist as [td|]; [|done]].
      + destruct (evolve_returns_frame np_linalg_inv t m1 Htime HA1)
          as (v & m2 & Hev & Hlen & _ & Hsame).
        by exists v, m2.
      + destruct (evolve_range_returns np_linalg_inv 0 (Z.of_nat (length td) - 1) m1)
          as (sp & m2 & Hev & [Hlen Hrows] & _ & Hsame); [|done|].
        { destruct td; [done|]. cbn [length]. lia. }
        exists (vec_mat td sp), m2. cbv zeta.
        rewrite (bindM_Return _ _ _ _ _ Hev). unfold liftM, np_vec_mat.
        assert (Hsp' : length sp = length td).
        { rewrite Hlen. destruct td; [done|]. cbn [length]. lia. }
        rewrite decide_True by done. split; [reflexivity|]. split; [|done].
        rewrite vec_mat_length. destruct sp as [|row sp].
        * destruct td; [done|discriminate].
        * cbn [ncols]. by inversion Hrows.
    - rewrite decide_False by discriminate. rewrite decide_True by reflexivity.
      destruct (bn_state_probs_returns m1) as (v & m2 & Hbn & Hlen & Hsame).
      by exists v, m2. }
  destruct HpX as (pX & m2 & HpX & HlenpX & Hsame2).
  destruct (same_diagnostics_invariant m1 m2 _ Hsame2 Ht1 Hcur1 Hshape1)
    as (Ht2 & Hcur2 & Hshape2 & Hl2).
  rewrite <- Hl2 in HlenpX.
  destruct (risk_chain m2 pX bs Ht2 Hcur2 Hshape2 HlenpX ltac:(by rewrite Hl2, Hl1))
    as (bm & m' & Hchain). cbv zeta in Hchain.
  destruct Hchain as (Hchain & Hl' & Hnum & Hsum).
  set (cZ := compatibility (all_observations 1 (length (lnls m2))) (map Some bs)) in *.
  set (num := vec_mat (map b2q cZ)
                (map (fun z => zip_with Qmult (column bm z) pX) (seq 0 (ncols bm))))
    in *.
  set (den := dot (map b2q cZ) (vec_mat pX bm)) in *.
  assert (HL : length (lnls m') = length (lnls m)) by (by rewrite Hl', Hl2, Hl1).
  exists (np_divide num den), m', m'. split; [|split].
  - unfold risk. rewrite (bindM_Return _ _ _ _ _ Hset).
    unfold bindM at 1, modality_tables, bindM at 1, getM. rewrite Ht1.
    unfold retM at 1. unfold bindM at 1, getM.
    rewrite (bindM_Return _ _ _ _ _ HpX).
    rewrite (diagnose_vector_single _ _ _ _ _ Hdiag).
    apply (Hchain _ (fun num pZ cZ => retM (np_divide num (dot (map b2q cZ) pZ)))).
  - unfold risk. rewrite (bindM_Return _ _ _ _ _ Hset).
    unfold bindM at 1, modality_tables, bindM at 1, getM. rewrite Ht1.
    unfold retM at 1. unfold bindM at 1, getM.
    rewrite (bindM_Return _ _ _ _ _ HpX).
    rewrite (diagnose_vector_single _ _ _ _ _ Hdiag).
    etransitivity.
    { apply (Hchain _ (fun num pZ cZ =>
        m' <~ getM ;;
        sl <~ liftM (state_list m') ;;
        cX <~ liftM (for_each (enumerate sl) (involvement_step inv)
                       (replicate (length num) false)) ;;
        match np_divide num (dot (map b2q cZ) pZ) with
        | None => retM None
        | Some res =>
            if decide (length cX = length res)
            then retM (Some (dot (map b2q cX) res))
            else raiseM ValueError
        end)). }
    fold num den. unfold bindM at 1, getM.
    unfold bindM at 1, liftM at 1. rewrite state_list_eq, HL.
    pose proof (involvement_loop inv (all_states (length (lnls m)))) as Hloop.
    assert (Hall : Forall (fun state => length state = length inv)
                     (all_states (length (lnls m)))).
    { apply Forall_forall. intros state Hs.
      apply all_states_elem in Hs as [-> _]. by rewrite Hinv. }
    specialize (Hloop Hall [] (replicate (length num) false)).
    rewrite length_replicate, all_states_length, Hnum, Hl2, Hl1 in Hloop.
    specialize (Hloop eq_refl). cbn [length map app] in Hloop.
    unfold bindM at 1, liftM at 1, enumerate.
    rewrite all_states_length. rewrite Hnum, Hl2, Hl1. rewrite Hloop.
    fold (compatibility (all_states (length (lnls m))) inv).
    unfold np_divide. destruct (Qeq_bool den 0); [reflexivity|].
    rewrite decide_True.
    + reflexivity.
    + by rewrite compatibility_length, all_states_length, length_map, Hnum, Hl2, Hl1.
  - intros res Hres Hnone.
    destruct (np_divide_sum num den res Hsum Hres) as [Hlen Hone].
    rewrite dot_all_true; [exact Hone|exact Hnone|].
    by rewrite Hlen, Hnum, all_states_length, Hl2, Hl1.
Qed.

End RiskInvolvement.

Section RiskInvolvementExamples.

Import unilateral.

Lemma risk_involvement_witness :
  exists (posterior : option (list Q)) (m1 m2 : Unilateral),
    risk (fun _ => Raise LinAlgError) None None
      {["CT"%string := [Some true; Some false]]} (Some 2%Z) None "HMM"
      example_diagnosed_model
    = (Return posterior, m1) /\
    risk (fun _ => Raise LinAlgError) None (Some [None; Some true])
      {["CT"%string := [Some true; Some false]]} (Some 2%Z) None "HMM"
      example_diagnosed_model
    = (Return ((fun res =>
                  dot (map b2q
                         (compatibility
                            (all_states (length (lnls example_diagnosed_model)))
                            [None; Some true])) res)
               <$> posterior), m2) /\
    forall res : list Q,
      posterior = Some res -> Forall (fun x => x = None) [None; Some true] ->
      dot (map b2q
             (compatibility (all_states (length (lnls example_diagnosed_model)))
                [None; Some true])) res == 1.
Proof.
  apply (risk_involvement (fun _ => Raise LinAlgError) "CT"
           (4 # 5) (1 - (9 # 10)) (1 - (4 # 5)) (9 # 10)
           example_diagnosed_model None [None; Some true]
           {["CT"%string := [Some true; Some false]]} [true; false]
           (Some 2%Z) None "HMM").
  - reflexivity.
  - left. reflexivity.
  - exact I.
  - left. reflexivity.
  - reflexivity.
  - reflexivity.
  - left. split; [reflexivity|]. lia.
  - reflexivity.
Defined.

End RiskInvolvementExamples.

(** ** The graph of a model *)

Section GetGraph.

Import unilateral.

Lemma py_dict_distinct {V : Type} (res : list (string * V)) :
  NoDup (map fst res) -> py_dict res = res.
Proof.
  unfold py_dict.
  assert (Hgen : forall d : list (string * V),
    NoDup (map fst (d ++ res)) ->
    foldl (fun d kv =>
             if bool_decide (kv.1 ∈ map fst d)
             then map (fun x => if bool_decide (x.1 = kv.1) then (x.1, kv.2) else x) d
             else d ++ [kv]) d res = d ++ res).
  { induction res as [|kv res IH]; intros d Hnd; [by rewrite app_nil_r|].
    cbn [foldl]. rewrite bool_decide_eq_false_2.
    - rewrite IH by (by rewrite <- app_assoc). by rewrite <- app_assoc.
    - rewrite map_app in Hnd. apply NoDup_app in Hnd as (_ & Hdisj & _).
      intros Hin. apply (Hdisj _ Hin). left. }
  intros Hnd. by apply (Hgen []).
Qed.

Lemma find_node_position (ns : list Node) (i : nat) (n : Node) :
  NoDup (map name ns) -> ns !! i = Some n -> find_node ns (name n) = Some i.
Proof.
  intros Hnd Hi. unfold find_node.
  destruct (list_find (fun x => name x = name n) ns) as [[j x]|] eqn:E.
  - apply list_find_Some in E as (Hj & Hname & _). cbn. f_equal.
    apply (NoDup_lookup (map name ns) j i (name n)); [done| |].
    + by rewrite list_lookup_fmap, Hj, <- Hname.
    + by rewrite list_lookup_fmap, Hi.
  - apply list_find_None in E. exfalso.
    apply (proj1 (Forall_forall _ _) E n); [|done]. by eapply list_elem_of_lookup_2.
Qed.

Lemma find_node_known (ns : list Node) (nm : string) :
  NoDup (map name ns) -> nm ∈ map name ns ->
  exists i n, find_node ns nm = Some i /\ ns !! i = Some n /\ name n = nm.
Proof.
  intros Hnd Hin. apply list_elem_of_fmap in Hin as (n & -> & Hn).
  apply list_elem_of_lookup in Hn as [i Hi].
  exists i, n. split; [by apply find_node_position|done].
Qed.

Lemma flat_map_none {A B : Type} (p : A -> bool) (g : A -> list B) (l : list A) :
  Forall (fun x => p x = false) l ->
  flat_map (fun x => if p x then g x else []) l = [].
Proof.
  induction 1 as [|x l Hx Hl IH]; [reflexivity|].
  cbn [flat_map]. by rewrite Hx, IH.
Qed.

Lemma filter_edges_of_graph (idx : string -> nat) (i : nat) (graph : graph_dict) :
  List.filter (fun e => Nat.eqb (start e) i)
    (map (fun '(key, value) => mkEdge (idx key) (idx value) 0)
       (flat_map (fun kv => map (fun value => (kv.1.2, value)) kv.2) graph))
  = flat_map (fun kv => if Nat.eqb (idx kv.1.2) i
                        then map (fun value => mkEdge (idx kv.1.2) (idx value) 0) kv.2
                        else []) graph.
Proof.
  induction graph as [|kv graph IH]; [reflexivity|].
  cbn [flat_map]. rewrite map_app, List.filter_app, IH. f_equal.
  rewrite map_map. generalize (kv.2). intros conns.
  induction conns as [|v conns IHc]; [by destruct (Nat.eqb _ _)|].
  cbn [map List.filter start]. rewrite IHc. by destruct (Nat.eqb _ _).
Qed.

(** The constructor and [get_graph]: for a graph in which no two nodes share
    a name and every connection names a node of the graph, the constructor
    returns a model, and [get_graph] returns for every node, in the order of
    the graph, its name with the list of connections that was given; the
    kind of the node is not part of the key any more. *)
Theorem get_graph_after_init (graph : graph_dict) :
  NoDup (map (fun kv => kv.1.2) graph) ->
  Forall (fun kv => Forall (fun value => value ∈ map (fun kv => kv.1.2) graph) kv.2)
         graph ->
  exists m : Unilateral,
    __init__ graph = Return m /\
    get_graph m = map (fun kv => (kv.1.2, kv.2)) graph /\
    length (list_edges m) = length (flat_map snd graph).
Proof.
  intros Hnd Hconn. unfold graph_dict in *.
  set (ns := map (fun kv => new_Node (snd (fst kv)) (fst (fst kv))) graph).
  assert (Hnames : map name ns = map (fun kv => kv.1.2) graph).
  { unfold ns. rewrite map_map. apply map_ext. by intros [[ty nm] conns]. }
  assert (Hnd' : NoDup (map name ns)) by (by rewrite Hnames).
  set (idx := fun nm => default 0%nat (find_node ns nm)).
  assert (Hidx : forall (i : nat) (kv : (NodeTyp * string) * list string),
            graph !! i = Some kv ->
            find_node ns kv.1.2 = Some i /\ idx kv.1.2 = i).
  { intros i kv Hi.
    assert (Hn : ns !! i = Some (new_Node kv.1.2 kv.1.1))
      by (unfold ns; rewrite list_lookup_fmap; by rewrite Hi).
    pose proof (find_node_position ns i _ Hnd' Hn) as Hf.
    change (name (new_Node kv.1.2 kv.1.1)) with (kv.1.2) in Hf.
    split; [done|]. unfold idx. by rewrite Hf. }
  assert (Hval : forall value, value ∈ map (fun kv => kv.1.2) graph ->
            exists n, find_node ns value = Some (idx value) /\
                      ns !! idx value = Some n /\ name n = value).
  { intros value Hin. rewrite <- Hnames in Hin.
    destruct (find_node_known ns value Hnd' Hin) as (i & n & Hf & Hi & Hn).
    exists n. unfold idx. by rewrite Hf. }
  set (pairs := flat_map (fun kv => map (fun value => (kv.1.2, value)) kv.2) graph).
  assert (Hedges :
    map_result (fun '(key, value) => new_Edge (find_node ns key) (find_node ns value))
      pairs
    = Return (map (fun '(key, value) => mkEdge (idx key) (idx value) 0) pairs)).
  { apply map_result_Return. intros [key value] Hin.
    apply list_elem_of_In, in_flat_map in Hin as (kv & Hkv & Hin).
    apply in_map_iff in Hin as (v & [= <- <-] & Hv).
    apply list_elem_of_In, list_elem_of_lookup in Hkv as [i Hi].
    destruct (Hidx i kv Hi) as [Hf Hi']. rewrite Hf, Hi'.
    pose proof (proj1 (Forall_forall _ _) Hconn kv
                  (list_elem_of_lookup_2 _ _ _ Hi)) as Hvals.
    apply list_elem_of_In in Hv.
    destruct (Hval v (proj1 (Forall_forall _ _) Hvals v Hv)) as (n & -> & _).
    reflexivity. }
  eexists. split; [|split].
  - unfold __init__. fold ns. fold pairs. rewrite Hedges. reflexivity.
  - unfold get_graph. cbn [nodes edges]. rewrite py_dict_distinct.
    + apply list_eq. intros i. rewrite !list_lookup_fmap.
      assert (Hlen : length ns = length graph) by (unfold ns; apply length_map).
      rewrite Hlen.
      destruct (graph !! i) as [kv|] eqn:Hi.
      * rewrite lookup_seq_lt by (by eapply lookup_lt_Some).
        cbn [fmap option_fmap option_map Nat.add]. f_equal.
        destruct (Hidx i kv Hi) as [Hf Hi'].
        unfold node_name, out. cbn [nodes edges].
        assert (Hn : ns !! i = Some (new_Node kv.1.2 kv.1.1))
          by (unfold ns; by rewrite list_lookup_fmap, Hi).
        rewrite Hn. cbn [fmap option_fmap option_map from_option id name new_Node].
        f_equal. unfold pairs. rewrite filter_edges_of_graph.
        pose proof (list_elem_of_split_length _ _ _ Hi) as (l1 & l2 & Hsplit & Hl1).
        rewrite Hsplit at 1. rewrite flat_map_app. cbn [flat_map].
        rewrite (flat_map_none (fun kv' => Nat.eqb (idx kv'.1.2) i)).
        2:{ apply Forall_forall. intros kv' Hin.
            apply list_elem_of_lookup in Hin as [j Hj].
            destruct (Hidx j kv') as [_ ->].
            { rewrite Hsplit. by rewrite lookup_app_l by (by eapply lookup_lt_Some). }
            apply Nat.eqb_neq. apply lookup_lt_Some in Hj. lia. }
        rewrite (flat_map_none (fun kv' => Nat.eqb (idx kv'.1.2) i)).
        2:{ apply Forall_forall. intros kv' Hin.
            apply list_elem_of_lookup in Hin as [j Hj].
            destruct (Hidx (length l1 + S j)%nat kv') as [_ ->].
            { rewrite Hsplit. rewrite lookup_app_r by lia.
              by replace (length l1 + S j - length l1)%nat with (S j) by lia. }
            apply Nat.eqb_neq. lia. }
        rewrite Hi', Nat.eqb_refl, app_nil_r. cbn [app]. rewrite map_map.
        cbn [end_].
        pose proof (proj1 (Forall_forall _ _) Hconn kv) as Hvals.
        specialize (Hvals (list_elem_of_lookup_2 _ _ _ Hi)).
        clear -Hvals Hval. induction Hvals as [|v conns Hv Hvals IH]; [reflexivity|].
        cbn [map]. rewrite IH. f_equal.
        destruct (Hval v Hv) as (n & _ & -> & Hname). exact Hname.
      * rewrite lookup_seq_ge by (by apply lookup_ge_None). reflexivity.
    + rewrite map_map. cbn [fst].
      assert (Hkeys : map (fun node => node_name
                             (mkUnilateral ns
                                (map (fun '(key, value) => mkEdge (idx key) (idx value) 0)
                                   pairs) None None None None None None) node)
                        (seq 0 (length ns)) = map name ns).
      { apply list_eq. intros i. rewrite !list_lookup_fmap.
        destruct (ns !! i) as [n|] eqn:Hn.
        - rewrite lookup_seq_lt by (by eapply lookup_lt_Some).
          cbn [fmap option_fmap option_map Nat.add]. unfold node_name. cbn [nodes].
          by rewrite Hn.
        - rewrite lookup_seq_ge by (by apply lookup_ge_None). reflexivity. }
      rewrite Hkeys. exact Hnd'.
  - unfold list_edges. cbn [edges]. rewrite !length_map. unfold pairs.
    clear. induction graph as [|kv graph IH]; [reflexivity|].
    cbn [flat_map]. by rewrite !length_app, length_map, IH.
Qed.

Lemma get_graph_after_init_witness :
  exists m : Unilateral,
    __init__ example_graph = Return m /\
    get_graph m = map (fun kv => (kv.1.2, kv.2)) example_graph /\
    length (list_edges m) = length (flat_map snd example_graph).
Proof.
  apply (get_graph_after_init example_graph).
  - apply (bool_decide_unpack _). vm_compute. exact I.
  - apply (bool_decide_unpack _). vm_compute. exact I.
Defined.

End GetGraph.

(** ** [BilateralSystem.set_theta] in mode HMM *)

Section BilateralGenA.

Import system.

Variable unilateral_edges : nat.
Variable System_fill : list Q -> M BilateralSystem unit.
Variables store_A_i store_A_c super_gen_A : M BilateralSystem unit.

Lemma get_theta_list_length (order : string) (s : BilateralSystem) (theta : list Q) :
  get_theta_list order s = Return theta ->
  length theta
  = length (ipsi_base s ++ contra_base s ++ ipsi_trans s ++ contra_trans s).
Proof.
  unfold get_theta_list. intros H.
  destruct (decide (order = "by_side"%string));
    [|destruct (decide (order = "by_type"%string)); [|discriminate]];
    cbn [mbind result_bind] in H; injection H as <-;
    rewrite !length_app, !length_map; lia.
Qed.

Lemma gen_A_raises (s : BilateralSystem) :
  length (ipsi_base s ++ contra_base s ++ ipsi_trans s ++ contra_trans s)
  = length (edges s) ->
  length (edges s) = (2 * unilateral_edges)%nat -> (0 < unilateral_edges)%nat ->
  _gen_A true unilateral_edges System_fill store_A_i store_A_c super_gen_A s
  = (Raise ValueError, s).
Proof.
  intros Hblocks Hedges Hpos. unfold _gen_A, bindM at 1, getM.
  unfold bindM at 1, liftM at 1.
  destruct (get_theta_list "by_side" s) as [theta|e] eqn:Hget.
  2:{ unfold get_theta_list in Hget. rewrite decide_True in Hget by done.
      discriminate. }
  pose proof (get_theta_list_length _ _ _ Hget) as Hlen.
  unfold bindM at 1, System_set_theta at 1.
  rewrite decide_True; [reflexivity|].
  rewrite length_take. lia.
Qed.

Lemma set_theta_blocks (gen : M BilateralSystem unit) (theta : list Q)
    (mode : string) (s : BilateralSystem) :
  length theta
  = length (ipsi_base s ++ contra_base s ++ ipsi_trans s ++ contra_trans s) ->
  set_theta gen theta false false mode s
  = (if decide (mode = "HMM"%string) then gen else retM ())
      (mkBilateralSystem
         (written (zip (ipsi_base s ++ contra_base s ++ ipsi_trans s ++ contra_trans s)
                       theta) (edges s))
         (ipsi_base s) (ipsi_trans s) (contra_base s) (contra_trans s)).
Proof.
  intros Hlen. rewrite !length_app in Hlen.
  set (ib := ipsi_base s) in *. set (cb := contra_base s) in *.
  set (it := ipsi_trans s) in *. set (ct := contra_trans s) in *.
  unfold set_theta, bindM at 1, getM. cbv zeta. fold ib cb it ct.
  unfold bindM at 1. unfold bindM at 1.
  rewrite (set_block_eq ib theta 0 s) by lia.
  rewrite set_block_eq by (cbn [edges Nat.add]; lia).
  unfold bindM at 1. unfold bindM at 1.
  rewrite set_block_eq by (cbn [edges Nat.add]; lia).
  rewrite set_block_eq by (cbn [edges Nat.add]; lia).
  cbn [edges ipsi_base ipsi_trans contra_base contra_trans Nat.add].
  f_equal. f_equal. rewrite <- !written_app, drop_0. f_equal.
  rewrite <- (take_drop (length ib) theta) at 5.
  rewrite zip_with_app by (rewrite length_take; lia).
  rewrite zip_with_take_r by lia. f_equal.
  rewrite <- (take_drop (length cb) (drop (length ib) theta)) at 2.
  rewrite zip_with_app by (rewrite length_take, length_drop; lia).
  rewrite zip_with_take_r by (rewrite length_drop; lia).
  rewrite drop_drop. f_equal.
  rewrite <- (take_drop (length it) (drop (length ib + length cb) theta)) at 2.
  rewrite zip_with_app by (rewrite length_take, length_drop; lia).
  rewrite zip_with_take_r by (rewrite length_drop; lia).
  rewrite drop_drop. f_equal.
Qed.

(** A bilateral system without cross-connections keeps the system of one
    side, which has half as many edges.  [set_theta] in mode HMM (the
    default) then writes [theta] to the edges and raises [ValueError]:
    [_gen_A] hands all probabilities at once to the unilateral system, which
    refuses a vector that is longer than its list of edges. *)
Theorem set_theta_hmm_raises (theta : list Q) (s : BilateralSystem) :
  NoDup (ipsi_base s ++ contra_base s ++ ipsi_trans s ++ contra_trans s) ->
  length theta
  = length (ipsi_base s ++ contra_base s ++ ipsi_trans s ++ contra_trans s) ->
  Forall (fun e => (e < length (edges s))%nat)
         (ipsi_base s ++ contra_base s ++ ipsi_trans s ++ contra_trans s) ->
  length (ipsi_base s ++ contra_base s ++ ipsi_trans s ++ contra_trans s)
  = length (edges s) ->
  length (edges s) = (2 * unilateral_edges)%nat -> (0 < unilateral_edges)%nat ->
  exists s' : BilateralSystem,
    set_theta
      (_gen_A true unilateral_edges System_fill store_A_i store_A_c super_gen_A)
      theta false false "HMM" s
    = (Raise ValueError, s') /\
    get_theta_list "by_type" s' = Return theta.
Proof.
  intros Hnd Hlen Hrange Hblocks Hedges Hpos.
  rewrite set_theta_blocks by done. rewrite decide_True by reflexivity.
  eexists. split.
  - apply gen_A_raises; cbn [edges ipsi_base ipsi_trans contra_base contra_trans];
      rewrite ?written_length; done.
  - pose proof (written_block _ theta (edges s) Hnd Hlen Hrange) as Hall.
    unfold get_theta_list. rewrite decide_False by discriminate.
    rewrite decide_True by done.
    cbn [mbind result_bind ipsi_base ipsi_trans contra_base contra_trans].
    f_equal. rewrite <- !app_assoc, <- !map_app. exact Hall.
Qed.

End BilateralGenA.

Section BilateralGenAExamples.

Import system.

Lemma set_theta_hmm_raises_witness :
  exists s' : BilateralSystem,
    set_theta (_gen_A true 2 (fun _ => retM ()) (retM ()) (retM ()) (retM ()))
      [1 # 2; 1 # 3; 1 # 4; 1 # 5] false false "HMM"
      (mkBilateralSystem
         [unilateral.mkEdge 0 1 0; unilateral.mkEdge 0 3 0;
          unilateral.mkEdge 1 2 0; unilateral.mkEdge 3 4 0]
         [0%nat] [2%nat] [1%nat] [3%nat])
    = (Raise ValueError, s') /\
    get_theta_list "by_type" s' = Return [1 # 2; 1 # 3; 1 # 4; 1 # 5].
Proof.
  apply (set_theta_hmm_raises 2 (fun _ => retM ()) (retM ()) (retM ()) (retM ())
           [1 # 2; 1 # 3; 1 # 4; 1 # 5]
           (mkBilateralSystem
              [unilateral.mkEdge 0 1 0; unilateral.mkEdge 0 3 0;
               unilateral.mkEdge 1 2 0; unilateral.mkEdge 3 4 0]
              [0%nat] [2%nat] [1%nat] [3%nat])).
  - apply (bool_decide_unpack _). vm_compute. exact I.
  - reflexivity.
  - cbn. repeat constructor; lia.
  - reflexivity.
  - reflexivity.
  - lia.
Defined.

End BilateralGenAExamples.
